(** * Bubbleprof layout: node allocation and scale

    A shallow embedding of [visualizer/layout/node-allocation.js] and of the
    scale queries exercised by the layout-scale test file.

    Conventions of the embedding.

    - JavaScript numbers are idealised as real numbers: rounding and
      overflow are not modelled.  Every number the allocation stores is
      finite; the only non-finite values the code can see come from a
      division by zero, from a property that is still [undefined], or from
      the external line geometry, and each of them is handed to a validator
      before it is stored.  Such values are of type [number], whose
      constructor [NotFinite] stands for NaN and the two infinities.
    - A JavaScript [Map] is an association list in insertion order
      ([jsmap]): the iteration order of [values()] is observable in the
      code.
    - Node objects are identified by their [id]; the data set holds one
      node object per id, so a [Map] keyed by node objects is keyed by ids.
    - A thrown exception is the [Err] result; the two kinds that the code
      can raise are kept apart.
    - The external collaborators (stems, line geometry, validators, scale)
      are not in the sources at hand: stems are records of the values that
      the allocation reads, the line geometry is an interface, and the
      validators and the scale queries follow the specification. *)

From Stdlib Require Import String Reals Lra ZArith Arith Lia Bool List Permutation Sorted.
Import ListNotations.

Local Open Scope R_scope.

(** ** Numbers *)

Inductive number : Type :=
| Finite (r : R)
| NotFinite.

Definition Rltb (a b : R) : bool := if Rlt_dec a b then true else false.
Definition Rleb (a b : R) : bool := if Rle_dec a b then true else false.
Definition Reqb (a b : R) : bool := if Req_dec_T a b then true else false.

(** [a / b] on finite operands: a zero divisor gives NaN or an infinity. *)
Definition jsdiv (a b : R) : number :=
  if Reqb b 0 then NotFinite else Finite (a / b).

(** [a * b] where either operand may already be non-finite. *)
Definition jsmul (a b : number) : number :=
  match a, b with
  | Finite x, Finite y => Finite (x * y)
  | _, _ => NotFinite
  end.

(** ** Results *)

Inductive error : Type :=
| TypeError
| ValidationError.

Inductive result (A : Type) : Type :=
| Ok (a : A)
| Err (e : error).

Arguments Ok {A} a.
Arguments Err {A} e.

Definition bind {A B : Type} (m : result A) (f : A -> result B) : result B :=
  match m with
  | Ok a => f a
  | Err e => Err e
  end.

Declare Scope result_scope.
Delimit Scope result_scope with result.
Notation "x <- m ;; k" := (bind m (fun x => k))
  (at level 61, m at next level, right associativity) : result_scope.
Notation "' pat <- m ;; k" := (bind m (fun x => match x with pat => k end))
  (at level 61, pat pattern, m at next level, right associativity) : result_scope.
Local Open Scope result_scope.

(** Reading a property of [undefined] throws. *)
Definition deref {A : Type} (o : option A) : result A :=
  match o with
  | Some a => Ok a
  | None => Err TypeError
  end.

(** Modelled from the spec: [validation.js] and the node method
    [validateStat] are not under src/.  The validator returns its argument,
    or signals a validation failure when the value is not finite, or when
    [aboveZero] is requested and the value is not strictly positive. *)
Definition validateNumber (num : number) (aboveZero : bool) : result R :=
  match num with
  | NotFinite => Err ValidationError
  | Finite r => if aboveZero && Rleb r 0 then Err ValidationError else Ok r
  end.

Definition validateStat (num : number) (aboveZero : bool) : result R :=
  validateNumber num aboveZero.

(** ** JavaScript maps *)

Section JsMap.
Context {V : Type}.

Definition jsmap : Type := list (nat * V).

Fixpoint mget (k : nat) (m : jsmap) : option V :=
  match m with
  | [] => None
  | (k', v) :: rest => if Nat.eqb k k' then Some v else mget k rest
  end.

Definition mhas (k : nat) (m : jsmap) : bool :=
  match mget k m with Some _ => true | None => false end.

(** [set] keeps the position of a key that is present and appends a new
    one. *)
Fixpoint mset (k : nat) (v : V) (m : jsmap) : jsmap :=
  match m with
  | [] => [(k, v)]
  | (k', v') :: rest =>
      if Nat.eqb k k' then (k, v) :: rest else (k', v') :: mset k v rest
  end.

Definition mkeys (m : jsmap) : list nat := map fst m.
Definition mvalues (m : jsmap) : list V := map snd m.
End JsMap.

Arguments jsmap V : clear implicits.

(** ** Data model *)

Record Node : Type := mkNode {
  node_id : nat;
  node_parentId : nat;
  node_children : list nat
}.

(** The stem of a layout node, read through its external contract.  The
    scale of a run is fixed, so [getTotalStemLength(scale).combined] and
    the two components of [getScaled(scale)] are fields. *)
Record Stem : Type := mkStem {
  totalStemLength_combined : R;
  ownDiameter : R;
  ownBetween : R;
  ancestors_ids : list nat;
  leaves_ids : list nat
}.

(** A layout node, with the fields that the allocation reads.  The
    position record that the constructor hangs on a layout node
    ([layoutNode.position]) is the record kept for its node in
    [nodeToPosition]: the allocation reads and writes it through that map
    only, and so does the model; the layout node has no field for it. *)
#[local] Unset Elimination Schemes.
Inductive LayoutNode : Type := mkLayoutNode {
  node : Node;
  stem : Stem;
  parent : option LayoutNode
}.
#[local] Set Elimination Schemes.

Module Position.
Record t : Type := mk {
  units : R;
  offset : option R;
  x : R;
  y : R
}.
Definition set_units (u : R) (p : t) : t := mk u (offset p) (x p) (y p).
Definition set_offset (o : R) (p : t) : t := mk (units p) (Some o) (x p) (y p).
Definition set_x (v : R) (p : t) : t := mk (units p) (offset p) v (y p).
Definition set_y (v : R) (p : t) : t := mk (units p) (offset p) (x p) v.
End Position.

Record Settings : Type := mkSettings {
  svgWidth : R;
  svgHeight : R;
  svgDistanceFromEdge : R
}.

(** ** Scale *)

Module Scale.

Inductive category : Type :=
| shortest
| longest
| diameter_clamp
| q25_triangle
| q50_triangle
| q75_triangle.

Record ScaleWeight : Type := mkWeight {
  weight_category : category;
  weight_scaleFactor : R
}.

Record t : Type := mk {
  decisiveWeight : ScaleWeight;
  scaleFactor : R;
  finalSvgHeight : R
}.

(** Modelled from the spec: [scale.js] is not under src/.  The two queries
    of the scale, as the spec gives them and as the tests compute them. *)
Definition getLineLength (sc : t) (n : R) : R := n * scaleFactor sc.

Definition getCircleRadius (sc : t) (n : R) : R :=
  getLineLength sc n / (2 * PI).

End Scale.

(** ** Layout and line geometry *)

Record Layout : Type := mkLayout {
  settings : Settings;
  scale : Scale.t;
  positioning_order : list nat
}.

(** The argument of [new LineCoordinates(...)]: two end points and an
    optional label. *)
Record Coordinate : Type := mkCoordinate {
  label : option string;
  x1 : R;
  y1 : R;
  x2 : R;
  y2 : R
}.

(** [line-coordinates.js] is not under src/: the two members of a line that
    the allocation reads are the interface below. *)
Class LineCoordinates : Type := {
  line_length : Coordinate -> R;
  pointAtLength : Coordinate -> R -> number * number
}.

Record SpaceBlock : Type := mkSpaceBlock {
  block_node : nat;
  block_begin : R;
  block_end : R;
  block_center : R
}.

Definition newSpaceBlock (n : nat) (begin length : R) : SpaceBlock :=
  mkSpaceBlock n begin (begin + length) (begin + length / 2).

Record LinearSpaceSegment : Type := mkSegment {
  seg_label : option string;
  seg_line : Coordinate;
  seg_begin : R;
  seg_end : R;
  seg_blocks : list SpaceBlock
}.

Definition contains1DPoint (s : LinearSpaceSegment) (offset : R) : bool :=
  Rltb (seg_begin s) offset && Rltb offset (seg_end s).

Definition push_block (b : SpaceBlock) (s : LinearSpaceSegment)
  : LinearSpaceSegment :=
  mkSegment (seg_label s) (seg_line s) (seg_begin s) (seg_end s)
            (seg_blocks s ++ [b]).

Inductive placementMode : Type :=
| LENGTH_CONSTRAINED
| SPIDER.

Record Clump : Type := mkClump {
  clump_node : nat;
  parentClump : option nat;
  childClumps : list nat;
  longestLeafLength : R;
  clump_units : option R
}.

Record HierarchyLevel : Type := mkLevel {
  level_depth : nat;
  clumps : jsmap Clump;
  longestLeafLengthSum : option R
}.

Record NodeAllocation : Type := mkNodeAllocation {
  layout : Layout;
  layoutNodes : jsmap LayoutNode;
  nodeToPosition : jsmap Position.t;
  leaves : jsmap LayoutNode;
  midPoints : jsmap LayoutNode;
  roots : jsmap LayoutNode;
  segments : list LinearSpaceSegment;
  total1DSpaceAvailable : R
}.

Definition with_positions (na : NodeAllocation) (pos : jsmap Position.t)
  : NodeAllocation :=
  mkNodeAllocation (layout na) (layoutNodes na) pos (leaves na) (midPoints na)
                   (roots na) (segments na) (total1DSpaceAvailable na).

Definition with_segments (na : NodeAllocation) (segs : list LinearSpaceSegment)
  : NodeAllocation :=
  mkNodeAllocation (layout na) (layoutNodes na) (nodeToPosition na) (leaves na)
                   (midPoints na) (roots na) segs (total1DSpaceAvailable na).

(** [position.f = v] where [position] was read from [nodeToPosition]. *)
Definition write_position (k : nat) (f : Position.t -> Position.t)
    (pos : jsmap Position.t) : result (jsmap Position.t) :=
  p <- deref (mget k pos) ;;
  Ok (mset k (f p) pos).

(** A loop whose body may throw. *)
Fixpoint foldM {A B : Type} (f : A -> B -> result A) (l : list B) (a : A)
  : result A :=
  match l with
  | [] => Ok a
  | b :: rest => a' <- f a b ;; foldM f rest a'
  end.

(** [array.indexOf(k)]: the first index of [k], or -1. *)
Fixpoint indexOf_from (i : Z) (k : nat) (l : list nat) : Z :=
  match l with
  | [] => (-1)%Z
  | h :: t => if Nat.eqb h k then i else indexOf_from (i + 1)%Z k t
  end.

Definition indexOf (k : nat) (l : list nat) : Z := indexOf_from 0%Z k l.

(** [array.sort(compare)]: a stable sort, written as an insertion sort. *)
Fixpoint insertInto {A : Type} (compare : A -> A -> Z) (a : A) (l : list A)
  : list A :=
  match l with
  | [] => [a]
  | b :: rest =>
      if (compare a b <=? 0)%Z then a :: b :: rest
      else b :: insertInto compare a rest
  end.

Definition jsSort {A : Type} (compare : A -> A -> Z) (l : list A) : list A :=
  fold_right (insertInto compare) [] l.

(** ** Clump hierarchy

    Clump objects are shared between the level that indexes them, the
    [childClumps] of their parent and the [parentClump] of their children.
    The hierarchy levels are the store: a clump is named by its depth and
    its node, [parentClump] names a clump one level up, [childClumps] names
    clumps one level down. *)

Definition hierarchyLevels : Type := jsmap HierarchyLevel.

Definition newLevel (depth : nat) : HierarchyLevel := mkLevel depth [] None.

Definition newClump (n : nat) (parentClump : option nat) (longest : R) : Clump :=
  mkClump n parentClump [] longest None.

Definition ensureLevel (depth : nat) (H : hierarchyLevels) : hierarchyLevels :=
  if mhas depth H then H else mset depth (newLevel depth) H.

Definition getClump (H : hierarchyLevels) (depth k : nat) : option Clump :=
  match mget depth H with
  | Some lvl => mget k (clumps lvl)
  | None => None
  end.

Definition setClump (H : hierarchyLevels) (depth k : nat) (c : Clump)
  : hierarchyLevels :=
  match mget depth H with
  | Some lvl =>
      mset depth (mkLevel (level_depth lvl) (mset k c (clumps lvl))
                          (longestLeafLengthSum lvl)) H
  | None => H
  end.

Definition updClump (H : hierarchyLevels) (depth k : nat) (f : Clump -> Clump)
  : hierarchyLevels :=
  match getClump H depth k with
  | Some c => setClump H depth k (f c)
  | None => H
  end.

(** [hierarchyLevels.get(depth - 1)], then [.clumps.get(node)]. *)
Definition getPreviousClump (H : hierarchyLevels) (depth k : nat)
  : option Clump :=
  match depth with
  | O => None
  | S d => getClump H d k
  end.

Definition addChild (k : nat) (c : Clump) : Clump :=
  mkClump (clump_node c) (parentClump c)
          (if existsb (Nat.eqb k) (childClumps c) then childClumps c
           else childClumps c ++ [k])
          (longestLeafLength c) (clump_units c).

Definition setLongest (l : R) (c : Clump) : Clump :=
  mkClump (clump_node c) (parentClump c) (childClumps c) l (clump_units c).

Definition setUnits (u : R) (c : Clump) : Clump :=
  mkClump (clump_node c) (parentClump c) (childClumps c)
          (longestLeafLength c) (Some u).

(** [new Clump(n, parentClump, longest)] where [parentClump] is the clump
    of node [parentKey] one level up, if there is one; the clump is indexed
    at [depth] and linked into its parent's [childClumps]. *)
Definition insertClump (H : hierarchyLevels) (depth n parentKey : nat)
    (longest : R) : hierarchyLevels :=
  let parentClump :=
    match getPreviousClump H depth parentKey with
    | Some _ => Some parentKey
    | None => None
    end in
  let H1 := setClump H depth n (newClump n parentClump longest) in
  match parentClump with
  | Some pk => updClump H1 (depth - 1) pk (addChild n)
  | None => H1
  end.

Definition sumLongestLeafLengths (cs : list Clump) : R :=
  fold_left (fun total c => total + longestLeafLength c) cs 0.

(** [parentClump.getTotalChildrenLongestLeafLength()] for a parent whose
    children are indexed at [depth]. *)
Definition getTotalChildrenLongestLeafLength (H : hierarchyLevels)
    (depth : nat) (p : Clump) : result R :=
  foldM (fun total k =>
           c <- deref (getClump H depth k) ;;
           Ok (total + longestLeafLength c))
        (childClumps p) 0.

(** ** NodeAllocation *)

Section NodeAllocation.
Context {LC : LineCoordinates}.

Definition initialPosition : Position.t := Position.mk 0 None 0 0.

(** *** Construction *)

(** One turn of the first loop of the constructor: a fresh position record
    for the node, and the layout node filed under [leaves] or [midPoints]
    according to [node.children.length]. *)
Definition categorize
    (acc : jsmap Position.t * jsmap LayoutNode * jsmap LayoutNode)
    (layoutNode : LayoutNode)
  : jsmap Position.t * jsmap LayoutNode * jsmap LayoutNode :=
  let '(pos, lvs, mps) := acc in
  let n := node layoutNode in
  let pos' := mset (node_id n) initialPosition pos in
  match node_children n with
  | [] => (pos', mset (node_id n) layoutNode lvs, mps)
  | _ :: _ => (pos', lvs, mset (node_id n) layoutNode mps)
  end.

(** The second loop: a midpoint whose [parentId] is not a midpoint of the
    run is a root.  The key [midPoint.id] of a layout node is the id of its
    node. *)
Definition collectRoots (mps : jsmap LayoutNode) : jsmap LayoutNode :=
  fold_left
    (fun rts midPoint =>
       match mget (node_parentId (node midPoint)) mps with
       | Some _ => rts
       | None => mset (node_id (node midPoint)) midPoint rts
       end)
    (mvalues mps) [].

(** [new LinearSpaceSegment(label, begin, line)]. *)
Definition newSegment (c : Coordinate) (begin : R) : LinearSpaceSegment :=
  mkSegment (label c) c begin (begin + line_length c) [].

(** The first coordinate is recognised by its position.  The code tests
    [coordinate === coordinates[0]], which holds of the first turn, and
    of a later turn only when the first coordinate is met again: the
    loop is that of the code for coordinates whose first is not met
    again ([firstOnce] below), as are the three of [threeSided]. *)
Fixpoint initializeSegments_loop (isFirst : bool) (coordinates : list Coordinate)
    (segs : list LinearSpaceSegment) (total : R)
  : result (list LinearSpaceSegment * R) :=
  match coordinates with
  | [] => Ok (segs, total)
  | coordinate :: rest =>
      begin <- (if isFirst then Ok 0
                else tail <- deref (nth_error segs (length segs - 1)) ;;
                     Ok (seg_end tail)) ;;
      initializeSegments_loop false rest
        (segs ++ [newSegment coordinate begin])
        (total + line_length coordinate)
  end.

Definition initializeSegments (coordinates : list Coordinate)
  : result (list LinearSpaceSegment * R) :=
  initializeSegments_loop true coordinates [] 0.

Definition toLargestDiameter (largest : R) (rootLayoutNode : LayoutNode) : R :=
  Rmax largest (ownDiameter (stem rootLayoutNode)).

Definition largestRootDiameter (rts : jsmap LayoutNode) : R :=
  fold_left toLargestDiameter (mvalues rts) 0.

Definition topOffset (l : Layout) (rts : jsmap LayoutNode) : R :=
  svgDistanceFromEdge (settings l)
  + Rmax (Scale.finalSvgHeight (scale l) * 0.2) (largestRootDiameter rts).

Definition threeSided (l : Layout) (rts : jsmap LayoutNode)
  : result (list Coordinate) :=
  let w := svgWidth (settings l) in
  let d := svgDistanceFromEdge (settings l) in
  let h := Scale.finalSvgHeight (scale l) in
  top <- validateNumber (Finite (topOffset l rts)) false ;;
  bottom <- validateNumber (Finite (h - d)) false ;;
  left <- validateNumber (Finite d) false ;;
  right <- validateNumber (Finite (w - d)) false ;;
  Ok [ mkCoordinate (Some "LHS"%string) left top left bottom;
       mkCoordinate (Some "BOT"%string) left bottom right bottom;
       mkCoordinate (Some "RHS"%string) right bottom right top ].

Definition constructor (l : Layout) (lns : jsmap LayoutNode)
    (coordinatesFn : Layout -> jsmap LayoutNode -> result (list Coordinate))
  : result NodeAllocation :=
  let '(pos, lvs, mps) := fold_left categorize (mvalues lns) ([], [], []) in
  let rts := collectRoots mps in
  coordinates <- coordinatesFn l rts ;;
  '(segs, total) <- initializeSegments coordinates ;;
  Ok (mkNodeAllocation l lns pos lvs mps rts segs total).

(** *** Phase 1: units *)

(** One turn of [for (let depth in ancestors)]: the level of [depth] is
    created when it is missing; an ancestor that is not a midpoint of the
    run is skipped; an ancestor without a clump at this level gets one,
    linked to the clump of its parent node one level up; otherwise the
    clump keeps the longest leaf length seen. *)

Definition ancestor_step (na : NodeAllocation) (leafTotalStemLength : R)
    (H : hierarchyLevels) (depth ancestorId : nat) : hierarchyLevels :=
  let H := ensureLevel depth H in
  match mget ancestorId (midPoints na) with
  | None => H
  | Some ancestorAtDepth =>
      match getClump H depth ancestorId with
      | None =>
          insertClump H depth ancestorId
                      (node_parentId (node ancestorAtDepth))
                      leafTotalStemLength
      | Some clumpAtDepth =>
          if Reqb (longestLeafLength clumpAtDepth) 0
             || Rltb (longestLeafLength clumpAtDepth) leafTotalStemLength
          then setClump H depth ancestorId
                        (setLongest leafTotalStemLength clumpAtDepth)
          else H
      end
  end.

Fixpoint ancestors_loop (na : NodeAllocation) (leafTotalStemLength : R)
    (H : hierarchyLevels) (depth : nat) (ancestors : list nat)
  : hierarchyLevels :=
  match ancestors with
  | [] => H
  | ancestorId :: rest =>
      ancestors_loop na leafTotalStemLength
        (ancestor_step na leafTotalStemLength H depth ancestorId)
        (S depth) rest
  end.

(** [stem.ancestors.ids.length ? stem.ancestors.ids : [leaf.parentId]]. *)
Definition leafAncestors (leafLayoutNode : LayoutNode) : list nat :=
  match ancestors_ids (stem leafLayoutNode) with
  | [] => [node_parentId (node leafLayoutNode)]
  | ids => ids
  end.

(** One turn of the loop over the leaves: the ancestor clumps, then the
    clump of the leaf itself at depth [ancestors.length]. *)
Definition leaf_step (na : NodeAllocation) (H : hierarchyLevels)
    (leafLayoutNode : LayoutNode) : result hierarchyLevels :=
  let leaf := node leafLayoutNode in
  let leafTotalStemLength := totalStemLength_combined (stem leafLayoutNode) in
  let ancestors := leafAncestors leafLayoutNode in
  let H := ancestors_loop na leafTotalStemLength H 0 ancestors in
  let leafDepth := length ancestors in
  let H := ensureLevel leafDepth H in
  _ <- deref (match leafDepth with O => None | S d => mget d H end) ;;
  Ok (insertClump H leafDepth (node_id leaf) (node_parentId leaf)
                  leafTotalStemLength).

Definition indexClumps (na : NodeAllocation) : result hierarchyLevels :=
  foldM (leaf_step na) (mvalues (leaves na)) [].

(** One turn of the loop over the clumps of a level: the share of the
    clump is the units of its parent, or 1, times its longest leaf length
    over the sum among the children of its parent, or among the level. *)
Definition units_step (depth : nat) (levelSum : R)
    (st : hierarchyLevels * jsmap Position.t) (kc : nat * Clump)
  : result (hierarchyLevels * jsmap Position.t) :=
  let '(H, pos) := st in
  let '(k, clumpAtDepth) := kc in
  '(parentUnits, proportionFactor) <-
    match parentClump clumpAtDepth with
    | None => Ok (Finite 1, levelSum)
    | Some pk =>
        p <- deref (getPreviousClump H depth pk) ;;
        total <- getTotalChildrenLongestLeafLength H depth p ;;
        Ok (match clump_units p with
            | Some u => Finite u
            | None => NotFinite
            end, total)
    end ;;
  let clumpUnits :=
    jsmul parentUnits
          (jsdiv (longestLeafLength clumpAtDepth) proportionFactor) in
  u <- validateStat clumpUnits false ;;
  let H := updClump H depth k (setUnits u) in
  pos <- write_position (clump_node clumpAtDepth) (Position.set_units u) pos ;;
  Ok (H, pos).

(** One turn of [for (depth = 0; depth < hierarchyLevels.size; ++depth)]. *)
Definition level_step (st : hierarchyLevels * jsmap Position.t) (depth : nat)
  : result (hierarchyLevels * jsmap Position.t) :=
  let '(H, pos) := st in
  lvl <- deref (mget depth H) ;;
  let total := sumLongestLeafLengths (mvalues (clumps lvl)) in
  let H := mset depth (mkLevel (level_depth lvl) (clumps lvl) (Some total)) H in
  foldM (units_step depth total) (clumps lvl) (H, pos).

Definition assignUnits (H : hierarchyLevels) (pos : jsmap Position.t)
  : result (hierarchyLevels * jsmap Position.t) :=
  foldM level_step (seq 0 (length H)) (H, pos).

(** The hierarchy is local to the method; it is returned here so that
    statements about clumps can name it. *)
Definition convertHierarchy (na : NodeAllocation)
  : result (hierarchyLevels * jsmap Position.t) :=
  H <- indexClumps na ;;
  assignUnits H (nodeToPosition na).

Definition convertTotalStemLengthsToUnits (na : NodeAllocation)
  : result NodeAllocation :=
  '(_, pos) <- convertHierarchy na ;;
  Ok (with_positions na pos).

(** *** Phase 2: 1D offsets *)

Definition intoOrder (na : NodeAllocation) (leafA leafB : LayoutNode) : Z :=
  (indexOf (node_id (node leafA)) (positioning_order (layout na))
   - indexOf (node_id (node leafB)) (positioning_order (layout na)))%Z.

Definition arrangedLeaves (na : NodeAllocation) : list LayoutNode :=
  jsSort (intoOrder na) (mvalues (leaves na)).

(** [segments.find(segment => segment.contains1DPoint(block.center))]
    followed by [blocks.push(block)] on the segment found. *)
Fixpoint assignBlock (b : SpaceBlock) (segs : list LinearSpaceSegment)
  : option (list LinearSpaceSegment) :=
  match segs with
  | [] => None
  | s :: rest =>
      if contains1DPoint s (block_center b)
      then Some (push_block b s :: rest)
      else option_map (cons s) (assignBlock b rest)
  end.

Definition offsets_step (total : R)
    (st : option SpaceBlock * list LinearSpaceSegment * jsmap Position.t)
    (leafLayoutNode : LayoutNode)
  : result (option SpaceBlock * list LinearSpaceSegment * jsmap Position.t) :=
  let '(currentBlock, segs, pos) := st in
  let leaf := node_id (node leafLayoutNode) in
  position <- deref (mget leaf pos) ;;
  let allocatedSpace := Position.units position * total in
  begin <- match currentBlock with
           | Some b => Ok (block_end b)
           | None => s <- deref (nth_error segs 0) ;; Ok (seg_begin s)
           end ;;
  let block := newSpaceBlock leaf begin allocatedSpace in
  let pos := mset leaf (Position.set_offset (block_center block) position) pos in
  segs <- deref (assignBlock block segs) ;;
  Ok (Some block, segs, pos).

Definition calculate1DLinearOffsets (na : NodeAllocation)
  : result NodeAllocation :=
  '(_, segs, pos) <-
    foldM (offsets_step (total1DSpaceAvailable na)) (arrangedLeaves na)
          (None, segments na, nodeToPosition na) ;;
  Ok (with_segments (with_positions na pos) segs).

(** *** Phase 3: 2D leaf coordinates *)

Definition leafCoordinates_block (s : LinearSpaceSegment)
    (pos : jsmap Position.t) (b : SpaceBlock) : result (jsmap Position.t) :=
  let relativeOffset := block_center b - seg_begin s in
  let '(x, y) := pointAtLength (seg_line s) relativeOffset in
  vx <- validateStat x false ;;
  pos <- write_position (block_node b) (Position.set_x vx) pos ;;
  vy <- validateStat y false ;;
  write_position (block_node b) (Position.set_y vy) pos.

Definition leafCoordinates_segment (pos : jsmap Position.t)
    (s : LinearSpaceSegment) : result (jsmap Position.t) :=
  foldM (leafCoordinates_block s) (seg_blocks s) pos.

Definition calculate2DLeafCoordinates (na : NodeAllocation)
  : result NodeAllocation :=
  pos <- foldM leafCoordinates_segment (segments na) (nodeToPosition na) ;;
  Ok (with_positions na pos).

(** *** Phase 4: 2D midpoint coordinates *)

Definition getRootPosition (na : NodeAllocation) (nodeDiameter : R) : R * R :=
  (svgWidth (settings (layout na)) / 2,
   svgDistanceFromEdge (settings (layout na)) + nodeDiameter / 2).

Definition leafCenter_step (combinedPosition : R * R)
    (nodePosition : option Position.t) : result (R * R) :=
  p <- deref nodePosition ;;
  cx <- validateStat (Finite (fst combinedPosition + Position.x p)) false ;;
  cy <- validateStat (Finite (snd combinedPosition + Position.y p)) false ;;
  Ok (cx, cy).

Definition ownLeavesInSubset (na : NodeAllocation) (st : Stem) : list nat :=
  filter (fun leafId => mhas leafId (leaves na)) (leaves_ids st).

Definition leafPositions (na : NodeAllocation) (pos : jsmap Position.t)
    (st : Stem) : list (option Position.t) :=
  map (fun leafId =>
         match mget leafId (leaves na) with
         | Some l => mget (node_id (node l)) pos
         | None => None
         end)
      (ownLeavesInSubset na st).

Definition midpoint_step (na : NodeAllocation) (mode : placementMode)
    (pos : jsmap Position.t) (layoutNode : LayoutNode)
  : result (jsmap Position.t) :=
  let midPoint := node layoutNode in
  let st := stem layoutNode in
  match mget (node_parentId midPoint) (layoutNodes na) with
  | None =>
      let rootPosition := getRootPosition na (ownDiameter st) in
      vx <- validateStat (Finite (fst rootPosition)) false ;;
      pos <- write_position (node_id midPoint) (Position.set_x vx) pos ;;
      vy <- validateStat (Finite (snd rootPosition)) false ;;
      write_position (node_id midPoint) (Position.set_y vy) pos
  | Some _ =>
      parentLayoutNode <- deref (parent layoutNode) ;;
      let parentStem := stem parentLayoutNode in
      let lps := leafPositions na pos st in
      '(sx, sy) <- foldM leafCenter_step lps (0, 0) ;;
      _ <- validateStat (Finite (INR (List.length lps))) true ;;
      let leafCenter := (sx / INR (List.length lps), sy / INR (List.length lps)) in
      let parentPosition := mget (node_parentId midPoint) pos in
      match mode with
      | LENGTH_CONSTRAINED =>
          pp <- deref parentPosition ;;
          let line := mkCoordinate None (Position.x pp) (Position.y pp)
                                   (fst leafCenter) (snd leafCenter) in
          parentRadius <- validateStat (Finite (ownDiameter parentStem / 2)) false ;;
          thisRadius <- validateStat (Finite (ownDiameter st / 2)) false ;;
          lineLength <- validateStat (Finite (ownBetween st)) false ;;
          let '(x, y) := pointAtLength line (parentRadius + lineLength + thisRadius) in
          vx <- validateStat x false ;;
          pos <- write_position (node_id midPoint) (Position.set_x vx) pos ;;
          vy <- validateStat y false ;;
          write_position (node_id midPoint) (Position.set_y vy) pos
      | SPIDER =>
          pp <- deref parentPosition ;;
          let combinedCenter := (fst leafCenter + Position.x pp / 2,
                                 snd leafCenter + Position.y pp / 2) in
          vx <- validateStat (Finite (fst combinedCenter)) false ;;
          pos <- write_position (node_id midPoint) (Position.set_x vx) pos ;;
          vy <- validateStat (Finite (snd combinedCenter)) false ;;
          write_position (node_id midPoint) (Position.set_y vy) pos
      end
  end.

Definition calculate2DMidpointCoordinates (mode : placementMode)
    (na : NodeAllocation) : result NodeAllocation :=
  pos <- foldM (midpoint_step na mode) (mvalues (midPoints na))
               (nodeToPosition na) ;;
  Ok (with_positions na pos).

(** *** Phase 5: leaf re-anchoring *)

Definition constrain_step (na : NodeAllocation) (pos : jsmap Position.t)
    (layoutNode : LayoutNode) : result (jsmap Position.t) :=
  let leaf := node layoutNode in
  let st := stem layoutNode in
  let parentStem := option_map stem (parent layoutNode) in
  let parentDiameter :=
    match parentStem with
    | Some ps => ownDiameter ps
    | None => 0
    end in
  let parentPosition :=
    match mget (node_parentId leaf) pos with
    | Some pp => (Position.x pp, Position.y pp)
    | None => getRootPosition na parentDiameter
    end in
  position <- deref (mget (node_id leaf) pos) ;;
  let line := mkCoordinate None (fst parentPosition) (snd parentPosition)
                           (Position.x position) (Position.y position) in
  let parentRadius := parentDiameter / 2 in
  let thisRadius := ownDiameter st / 2 in
  let lineLength := ownBetween st in
  let '(x, y) := pointAtLength line (parentRadius + lineLength + thisRadius) in
  vx <- validateStat x false ;;
  pos <- write_position (node_id leaf) (Position.set_x vx) pos ;;
  vy <- validateStat y false ;;
  write_position (node_id leaf) (Position.set_y vy) pos.

Definition constrain2DLeafCoordinates (na : NodeAllocation)
  : result NodeAllocation :=
  pos <- foldM (constrain_step na) (mvalues (leaves na)) (nodeToPosition na) ;;
  Ok (with_positions na pos).

Definition process (mode : placementMode) (na : NodeAllocation)
  : result NodeAllocation :=
  na <- convertTotalStemLengthsToUnits na ;;
  na <- calculate1DLinearOffsets na ;;
  na <- calculate2DLeafCoordinates na ;;
  na <- calculate2DMidpointCoordinates mode na ;;
  match mode with
  | LENGTH_CONSTRAINED => constrain2DLeafCoordinates na
  | SPIDER => Ok na
  end.

End NodeAllocation.

(** Modelled from the spec: [line-coordinates.js] is not under src/.  A
    line over two end points has the Euclidean distance between them as its
    length, and its point at length [d] lies [d] along the ray from the
    first end point through the second. *)
Definition euclid_length (c : Coordinate) : R :=
  sqrt ((x2 c - x1 c) * (x2 c - x1 c) + (y2 c - y1 c) * (y2 c - y1 c)).

Definition euclid_pointAtLength (c : Coordinate) (d : R) : number * number :=
  match jsdiv d (euclid_length c) with
  | Finite ratio =>
      (Finite (x1 c + (x2 c - x1 c) * ratio),
       Finite (y1 c + (y2 c - y1 c) * ratio))
  | NotFinite => (NotFinite, NotFinite)
  end.

Definition euclid : LineCoordinates :=
  Build_LineCoordinates euclid_length euclid_pointAtLength.


(** ** Vocabulary of the statements *)

(** The first coordinate is not met again among the coordinates, so that
    [coordinate === coordinates[0]] holds of the first turn of the loop
    only. *)
Definition firstOnce (coordinates : list Coordinate) : Prop :=
  match coordinates with
  | [] => True
  | c :: rest => ~ In c rest
  end.


(** The segments of a list of coordinates laid end to end from [begin]. *)
Fixpoint endToEnd {LC : LineCoordinates} (begin : R)
    (coordinates : list Coordinate) : list LinearSpaceSegment :=
  match coordinates with
  | [] => []
  | c :: rest => newSegment c begin :: endToEnd (begin + line_length c) rest
  end.

(** The ids of the layout nodes of a map, in iteration order. *)
Definition nodeIds (m : jsmap LayoutNode) : list nat :=
  map (fun ln => node_id (node ln)) (mvalues m).

(** The inputs of a run, which no phase changes. *)
Definition sameInputs (na na' : NodeAllocation) : Prop :=
  layout na' = layout na
  /\ layoutNodes na' = layoutNodes na
  /\ leaves na' = leaves na
  /\ midPoints na' = midPoints na
  /\ total1DSpaceAvailable na' = total1DSpaceAvailable na.

(** ** Sample runs *)

(** A tree with two levels of clumps: root 1 with children 2 and 3, where
    3 is a leaf and 2 has the leaves 4 and 5; all three leaves have the
    same total stem length. *)
Module TwoLevels.
Definition settings : Settings := mkSettings 100 100 10.
Definition scale : Scale.t := Scale.mk (Scale.mkWeight Scale.longest 1) 1 100.
Definition layout : Layout := mkLayout settings scale [4; 5; 3]%nat.

Definition n1 : LayoutNode :=
  mkLayoutNode (mkNode 1 0 [2; 3]%nat) (mkStem 0 0 0 [] [3; 4; 5]%nat) None.
Definition n2 : LayoutNode :=
  mkLayoutNode (mkNode 2 1 [4; 5]%nat) (mkStem 0 0 10 [1%nat] [4; 5]%nat) (Some n1).
Definition n3 : LayoutNode :=
  mkLayoutNode (mkNode 3 1 []) (mkStem 60 0 60 [1%nat] []) (Some n1).
Definition n4 : LayoutNode :=
  mkLayoutNode (mkNode 4 2 []) (mkStem 60 0 50 [1; 2]%nat []) (Some n2).
Definition n5 : LayoutNode :=
  mkLayoutNode (mkNode 5 2 []) (mkStem 60 0 50 [1; 2]%nat []) (Some n2).

Definition layoutNodes : jsmap LayoutNode :=
  [(1, n1); (2, n2); (3, n3); (4, n4); (5, n5)]%nat.

Definition allocation : NodeAllocation :=
  mkNodeAllocation layout layoutNodes
    [(1, initialPosition); (2, initialPosition); (3, initialPosition);
     (4, initialPosition); (5, initialPosition)]%nat
    [(3, n3); (4, n4); (5, n5)]%nat
    [(1, n1); (2, n2)]%nat
    [(1, n1)]%nat
    [ mkSegment (Some "LHS"%string) (mkCoordinate (Some "LHS"%string) 10 30 10 90) 0 60 [];
      mkSegment (Some "BOT"%string) (mkCoordinate (Some "BOT"%string) 10 90 90 90) 60 140 [];
      mkSegment (Some "RHS"%string) (mkCoordinate (Some "RHS"%string) 90 90 90 30) 140 200 [] ]
    200.

(** The clumps of the tree after the conversion. *)
Definition hierarchy : hierarchyLevels :=
  [ (0%nat, mkLevel 0 [(1%nat, mkClump 1 None [3; 2]%nat 60 (Some 1))] (Some 60));
    (1%nat, mkLevel 1 [(3%nat, mkClump 3 (Some 1%nat) [] 60 (Some (1 / 2)));
                       (2%nat, mkClump 2 (Some 1%nat) [4; 5]%nat 60 (Some (1 / 2)))]
                      (Some 120));
    (2%nat, mkLevel 2 [(4%nat, mkClump 4 (Some 2%nat) [] 60 (Some (1 / 4)));
                       (5%nat, mkClump 5 (Some 2%nat) [] 60 (Some (1 / 4)))]
                      (Some 120)) ].

Definition unitPositions : jsmap Position.t :=
  [ (1%nat, Position.mk 1 None 0 0); (2%nat, Position.mk (1 / 2) None 0 0);
    (3%nat, Position.mk (1 / 2) None 0 0); (4%nat, Position.mk (1 / 4) None 0 0);
    (5%nat, Position.mk (1 / 4) None 0 0) ].

(** The run after the conversion, and after the 1D walk: the display
    order puts the leaves 4 and 5 before the leaf 3, which the map of the
    leaves holds first. *)
Definition converted : NodeAllocation := with_positions allocation unitPositions.

Definition walked : NodeAllocation :=
  with_segments
    (with_positions converted
       [ (1%nat, Position.mk 1 None 0 0); (2%nat, Position.mk (1 / 2) None 0 0);
         (3%nat, Position.mk (1 / 2) (Some 150) 0 0);
         (4%nat, Position.mk (1 / 4) (Some 25) 0 0);
         (5%nat, Position.mk (1 / 4) (Some 75) 0 0) ])
    [ mkSegment (Some "LHS"%string) (mkCoordinate (Some "LHS"%string) 10 30 10 90)
                0 60 [mkSpaceBlock 4 0 50 25];
      mkSegment (Some "BOT"%string) (mkCoordinate (Some "BOT"%string) 10 90 90 90)
                60 140 [mkSpaceBlock 5 50 100 75];
      mkSegment (Some "RHS"%string) (mkCoordinate (Some "RHS"%string) 90 90 90 30)
                140 200 [mkSpaceBlock 3 100 200 150] ].

(** The same tree with the leaves 4 and 5 left out of the run: midpoint 2
    keeps its parent but has no leaf in the run. *)
Definition pruned : NodeAllocation :=
  mkNodeAllocation layout [(1, n1); (2, n2); (3, n3)]%nat
    [(1, initialPosition); (2, initialPosition); (3, initialPosition)]%nat
    [(3, n3)]%nat
    [(1, n1); (2, n2)]%nat
    [(1, n1)]%nat
    (segments allocation) 200.
End TwoLevels.

(** A root with three leaves whose total stem lengths are 10, 80 and 10, on
    a canvas of width 100 and final height 100 with edge distance 10. *)
Module ThreeLeaves.
Definition settings : Settings := mkSettings 100 100 10.
Definition scale : Scale.t := Scale.mk (Scale.mkWeight Scale.longest 1) 1 100.
Definition layout : Layout := mkLayout settings scale [2; 3; 4]%nat.

Definition n1 : LayoutNode :=
  mkLayoutNode (mkNode 1 0 [2; 3; 4]%nat) (mkStem 0 0 0 [] [2; 3; 4]%nat) None.
Definition n2 : LayoutNode :=
  mkLayoutNode (mkNode 2 1 []) (mkStem 10 0 25 [1%nat] []) (Some n1).
Definition n3 : LayoutNode :=
  mkLayoutNode (mkNode 3 1 []) (mkStem 80 0 40 [1%nat] []) (Some n1).
Definition n4 : LayoutNode :=
  mkLayoutNode (mkNode 4 1 []) (mkStem 10 0 25 [1%nat] []) (Some n1).

Definition layoutNodes : jsmap LayoutNode :=
  [(1, n1); (2, n2); (3, n3); (4, n4)]%nat.

Definition lhs : Coordinate := mkCoordinate (Some "LHS"%string) 10 30 10 90.
Definition bot : Coordinate := mkCoordinate (Some "BOT"%string) 10 90 90 90.
Definition rhs : Coordinate := mkCoordinate (Some "RHS"%string) 90 90 90 30.

(** The allocation that the constructor builds from these layout nodes. *)
Definition allocation : NodeAllocation :=
  mkNodeAllocation layout layoutNodes
    [(1, initialPosition); (2, initialPosition); (3, initialPosition);
     (4, initialPosition)]%nat
    [(2, n2); (3, n3); (4, n4)]%nat
    [(1, n1)]%nat
    [(1, n1)]%nat
    [ mkSegment (Some "LHS"%string) lhs 0 60 [];
      mkSegment (Some "BOT"%string) bot 60 140 [];
      mkSegment (Some "RHS"%string) rhs 140 200 [] ]
    200.

(** The run, phase by phase. *)
Definition converted : NodeAllocation :=
  with_positions allocation
    [ (1%nat, Position.mk 1 None 0 0); (2%nat, Position.mk (1 / 10) None 0 0);
      (3%nat, Position.mk (8 / 10) None 0 0); (4%nat, Position.mk (1 / 10) None 0 0) ].

Definition walked : NodeAllocation :=
  with_segments
    (with_positions converted
       [ (1%nat, Position.mk 1 None 0 0); (2%nat, Position.mk (1 / 10) (Some 10) 0 0);
         (3%nat, Position.mk (8 / 10) (Some 100) 0 0);
         (4%nat, Position.mk (1 / 10) (Some 190) 0 0) ])
    [ mkSegment (Some "LHS"%string) lhs 0 60 [mkSpaceBlock 2 0 20 10];
      mkSegment (Some "BOT"%string) bot 60 140 [mkSpaceBlock 3 20 180 100];
      mkSegment (Some "RHS"%string) rhs 140 200 [mkSpaceBlock 4 180 200 190] ].

Definition projected : NodeAllocation :=
  with_positions walked
    [ (1%nat, Position.mk 1 None 0 0); (2%nat, Position.mk (1 / 10) (Some 10) 10 40);
      (3%nat, Position.mk (8 / 10) (Some 100) 50 90);
      (4%nat, Position.mk (1 / 10) (Some 190) 90 40) ].

Definition placed : NodeAllocation :=
  with_positions projected
    [ (1%nat, Position.mk 1 None 50 10); (2%nat, Position.mk (1 / 10) (Some 10) 10 40);
      (3%nat, Position.mk (8 / 10) (Some 100) 50 90);
      (4%nat, Position.mk (1 / 10) (Some 190) 90 40) ].

Definition final : NodeAllocation :=
  with_positions placed
    [ (1%nat, Position.mk 1 None 50 10); (2%nat, Position.mk (1 / 10) (Some 10) 30 25);
      (3%nat, Position.mk (8 / 10) (Some 100) 50 50);
      (4%nat, Position.mk (1 / 10) (Some 190) 70 25) ].
End ThreeLeaves.

(** The root with three leaves again, the first leaf of the display order
    having no length: the total stem lengths of the leaves 2, 3 and 4 are
    0, 80 and 20. *)
Module ZeroFirst.
Definition n1 : LayoutNode :=
  mkLayoutNode (mkNode 1 0 [2; 3; 4]%nat) (mkStem 0 0 0 [] [2; 3; 4]%nat) None.
Definition n2 : LayoutNode :=
  mkLayoutNode (mkNode 2 1 []) (mkStem 0 0 25 [1%nat] []) (Some n1).
Definition n3 : LayoutNode :=
  mkLayoutNode (mkNode 3 1 []) (mkStem 80 0 40 [1%nat] []) (Some n1).
Definition n4 : LayoutNode :=
  mkLayoutNode (mkNode 4 1 []) (mkStem 20 0 25 [1%nat] []) (Some n1).

Definition layoutNodes : jsmap LayoutNode :=
  [(1, n1); (2, n2); (3, n3); (4, n4)]%nat.

Definition allocation : NodeAllocation :=
  mkNodeAllocation ThreeLeaves.layout layoutNodes
    [(1, initialPosition); (2, initialPosition); (3, initialPosition);
     (4, initialPosition)]%nat
    [(2, n2); (3, n3); (4, n4)]%nat
    [(1, n1)]%nat
    [(1, n1)]%nat
    (segments ThreeLeaves.allocation) 200.

Definition converted : NodeAllocation :=
  with_positions allocation
    [ (1%nat, Position.mk 1 None 0 0); (2%nat, Position.mk 0 None 0 0);
      (3%nat, Position.mk (8 / 10) None 0 0);
      (4%nat, Position.mk (2 / 10) None 0 0) ].
End ZeroFirst.

(** ** Plane geometry of the statements *)

Definition distance (px py qx qy : R) : R :=
  sqrt ((qx - px) * (qx - px) + (qy - py) * (qy - py)).

(** The point [(x, y)] lies on the line of [c], on the side of the second
    end point as seen from the first. *)
Definition onRay (c : Coordinate) (x y : R) : Prop :=
  exists t, 0 <= t
            /\ x = x1 c + t * (x2 c - x1 c)
            /\ y = y1 c + t * (y2 c - y1 c).

(** Modelled from the spec: the contract of the external line geometry.
    When [pointAtLength] yields a point for a distance that is not
    negative, the point lies on the line from the first end point through
    the second, at that distance from the first end point. *)
Definition PointAtDistance (LC : LineCoordinates) : Prop :=
  forall (c : Coordinate) (d x y : R),
    0 <= d ->
    pointAtLength c d = (Finite x, Finite y) ->
    onRay c x y /\ distance (x1 c) (y1 c) x y = d.

(** ** The blocks of the 1D walk *)

Definition unitsOf (pos : jsmap Position.t) (k : nat) : R :=
  match mget k pos with
  | Some p => Position.units p
  | None => 0
  end.

(** The blocks that a walk over [ls] lays out from [begin]: each is as
    wide as the units of its leaf times the space available, and each
    begins where the previous one ends. *)
Fixpoint plannedBlocks (total : R) (pos : jsmap Position.t) (begin : R)
    (ls : list LayoutNode) : list SpaceBlock :=
  match ls with
  | [] => []
  | l :: rest =>
      let b := newSpaceBlock (node_id (node l)) begin
                             (unitsOf pos (node_id (node l)) * total) in
      b :: plannedBlocks total pos (block_end b) rest
  end.

(** Where the walk begins: at the beginning of the first segment. *)
Definition walkBegin (segs : list LinearSpaceSegment) : R :=
  match segs with
  | s :: _ => seg_begin s
  | [] => 0
  end.

(** [s'] is the segment [s] with more blocks pushed. *)
Definition extends (s s' : LinearSpaceSegment) : Prop :=
  seg_label s' = seg_label s /\ seg_line s' = seg_line s
  /\ seg_begin s' = seg_begin s /\ seg_end s' = seg_end s
  /\ exists more, seg_blocks s' = seg_blocks s ++ more.


(** [k] is at index [i] of [order], and at no index before it. *)
Inductive firstAt (k : nat) : list nat -> nat -> Prop :=
| firstAt_here : forall rest, firstAt k (k :: rest) 0
| firstAt_later : forall h rest i,
    h <> k -> firstAt k rest i -> firstAt k (h :: rest) (S i).

(** The order of the caller, read off the display order itself: a leaf
    comes no later than another when its node is not in the display order
    at all, such leaves being put first, or when both nodes are in it and
    the first place of the one is not after the first place of the
    other. *)
Definition displayOrder (na : NodeAllocation) (a b : LayoutNode) : Prop :=
  let order := positioning_order (layout na) in
  ~ In (node_id (node a)) order
  \/ exists i j, firstAt (node_id (node a)) order i
                 /\ firstAt (node_id (node b)) order j
                 /\ (i <= j)%nat.

(** ** The units of sibling clumps *)

Definition clumpUnitsAt (H : hierarchyLevels) (depth k : nat) : R :=
  match getClump H depth k with
  | Some c => match clump_units c with Some u => u | None => 0 end
  | None => 0
  end.

(** The sum of the units of the clumps of the nodes [ks] at [depth]. *)
Definition sumSiblingUnits (H : hierarchyLevels) (depth : nat) (ks : list nat) : R :=
  fold_left (fun total k => total + clumpUnitsAt H depth k) ks 0.

(** Each level and each index of clumps holds a key once. *)
Definition store_wf (H : hierarchyLevels) : Prop :=
  NoDup (mkeys H)
  /\ forall d lvl, mget d H = Some lvl -> NoDup (mkeys (clumps lvl)).

(** Parent and child references agree: the children of a clump are the
    clumps one level down that name it as their parent. *)
Definition links_ok (H : hierarchyLevels) : Prop :=
  (forall d pk P k,
      getClump H d pk = Some P -> In k (childClumps P) ->
      exists c, getClump H (S d) k = Some c /\ parentClump c = Some pk)
  /\ (forall d k c pk,
         getClump H d k = Some c -> parentClump c = Some pk ->
         exists d' P, d = S d' /\ getClump H d' pk = Some P /\ In k (childClumps P))
  /\ (forall d k c, getClump H d k = Some c -> NoDup (childClumps c)).

(** What the second half of the conversion leaves alone in a clump. *)
Definition shape (c : Clump) : option nat * list nat * R :=
  (parentClump c, childClumps c, longestLeafLength c).

Definition same_shape (H H' : hierarchyLevels) : Prop :=
  mkeys H' = mkeys H
  /\ forall d k, option_map shape (getClump H' d k) = option_map shape (getClump H d k).

(** Every clump of the store is the clump of a node that [allowed] admits. *)
Definition keys_within (allowed : nat -> Prop) (H : hierarchyLevels) : Prop :=
  forall d k c, getClump H d k = Some c -> allowed k.

(** The nodes that may have a clump once the leaves [processed] are
    indexed: the midpoints of the run and those leaves. *)
Definition indexed (na : NodeAllocation) (processed : list nat) (k : nat) : Prop :=
  mget k (midPoints na) <> None \/ In k processed.

Definition index_inv (na : NodeAllocation) (processed : list nat)
    (H : hierarchyLevels) : Prop :=
  store_wf H /\ links_ok H /\ keys_within (indexed na processed) H.

(** The clump of [k] at depth [d], if it has a parent clump, holds the
    share that the second half of the conversion gives it: the units of
    the parent times its longest leaf length over the sum of the longest
    leaf lengths of the parent's children. *)
Definition assigned_at (H : hierarchyLevels) (d k : nat) : Prop :=
  forall c pk,
    getClump H d k = Some c -> parentClump c = Some pk ->
    exists d' P up S u,
      d = Datatypes.S d' /\ getClump H d' pk = Some P
      /\ clump_units P = Some up
      /\ getTotalChildrenLongestLeafLength H d P = Ok S
      /\ S <> 0
      /\ clump_units c = Some u
      /\ u = up * (longestLeafLength c / S).

Definition longestAt (H : hierarchyLevels) (d k : nat) : R :=
  match getClump H d k with
  | Some c => longestLeafLength c
  | None => 0
  end.

(** ** Well-formed allocations *)

(** A map of layout nodes keyed by the id of their node. *)
Definition keyedById (m : jsmap LayoutNode) : Prop :=
  forall k ln, In (k, ln) m -> node_id (node ln) = k.

(** What construction guarantees of the categories when the layout nodes
    of the run have distinct ids. *)
Record categorized (na : NodeAllocation) : Prop := mkCategorized {
  leaves_distinct : NoDup (nodeIds (leaves na));
  midPoints_distinct : NoDup (nodeIds (midPoints na));
  leaf_not_midPoint :
    forall lf, In lf (mvalues (leaves na)) ->
               mget (node_id (node lf)) (midPoints na) = None;
  midPoint_not_leaf :
    forall m, In m (mvalues (midPoints na)) ->
              ~ In (node_id (node m)) (nodeIds (leaves na));
  positions_present :
    forall ln, In ln (mvalues (layoutNodes na)) ->
               mget (node_id (node ln)) (nodeToPosition na) <> None
}.

(** The first three phases of [process]: the state in which the leaves
    have their raw 2D positions. *)
Definition upToLeafCoordinates {LC : LineCoordinates} (na : NodeAllocation)
  : result NodeAllocation :=
  na <- convertTotalStemLengthsToUnits na ;;
  na <- calculate1DLinearOffsets na ;;
  calculate2DLeafCoordinates na.

(** ** Vocabulary of the further properties *)

(** A layout node whose node has children is a midpoint of the run, one
    without is a leaf. *)
Definition hasChildren (ln : LayoutNode) : bool :=
  match node_children (node ln) with
  | [] => false
  | _ :: _ => true
  end.

(** The map that holds [f ln] under the id of the node of each layout node
    of [lns], in the order of [lns]. *)
Definition byId {V : Type} (f : LayoutNode -> V) (lns : list LayoutNode)
  : jsmap V :=
  map (fun ln => (node_id (node ln), f ln)) lns.

(** A midpoint is a root when its parent is not a midpoint of the run. *)
Definition isRoot (mps : jsmap LayoutNode) (m : LayoutNode) : bool :=
  negb (mhas (node_parentId (node m)) mps).

(** The levels of a store are those of the depths below their number,
    created in the order of their depth, each under its own depth. *)
Definition levels_in_order (H : hierarchyLevels) : Prop :=
  mkeys H = seq 0 (List.length H)
  /\ forall d lvl, mget d H = Some lvl -> level_depth lvl = d.

(** The total stem length of a leaf, as the conversion reads it. *)
Definition leafLength (leaf : LayoutNode) : R :=
  totalStemLength_combined (stem leaf).

(** The depth at which a leaf is indexed: the number of its ancestors. *)
Definition leafDepth (leaf : LayoutNode) : nat :=
  List.length (leafAncestors leaf).

(** The leaf has the node [k] at index [depth] of its ancestors: it is a
    leaf under the clump of [k] at [depth]. *)
Definition under (depth k : nat) (leaf : LayoutNode) : Prop :=
  nth_error (leafAncestors leaf) depth = Some k.

(** The node and the longest leaf length of a clump. *)
Definition clump_core (c : Clump) : nat * R :=
  (clump_node c, longestLeafLength c).

(** All of a clump but its units. *)
Definition clump_frame (c : Clump) : nat * option nat * list nat * R :=
  (clump_node c, parentClump c, childClumps c, longestLeafLength c).

(** The lengths that have reached the clump of a midpoint [k] at depth [d]
    hold its longest leaf length as their greatest: [reached d k x] says
    that a leaf of length [x] under that clump has been read. *)
Definition longest_of (na : NodeAllocation) (reached : nat -> nat -> R -> Prop)
    (H : hierarchyLevels) : Prop :=
  (forall d k c,
      getClump H d k = Some c -> mget k (midPoints na) <> None ->
      reached d k (longestLeafLength c)
      /\ forall x, reached d k x -> x <= longestLeafLength c)
  /\ (forall d k x,
        reached d k x -> mget k (midPoints na) <> None ->
        getClump H d k <> None).

(** The lengths read from the leaves [processed]. *)
Definition reached_from (processed : list LayoutNode) (d k : nat) (x : R) : Prop :=
  exists l, In l processed /\ under d k l /\ leafLength l = x.

(** The clumps of the leaves [processed]: every clump is the clump of its
    key, a clump whose key is not a midpoint is the clump of a leaf read,
    at the depth of that leaf and with its length, and every leaf read
    has its clump. *)
Definition leaf_clumps (na : NodeAllocation) (processed : list LayoutNode)
    (H : hierarchyLevels) : Prop :=
  (forall d k c, getClump H d k = Some c -> clump_node c = k)
  /\ (forall d k c,
        getClump H d k = Some c -> mget k (midPoints na) = None ->
        exists l, In l processed /\ node_id (node l) = k /\ d = leafDepth l
                  /\ longestLeafLength c = leafLength l)
  /\ (forall l, In l processed ->
        getClump H (leafDepth l) (node_id (node l)) <> None)
  /\ (forall k c, getClump H 0 k = Some c -> parentClump c = None).

(** All of a level but its sum and the units of its clumps. *)
Definition level_frame (lvl : HierarchyLevel)
  : nat * list (nat * (nat * option nat * list nat * R)) :=
  (level_depth lvl, map (fun kc => (fst kc, clump_frame (snd kc))) (clumps lvl)).

(** Every clump of the store is indexed under the id of its node. *)
Definition nodes_are_keys (H : hierarchyLevels) : Prop :=
  forall d k c, getClump H d k = Some c -> clump_node c = k.

(** The blocks of all the segments, segment by segment. *)
Definition allBlocks (segs : list LinearSpaceSegment) : list SpaceBlock :=
  concat (map seg_blocks segs).

(** The blocks of all the segments, each with its segment, in the order
    in which the leaf coordinates are computed. *)
Definition placements (segs : list LinearSpaceSegment)
  : list (LinearSpaceSegment * SpaceBlock) :=
  flat_map (fun s => map (pair s) (seg_blocks s)) segs.

(** The units and the offset of a position record: what the phases that
    compute coordinates leave alone. *)
Definition units_offset (p : Position.t) : R * option R :=
  (Position.units p, Position.offset p).

(** The offset and the coordinates of a position record: what the
    conversion leaves alone. *)
Definition offset_xy (p : Position.t) : option R * R * R :=
  (Position.offset p, Position.x p, Position.y p).

(** The units and the coordinates of a position record: what the 1D walk
    leaves alone. *)
Definition units_xy (p : Position.t) : R * R * R :=
  (Position.units p, Position.x p, Position.y p).

(** Two maps of position records with the same keys in the same order
    whose records agree on [g]. *)
Definition agree_on {W : Type} (g : Position.t -> W) (pos pos' : jsmap Position.t)
  : Prop :=
  mkeys pos' = mkeys pos
  /\ forall k, option_map g (mget k pos') = option_map g (mget k pos).

(** The centroid of a list of positions. *)
Definition centroid (ps : list Position.t) : R * R :=
  (fold_left (fun t p => t + Position.x p) ps 0 / INR (List.length ps),
   fold_left (fun t p => t + Position.y p) ps 0 / INR (List.length ps)).

(** The own diameter of the parent of a layout node, zero for a layout
    node without a parent. *)
Definition parentDiameterOf (ln : LayoutNode) : R :=
  match parent ln with
  | Some pl => ownDiameter (stem pl)
  | None => 0
  end.

(** Every clump of the store holds a longest leaf length above zero. *)
Definition lengths_positive (H : hierarchyLevels) : Prop :=
  forall d k c, getClump H d k = Some c -> 0 < longestLeafLength c.

(** The sum of [f] over a list. *)
Definition sumOver {A : Type} (f : A -> R) (l : list A) : R :=
  fold_left (fun t x => t + f x) l 0.

(** The nodes of the clumps of a level, in the order of the level. *)
Definition levelKeys (H : hierarchyLevels) (depth : nat) : list nat :=
  match mget depth H with
  | Some lvl => mkeys (clumps lvl)
  | None => []
  end.

(** The children that the clump of [k] at [depth] lists. *)
Definition childrenAt (H : hierarchyLevels) (depth k : nat) : list nat :=
  match getClump H depth k with
  | Some c => childClumps c
  | None => []
  end.

(** The clump of [k] at [depth] lists no child. *)
Definition childless (H : hierarchyLevels) (depth k : nat) : bool :=
  match childrenAt H depth k with
  | [] => true
  | _ :: _ => false
  end.

(** The units of the clumps without children, summed over the levels. *)
Definition childlessUnits (H : hierarchyLevels) : R :=
  sumOver (fun depth =>
             sumSiblingUnits H depth
               (filter (childless H depth) (levelKeys H depth)))
          (seq 0 (List.length H)).

(** A path of midpoints of the run below [prev]: every node of [ids] is a
    midpoint of the run, and the parent of each is the node before it. *)
Fixpoint pathFrom (na : NodeAllocation) (prev : option nat) (ids : list nat)
  : Prop :=
  match ids with
  | [] => True
  | a :: rest =>
      (exists m, mget a (midPoints na) = Some m
                 /\ match prev with
                    | Some p => node_parentId (node m) = p
                    | None => True
                    end)
      /\ pathFrom na (Some a) rest
  end.

(** The run is a tree: the ancestors of every leaf are midpoints of the
    run, each the parent of the next, and the last one is the parent of
    the leaf. *)
Definition tree_shaped (na : NodeAllocation) : Prop :=
  forall l, In l (mvalues (leaves na)) ->
    pathFrom na None (leafAncestors l)
    /\ last (leafAncestors l) (node_parentId (node l)) = node_parentId (node l).

(** The parent clump [par] of the clump of [k] is that of the parent of
    the node: of the midpoint [k], or of a leaf [k] among [processed]. *)
Definition parent_ok (na : NodeAllocation) (processed : list LayoutNode)
    (k : nat) (par : option nat) : Prop :=
  match mget k (midPoints na) with
  | Some m => par = Some (node_parentId (node m))
  | None => exists l, In l processed /\ node_id (node l) = k
                      /\ par = Some (node_parentId (node l))
  end.

(** Every clump below the top level has the clump of the parent of its
    node as its parent clump. *)
Definition parents_linked (na : NodeAllocation) (processed : list LayoutNode)
    (H : hierarchyLevels) : Prop :=
  forall d k c, getClump H (S d) k = Some c ->
                parent_ok na processed k (parentClump c).

(** The last node met on a walk down [ids] that starts below [prev]. *)
Definition lastOr (prev : option nat) (ids : list nat) : option nat :=
  fold_left (fun _ a => Some a) ids prev.

(** The clump one level above [depth] that a walk which has come down to
    [depth] below [prev] has left: that of [prev]. *)
Definition above_indexed (H : hierarchyLevels) (prev : option nat) (depth : nat)
  : Prop :=
  match prev with
  | None => depth = 0%nat
  | Some p => forall d', depth = S d' -> getClump H d' p <> None
  end.

(** ** Further sample values *)

(** The clumps of the tree with two levels of clumps when they have been
    indexed and no units are assigned yet. *)
Definition two_levels_index : hierarchyLevels :=
  [ (0%nat, mkLevel 0 [(1%nat, mkClump 1 None [3; 2]%nat 60 None)] None);
    (1%nat, mkLevel 1 [(3%nat, mkClump 3 (Some 1%nat) [] 60 None);
                       (2%nat, mkClump 2 (Some 1%nat) [4; 5]%nat 60 None)]
                      None);
    (2%nat, mkLevel 2 [(4%nat, mkClump 4 (Some 2%nat) [] 60 None);
                       (5%nat, mkClump 5 (Some 2%nat) [] 60 None)]
                      None) ].

(** A root with a midpoint between it and one of its three leaves: root
    1 has the midpoint 5 and the leaves 3 and 4 as children, and 5 has the
    leaf 2; the total stem lengths of the leaves 2, 3 and 4 are 10, 80 and
    10, on the canvas of the three leaves. *)
Module Chain.
Definition n1 : LayoutNode :=
  mkLayoutNode (mkNode 1 0 [5; 3; 4]%nat) (mkStem 0 0 0 [] [2; 3; 4]%nat) None.
Definition n5 : LayoutNode :=
  mkLayoutNode (mkNode 5 1 [2%nat]) (mkStem 0 0 25 [1%nat] [2%nat]) (Some n1).
Definition n2 : LayoutNode :=
  mkLayoutNode (mkNode 2 5 []) (mkStem 10 0 10 [1; 5]%nat []) (Some n5).
Definition n3 : LayoutNode :=
  mkLayoutNode (mkNode 3 1 []) (mkStem 80 0 40 [1%nat] []) (Some n1).
Definition n4 : LayoutNode :=
  mkLayoutNode (mkNode 4 1 []) (mkStem 10 0 25 [1%nat] []) (Some n1).

Definition layoutNodes : jsmap LayoutNode :=
  [(1, n1); (5, n5); (2, n2); (3, n3); (4, n4)]%nat.

Definition allocation : NodeAllocation :=
  mkNodeAllocation ThreeLeaves.layout layoutNodes
    [(1, initialPosition); (5, initialPosition); (2, initialPosition);
     (3, initialPosition); (4, initialPosition)]%nat
    [(2, n2); (3, n3); (4, n4)]%nat
    [(1, n1); (5, n5)]%nat
    [(1, n1)]%nat
    (segments ThreeLeaves.allocation) 200.

(** The run after its third phase. *)
Definition projected : NodeAllocation :=
  with_positions (with_segments allocation (segments ThreeLeaves.walked))
    [ (1%nat, Position.mk 1 None 0 0);
      (5%nat, Position.mk (1 / 10) None 0 0);
      (2%nat, Position.mk (1 / 10) (Some 10) 10 40);
      (3%nat, Position.mk (8 / 10) (Some 100) 50 90);
      (4%nat, Position.mk (1 / 10) (Some 190) 90 40) ].

(** The run after its fourth phase in length-constrained mode. *)
Definition placed : NodeAllocation :=
  with_positions projected
    [ (1%nat, Position.mk 1 None 50 10);
      (5%nat, Position.mk (1 / 10) None 30 25);
      (2%nat, Position.mk (1 / 10) (Some 10) 10 40);
      (3%nat, Position.mk (8 / 10) (Some 100) 50 90);
      (4%nat, Position.mk (1 / 10) (Some 190) 90 40) ].

(** The run at its end, in the two placement modes. *)
Definition constrained : NodeAllocation :=
  with_positions projected
    [ (1%nat, Position.mk 1 None 50 10);
      (5%nat, Position.mk (1 / 10) None 30 25);
      (2%nat, Position.mk (1 / 10) (Some 10) 22 31);
      (3%nat, Position.mk (8 / 10) (Some 100) 50 50);
      (4%nat, Position.mk (1 / 10) (Some 190) 70 25) ].

Definition spider : NodeAllocation :=
  with_positions projected
    [ (1%nat, Position.mk 1 None 50 10);
      (5%nat, Position.mk (1 / 10) None 35 45);
      (2%nat, Position.mk (1 / 10) (Some 10) 10 40);
      (3%nat, Position.mk (8 / 10) (Some 100) 50 90);
      (4%nat, Position.mk (1 / 10) (Some 190) 90 40) ].
End Chain.

(** A run of one leaf whose parent is not a layout node of the run, on
    the canvas of the three leaves. *)
Module SingleLeaf.
Definition n2 : LayoutNode :=
  mkLayoutNode (mkNode 2 1 []) (mkStem 1 0 40 [1%nat] []) None.

Definition layoutNodes : jsmap LayoutNode := [(2%nat, n2)].

Definition allocation : NodeAllocation :=
  mkNodeAllocation ThreeLeaves.layout layoutNodes
    [(2%nat, initialPosition)] [(2%nat, n2)] [] []
    (segments ThreeLeaves.allocation) 200.

(** The clumps of the run: the level of the parent holds no clump. *)
Definition hierarchy : hierarchyLevels :=
  [ (0%nat, mkLevel 0 [] (Some 0));
    (1%nat, mkLevel 1 [(2%nat, mkClump 2 None [] 1 (Some 1))] (Some 1)) ].

Definition projected : NodeAllocation :=
  with_positions
    (with_segments allocation
       [ mkSegment (Some "LHS"%string) ThreeLeaves.lhs 0 60 [];
         mkSegment (Some "BOT"%string) ThreeLeaves.bot 60 140
                   [mkSpaceBlock 2 0 200 100];
         mkSegment (Some "RHS"%string) ThreeLeaves.rhs 140 200 [] ])
    [ (2%nat, Position.mk 1 (Some 100) 50 90) ].

Definition final : NodeAllocation :=
  with_positions projected [ (2%nat, Position.mk 1 (Some 100) 50 50) ].
End SingleLeaf.

(** A run of one leaf whose total stem length is zero. *)
Module NoLength.
Definition n2 : LayoutNode :=
  mkLayoutNode (mkNode 2 1 []) (mkStem 0 0 40 [1%nat] []) None.

Definition allocation : NodeAllocation :=
  mkNodeAllocation ThreeLeaves.layout [(2%nat, n2)]
    [(2%nat, initialPosition)] [(2%nat, n2)] [] []
    (segments ThreeLeaves.allocation) 200.
End NoLength.
(** * Properties *)

(** ** Comparisons on concrete numbers *)

Lemma Rltb_true (a b : R) : a < b -> Rltb a b = true.
Proof. intros H. unfold Rltb. destruct (Rlt_dec a b); [reflexivity | contradiction]. Qed.

Lemma Rltb_false (a b : R) : b <= a -> Rltb a b = false.
Proof. intros H. unfold Rltb. destruct (Rlt_dec a b); [lra | reflexivity]. Qed.

Lemma Rltb_iff (a b : R) : Rltb a b = true <-> a < b.
Proof.
  unfold Rltb. destruct (Rlt_dec a b); split; intros; try assumption;
    try reflexivity; try discriminate; contradiction.
Qed.

Lemma Rleb_true (a b : R) : a <= b -> Rleb a b = true.
Proof. intros H. unfold Rleb. destruct (Rle_dec a b); [reflexivity | contradiction]. Qed.

Lemma Rleb_false (a b : R) : b < a -> Rleb a b = false.
Proof. intros H. unfold Rleb. destruct (Rle_dec a b); [lra | reflexivity]. Qed.

Lemma Reqb_true (a b : R) : a = b -> Reqb a b = true.
Proof. intros H. unfold Reqb. destruct (Req_dec_T a b); [reflexivity | contradiction]. Qed.

Lemma Reqb_false (a b : R) : a <> b -> Reqb a b = false.
Proof. intros H. unfold Reqb. destruct (Req_dec_T a b); [contradiction | reflexivity]. Qed.

(** Decide every comparison of the goal whose operands are concrete. *)
Ltac Rdecide :=
  repeat match goal with
    | |- context [Rltb ?a ?b] =>
        first [ rewrite (Rltb_true a b) by lra
              | rewrite (Rltb_false a b) by lra ]
    | |- context [Rleb ?a ?b] =>
        first [ rewrite (Rleb_true a b) by lra
              | rewrite (Rleb_false a b) by lra ]
    | |- context [Reqb ?a ?b] =>
        first [ rewrite (Reqb_true a b) by lra
              | rewrite (Reqb_false a b) by lra ]
    | |- context [Rmax ?a ?b] =>
        first [ rewrite (Rmax_left a b) by lra
              | rewrite (Rmax_right a b) by lra ]
    end.

Lemma jsdiv_inv (a b r : R) : jsdiv a b = Finite r -> b <> 0 /\ r = a / b.
Proof.
  unfold jsdiv, Reqb. destruct (Req_dec_T b 0); intros H; [discriminate |].
  inversion H. split; [assumption | reflexivity].
Qed.

Lemma validateStat_inv (n : number) (r : R) :
  validateStat n false = Ok r -> n = Finite r.
Proof. destruct n; simpl; intros H; inversion H; reflexivity. Qed.

(** ** Scale *)

(** C7. For every [n], the line length of [n] is [n] times the scale
    factor, and the circle radius of [n] is that line length divided by
    two pi; so the radius is [(n * scaleFactor) / (2 pi)], as the tests
    compute it. *)
Theorem scale_queries (sc : Scale.t) (n : R) :
  Scale.getLineLength sc n = n * Scale.scaleFactor sc
  /\ Scale.getCircleRadius sc n = Scale.getLineLength sc n / (2 * PI)
  /\ Scale.getCircleRadius sc n = (n * Scale.scaleFactor sc) / (2 * PI).
Proof. repeat split. Qed.

(** ** Results and loops *)

Lemma bind_Ok {A B : Type} (m : result A) (f : A -> result B) (b : B) :
  bind m f = Ok b -> exists a, m = Ok a /\ f a = Ok b.
Proof. destruct m as [a | e]; simpl; intros H; [eauto | discriminate]. Qed.

Lemma bind_Err_inv {A B : Type} (m : result A) (f : A -> result B) (e : error) :
  bind m f = Err e -> m = Err e \/ exists a, m = Ok a /\ f a = Err e.
Proof.
  destruct m as [a | e']; simpl; intros H; [eauto |].
  left. inversion H. reflexivity.
Qed.

Lemma deref_Err {A : Type} (o : option A) (e : error) :
  deref o = Err e -> e = TypeError.
Proof. destruct o; simpl; intros H; inversion H; reflexivity. Qed.

Lemma deref_Ok {A : Type} (o : option A) (a : A) : deref o = Ok a -> o = Some a.
Proof. destruct o; simpl; intros H; inversion H; reflexivity. Qed.

(** Split a successful sequence of binds in a hypothesis. *)
Ltac inv_bind H :=
  let a := fresh "a" in
  let H1 := fresh "H" in
  apply bind_Ok in H; destruct H as (a & H1 & H).

Lemma foldM_cons {A B : Type} (f : A -> B -> result A) (b : B) (l : list B)
    (a r : A) :
  foldM f (b :: l) a = Ok r -> exists a', f a b = Ok a' /\ foldM f l a' = Ok r.
Proof. simpl. apply bind_Ok. Qed.

Lemma foldM_app {A B : Type} (f : A -> B -> result A) (l1 l2 : list B) (a : A) :
  foldM f (l1 ++ l2) a = bind (foldM f l1 a) (foldM f l2).
Proof.
  revert a. induction l1 as [| b l1 IH]; intros a; simpl; [reflexivity |].
  destruct (f a b); simpl; [apply IH | reflexivity].
Qed.

(** A loop all of whose steps throw the same kind of error, if they
    throw, throws that kind. *)
Lemma foldM_error_kind {A B : Type} (f : A -> B -> result A) (e0 : error)
    (l : list B) :
  (forall a b e, f a b = Err e -> e = e0) ->
  forall a e, foldM f l a = Err e -> e = e0.
Proof.
  intros Hstep. induction l as [| b l IH]; intros a e Hrun; simpl in Hrun.
  - discriminate.
  - destruct (f a b) as [a' | e'] eqn:E; simpl in Hrun.
    + apply (IH a' e Hrun).
    + inversion Hrun; subst. apply (Hstep a b e E).
Qed.

(** ** JavaScript maps *)

Section JsMapFacts.
Context {V : Type}.
Implicit Types (m : jsmap V) (k : nat) (v : V).

Lemma mget_mset_same k v m : mget k (mset k v m) = Some v.
Proof.
  induction m as [| [k' v'] m IH]; simpl.
  - rewrite Nat.eqb_refl. reflexivity.
  - destruct (Nat.eqb k k') eqn:E; simpl.
    + rewrite Nat.eqb_refl. reflexivity.
    + rewrite E. exact IH.
Qed.

Lemma mget_mset_other k k' v m : k <> k' -> mget k (mset k' v m) = mget k m.
Proof.
  intros Hne. induction m as [| [k'' v''] m IH]; simpl.
  - apply Nat.eqb_neq in Hne. rewrite Hne. reflexivity.
  - destruct (Nat.eqb k' k'') eqn:E; simpl.
    + apply Nat.eqb_eq in E. subst k''.
      apply Nat.eqb_neq in Hne. rewrite Hne. reflexivity.
    + rewrite IH. reflexivity.
Qed.

Lemma mget_Some_In k v m : mget k m = Some v -> In (k, v) m.
Proof.
  induction m as [| [k' v'] m IH]; simpl; [discriminate |].
  destruct (Nat.eqb k k') eqn:E.
  - apply Nat.eqb_eq in E. intros H. inversion H; subst. left. reflexivity.
  - intros H. right. exact (IH H).
Qed.

Lemma mget_None_keys k m : mget k m = None <-> ~ In k (mkeys m).
Proof.
  induction m as [| [k' v'] m IH]; simpl.
  - split; [intros _ [] | reflexivity].
  - destruct (Nat.eqb k k') eqn:E.
    + apply Nat.eqb_eq in E. split; [discriminate | intros H; exfalso; auto].
    + apply Nat.eqb_neq in E. rewrite IH. split; intros H; [intros [H' | H'] |]; auto.
Qed.

Lemma In_mget k v m : NoDup (mkeys m) -> In (k, v) m -> mget k m = Some v.
Proof.
  induction m as [| [k' v'] m IH]; simpl; intros Hnd Hin; [contradiction |].
  inversion Hnd as [| ? ? Hnot Hnd']; subst.
  destruct Hin as [E | Hin].
  - inversion E; subst. rewrite Nat.eqb_refl. reflexivity.
  - destruct (Nat.eqb k k') eqn:E.
    + apply Nat.eqb_eq in E. subst k'. exfalso. apply Hnot.
      change k with (fst (k, v)). apply in_map. exact Hin.
    + apply IH; assumption.
Qed.

Lemma mkeys_mset k v m :
  mkeys (mset k v m) = if mhas k m then mkeys m else mkeys m ++ [k].
Proof.
  unfold mhas. induction m as [| [k' v'] m IH]; simpl; [reflexivity |].
  destruct (Nat.eqb k k') eqn:E; simpl.
  - apply Nat.eqb_eq in E. subst. reflexivity.
  - rewrite IH. destruct (mget k m); reflexivity.
Qed.

Lemma NoDup_mkeys_mset k v m : NoDup (mkeys m) -> NoDup (mkeys (mset k v m)).
Proof.
  intros Hnd. rewrite mkeys_mset. unfold mhas.
  destruct (mget k m) eqn:E; [assumption |].
  apply mget_None_keys in E.
  rewrite <- (rev_involutive (mkeys m ++ [k])). apply NoDup_rev.
  rewrite rev_app_distr. simpl. constructor.
  - rewrite <- in_rev. exact E.
  - apply NoDup_rev. exact Hnd.
Qed.

End JsMapFacts.

Lemma write_position_Ok (k : nat) (f : Position.t -> Position.t)
    (pos pos' : jsmap Position.t) :
  write_position k f pos = Ok pos' ->
  exists p, mget k pos = Some p /\ pos' = mset k (f p) pos.
Proof.
  unfold write_position. intros H. inv_bind H. apply deref_Ok in H0.
  inversion H; subst. eauto.
Qed.

(** ** Perimeter *)

Section Perimeter.
Context {LC : LineCoordinates}.

Lemma fold_toLargestDiameter (rts : list LayoutNode) (a : R) :
  a <= fold_left toLargestDiameter rts a
  /\ (forall r, In r rts -> ownDiameter (stem r) <= fold_left toLargestDiameter rts a)
  /\ (fold_left toLargestDiameter rts a = a
      \/ exists r, In r rts /\ fold_left toLargestDiameter rts a = ownDiameter (stem r)).
Proof.
  revert a. induction rts as [| r rts IH]; intros a; simpl.
  - split; [lra |]. split; [intros r [] | left; reflexivity].
  - destruct (IH (toLargestDiameter a r)) as (Hge & Hall & Hatt).
    assert (Ha : a <= toLargestDiameter a r) by apply Rmax_l.
    assert (Hr : ownDiameter (stem r) <= toLargestDiameter a r) by apply Rmax_r.
    split; [lra |]. split.
    + intros r' [<- | Hin]; [lra | apply Hall; assumption].
    + destruct Hatt as [E | (r' & Hin & E)].
      * destruct (Rle_dec a (ownDiameter (stem r))) as [Hle | Hgt].
        -- right. exists r. split; [left; reflexivity |].
           rewrite E. unfold toLargestDiameter. apply Rmax_right. exact Hle.
        -- left. rewrite E. unfold toLargestDiameter. apply Rmax_left. lra.
      * right. exists r'. split; [right; assumption | assumption].
Qed.

Lemma nth_error_snoc_last {A : Type} (l : list A) (a : A) :
  nth_error (l ++ [a]) (List.length (l ++ [a]) - 1) = Some a.
Proof.
  rewrite length_app. simpl. replace (List.length l + 1 - 1)%nat with (List.length l) by lia.
  rewrite nth_error_app2 by lia. rewrite Nat.sub_diag. reflexivity.
Qed.

Lemma initializeSegments_loop_snoc (coordinates : list Coordinate) :
  forall (segs : list LinearSpaceSegment) (s : LinearSpaceSegment) (total : R),
    initializeSegments_loop false coordinates (segs ++ [s]) total
    = Ok ((segs ++ [s]) ++ endToEnd (seg_end s) coordinates,
          fold_left (fun t c => t + line_length c) coordinates total).
Proof.
  induction coordinates as [| c rest IH]; intros segs s total.
  - simpl. rewrite app_nil_r. reflexivity.
  - simpl. rewrite nth_error_snoc_last. simpl.
    rewrite (IH (segs ++ [s]) (newSegment c (seg_end s)) (total + line_length c)).
    rewrite <- (app_assoc (segs ++ [s])). reflexivity.
Qed.

(** Construction lays the segments end to end from 0, and the space
    available is the sum of the lengths of their lines. *)
Lemma initializeSegments_endToEnd (coordinates : list Coordinate) :
  initializeSegments coordinates
  = Ok (endToEnd 0 coordinates,
        fold_left (fun t c => t + line_length c) coordinates 0).
Proof.
  unfold initializeSegments. destruct coordinates as [| c rest]; [reflexivity |].
  simpl.
  pose proof (initializeSegments_loop_snoc rest [] (newSegment c 0)
                (0 + line_length c)) as H.
  simpl in H. rewrite H. reflexivity.
Qed.



(** C9. The three-sided perimeter has its top border at the edge distance
    plus the larger of a fifth of the final height and the largest own
    diameter among the roots (zero when there is no larger one); its three
    segments begin at 0 and each begins where the previous one ends, and
    the space available is the sum of the lengths of the three lines. *)
Theorem three_sided_perimeter (l : Layout) (rts : jsmap LayoutNode) :
  let d := svgDistanceFromEdge (settings l) in
  let h := Scale.finalSvgHeight (scale l) in
  let largest := largestRootDiameter rts in
  let top := d + Rmax (h * 0.2) largest in
  (forall r, In r (mvalues rts) -> ownDiameter (stem r) <= largest)
  /\ (largest = 0 \/ exists r, In r (mvalues rts) /\ largest = ownDiameter (stem r))
  /\ exists lhs bot rhs,
      threeSided l rts = Ok [lhs; bot; rhs]
      /\ y1 lhs = top /\ y2 rhs = top
      /\ exists s1 s2 s3 total,
          initializeSegments [lhs; bot; rhs] = Ok ([s1; s2; s3], total)
          /\ seg_begin s1 = 0
          /\ seg_end s1 = seg_begin s1 + line_length lhs
          /\ seg_begin s2 = seg_end s1
          /\ seg_end s2 = seg_begin s2 + line_length bot
          /\ seg_begin s3 = seg_end s2
          /\ seg_end s3 = seg_begin s3 + line_length rhs
          /\ total = line_length lhs + line_length bot + line_length rhs.
Proof.
  intros d h largest top.
  destruct (fold_toLargestDiameter (mvalues rts) 0) as (_ & Hall & Hatt).
  split; [exact Hall |]. split; [exact Hatt |].
  unfold threeSided. simpl.
  eexists _, _, _. split; [reflexivity |].
  split; [reflexivity |]. split; [reflexivity |].
  unfold initializeSegments. simpl.
  eexists _, _, _, _. split; [reflexivity |]. simpl.
  repeat split; try reflexivity. lra.
Qed.

End Perimeter.

(** ** Loops over position records *)

Lemma foldM_split {A B : Type} (f : A -> B -> result A) (l : list B) (b : B)
    (a r : A) :
  In b l -> foldM f l a = Ok r ->
  exists l1 l2 a1 a2,
    l = l1 ++ b :: l2 /\ foldM f l1 a = Ok a1 /\ f a1 b = Ok a2
    /\ foldM f l2 a2 = Ok r.
Proof.
  intros Hin Hrun. apply in_split in Hin. destruct Hin as (l1 & l2 & ->).
  rewrite foldM_app in Hrun. inv_bind Hrun. apply foldM_cons in Hrun.
  destruct Hrun as (a2 & Hstep & Hrest).
  exists l1, l2, a0, a2. auto.
Qed.

Lemma foldM_abort {A B : Type} (f : A -> B -> result A) (l : list B) (b : B) :
  In b l -> (forall a, exists e, f a b = Err e) ->
  forall a, exists e, foldM f l a = Err e.
Proof.
  intros Hin Hb a. destruct (foldM f l a) as [r | e] eqn:Hrun; [| eauto].
  destruct (foldM_split f l b a r Hin Hrun) as (l1 & l2 & a1 & a2 & _ & _ & Hstep & _).
  destruct (Hb a1) as (e & He). congruence.
Qed.

(** A loop each step of which writes only the record of its own node
    leaves the records of all other nodes as they were. *)
Lemma foldM_frame {B V : Type} (f : jsmap V -> B -> result (jsmap V))
    (key : B -> nat) (l : list B) :
  (forall a b a', f a b = Ok a' -> forall k, k <> key b -> mget k a' = mget k a) ->
  forall a r, foldM f l a = Ok r ->
  forall k, ~ In k (map key l) -> mget k r = mget k a.
Proof.
  intros Hstep. induction l as [| b l IH]; intros a r Hrun k Hk; simpl in Hrun.
  - inversion Hrun; reflexivity.
  - inv_bind Hrun. simpl in Hk.
    rewrite (IH a0 r Hrun k) by tauto.
    apply (Hstep a b a0 H). intros E. apply Hk. left. symmetry. exact E.
Qed.

Lemma NoDup_app_cons_not_In {A : Type} (l1 l2 : list A) (a : A) :
  NoDup (l1 ++ a :: l2) -> ~ In a l1 /\ ~ In a l2.
Proof.
  intros Hnd. apply NoDup_remove_2 in Hnd. rewrite in_app_iff in Hnd. tauto.
Qed.

(** The four lines that validate and store a pair of coordinates. *)
Lemma write_xy_Ok (k : nat) (x y : number) (pos pos' : jsmap Position.t) :
  (vx <- validateStat x false ;;
   pos1 <- write_position k (Position.set_x vx) pos ;;
   vy <- validateStat y false ;;
   write_position k (Position.set_y vy) pos1) = Ok pos' ->
  exists p vx vy,
    x = Finite vx /\ y = Finite vy /\ mget k pos = Some p
    /\ mget k pos' = Some (Position.mk (Position.units p) (Position.offset p) vx vy)
    /\ forall k', k' <> k -> mget k' pos' = mget k' pos.
Proof.
  intros H. inv_bind H. inv_bind H. inv_bind H.
  apply validateStat_inv in H0, H2.
  apply write_position_Ok in H1, H. destruct H1 as (p & Hp & ->).
  destruct H as (p' & Hp' & ->). rewrite mget_mset_same in Hp'.
  inversion Hp'; subst p'.
  exists p, a, a1. repeat split; try assumption.
  - rewrite mget_mset_same. reflexivity.
  - intros k' Hk'. rewrite !mget_mset_other by assumption. reflexivity.
Qed.

(** ** Midpoints *)

Section Midpoints.
Context {LC : LineCoordinates}.

Lemma midpoint_step_frame (na : NodeAllocation) (mode : placementMode)
    (pos : jsmap Position.t) (ln : LayoutNode) (pos' : jsmap Position.t) :
  midpoint_step na mode pos ln = Ok pos' ->
  forall k, k <> node_id (node ln) -> mget k pos' = mget k pos.
Proof.
  unfold midpoint_step. intros H k Hk.
  destruct (mget (node_parentId (node ln)) (layoutNodes na)).
  - inv_bind H. inv_bind H. destruct a0 as [sx sy]. inv_bind H.
    destruct mode.
    + inv_bind H. inv_bind H. inv_bind H. inv_bind H.
      destruct (pointAtLength _ _) as [x y].
      apply write_xy_Ok in H. destruct H as (? & ? & ? & _ & _ & _ & _ & Hf).
      apply Hf. exact Hk.
    + inv_bind H.
      apply write_xy_Ok in H. destruct H as (? & ? & ? & _ & _ & _ & _ & Hf).
      apply Hf. exact Hk.
  - apply write_xy_Ok in H. destruct H as (? & ? & ? & _ & _ & _ & _ & Hf).
    apply Hf. exact Hk.
Qed.

Lemma midpoint_step_root (na : NodeAllocation) (mode : placementMode)
    (pos pos' : jsmap Position.t) (ln : LayoutNode) :
  mget (node_parentId (node ln)) (layoutNodes na) = None ->
  midpoint_step na mode pos ln = Ok pos' ->
  exists p,
    mget (node_id (node ln)) pos' = Some p
    /\ Position.x p = svgWidth (settings (layout na)) / 2
    /\ Position.y p = svgDistanceFromEdge (settings (layout na))
                      + ownDiameter (stem ln) / 2.
Proof.
  unfold midpoint_step. intros -> H.
  apply write_xy_Ok in H.
  destruct H as (p & vx & vy & Hx & Hy & _ & Hget & _).
  inversion Hx; inversion Hy; subst.
  eexists. split; [exact Hget |]. simpl. auto.
Qed.

(** What the code does for a midpoint with a parent in spider mode: the
    midpoint goes to the centroid of its leaf positions plus half of the
    position of its parent. *)
Lemma midpoint_step_spider (na : NodeAllocation) (pos pos' : jsmap Position.t)
    (ln : LayoutNode) :
  mget (node_parentId (node ln)) (layoutNodes na) <> None ->
  midpoint_step na SPIDER pos ln = Ok pos' ->
  exists sx sy pp p,
    foldM leafCenter_step (leafPositions na pos (stem ln)) (0, 0) = Ok (sx, sy)
    /\ mget (node_parentId (node ln)) pos = Some pp
    /\ mget (node_id (node ln)) pos' = Some p
    /\ Position.x p
       = sx / INR (List.length (leafPositions na pos (stem ln))) + Position.x pp / 2
    /\ Position.y p
       = sy / INR (List.length (leafPositions na pos (stem ln))) + Position.y pp / 2.
Proof.
  unfold midpoint_step. intros Hparent H.
  destruct (mget (node_parentId (node ln)) (layoutNodes na)); [| congruence].
  apply bind_Ok in H. destruct H as (pl & _ & H).
  apply bind_Ok in H. destruct H as ([sx sy] & Hsum & H).
  apply bind_Ok in H. destruct H as (n & _ & H).
  apply bind_Ok in H. destruct H as (pp & Hpp & H).
  apply deref_Ok in Hpp. apply write_xy_Ok in H.
  destruct H as (p0 & vx & vy & Hx & Hy & _ & Hget & _).
  inversion Hx; inversion Hy; subst.
  exists sx, sy, pp. eexists. split; [exact Hsum |]. split; [exact Hpp |].
  split; [exact Hget |]. simpl. split; reflexivity.
Qed.

(** *** Phases and the inputs of the run *)

Lemma sameInputs_refl (na : NodeAllocation) : sameInputs na na.
Proof. unfold sameInputs. auto. Qed.

Lemma sameInputs_trans (na1 na2 na3 : NodeAllocation) :
  sameInputs na1 na2 -> sameInputs na2 na3 -> sameInputs na1 na3.
Proof.
  unfold sameInputs. intros (A1 & A2 & A3 & A4 & A5) (B1 & B2 & B3 & B4 & B5).
  repeat split; congruence.
Qed.

Lemma sameInputs_with_positions (na : NodeAllocation) (pos : jsmap Position.t) :
  sameInputs na (with_positions na pos).
Proof. unfold sameInputs. simpl. auto. Qed.

Lemma sameInputs_with_segments (na : NodeAllocation) (segs : list LinearSpaceSegment) :
  sameInputs na (with_segments na segs).
Proof. unfold sameInputs. simpl. auto. Qed.

Lemma convert_sameInputs (na na' : NodeAllocation) :
  convertTotalStemLengthsToUnits na = Ok na' ->
  sameInputs na na' /\ segments na' = segments na.
Proof.
  unfold convertTotalStemLengthsToUnits. intros H. inv_bind H.
  destruct a as [Hs pos]. inversion H; subst.
  split; [apply sameInputs_with_positions | reflexivity].
Qed.

Lemma offsets_sameInputs (na na' : NodeAllocation) :
  calculate1DLinearOffsets na = Ok na' -> sameInputs na na'.
Proof.
  unfold calculate1DLinearOffsets. intros H. inv_bind H.
  destruct a as [[cb segs] pos]. inversion H; subst.
  eapply sameInputs_trans;
    [apply sameInputs_with_positions | apply sameInputs_with_segments].
Qed.

Lemma leafCoordinates_sameInputs (na na' : NodeAllocation) :
  calculate2DLeafCoordinates na = Ok na' ->
  sameInputs na na' /\ segments na' = segments na.
Proof.
  unfold calculate2DLeafCoordinates. intros H. inv_bind H. inversion H; subst.
  split; [apply sameInputs_with_positions | reflexivity].
Qed.

Lemma midpoints_sameInputs (mode : placementMode) (na na' : NodeAllocation) :
  calculate2DMidpointCoordinates mode na = Ok na' ->
  sameInputs na na' /\ segments na' = segments na.
Proof.
  unfold calculate2DMidpointCoordinates. intros H. inv_bind H. inversion H; subst.
  split; [apply sameInputs_with_positions | reflexivity].
Qed.

Lemma process_phases (mode : placementMode) (na na' : NodeAllocation) :
  process mode na = Ok na' ->
  exists na1 na2 na3 na4,
    convertTotalStemLengthsToUnits na = Ok na1
    /\ calculate1DLinearOffsets na1 = Ok na2
    /\ calculate2DLeafCoordinates na2 = Ok na3
    /\ calculate2DMidpointCoordinates mode na3 = Ok na4
    /\ match mode with
       | LENGTH_CONSTRAINED => constrain2DLeafCoordinates na4 = Ok na'
       | SPIDER => na' = na4
       end
    /\ sameInputs na na3 /\ sameInputs na na4.
Proof.
  unfold process. intros H. inv_bind H. inv_bind H. inv_bind H. inv_bind H.
  exists a, a0, a1, a2.
  assert (S3 : sameInputs na a1).
  { eapply sameInputs_trans; [apply convert_sameInputs; eassumption |].
    eapply sameInputs_trans; [apply offsets_sameInputs; eassumption |].
    apply leafCoordinates_sameInputs; assumption. }
  assert (S4 : sameInputs na a2).
  { eapply sameInputs_trans; [exact S3 |].
    eapply midpoints_sameInputs; eassumption. }
  repeat (split; [assumption |]).
  split; [| split; assumption].
  destruct mode; [assumption | inversion H; reflexivity].
Qed.

Lemma constrain_step_frame (na : NodeAllocation) (pos : jsmap Position.t)
    (ln : LayoutNode) (pos' : jsmap Position.t) :
  constrain_step na pos ln = Ok pos' ->
  forall k, k <> node_id (node ln) -> mget k pos' = mget k pos.
Proof.
  unfold constrain_step. intros H k Hk. inv_bind H.
  destruct (pointAtLength _ _) as [x y].
  apply write_xy_Ok in H. destruct H as (? & ? & ? & _ & _ & _ & _ & Hf).
  apply Hf. exact Hk.
Qed.

(** C6. A midpoint whose parent is not among the layout nodes of the run
    ends the run at the top-centre anchor: its x is half the width and its
    y is the edge distance plus half its own diameter. *)
Theorem root_midpoint_anchor (mode : placementMode) (na na' : NodeAllocation)
    (m : LayoutNode) :
  NoDup (nodeIds (midPoints na)) ->
  ~ In (node_id (node m)) (nodeIds (leaves na)) ->
  In m (mvalues (midPoints na)) ->
  mget (node_parentId (node m)) (layoutNodes na) = None ->
  process mode na = Ok na' ->
  exists p,
    mget (node_id (node m)) (nodeToPosition na') = Some p
    /\ Position.x p = svgWidth (settings (layout na)) / 2
    /\ Position.y p = svgDistanceFromEdge (settings (layout na))
                      + ownDiameter (stem m) / 2.
Proof.
  intros Hnd Hleaf Hin Hroot Hrun.
  destruct (process_phases mode na na' Hrun)
    as (na1 & na2 & na3 & na4 & _ & _ & _ & Hmid & Hlast & S3 & S4).
  destruct S3 as (L3 & N3 & V3 & M3 & _).
  destruct S4 as (L4 & N4 & V4 & M4 & _).
  assert (Hanchor : exists p,
             mget (node_id (node m)) (nodeToPosition na4) = Some p
             /\ Position.x p = svgWidth (settings (layout na)) / 2
             /\ Position.y p = svgDistanceFromEdge (settings (layout na))
                               + ownDiameter (stem m) / 2).
  { unfold calculate2DMidpointCoordinates in Hmid. inv_bind Hmid.
    inversion Hmid; subst na4. simpl. rewrite M3 in H.
    destruct (foldM_split _ _ m _ _ Hin H)
      as (l1 & l2 & a1 & a2 & Hl & _ & Hstep & Hrest).
    rewrite <- N3 in Hroot.
    destruct (midpoint_step_root na3 mode a1 a2 m Hroot Hstep) as (p & Hp & Hx & Hy).
    exists p. rewrite <- L3. split; [| split; assumption].
    rewrite <- Hp.
    apply (foldM_frame (midpoint_step na3 mode) (fun ln => node_id (node ln)) l2
             (midpoint_step_frame na3 mode) a2 a Hrest).
    unfold nodeIds in Hnd. rewrite Hl, map_app in Hnd. simpl in Hnd.
    apply NoDup_app_cons_not_In in Hnd. tauto. }
  destruct mode.
  - destruct Hanchor as (p & Hp & Hxy). exists p. split; [| exact Hxy].
    rewrite <- Hp.
    unfold constrain2DLeafCoordinates in Hlast. inv_bind Hlast.
    inversion Hlast; subst na'. simpl.
    apply (foldM_frame (constrain_step na4) (fun ln => node_id (node ln)) _
             (constrain_step_frame na4) _ _ H).
    rewrite V4. exact Hleaf.
  - subst na'. exact Hanchor.
Qed.

(** C8. Positioning a midpoint whose parent is in the run and none of
    whose descendant leaves is a leaf of the run fails: the count of leaf
    positions, zero, is rejected by the validator before the division, the
    loop over the midpoints throws, and so does the run. *)
Theorem empty_descendants_abort (mode : placementMode) (na : NodeAllocation)
    (m parentLayoutNode : LayoutNode) :
  In m (mvalues (midPoints na)) ->
  mget (node_parentId (node m)) (layoutNodes na) <> None ->
  ownLeavesInSubset na (stem m) = [] ->
  validateStat (Finite (INR (List.length (leafPositions na (nodeToPosition na) (stem m))))) true
  = Err ValidationError
  /\ (forall pos, parent m = Some parentLayoutNode ->
      midpoint_step na mode pos m = Err ValidationError)
  /\ (exists e, calculate2DMidpointCoordinates mode na = Err e)
  /\ (exists e, process mode na = Err e).
Proof.
  intros Hin Hparent Hempty.
  assert (Hlps : forall pos, leafPositions na pos (stem m) = []).
  { intros pos. unfold leafPositions. rewrite Hempty. reflexivity. }
  assert (Hval : validateStat (Finite (INR 0)) true = Err ValidationError).
  { simpl. rewrite Rleb_true by lra. reflexivity. }
  assert (Hstep : forall na0 pos,
             sameInputs na na0 -> exists e, midpoint_step na0 mode pos m = Err e).
  { intros na0 pos (_ & N0 & V0 & _ & _). unfold midpoint_step. rewrite N0.
    destruct (mget (node_parentId (node m)) (layoutNodes na)); [| congruence].
    destruct (parent m); simpl; [| eauto].
    assert (E : leafPositions na0 pos (stem m) = []).
    { unfold leafPositions, ownLeavesInSubset in *. rewrite V0, Hempty. reflexivity. }
    rewrite E. simpl. rewrite Rleb_true by lra. simpl. eauto. }
  split; [rewrite Hlps; exact Hval |]. split; [| split].
  - intros pos Hp. unfold midpoint_step.
    destruct (mget (node_parentId (node m)) (layoutNodes na)); [| congruence].
    rewrite Hp, Hlps. simpl. rewrite Rleb_true by lra. reflexivity.
  - unfold calculate2DMidpointCoordinates.
    destruct (foldM_abort (midpoint_step na mode) _ m Hin
                (fun pos => Hstep na pos (sameInputs_refl na)) (nodeToPosition na))
      as (e & He).
    exists e. rewrite He. reflexivity.
  - destruct (process mode na) as [na' | e] eqn:Hrun; [| eauto].
    exfalso.
    destruct (process_phases mode na na' Hrun)
      as (na1 & na2 & na3 & na4 & _ & _ & _ & Hmid & _ & S3 & _).
    unfold calculate2DMidpointCoordinates in Hmid. inv_bind Hmid.
    assert (Hin3 : In m (mvalues (midPoints na3))).
    { destruct S3 as (_ & _ & _ & M3 & _). rewrite M3. exact Hin. }
    destruct (foldM_abort (midpoint_step na3 mode) _ m Hin3
                (fun pos => Hstep na3 pos S3) (nodeToPosition na3)) as (e & He).
    congruence.
Qed.

End Midpoints.

(** ** Line geometry *)

Lemma sqrt_eq (e v : R) : 0 <= v -> v * v = e -> sqrt e = v.
Proof.
  intros Hv He. apply sqrt_lem_1; [rewrite <- He; nra | assumption | assumption].
Qed.

Lemma euclid_length_nonneg (c : Coordinate) : 0 <= euclid_length c.
Proof. unfold euclid_length. apply sqrt_pos. Qed.

(** The Euclidean line geometry meets the contract. *)
Lemma euclid_PointAtDistance : PointAtDistance euclid.
Proof.
  intros c d x y Hd H. simpl in H. unfold euclid_pointAtLength in H.
  destruct (jsdiv d (euclid_length c)) as [ratio |] eqn:E; [| discriminate].
  apply jsdiv_inv in E. destruct E as (Hlen & Hratio).
  inversion H; subst x y. clear H.
  pose proof (euclid_length_nonneg c) as Hpos.
  assert (Hr : 0 <= ratio).
  { subst ratio. apply Rmult_le_pos; [assumption |].
    apply Rlt_le, Rinv_0_lt_compat. lra. }
  split.
  - exists ratio. repeat split; [assumption | ring | ring].
  - unfold distance. apply sqrt_eq; [assumption |].
    assert (Hsq : euclid_length c * euclid_length c
                  = (x2 c - x1 c) * (x2 c - x1 c) + (y2 c - y1 c) * (y2 c - y1 c)).
    { unfold euclid_length. apply sqrt_sqrt.
      pose proof (Rle_0_sqr (x2 c - x1 c)) as A.
      pose proof (Rle_0_sqr (y2 c - y1 c)) as B.
      unfold Rsqr in A, B. lra. }
    assert (Hd' : d = ratio * euclid_length c).
    { subst ratio. field. assumption. }
    rewrite Hd' at 1 2.
    replace (ratio * euclid_length c * (ratio * euclid_length c))
      with (ratio * ratio * (euclid_length c * euclid_length c)) by ring.
    rewrite Hsq. ring.
Qed.

(** ** Leaf re-anchoring *)

Section Reanchoring.
Context {LC : LineCoordinates}.

Lemma constrain_step_result (na : NodeAllocation) (pos pos' : jsmap Position.t)
    (ln pl : LayoutNode) (P raw : Position.t) :
  parent ln = Some pl ->
  mget (node_parentId (node ln)) pos = Some P ->
  mget (node_id (node ln)) pos = Some raw ->
  constrain_step na pos ln = Ok pos' ->
  exists p,
    mget (node_id (node ln)) pos' = Some p
    /\ pointAtLength
         (mkCoordinate None (Position.x P) (Position.y P)
                       (Position.x raw) (Position.y raw))
         (ownDiameter (stem pl) / 2 + ownBetween (stem ln)
          + ownDiameter (stem ln) / 2)
       = (Finite (Position.x p), Finite (Position.y p)).
Proof.
  unfold constrain_step. intros Hpl HP Hraw H.
  rewrite Hpl, HP, Hraw in H. simpl in H.
  destruct (pointAtLength _ _) as [x y] eqn:Hpt.
  apply write_xy_Ok in H.
  destruct H as (p & vx & vy & -> & -> & _ & Hget & _).
  eexists. split; [exact Hget |]. simpl. reflexivity.
Qed.

(** The re-anchoring phase moves a leaf whose parent has a position
    record to the point that the line from the parent's position through
    the leaf's position before the phase has at length (parent radius +
    own scaled edge length + own radius), and leaves the parent where it
    was. *)
Lemma constrain_reanchors (na na' : NodeAllocation) (leaf pl : LayoutNode)
    (P raw : Position.t) :
  let d := ownDiameter (stem pl) / 2 + ownBetween (stem leaf)
           + ownDiameter (stem leaf) / 2 in
  let line := mkCoordinate None (Position.x P) (Position.y P)
                           (Position.x raw) (Position.y raw) in
  NoDup (nodeIds (leaves na)) ->
  In leaf (mvalues (leaves na)) ->
  parent leaf = Some pl ->
  ~ In (node_parentId (node leaf)) (nodeIds (leaves na)) ->
  mget (node_parentId (node leaf)) (nodeToPosition na) = Some P ->
  mget (node_id (node leaf)) (nodeToPosition na) = Some raw ->
  constrain2DLeafCoordinates na = Ok na' ->
  mget (node_parentId (node leaf)) (nodeToPosition na') = Some P
  /\ exists p,
      mget (node_id (node leaf)) (nodeToPosition na') = Some p
      /\ pointAtLength line d = (Finite (Position.x p), Finite (Position.y p))
      /\ (PointAtDistance LC -> 0 <= d ->
          onRay line (Position.x p) (Position.y p)
          /\ distance (Position.x P) (Position.y P)
                      (Position.x p) (Position.y p) = d).
Proof.
  intros d line Hnd Hin Hpl Hnotleaf HP Hraw Hrun.
  unfold constrain2DLeafCoordinates in Hrun. inv_bind Hrun.
  inversion Hrun; subst na'. simpl. clear Hrun.
  pose proof (foldM_frame (constrain_step na) (fun ln => node_id (node ln))
                (mvalues (leaves na)) (constrain_step_frame na)) as Hframe.
  split.
  { rewrite (Hframe _ _ H _ Hnotleaf). exact HP. }
  destruct (foldM_split _ _ leaf _ _ Hin H)
    as (l1 & l2 & a1 & a2 & Hl & Hpre & Hstep & Hpost).
  unfold nodeIds in Hnd, Hnotleaf. rewrite Hl, map_app in Hnd, Hnotleaf.
  simpl in Hnd, Hnotleaf. rewrite in_app_iff in Hnotleaf. simpl in Hnotleaf.
  apply NoDup_app_cons_not_In in Hnd. destruct Hnd as (Hl1 & Hl2).
  pose proof (foldM_frame (constrain_step na) (fun ln => node_id (node ln))
                l1 (constrain_step_frame na) _ _ Hpre) as Hf1.
  pose proof (foldM_frame (constrain_step na) (fun ln => node_id (node ln))
                l2 (constrain_step_frame na) _ _ Hpost) as Hf2.
  assert (HP1 : mget (node_parentId (node leaf)) a1 = Some P).
  { rewrite Hf1 by tauto. exact HP. }
  assert (Hraw1 : mget (node_id (node leaf)) a1 = Some raw).
  { rewrite Hf1 by assumption. exact Hraw. }
  destruct (constrain_step_result na a1 a2 leaf pl P raw Hpl HP1 Hraw1 Hstep)
    as (p & Hp & Hpt).
  exists p. split; [| split].
  - rewrite Hf2 by assumption. exact Hp.
  - exact Hpt.
  - intros Hcontract Hd.
    destruct (Hcontract line d _ _ Hd Hpt) as (Hray & Hdist).
    split; assumption.
Qed.

(** C4. In length-constrained mode a run ends with every leaf whose parent
    is in the run at the point that the line from the parent's final
    position through the leaf's raw position of phase 3 has at length
    (parent radius + the leaf's scaled edge length + the leaf's own
    radius); under the contract of the line geometry the leaf is on that
    line, at exactly that distance from the parent's final position. *)
Theorem leaf_reanchored (na na3 na' : NodeAllocation) (leaf pl : LayoutNode)
    (P raw : Position.t) :
  let d := ownDiameter (stem pl) / 2 + ownBetween (stem leaf)
           + ownDiameter (stem leaf) / 2 in
  let line := mkCoordinate None (Position.x P) (Position.y P)
                           (Position.x raw) (Position.y raw) in
  NoDup (nodeIds (leaves na)) ->
  In leaf (mvalues (leaves na)) ->
  parent leaf = Some pl ->
  ~ In (node_id (node leaf)) (nodeIds (midPoints na)) ->
  ~ In (node_parentId (node leaf)) (nodeIds (leaves na)) ->
  upToLeafCoordinates na = Ok na3 ->
  process LENGTH_CONSTRAINED na = Ok na' ->
  mget (node_id (node leaf)) (nodeToPosition na3) = Some raw ->
  mget (node_parentId (node leaf)) (nodeToPosition na') = Some P ->
  exists p,
    mget (node_id (node leaf)) (nodeToPosition na') = Some p
    /\ pointAtLength line d = (Finite (Position.x p), Finite (Position.y p))
    /\ (PointAtDistance LC -> 0 <= d ->
        onRay line (Position.x p) (Position.y p)
        /\ distance (Position.x P) (Position.y P)
                    (Position.x p) (Position.y p) = d).
Proof.
  intros d line Hnd Hin Hpl Hnotmid Hnotleaf Hraw3 Hrun Hraw HP.
  destruct (process_phases _ _ _ Hrun)
    as (na1 & na2 & na3' & na4 & H1 & H2 & H3 & Hmid & Hlast & S3 & S4).
  assert (E3 : na3' = na3).
  { unfold upToLeafCoordinates in Hraw3. rewrite H1 in Hraw3. cbn [bind] in Hraw3.
    rewrite H2 in Hraw3. cbn [bind] in Hraw3. congruence. }
  subst na3'.
  destruct S3 as (_ & _ & _ & M3 & _). destruct S4 as (_ & _ & V4 & _ & _).
  assert (Hraw4 : mget (node_id (node leaf)) (nodeToPosition na4) = Some raw).
  { unfold calculate2DMidpointCoordinates in Hmid.
    apply bind_Ok in Hmid. destruct Hmid as (pos4 & Hloop & Hmid).
    inversion Hmid; subst na4. simpl. rewrite <- Hraw.
    apply (foldM_frame (midpoint_step na3 LENGTH_CONSTRAINED)
             (fun ln => node_id (node ln)) _
             (midpoint_step_frame na3 LENGTH_CONSTRAINED) _ _ Hloop).
    rewrite M3. exact Hnotmid. }
  assert (HP4 : mget (node_parentId (node leaf)) (nodeToPosition na4) = Some P).
  { rewrite <- HP. symmetry.
    unfold constrain2DLeafCoordinates in Hlast.
    apply bind_Ok in Hlast. destruct Hlast as (pos5 & Hloop & Hlast).
    inversion Hlast; subst na'. simpl.
    apply (foldM_frame (constrain_step na4) (fun ln => node_id (node ln)) _
             (constrain_step_frame na4) _ _ Hloop).
    rewrite V4. exact Hnotleaf. }
  rewrite <- V4 in Hnd, Hin, Hnotleaf.
  destruct (constrain_reanchors na4 na' leaf pl P raw Hnd Hin Hpl Hnotleaf HP4 Hraw4 Hlast)
    as (_ & p & Hp & Hpt & Hgeo).
  exists p. split; [exact Hp |]. split; [exact Hpt | exact Hgeo].
Qed.

End Reanchoring.

(** ** Sorting *)

Lemma insertInto_perm {A : Type} (compare : A -> A -> Z) (a : A) (l : list A) :
  Permutation (insertInto compare a l) (a :: l).
Proof.
  induction l as [| b l IH]; simpl; [apply Permutation_refl |].
  destruct (compare a b <=? 0)%Z; [apply Permutation_refl |].
  eapply Permutation_trans; [apply perm_skip; exact IH | apply perm_swap].
Qed.

Lemma jsSort_perm {A : Type} (compare : A -> A -> Z) (l : list A) :
  Permutation (jsSort compare l) l.
Proof.
  unfold jsSort. induction l as [| a l IH]; simpl; [apply Permutation_refl |].
  eapply Permutation_trans; [apply insertInto_perm | apply perm_skip; exact IH].
Qed.

Lemma insertInto_sorted {A : Type} (key : A -> Z) (a : A) (l : list A) :
  StronglySorted (fun x y => (key x <= key y)%Z) l ->
  StronglySorted (fun x y => (key x <= key y)%Z)
                 (insertInto (fun x y => (key x - key y)%Z) a l).
Proof.
  induction l as [| b l IH]; intros Hs; simpl.
  - constructor; constructor.
  - inversion Hs as [| ? ? Hs' Hall]; subst.
    destruct (key a - key b <=? 0)%Z eqn:E.
    + apply Z.leb_le in E. constructor; [exact Hs |].
      constructor; [lia |].
      eapply Forall_impl; [| exact Hall]. simpl. intros; lia.
    + apply Z.leb_gt in E. constructor; [apply IH; exact Hs' |].
      eapply Permutation_Forall;
        [apply Permutation_sym, insertInto_perm |].
      constructor; [lia | exact Hall].
Qed.

Lemma jsSort_sorted {A : Type} (key : A -> Z) (l : list A) :
  StronglySorted (fun x y => (key x <= key y)%Z)
                 (jsSort (fun x y => (key x - key y)%Z) l).
Proof.
  unfold jsSort. induction l as [| a l IH]; simpl; [constructor |].
  apply insertInto_sorted. exact IH.
Qed.

(** ** The 1D walk *)

Lemma contains1DPoint_iff (s : LinearSpaceSegment) (p : R) :
  contains1DPoint s p = true <-> seg_begin s < p < seg_end s.
Proof.
  unfold contains1DPoint. rewrite andb_true_iff, !Rltb_iff. tauto.
Qed.

Lemma extends_refl (s : LinearSpaceSegment) : extends s s.
Proof.
  unfold extends. repeat split. exists []. rewrite app_nil_r. reflexivity.
Qed.

Lemma extends_trans (s1 s2 s3 : LinearSpaceSegment) :
  extends s1 s2 -> extends s2 s3 -> extends s1 s3.
Proof.
  intros (A1 & A2 & A3 & A4 & m1 & A5) (B1 & B2 & B3 & B4 & m2 & B5).
  unfold extends. repeat split; try congruence.
  exists (m1 ++ m2). rewrite B5, A5, app_assoc. reflexivity.
Qed.

Lemma extends_push (b : SpaceBlock) (s : LinearSpaceSegment) :
  extends s (push_block b s).
Proof. unfold extends. simpl. repeat split. exists [b]. reflexivity. Qed.

Lemma Forall2_extends_refl (segs : list LinearSpaceSegment) :
  Forall2 extends segs segs.
Proof. induction segs; constructor; [apply extends_refl | assumption]. Qed.

Lemma Forall2_extends_trans (l1 l2 l3 : list LinearSpaceSegment) :
  Forall2 extends l1 l2 -> Forall2 extends l2 l3 -> Forall2 extends l1 l3.
Proof.
  intros H12. revert l3. induction H12 as [| s1 s2 l1 l2 H _ IH]; intros l3 H23.
  - inversion H23. constructor.
  - inversion H23 as [| ? s3 ? l3' H' H23']; subst.
    constructor; [eapply extends_trans; eassumption | apply IH; assumption].
Qed.

Lemma Forall2_extends_In (l1 l2 : list LinearSpaceSegment) (s : LinearSpaceSegment) :
  Forall2 extends l1 l2 -> In s l1 -> exists s', In s' l2 /\ extends s s'.
Proof.
  intros H. induction H as [| s1 s2 l1 l2 Hs _ IH]; intros Hin; [contradiction |].
  destruct Hin as [<- | Hin].
  - exists s2. split; [left; reflexivity | assumption].
  - destruct (IH Hin) as (s' & Hin' & He). exists s'. split; [right |]; assumption.
Qed.

Lemma Forall2_extends_In_rev (l1 l2 : list LinearSpaceSegment) (s' : LinearSpaceSegment) :
  Forall2 extends l1 l2 -> In s' l2 -> exists s, In s l1 /\ extends s s'.
Proof.
  intros H. induction H as [| s1 s2 l1 l2 Hs _ IH]; intros Hin; [contradiction |].
  destruct Hin as [<- | Hin].
  - exists s1. split; [left; reflexivity | assumption].
  - destruct (IH Hin) as (s & Hin' & He). exists s. split; [right |]; assumption.
Qed.

(** The lookup finds the first segment that contains the centre of the
    block, and the block is pushed onto that segment only. *)
Lemma assignBlock_Some (b : SpaceBlock) (segs segs' : list LinearSpaceSegment) :
  assignBlock b segs = Some segs' ->
  exists l1 s l2,
    segs = l1 ++ s :: l2 /\ segs' = l1 ++ push_block b s :: l2
    /\ contains1DPoint s (block_center b) = true
    /\ forall s0, In s0 l1 -> contains1DPoint s0 (block_center b) = false.
Proof.
  revert segs'. induction segs as [| s segs IH]; intros segs' H; simpl in H.
  - discriminate.
  - destruct (contains1DPoint s (block_center b)) eqn:E.
    + inversion H; subst. exists [], s, segs. simpl. repeat split; auto.
      intros s0 [].
    + destruct (assignBlock b segs) as [segs1 |]; [| discriminate].
      simpl in H. inversion H; subst.
      destruct (IH segs1 eq_refl) as (l1 & s1 & l2 & -> & -> & Hc & Hfirst).
      exists (s :: l1), s1, l2. simpl. repeat split; auto.
      intros s0 [<- | Hin]; [assumption | apply Hfirst; assumption].
Qed.


Lemma assignBlock_extends (b : SpaceBlock) (segs segs' : list LinearSpaceSegment) :
  assignBlock b segs = Some segs' ->
  Forall2 extends segs segs'
  /\ exists s', In s' segs' /\ In b (seg_blocks s')
                /\ seg_begin s' < block_center b < seg_end s'.
Proof.
  intros H. apply assignBlock_Some in H.
  destruct H as (l1 & s & l2 & -> & -> & Hc & _). split.
  - apply Forall2_app; [apply Forall2_extends_refl |].
    constructor; [apply extends_push | apply Forall2_extends_refl].
  - exists (push_block b s). split; [apply in_elt |]. split.
    + simpl. apply in_or_app. right. left. reflexivity.
    + simpl. apply contains1DPoint_iff. exact Hc.
Qed.

Lemma offsets_step_Ok (total : R) (cb cb' : option SpaceBlock)
    (segs segs' : list LinearSpaceSegment) (pos pos' : jsmap Position.t)
    (ln : LayoutNode) :
  offsets_step total (cb, segs, pos) ln = Ok (cb', segs', pos') ->
  let begin := match cb with
               | Some b => block_end b
               | None => walkBegin segs
               end in
  exists p,
    mget (node_id (node ln)) pos = Some p
    /\ let b := newSpaceBlock (node_id (node ln)) begin
                              (Position.units p * total) in
       cb' = Some b
       /\ pos' = mset (node_id (node ln))
                      (Position.set_offset (block_center b) p) pos
       /\ assignBlock b segs = Some segs'.
Proof.
  unfold offsets_step. intros H. inv_bind H. apply deref_Ok in H0.
  inv_bind H. inv_bind H. apply deref_Ok in H2. inversion H; subst. clear H.
  assert (E : a0 = match cb with Some b => block_end b | None => walkBegin segs end).
  { destruct cb as [b |].
    - inversion H1. reflexivity.
    - inv_bind H1. apply deref_Ok in H. inversion H1; subst.
      destruct segs; simpl in H; [discriminate |]. inversion H. reflexivity. }
  subst a0. exists a. split; [assumption |]. simpl. auto.
Qed.

Lemma unitsOf_set_offset (pos : jsmap Position.t) (k : nat) (o : R) (p : Position.t) :
  mget k pos = Some p ->
  forall k', unitsOf (mset k (Position.set_offset o p) pos) k' = unitsOf pos k'.
Proof.
  intros Hp k'. unfold unitsOf. destruct (Nat.eq_dec k' k) as [-> | Hne].
  - rewrite mget_mset_same, Hp. reflexivity.
  - rewrite mget_mset_other by assumption. reflexivity.
Qed.

Lemma plannedBlocks_ext (total : R) (pos pos' : jsmap Position.t) (ls : list LayoutNode) :
  (forall k, unitsOf pos' k = unitsOf pos k) ->
  forall begin, plannedBlocks total pos' begin ls = plannedBlocks total pos begin ls.
Proof.
  intros Hu. induction ls as [| l ls IH]; intros begin; simpl; [reflexivity |].
  rewrite Hu, IH. reflexivity.
Qed.

Lemma plannedBlocks_nodes (total : R) (pos : jsmap Position.t) (ls : list LayoutNode) :
  forall begin,
    map block_node (plannedBlocks total pos begin ls)
    = map (fun ln => node_id (node ln)) ls.
Proof.
  induction ls as [| l ls IH]; intros begin; simpl; [reflexivity |].
  rewrite IH. reflexivity.
Qed.

Lemma plannedBlocks_width (total : R) (pos : jsmap Position.t) (ls : list LayoutNode) :
  forall begin b,
    In b (plannedBlocks total pos begin ls) ->
    block_end b = block_begin b + unitsOf pos (block_node b) * total
    /\ block_center b = block_begin b + unitsOf pos (block_node b) * total / 2.
Proof.
  induction ls as [| l ls IH]; intros begin b Hin; simpl in Hin; [contradiction |].
  destruct Hin as [<- | Hin]; [simpl; auto | eapply IH; eassumption].
Qed.

Lemma plannedBlocks_contiguous (total : R) (pos : jsmap Position.t) (ls : list LayoutNode) :
  forall begin pre b1 b2 post,
    plannedBlocks total pos begin ls = pre ++ b1 :: b2 :: post ->
    block_begin b2 = block_end b1.
Proof.
  induction ls as [| l ls IH]; intros begin pre b1 b2 post H; simpl in H.
  - destruct pre; discriminate.
  - destruct pre as [| b0 pre]; simpl in H.
    + inversion H as [[Hb1 Hrest]]. destruct ls as [| l' ls']; simpl in Hrest;
        [discriminate |].
      inversion Hrest. reflexivity.
    + inversion H as [[Hb0 Hrest]]. eapply IH. exact Hrest.
Qed.

Lemma extends_keeps_block (s s' : LinearSpaceSegment) (b : SpaceBlock) :
  extends s s' -> In b (seg_blocks s) ->
  seg_begin s < block_center b < seg_end s ->
  In b (seg_blocks s') /\ seg_begin s' < block_center b < seg_end s'.
Proof.
  intros (_ & _ & Hb & He & more & Hm) Hin Hc. rewrite Hm, Hb, He.
  split; [apply in_or_app; left; assumption | assumption].
Qed.

(** What a successful walk over [ls] has done. *)
Lemma offsets_loop (total : R) (ls : list LayoutNode) :
  forall (cb : option SpaceBlock) (segs : list LinearSpaceSegment)
         (pos : jsmap Position.t) cb' segs' pos',
    foldM (offsets_step total) ls (cb, segs, pos) = Ok (cb', segs', pos') ->
    let begin := match cb with
                 | Some b => block_end b
                 | None => walkBegin segs
                 end in
    Forall2 extends segs segs'
    /\ (forall k, unitsOf pos' k = unitsOf pos k)
    /\ (forall k, ~ In k (map (fun ln => node_id (node ln)) ls) ->
                  mget k pos' = mget k pos)
    /\ (forall b, In b (plannedBlocks total pos begin ls) ->
          exists s', In s' segs' /\ In b (seg_blocks s')
                     /\ seg_begin s' < block_center b < seg_end s')
    /\ (NoDup (map (fun ln => node_id (node ln)) ls) ->
        forall b, In b (plannedBlocks total pos begin ls) ->
          exists p', mget (block_node b) pos' = Some p'
                     /\ Position.offset p' = Some (block_center b)).
Proof.
  induction ls as [| l ls IH]; intros cb segs pos cb' segs' pos' Hrun begin.
  - simpl in Hrun. inversion Hrun; subst.
    split; [apply Forall2_extends_refl |]. repeat split; auto; intros; contradiction.
  - apply foldM_cons in Hrun. destruct Hrun as ([[cb1 segs1] pos1] & Hstep & Hrest).
    apply offsets_step_Ok in Hstep. destruct Hstep as (p & Hp & Hcb1 & Hpos1 & Hassign).
    fold begin in Hcb1, Hpos1, Hassign.
    set (b := newSpaceBlock (node_id (node l)) begin (Position.units p * total)) in *.
    assert (Hb : newSpaceBlock (node_id (node l)) begin
                   (unitsOf pos (node_id (node l)) * total) = b).
    { unfold unitsOf. rewrite Hp. reflexivity. }
    assert (Hu1 : forall k, unitsOf pos1 k = unitsOf pos k).
    { subst pos1. apply unitsOf_set_offset. exact Hp. }
    subst cb1.
    destruct (IH _ _ _ _ _ _ Hrest) as (Hext & Hu & Hframe & Hseg & Hoff).
    rewrite (plannedBlocks_ext total pos pos1 ls Hu1) in Hseg, Hoff.
    destruct (assignBlock_extends b segs segs1 Hassign) as (Hext1 & s1 & Hs1 & Hbs1 & Hc1).
    assert (Hframe' : forall k, ~ In k (map (fun ln => node_id (node ln)) (l :: ls)) ->
                                mget k pos' = mget k pos).
    { intros k Hk. simpl in Hk. rewrite Hframe by tauto. subst pos1.
      apply mget_mset_other. intros E. apply Hk. left. symmetry. exact E. }
    split; [eapply Forall2_extends_trans; eassumption |].
    split; [intros k; rewrite Hu; apply Hu1 |].
    split; [exact Hframe' |]. split.
    + intros b' Hin. cbn [plannedBlocks] in Hin. rewrite Hb in Hin.
      destruct Hin as [<- | Hin]; [| apply Hseg; exact Hin].
      destruct (Forall2_extends_In segs1 segs' s1 Hext Hs1) as (s' & Hs' & He).
      exists s'. split; [exact Hs' |].
      apply (extends_keeps_block s1 s' b He Hbs1 Hc1).
    + intros Hnd b' Hin. simpl in Hnd. apply NoDup_cons_iff in Hnd.
      destruct Hnd as (Hnot & Hnd').
      cbn [plannedBlocks] in Hin. rewrite Hb in Hin.
      destruct Hin as [<- | Hin]; [| apply Hoff; assumption].
      simpl. rewrite Hframe by exact Hnot. rewrite Hpos1, mget_mset_same.
      eexists. split; [reflexivity |]. reflexivity.
Qed.

(** Every throw of the walk is a [TypeError]. *)
Lemma offsets_step_error (total : R)
    (st : option SpaceBlock * list LinearSpaceSegment * jsmap Position.t)
    (ln : LayoutNode) (e : error) :
  offsets_step total st ln = Err e -> e = TypeError.
Proof.
  destruct st as [[cb segs] pos]. unfold offsets_step. intros H.
  apply bind_Err_inv in H. destruct H as [H | (p & _ & H)];
    [apply deref_Err in H; exact H |].
  apply bind_Err_inv in H. destruct H as [H | (begin & _ & H)].
  - destruct cb as [b |]; [discriminate |].
    apply bind_Err_inv in H. destruct H as [H | (s & _ & H)];
      [apply deref_Err in H; exact H | discriminate].
  - apply bind_Err_inv in H. destruct H as [H | (segs' & _ & H)];
      [apply deref_Err in H; exact H | discriminate].
Qed.

(** [indexOf] gives the first place of a node in the display order, and
    -1 for a node that is not in it. *)
Lemma indexOf_from_place (k : nat) (l : list nat) :
  forall s,
    (~ In k l /\ indexOf_from s k l = (-1)%Z)
    \/ exists i, firstAt k l i /\ indexOf_from s k l = (s + Z.of_nat i)%Z.
Proof.
  induction l as [| h t IH]; intros s; simpl.
  - left. split; [tauto | reflexivity].
  - destruct (Nat.eqb h k) eqn:E.
    + apply Nat.eqb_eq in E. subst h. right. exists 0%nat.
      split; [constructor | lia].
    + apply Nat.eqb_neq in E.
      destruct (IH (s + 1)%Z) as [(Hn & Hi) | (i & Hp & Hi)].
      * left. split; [intros [H | H]; [congruence | tauto] | exact Hi].
      * right. exists (S i). split; [constructor; assumption | lia].
Qed.

Lemma displayOrder_of_index (na : NodeAllocation) (a b : LayoutNode) :
  (indexOf (node_id (node a)) (positioning_order (layout na))
   <= indexOf (node_id (node b)) (positioning_order (layout na)))%Z ->
  displayOrder na a b.
Proof.
  unfold displayOrder, indexOf. intros Hle.
  destruct (indexOf_from_place (node_id (node a))
              (positioning_order (layout na)) 0) as [(Ha & _) | (i & Hi & Ei)];
    [left; exact Ha |].
  destruct (indexOf_from_place (node_id (node b))
              (positioning_order (layout na)) 0) as [(_ & Eb) | (j & Hj & Ej)].
  - rewrite Ei, Eb in Hle. lia.
  - right. exists i, j. rewrite Ei, Ej in Hle.
    split; [exact Hi |]. split; [exact Hj | lia].
Qed.

Lemma StronglySorted_weaken {A : Type} (P Q : A -> A -> Prop) (l : list A) :
  (forall a b, P a b -> Q a b) -> StronglySorted P l -> StronglySorted Q l.
Proof.
  intros Hpq Hs. induction Hs as [| a l Hs IH Hall]; constructor.
  - exact IH.
  - eapply Forall_impl; [| exact Hall]. intros b. apply Hpq.
Qed.

(** C5. The walk visits the leaves in display order; the block of the
    first leaf begins at the beginning of the first segment, every other
    block begins where the block before it ends, each block is as wide as
    the units of its leaf times the space available, the offset of each
    leaf is the centre of its block, and each block is on a segment whose
    open interval contains that centre. *)
Theorem linear_offsets (na na' : NodeAllocation) :
  NoDup (nodeIds (leaves na)) ->
  calculate1DLinearOffsets na = Ok na' ->
  let visited := arrangedLeaves na in
  let total := total1DSpaceAvailable na in
  let blocks := plannedBlocks total (nodeToPosition na)
                              (walkBegin (segments na)) visited in
  Permutation visited (mvalues (leaves na))
  /\ StronglySorted (displayOrder na) visited
  /\ map block_node blocks = map (fun ln => node_id (node ln)) visited
  /\ (forall b rest, blocks = b :: rest ->
        exists s0 srest, segments na = s0 :: srest /\ block_begin b = seg_begin s0)
  /\ (forall pre b1 b2 post, blocks = pre ++ b1 :: b2 :: post ->
        block_begin b2 = block_end b1)
  /\ (forall b, In b blocks ->
        exists p p' s,
          mget (block_node b) (nodeToPosition na) = Some p
          /\ block_end b - block_begin b = Position.units p * total
          /\ block_center b = block_begin b + (block_end b - block_begin b) / 2
          /\ mget (block_node b) (nodeToPosition na') = Some p'
          /\ Position.offset p' = Some (block_center b)
          /\ Position.units p' = Position.units p
          /\ In s (segments na') /\ In b (seg_blocks s)
          /\ seg_begin s < block_center b < seg_end s).
Proof.
  intros Hnd Hrun visited total blocks.
  assert (Hperm : Permutation visited (mvalues (leaves na))).
  { apply jsSort_perm. }
  unfold calculate1DLinearOffsets in Hrun. inv_bind Hrun.
  destruct a as [[cb' segs'] pos']. inversion Hrun; subst na'. simpl. clear Hrun.
  fold visited total in H.
  destruct (offsets_loop total visited None (segments na) (nodeToPosition na)
              cb' segs' pos' H) as (Hext & Hu & Hframe & Hseg & Hoff).
  fold blocks in Hseg, Hoff.
  assert (Hnd' : NoDup (map (fun ln => node_id (node ln)) visited)).
  { eapply Permutation_NoDup; [| exact Hnd]. unfold nodeIds.
    apply Permutation_map, Permutation_sym. exact Hperm. }
  split; [exact Hperm |]. split.
  { apply (StronglySorted_weaken
             (fun a b =>
                (indexOf (node_id (node a)) (positioning_order (layout na))
                 <= indexOf (node_id (node b)) (positioning_order (layout na)))%Z)).
    - apply displayOrder_of_index.
    - apply (jsSort_sorted
               (fun ln => indexOf (node_id (node ln))
                                  (positioning_order (layout na)))). }
  split; [apply plannedBlocks_nodes |]. split.
  { intros b rest Hb. subst blocks. destruct visited as [| l ls] eqn:Ev;
      simpl in Hb; [discriminate |].
    inversion Hb as [[Eb Erest]].
    apply foldM_cons in H. destruct H as ([[cb1 segs1] pos1] & Hstep & _).
    destruct (segments na) as [| s0 srest].
    - unfold offsets_step in Hstep.
      destruct (mget (node_id (node l)) (nodeToPosition na)); discriminate.
    - exists s0, srest. split; reflexivity. }
  split; [apply plannedBlocks_contiguous |].
  intros b Hb.
  destruct (Hseg b Hb) as (s & Hs & Hbs & Hc).
  destruct (Hoff Hnd' b Hb) as (p' & Hp' & Ho).
  destruct (plannedBlocks_width _ _ _ _ b Hb) as (Hend & Hcen).
  assert (Hunits : unitsOf pos' (block_node b) = unitsOf (nodeToPosition na) (block_node b))
    by apply Hu.
  assert (Hp : exists p, mget (block_node b) (nodeToPosition na) = Some p).
  { assert (Hk : In (block_node b) (map (fun ln => node_id (node ln)) visited)).
    { rewrite <- (plannedBlocks_nodes total (nodeToPosition na) visited
                    (walkBegin (segments na))).
      apply in_map. exact Hb. }
    clear - H Hk. revert H. generalize (@None SpaceBlock) (segments na) (nodeToPosition na).
    induction visited as [| l ls IH]; intros cb segs pos Hrun; [contradiction |].
    apply foldM_cons in Hrun. destruct Hrun as ([[cb1 segs1] pos1] & Hstep & Hrest).
    apply offsets_step_Ok in Hstep. destruct Hstep as (p & Hp & _ & Hpos1 & _).
    destruct Hk as [<- | Hk]; [eauto |].
    destruct (IH Hk _ _ _ Hrest) as (p1 & Hp1). subst pos1.
    destruct (Nat.eq_dec (block_node b) (node_id (node l))) as [E | Hne].
    - rewrite E. eauto.
    - rewrite mget_mset_other in Hp1 by assumption. eauto. }
  destruct Hp as (p & Hp).
  unfold unitsOf in Hend, Hcen, Hunits. rewrite Hp in Hend, Hcen, Hunits.
  rewrite Hp' in Hunits.
  exists p, p', s. repeat split; try assumption; try (rewrite Hend; lra); lra.
Qed.

(** ** Segment boundaries *)



Section Boundaries.
Context {LC : LineCoordinates}.


End Boundaries.

(** ** The store of clumps *)

Lemma mget_setClump (H : hierarchyLevels) (d k : nat) (c : Clump) (d' : nat) :
  mget d' (setClump H d k c)
  = match mget d H with
    | Some lvl =>
        if Nat.eqb d' d
        then Some (mkLevel (level_depth lvl) (mset k c (clumps lvl))
                           (longestLeafLengthSum lvl))
        else mget d' H
    | None => mget d' H
    end.
Proof.
  unfold setClump. destruct (mget d H) as [lvl |] eqn:E; [| reflexivity].
  destruct (Nat.eqb d' d) eqn:Ed.
  - apply Nat.eqb_eq in Ed. subst. apply mget_mset_same.
  - apply Nat.eqb_neq in Ed. apply mget_mset_other. exact Ed.
Qed.

Lemma getClump_setClump (H : hierarchyLevels) (d k : nat) (c : Clump) (d' k' : nat) :
  mget d H <> None ->
  getClump (setClump H d k c) d' k'
  = if Nat.eqb d' d && Nat.eqb k' k then Some c else getClump H d' k'.
Proof.
  intros Hex. unfold getClump. rewrite mget_setClump.
  destruct (mget d H) as [lvl |] eqn:E; [| congruence].
  destruct (Nat.eqb d' d) eqn:Ed; simpl; [| reflexivity].
  apply Nat.eqb_eq in Ed. subst d'. rewrite E.
  destruct (Nat.eqb k' k) eqn:Ek.
  - apply Nat.eqb_eq in Ek. subst. apply mget_mset_same.
  - apply Nat.eqb_neq in Ek. apply mget_mset_other. exact Ek.
Qed.

Lemma getClump_level (H : hierarchyLevels) (d k : nat) (c : Clump) :
  getClump H d k = Some c -> mget d H <> None.
Proof. unfold getClump. destruct (mget d H); [discriminate | discriminate]. Qed.

Lemma getClump_updClump (H : hierarchyLevels) (d k : nat) (f : Clump -> Clump)
    (d' k' : nat) :
  getClump (updClump H d k f) d' k'
  = if Nat.eqb d' d && Nat.eqb k' k then option_map f (getClump H d k)
    else getClump H d' k'.
Proof.
  unfold updClump. destruct (getClump H d k) as [c |] eqn:E.
  - rewrite getClump_setClump by (eapply getClump_level; exact E). reflexivity.
  - destruct (Nat.eqb d' d && Nat.eqb k' k) eqn:Eb; [| reflexivity].
    apply andb_true_iff in Eb. destruct Eb as (Ed & Ek).
    apply Nat.eqb_eq in Ed, Ek. subst. exact E.
Qed.

Lemma mget_ensureLevel (H : hierarchyLevels) (d : nat) :
  mget d (ensureLevel d H) <> None.
Proof.
  unfold ensureLevel, mhas. destruct (mget d H) eqn:E.
  - rewrite E. discriminate.
  - rewrite mget_mset_same. discriminate.
Qed.

Lemma getClump_ensureLevel (H : hierarchyLevels) (d d' k : nat) :
  getClump (ensureLevel d H) d' k = getClump H d' k.
Proof.
  unfold ensureLevel, mhas, getClump. destruct (mget d H) eqn:E; [reflexivity |].
  destruct (Nat.eq_dec d' d) as [-> | Hne].
  - rewrite mget_mset_same, E. reflexivity.
  - rewrite mget_mset_other by assumption. reflexivity.
Qed.

(** *** Keys are held once *)

Lemma store_wf_nil : store_wf [].
Proof. split; [constructor | intros d lvl H; discriminate]. Qed.

Lemma store_wf_mset (H : hierarchyLevels) (d : nat) (lvl : HierarchyLevel) :
  store_wf H -> NoDup (mkeys (clumps lvl)) -> store_wf (mset d lvl H).
Proof.
  intros (Hk & Hl) Hnd. split; [apply NoDup_mkeys_mset; exact Hk |].
  intros d' lvl' Hget. destruct (Nat.eq_dec d' d) as [-> | Hne].
  - rewrite mget_mset_same in Hget. inversion Hget; subst. exact Hnd.
  - rewrite mget_mset_other in Hget by assumption. eapply Hl; exact Hget.
Qed.

Lemma store_wf_ensureLevel (H : hierarchyLevels) (d : nat) :
  store_wf H -> store_wf (ensureLevel d H).
Proof.
  intros Hwf. unfold ensureLevel. destruct (mhas d H); [exact Hwf |].
  apply store_wf_mset; [exact Hwf | constructor].
Qed.

Lemma store_wf_setClump (H : hierarchyLevels) (d k : nat) (c : Clump) :
  store_wf H -> store_wf (setClump H d k c).
Proof.
  intros Hwf. unfold setClump. destruct (mget d H) as [lvl |] eqn:E; [| exact Hwf].
  apply store_wf_mset; [exact Hwf |]. simpl. apply NoDup_mkeys_mset.
  destruct Hwf as (_ & Hl). eapply Hl; exact E.
Qed.

Lemma store_wf_updClump (H : hierarchyLevels) (d k : nat) (f : Clump -> Clump) :
  store_wf H -> store_wf (updClump H d k f).
Proof.
  intros Hwf. unfold updClump. destruct (getClump H d k);
    [apply store_wf_setClump |]; exact Hwf.
Qed.

Lemma store_wf_insertClump (H : hierarchyLevels) (d n pk : nat) (l : R) :
  store_wf H -> store_wf (insertClump H d n pk l).
Proof.
  intros Hwf. unfold insertClump.
  destruct (getPreviousClump H d pk);
    [apply store_wf_updClump |]; apply store_wf_setClump; exact Hwf.
Qed.

(** *** Links between clumps *)

Ltac eqb_cases :=
  repeat match goal with
    | H : context [Nat.eqb ?a ?b] |- _ =>
        let E := fresh "E" in
        destruct (Nat.eqb a b) eqn:E;
        [apply Nat.eqb_eq in E; try subst | apply Nat.eqb_neq in E];
        simpl in H
    | |- context [Nat.eqb ?a ?b] =>
        let E := fresh "E" in
        destruct (Nat.eqb a b) eqn:E;
        [apply Nat.eqb_eq in E; try subst | apply Nat.eqb_neq in E];
        simpl
    end.

Lemma getClump_insertClump (H : hierarchyLevels) (d n pk : nat) (l : R) (d' k' : nat) :
  mget d H <> None ->
  getClump (insertClump H d n pk l) d' k'
  = match getPreviousClump H d pk with
    | Some P =>
        if Nat.eqb d' (d - 1) && Nat.eqb k' pk then Some (addChild n P)
        else if Nat.eqb d' d && Nat.eqb k' n then Some (newClump n (Some pk) l)
             else getClump H d' k'
    | None =>
        if Nat.eqb d' d && Nat.eqb k' n then Some (newClump n None l)
        else getClump H d' k'
    end.
Proof.
  intros Hex. unfold insertClump.
  destruct (getPreviousClump H d pk) as [P |] eqn:EP.
  - destruct d as [| d0]; [discriminate |]. simpl in EP. simpl.
    rewrite Nat.sub_0_r. rewrite getClump_updClump.
    rewrite !getClump_setClump by assumption.
    replace (Nat.eqb d0 (S d0)) with false by (symmetry; apply Nat.eqb_neq; lia).
    simpl. rewrite EP. reflexivity.
  - apply getClump_setClump. exact Hex.
Qed.

Lemma In_addChild (n k : nat) (c : Clump) :
  In k (childClumps (addChild n c)) <-> k = n \/ In k (childClumps c).
Proof.
  unfold addChild. simpl. destruct (existsb (Nat.eqb n) (childClumps c)) eqn:E.
  - split; [auto |]. intros [-> | Hin]; [| assumption].
    apply existsb_exists in E. destruct E as (x & Hx & Ex).
    apply Nat.eqb_eq in Ex. subst. assumption.
  - rewrite in_app_iff. simpl. intuition.
Qed.

Lemma NoDup_addChild (n : nat) (c : Clump) :
  NoDup (childClumps c) -> NoDup (childClumps (addChild n c)).
Proof.
  intros Hnd. unfold addChild. simpl.
  destruct (existsb (Nat.eqb n) (childClumps c)) eqn:E; [assumption |].
  rewrite <- (rev_involutive (childClumps c ++ [n])). apply NoDup_rev.
  rewrite rev_app_distr. simpl. constructor; [| apply NoDup_rev; assumption].
  rewrite <- in_rev. intros Hin.
  assert (Ht : existsb (Nat.eqb n) (childClumps c) = true).
  { apply existsb_exists. exists n. split; [assumption | apply Nat.eqb_refl]. }
  congruence.
Qed.

Lemma links_ok_nil : links_ok [].
Proof. repeat split; intros; discriminate. Qed.

(** A store that agrees with another on the parent and the children of
    every clump has its links in order when the other has. *)
Lemma links_ok_same (H H' : hierarchyLevels) :
  (forall d k,
      option_map (fun c => (parentClump c, childClumps c)) (getClump H' d k)
      = option_map (fun c => (parentClump c, childClumps c)) (getClump H d k)) ->
  links_ok H -> links_ok H'.
Proof.
  intros Hsame (Ha & Hc & Hf).
  assert (Hback : forall d k c', getClump H' d k = Some c' ->
            exists c, getClump H d k = Some c
                      /\ parentClump c = parentClump c'
                      /\ childClumps c = childClumps c').
  { intros d k c' E. specialize (Hsame d k). rewrite E in Hsame.
    destruct (getClump H d k) as [c |]; [| discriminate].
    simpl in Hsame. inversion Hsame. eauto. }
  assert (Hforth : forall d k c, getClump H d k = Some c ->
            exists c', getClump H' d k = Some c'
                       /\ parentClump c' = parentClump c
                       /\ childClumps c' = childClumps c).
  { intros d k c E. specialize (Hsame d k). rewrite E in Hsame.
    destruct (getClump H' d k) as [c' |]; [| discriminate].
    simpl in Hsame. inversion Hsame. eauto. }
  split; [| split].
  - intros d pk P' k E Hin. destruct (Hback _ _ _ E) as (P & EP & _ & Hch).
    rewrite <- Hch in Hin. destruct (Ha _ _ _ _ EP Hin) as (c & Ec & Hp).
    destruct (Hforth _ _ _ Ec) as (c' & Ec' & Hp' & _).
    exists c'. split; [assumption | congruence].
  - intros d k c' pk E Hp. destruct (Hback _ _ _ E) as (c & Ec & Hpc & _).
    rewrite <- Hpc in Hp. destruct (Hc _ _ _ _ Ec Hp) as (d' & P & -> & EP & Hin).
    destruct (Hforth _ _ _ EP) as (P' & EP' & _ & Hch).
    exists d', P'. repeat split; [assumption | rewrite Hch; assumption].
  - intros d k c' E. destruct (Hback _ _ _ E) as (c & Ec & _ & Hch).
    rewrite <- Hch. eapply Hf; exact Ec.
Qed.

Lemma links_ok_insertClump (H : hierarchyLevels) (d n pk : nat) (l : R) :
  links_ok H -> mget d H <> None -> getClump H d n = None ->
  links_ok (insertClump H d n pk l).
Proof.
  intros (Ha & Hc & Hf) Hex Hfresh.
  pose proof (fun d' k' => getClump_insertClump H d n pk l d' k' Hex) as Hget.
  destruct (getPreviousClump H d pk) as [P |] eqn:EP.
  - destruct d as [| d0]; [discriminate |]. simpl in EP.
    replace (S d0 - 1)%nat with d0 in Hget by lia.
    split; [| split].
    + intros dd pk' P' k E Hin. rewrite Hget in E.
      destruct (Nat.eqb dd d0 && Nat.eqb pk' pk) eqn:E1.
      * apply andb_true_iff in E1. destruct E1 as (E1 & E2).
        apply Nat.eqb_eq in E1, E2. subst dd pk'. inversion E; subst P'.
        apply In_addChild in Hin. rewrite (Hget (S d0) k).
        replace (Nat.eqb (S d0) d0) with false by (symmetry; apply Nat.eqb_neq; lia).
        simpl. rewrite Nat.eqb_refl. simpl.
        destruct (Nat.eqb k n) eqn:Ek.
        -- eexists. split; reflexivity.
        -- destruct Hin as [-> | Hin]; [rewrite Nat.eqb_refl in Ek; discriminate |].
           apply (Ha _ _ _ _ EP Hin).
      * destruct (Nat.eqb dd (S d0) && Nat.eqb pk' n) eqn:E2.
        -- inversion E; subst P'. contradiction.
        -- destruct (Ha _ _ _ _ E Hin) as (c & Ec & Hp). rewrite (Hget (S dd) k).
           destruct (Nat.eqb (S dd) d0 && Nat.eqb k pk) eqn:E3.
           ++ apply andb_true_iff in E3. destruct E3 as (E3 & E4).
              apply Nat.eqb_eq in E3, E4. subst d0 k.
              rewrite EP in Ec. inversion Ec; subst c.
              eexists. split; [reflexivity | exact Hp].
           ++ destruct (Nat.eqb (S dd) (S d0) && Nat.eqb k n) eqn:E4.
              ** apply andb_true_iff in E4. destruct E4 as (E4 & E5).
                 apply Nat.eqb_eq in E4, E5. inversion E4; subst dd k. congruence.
              ** eauto.
    + intros dd k c q E Hp. rewrite Hget in E.
      destruct (Nat.eqb dd d0 && Nat.eqb k pk) eqn:E1.
      * apply andb_true_iff in E1. destruct E1 as (E1 & E2).
        apply Nat.eqb_eq in E1, E2. subst dd k. inversion E; subst c.
        simpl in Hp. destruct (Hc _ _ _ _ EP Hp) as (d' & P0 & -> & EP0 & Hin).
        exists d', P0. split; [reflexivity |]. split; [| exact Hin].
        rewrite Hget.
        replace (Nat.eqb d' (S d')) with false by (symmetry; apply Nat.eqb_neq; lia).
        replace (Nat.eqb d' (S (S d'))) with false by (symmetry; apply Nat.eqb_neq; lia).
        simpl. exact EP0.
      * destruct (Nat.eqb dd (S d0) && Nat.eqb k n) eqn:E2.
        -- apply andb_true_iff in E2. destruct E2 as (E2 & E3).
           apply Nat.eqb_eq in E2, E3. subst dd k. inversion E; subst c.
           simpl in Hp. inversion Hp; subst q.
           exists d0, (addChild n P). split; [reflexivity |]. split.
           ++ rewrite Hget, !Nat.eqb_refl. reflexivity.
           ++ apply In_addChild. left. reflexivity.
        -- destruct (Hc _ _ _ _ E Hp) as (d' & P0 & -> & EP0 & Hin).
           destruct (Nat.eqb d' d0 && Nat.eqb q pk) eqn:E3.
           ++ apply andb_true_iff in E3. destruct E3 as (E3 & E4).
              apply Nat.eqb_eq in E3, E4. subst d' q.
              rewrite EP in EP0. inversion EP0; subst P0.
              exists d0, (addChild n P). split; [reflexivity |].
              split.
              ** rewrite Hget, !Nat.eqb_refl. reflexivity.
              ** apply In_addChild. right. exact Hin.
           ++ destruct (Nat.eqb d' (S d0) && Nat.eqb q n) eqn:E4.
              ** apply andb_true_iff in E4. destruct E4 as (E4 & E5).
                 apply Nat.eqb_eq in E4, E5. subst d' q. congruence.
              ** exists d', P0. split; [reflexivity |]. split; [| exact Hin].
                 rewrite Hget, E3, E4. exact EP0.
    + intros dd k c E. rewrite Hget in E.
      destruct (Nat.eqb dd d0 && Nat.eqb k pk).
      * inversion E; subst c. apply NoDup_addChild. eapply Hf; exact EP.
      * destruct (Nat.eqb dd (S d0) && Nat.eqb k n).
        -- inversion E; subst c. constructor.
        -- eapply Hf; exact E.
  - split; [| split].
    + intros dd pk' P' k E Hin. rewrite Hget in E.
      destruct (Nat.eqb dd d && Nat.eqb pk' n) eqn:E1.
      * inversion E; subst P'. contradiction.
      * destruct (Ha _ _ _ _ E Hin) as (c & Ec & Hp). rewrite (Hget (S dd) k).
        destruct (Nat.eqb (S dd) d && Nat.eqb k n) eqn:E2.
        -- apply andb_true_iff in E2. destruct E2 as (E2 & E3).
           apply Nat.eqb_eq in E2, E3. subst d k. congruence.
        -- eauto.
    + intros dd k c q E Hp. rewrite Hget in E.
      destruct (Nat.eqb dd d && Nat.eqb k n) eqn:E1.
      * inversion E; subst c. discriminate.
      * destruct (Hc _ _ _ _ E Hp) as (d' & P0 & -> & EP0 & Hin).
        exists d', P0. split; [reflexivity |]. split; [| exact Hin].
        rewrite Hget.
        destruct (Nat.eqb d' d && Nat.eqb q n) eqn:E2; [| exact EP0].
        apply andb_true_iff in E2. destruct E2 as (E2 & E3).
        apply Nat.eqb_eq in E2, E3. subst d' q. congruence.
    + intros dd k c E. rewrite Hget in E.
      destruct (Nat.eqb dd d && Nat.eqb k n).
      * inversion E; subst c. constructor.
      * eapply Hf; exact E.
Qed.

(** *** Indexing the clumps *)

Lemma index_inv_ensureLevel (na : NodeAllocation) (processed : list nat)
    (H : hierarchyLevels) (d : nat) :
  index_inv na processed H -> index_inv na processed (ensureLevel d H).
Proof.
  intros (Hwf & Hl & Hk). split; [apply store_wf_ensureLevel; exact Hwf |]. split.
  - apply (links_ok_same H); [| exact Hl].
    intros d' k. rewrite getClump_ensureLevel. reflexivity.
  - intros d' k c E. rewrite getClump_ensureLevel in E. eapply Hk; exact E.
Qed.

Lemma index_inv_insertClump (na : NodeAllocation) (processed : list nat)
    (H : hierarchyLevels) (d n pk : nat) (l : R) :
  index_inv na processed H -> mget d H <> None -> getClump H d n = None ->
  indexed na processed n ->
  index_inv na processed (insertClump H d n pk l).
Proof.
  intros (Hwf & Hl & Hk) Hex Hfresh Hn.
  split; [apply store_wf_insertClump; exact Hwf |].
  split; [apply links_ok_insertClump; assumption |].
  intros d' k c E. rewrite getClump_insertClump in E by exact Hex.
  destruct (getPreviousClump H d pk) as [P |] eqn:EP.
  - destruct (Nat.eqb d' (d - 1) && Nat.eqb k pk) eqn:E1.
    + apply andb_true_iff in E1. destruct E1 as (_ & E1).
      apply Nat.eqb_eq in E1. subst k.
      destruct d; [discriminate |]. simpl in EP. eapply Hk; exact EP.
    + destruct (Nat.eqb d' d && Nat.eqb k n) eqn:E2; [| eapply Hk; exact E].
      apply andb_true_iff in E2. destruct E2 as (_ & E2).
      apply Nat.eqb_eq in E2. subst k. exact Hn.
  - destruct (Nat.eqb d' d && Nat.eqb k n) eqn:E2; [| eapply Hk; exact E].
    apply andb_true_iff in E2. destruct E2 as (_ & E2).
    apply Nat.eqb_eq in E2. subst k. exact Hn.
Qed.

Lemma index_inv_setLongest (na : NodeAllocation) (processed : list nat)
    (H : hierarchyLevels) (d k : nat) (c : Clump) (l : R) :
  index_inv na processed H -> getClump H d k = Some c ->
  index_inv na processed (setClump H d k (setLongest l c)).
Proof.
  intros (Hwf & Hl & Hk) Hc.
  pose proof (getClump_level _ _ _ _ Hc) as Hex.
  split; [apply store_wf_setClump; exact Hwf |]. split.
  - apply (links_ok_same H); [| exact Hl].
    intros d' k'. rewrite getClump_setClump by exact Hex.
    destruct (Nat.eqb d' d && Nat.eqb k' k) eqn:E; [| reflexivity].
    apply andb_true_iff in E. destruct E as (E1 & E2).
    apply Nat.eqb_eq in E1, E2. subst. rewrite Hc. reflexivity.
  - intros d' k' c' E. rewrite getClump_setClump in E by exact Hex.
    destruct (Nat.eqb d' d && Nat.eqb k' k) eqn:E1; [| eapply Hk; exact E].
    apply andb_true_iff in E1. destruct E1 as (E1 & E2).
    apply Nat.eqb_eq in E1, E2. subst. eapply Hk; exact Hc.
Qed.

Lemma index_inv_ancestor_step (na : NodeAllocation) (processed : list nat)
    (len : R) (H : hierarchyLevels) (d a : nat) :
  index_inv na processed H -> index_inv na processed (ancestor_step na len H d a).
Proof.
  intros Hinv. unfold ancestor_step.
  pose proof (index_inv_ensureLevel na processed H d Hinv) as Hinv1.
  destruct (mget a (midPoints na)) as [mp |] eqn:Emp; [| exact Hinv1].
  destruct (getClump (ensureLevel d H) d a) as [c |] eqn:Ec.
  - destruct (Reqb (longestLeafLength c) 0 || Rltb (longestLeafLength c) len);
      [| exact Hinv1].
    apply index_inv_setLongest; assumption.
  - apply index_inv_insertClump; [exact Hinv1 | apply mget_ensureLevel | exact Ec |].
    left. congruence.
Qed.

Lemma index_inv_ancestors_loop (na : NodeAllocation) (processed : list nat)
    (len : R) (ancestors : list nat) :
  forall H d, index_inv na processed H ->
              index_inv na processed (ancestors_loop na len H d ancestors).
Proof.
  induction ancestors as [| a rest IH]; intros H d Hinv; simpl; [exact Hinv |].
  apply IH. apply index_inv_ancestor_step. exact Hinv.
Qed.

Lemma index_inv_weaken (na : NodeAllocation) (processed processed' : list nat)
    (H : hierarchyLevels) :
  incl processed processed' ->
  index_inv na processed H -> index_inv na processed' H.
Proof.
  intros Hincl (Hwf & Hl & Hk). repeat split; try assumption; try apply Hwf; try apply Hl.
  intros d k c E. destruct (Hk d k c E) as [Hm | Hp]; [left | right]; auto.
Qed.

Lemma index_inv_leaf_step (na : NodeAllocation) (processed : list nat)
    (H H' : hierarchyLevels) (leaf : LayoutNode) :
  mget (node_id (node leaf)) (midPoints na) = None ->
  ~ In (node_id (node leaf)) processed ->
  index_inv na processed H ->
  leaf_step na H leaf = Ok H' ->
  index_inv na (processed ++ [node_id (node leaf)]) H'.
Proof.
  intros Hnotmid Hnew Hinv Hstep. unfold leaf_step in Hstep. inv_bind Hstep.
  inversion Hstep; subst H'. clear Hstep H0.
  set (len := totalStemLength_combined (stem leaf)) in *.
  set (H1 := ancestors_loop na len H 0 (leafAncestors leaf)) in *.
  set (depth := List.length (leafAncestors leaf)) in *.
  assert (Hinv2 : index_inv na processed (ensureLevel depth H1)).
  { apply index_inv_ensureLevel. apply index_inv_ancestors_loop. exact Hinv. }
  assert (Hfresh : getClump (ensureLevel depth H1) depth (node_id (node leaf)) = None).
  { destruct (getClump (ensureLevel depth H1) depth (node_id (node leaf))) as [c |] eqn:E;
      [| reflexivity].
    destruct Hinv2 as (_ & _ & Hk). destruct (Hk _ _ _ E); contradiction. }
  apply index_inv_insertClump.
  - eapply index_inv_weaken; [| exact Hinv2]. apply incl_appl, incl_refl.
  - apply mget_ensureLevel.
  - exact Hfresh.
  - right. apply in_or_app. right. left. reflexivity.
Qed.

Lemma index_inv_foldM (na : NodeAllocation) (ls : list LayoutNode) :
  forall processed H H',
    NoDup (processed ++ map (fun ln => node_id (node ln)) ls) ->
    (forall l, In l ls -> mget (node_id (node l)) (midPoints na) = None) ->
    index_inv na processed H ->
    foldM (leaf_step na) ls H = Ok H' ->
    index_inv na (processed ++ map (fun ln => node_id (node ln)) ls) H'.
Proof.
  induction ls as [| l ls IH]; intros processed H H' Hnd Hmid Hinv Hrun.
  - simpl in Hrun. inversion Hrun; subst. simpl. rewrite app_nil_r. exact Hinv.
  - apply foldM_cons in Hrun. destruct Hrun as (H1 & Hstep & Hrest).
    simpl in Hnd. simpl.
    replace (processed ++ node_id (node l) :: map (fun ln => node_id (node ln)) ls)
      with ((processed ++ [node_id (node l)]) ++ map (fun ln => node_id (node ln)) ls)
      in * by (rewrite <- app_assoc; reflexivity).
    apply (IH _ H1 H'); [exact Hnd | | | exact Hrest].
    + intros l' Hin. apply Hmid. right. exact Hin.
    + apply (index_inv_leaf_step na processed H H1 l);
        [apply Hmid; left; reflexivity | | exact Hinv | exact Hstep].
      intros Hin. rewrite <- app_assoc in Hnd. simpl in Hnd.
      apply NoDup_remove_2 in Hnd. apply Hnd. apply in_or_app. left. exact Hin.
Qed.

(** *** Assigning the units *)

Lemma foldM_ext {A B : Type} (f g : A -> B -> result A) (l : list B) :
  (forall a b, In b l -> f a b = g a b) ->
  forall a, foldM f l a = foldM g l a.
Proof.
  induction l as [| b l IH]; intros Hfg a; simpl; [reflexivity |].
  rewrite Hfg by (left; reflexivity).
  destruct (g a b); simpl; [| reflexivity].
  apply IH. intros a' b' Hin. apply Hfg. right. exact Hin.
Qed.

Lemma getTotal_same (H H' : hierarchyLevels) (d : nat) (P P' : Clump) :
  (forall k, option_map shape (getClump H' d k) = option_map shape (getClump H d k)) ->
  childClumps P' = childClumps P ->
  getTotalChildrenLongestLeafLength H' d P'
  = getTotalChildrenLongestLeafLength H d P.
Proof.
  intros Hs Hch. unfold getTotalChildrenLongestLeafLength. rewrite Hch.
  apply foldM_ext. intros t k _. specialize (Hs k).
  destruct (getClump H' d k) as [c' |], (getClump H d k) as [c |];
    simpl in *; try discriminate; [| reflexivity].
  unfold shape in Hs. inversion Hs. congruence.
Qed.

Lemma getTotal_sum (H : hierarchyLevels) (d : nat) (P : Clump) (S : R) :
  getTotalChildrenLongestLeafLength H d P = Ok S ->
  S = fold_left (fun t k => t + longestAt H d k) (childClumps P) 0.
Proof.
  unfold getTotalChildrenLongestLeafLength. generalize 0 at 1 2.
  induction (childClumps P) as [| k ks IH]; intros t Hrun; simpl in *.
  - inversion Hrun; reflexivity.
  - inv_bind Hrun. inv_bind H0. apply deref_Ok in H1. inversion H0; subst.
    rewrite (IH _ Hrun). f_equal. unfold longestAt. rewrite H1. reflexivity.
Qed.

Lemma fold_left_scale {A : Type} (f g : A -> R) (a : R) (l : list A) :
  (forall x, In x l -> f x = a * g x) ->
  forall t, fold_left (fun t x => t + f x) l (a * t)
            = a * fold_left (fun t x => t + g x) l t.
Proof.
  induction l as [| x l IH]; intros Hfg t; simpl; [reflexivity |].
  rewrite Hfg by (left; reflexivity).
  replace (a * t + a * g x) with (a * (t + g x)) by ring.
  apply IH. intros y Hy. apply Hfg. right. exact Hy.
Qed.

Lemma same_shape_refl (H : hierarchyLevels) : same_shape H H.
Proof. split; reflexivity. Qed.

Lemma same_shape_trans (H1 H2 H3 : hierarchyLevels) :
  same_shape H1 H2 -> same_shape H2 H3 -> same_shape H1 H3.
Proof.
  intros (K1 & S1) (K2 & S2). split; [congruence |].
  intros d k. rewrite S2. apply S1.
Qed.

Lemma mkeys_mset_present {V : Type} (k : nat) (v v' : V) (m : jsmap V) :
  mget k m = Some v' -> mkeys (mset k v m) = mkeys m.
Proof. intros E. rewrite mkeys_mset. unfold mhas. rewrite E. reflexivity. Qed.

Lemma same_shape_setUnits (H : hierarchyLevels) (d k : nat) (u : R) :
  same_shape H (updClump H d k (setUnits u)).
Proof.
  split.
  - unfold updClump. destruct (getClump H d k) as [c |] eqn:E; [| reflexivity].
    unfold setClump. unfold getClump in E.
    destruct (mget d H) as [lvl |] eqn:El; [| discriminate].
    eapply mkeys_mset_present. exact El.
  - intros d' k'. rewrite getClump_updClump.
    destruct (Nat.eqb d' d && Nat.eqb k' k) eqn:E; [| reflexivity].
    apply andb_true_iff in E. destruct E as (E1 & E2).
    apply Nat.eqb_eq in E1, E2. subst. destruct (getClump H d k); reflexivity.
Qed.

Lemma getClump_set_sum (H : hierarchyLevels) (d : nat) (lvl : HierarchyLevel)
    (s : option R) (d' k : nat) :
  mget d H = Some lvl ->
  getClump (mset d (mkLevel (level_depth lvl) (clumps lvl) s) H) d' k
  = getClump H d' k.
Proof.
  intros El. unfold getClump. destruct (Nat.eq_dec d' d) as [-> | Hne].
  - rewrite mget_mset_same, El. reflexivity.
  - rewrite mget_mset_other by assumption. reflexivity.
Qed.

Lemma assigned_at_same (H H' : hierarchyLevels) (d k : nat) :
  (forall d0 k0, d0 <= d -> getClump H' d0 k0 = getClump H d0 k0)%nat ->
  assigned_at H d k -> assigned_at H' d k.
Proof.
  intros Hsame Hass c pk Ec Hp. rewrite Hsame in Ec by lia.
  destruct (Hass c pk Ec Hp) as (d' & P & up & S & u & -> & EP & Hup & HS & Hne & Hu & Eu).
  exists d', P, up, S, u. repeat split; try assumption.
  - rewrite Hsame by lia. exact EP.
  - rewrite <- HS. apply getTotal_same; [| reflexivity].
    intros k0. rewrite Hsame by lia. reflexivity.
Qed.

(** Writing the units of a clump at depth [d2] keeps what has been
    assigned to the other clumps at depths up to [d2]. *)
Lemma assigned_at_setUnits (H : hierarchyLevels) (d k d2 k2 : nat) (u2 : R) :
  (d <= d2)%nat -> ~ (d = d2 /\ k = k2) ->
  assigned_at H d k -> assigned_at (updClump H d2 k2 (setUnits u2)) d k.
Proof.
  intros Hle Hne Hass c pk Ec Hp. rewrite getClump_updClump in Ec.
  destruct (Nat.eqb d d2 && Nat.eqb k k2) eqn:E.
  { apply andb_true_iff in E. destruct E as (E1 & E2).
    apply Nat.eqb_eq in E1, E2. tauto. }
  destruct (Hass c pk Ec Hp) as (d' & P & up & S & u & -> & EP & Hup & HS & HS0 & Hu & Eu).
  exists d', P, up, S, u. repeat split; try assumption.
  - rewrite getClump_updClump.
    replace (Nat.eqb d' d2) with false by (symmetry; apply Nat.eqb_neq; lia).
    exact EP.
  - rewrite <- HS. apply getTotal_same; [| reflexivity].
    intros k0. apply (proj2 (same_shape_setUnits H d2 k2 u2)).
Qed.

Lemma units_step_Ok (d : nat) (total : R) (H H' : hierarchyLevels)
    (pos pos' : jsmap Position.t) (k : nat) (c0 : Clump) :
  units_step d total (H, pos) (k, c0) = Ok (H', pos') ->
  exists u,
    H' = updClump H d k (setUnits u)
    /\ forall pk, parentClump c0 = Some pk ->
         exists P up S,
           getPreviousClump H d pk = Some P /\ clump_units P = Some up
           /\ getTotalChildrenLongestLeafLength H d P = Ok S /\ S <> 0
           /\ u = up * (longestLeafLength c0 / S).
Proof.
  unfold units_step. intros Hrun.
  apply bind_Ok in Hrun. destruct Hrun as ([parentUnits factor] & Hparent & Hrun).
  apply bind_Ok in Hrun. destruct Hrun as (u & Hval & Hrun).
  apply bind_Ok in Hrun. destruct Hrun as (pos1 & _ & Hrun).
  inversion Hrun; subst. clear Hrun.
  exists u. split; [reflexivity |]. intros pk Hpk. rewrite Hpk in Hparent.
  apply bind_Ok in Hparent. destruct Hparent as (P & HP & Hparent).
  apply bind_Ok in Hparent. destruct Hparent as (S & HS & Hparent).
  apply deref_Ok in HP. inversion Hparent; subst. clear Hparent.
  apply validateStat_inv in Hval.
  destruct (clump_units P) as [up |] eqn:Eup; [| discriminate].
  destruct (jsdiv (longestLeafLength c0) factor) as [q |] eqn:Eq; [| discriminate].
  apply jsdiv_inv in Eq. destruct Eq as (Hne & ->).
  simpl in Hval. inversion Hval; subst.
  exists P, up, factor. repeat split; try assumption; reflexivity.
Qed.

Lemma shape_Some (o o' : option Clump) (c : Clump) :
  option_map shape o' = option_map shape o -> o = Some c ->
  exists c', o' = Some c' /\ shape c' = shape c.
Proof.
  intros E ->. destruct o' as [c' |]; [| discriminate].
  simpl in E. exists c'. split; [reflexivity | congruence].
Qed.

Lemma shape_None (o o' : option Clump) :
  option_map shape o' = option_map shape o -> o = None -> o' = None.
Proof. intros E ->. destruct o'; [discriminate | reflexivity]. Qed.

Lemma units_loop (d : nat) (total : R) (L : list (nat * Clump)) :
  forall H pos H' pos',
    foldM (units_step d total) L (H, pos) = Ok (H', pos') ->
    store_wf H ->
    (forall k c0, In (k, c0) L ->
       exists c, getClump H d k = Some c /\ shape c = shape c0) ->
    store_wf H' /\ same_shape H H'
    /\ (forall d1 k1, (d1 <= d)%nat -> ~ (d1 = d /\ In k1 (mkeys L)) ->
          assigned_at H d1 k1 -> assigned_at H' d1 k1)
    /\ (forall k, In k (mkeys L) -> assigned_at H' d k).
Proof.
  induction L as [| [k c0] L IH]; intros H pos H' pos' Hrun Hwf Hcur.
  - simpl in Hrun. inversion Hrun; subst.
    split; [exact Hwf |]. split; [apply same_shape_refl |].
    split; [auto | intros k []].
  - apply foldM_cons in Hrun. destruct Hrun as ([H1 pos1] & Hstep & Hrest).
    apply units_step_Ok in Hstep. destruct Hstep as (u & -> & Hspec).
    pose proof (same_shape_setUnits H d k u) as SS0.
    assert (Hcur1 : forall k' c0', In (k', c0') L ->
              exists c, getClump (updClump H d k (setUnits u)) d k' = Some c
                        /\ shape c = shape c0').
    { intros k' c0' Hin. destruct (Hcur k' c0' (or_intror Hin)) as (c & Ec & Hs).
      destruct (shape_Some _ _ c (proj2 SS0 d k') Ec) as (c' & Ec' & Hs').
      exists c'. split; [exact Ec' | congruence]. }
    destruct (IH _ _ _ _ Hrest (store_wf_updClump H d k (setUnits u) Hwf) Hcur1)
      as (Hwf' & SS1 & Hoth & Hkeys).
    assert (Hhere : assigned_at (updClump H d k (setUnits u)) d k).
    { intros c pk Ec Hp. rewrite getClump_updClump, !Nat.eqb_refl in Ec. simpl in Ec.
      destruct (Hcur k c0 (or_introl eq_refl)) as (ccur & Ecur & Hs).
      rewrite Ecur in Ec. simpl in Ec. inversion Ec; subst c. clear Ec.
      unfold shape in Hs. inversion Hs as [[Hs1 Hs2 Hs3]].
      simpl in Hp. rewrite Hs1 in Hp.
      destruct (Hspec pk Hp) as (P & up & S & HP & Hup & HS & HS0 & Eu).
      destruct d as [| d']; [discriminate |]. simpl in HP.
      exists d', P, up, S, u. repeat split; try assumption.
      - rewrite getClump_updClump.
        replace (Nat.eqb d' (Datatypes.S d')) with false
          by (symmetry; apply Nat.eqb_neq; lia).
        exact HP.
      - rewrite <- HS. apply getTotal_same; [| reflexivity].
        intros k0. apply (proj2 SS0).
      - simpl. rewrite Hs3. exact Eu. }
    split; [exact Hwf' |].
    split; [eapply same_shape_trans; eassumption |]. split.
    + intros d1 k1 Hle Hnot Hass. apply Hoth; [exact Hle | |].
      * intros (E1 & E2). apply Hnot. split; [exact E1 | right; exact E2].
      * apply assigned_at_setUnits; [exact Hle | | exact Hass].
        intros (E1 & E2). apply Hnot. split; [exact E1 | left; symmetry; exact E2].
    + intros k' Hin. destruct (in_dec Nat.eq_dec k' (mkeys L)) as [Hin' | Hnot'].
      * apply Hkeys. exact Hin'.
      * simpl in Hin. destruct Hin as [<- | Hin]; [| contradiction].
        apply Hoth; [lia | tauto | exact Hhere].
Qed.

Lemma level_step_Ok (d : nat) (H H' : hierarchyLevels) (pos pos' : jsmap Position.t) :
  level_step (H, pos) d = Ok (H', pos') -> store_wf H ->
  store_wf H' /\ same_shape H H' /\ mget d H <> None
  /\ (forall d1 k1, (d1 < d)%nat -> assigned_at H d1 k1 -> assigned_at H' d1 k1)
  /\ (forall k, assigned_at H' d k).
Proof.
  unfold level_step. intros Hrun Hwf.
  apply bind_Ok in Hrun. destruct Hrun as (lvl & Hlvl & Hrun).
  apply deref_Ok in Hlvl.
  set (total := sumLongestLeafLengths (mvalues (clumps lvl))) in *.
  set (H0 := mset d (mkLevel (level_depth lvl) (clumps lvl) (Some total)) H) in *.
  assert (Hget0 : forall d' k, getClump H0 d' k = getClump H d' k).
  { intros d' k. apply getClump_set_sum. exact Hlvl. }
  assert (Hnd : NoDup (mkeys (clumps lvl))).
  { destruct Hwf as (_ & Hl). eapply Hl; exact Hlvl. }
  assert (Hwf0 : store_wf H0).
  { apply store_wf_mset; [exact Hwf | exact Hnd]. }
  assert (SS0 : same_shape H H0).
  { split; [eapply mkeys_mset_present; exact Hlvl |].
    intros d' k. rewrite Hget0. reflexivity. }
  assert (Hcur : forall k c0, In (k, c0) (clumps lvl) ->
            exists c, getClump H0 d k = Some c /\ shape c = shape c0).
  { intros k c0 Hin. exists c0. split; [| reflexivity].
    rewrite Hget0. unfold getClump. rewrite Hlvl. apply In_mget; assumption. }
  destruct (units_loop d total (clumps lvl) _ _ _ _ Hrun Hwf0 Hcur)
    as (Hwf' & SS1 & Hoth & Hkeys).
  pose proof (same_shape_trans _ _ _ SS0 SS1) as SS.
  split; [exact Hwf' |]. split; [exact SS |]. split; [congruence |]. split.
  - intros d1 k1 Hlt Hass. apply Hoth; [lia | lia |].
    apply (assigned_at_same H); [| exact Hass]. intros; apply Hget0.
  - intros k. destruct (in_dec Nat.eq_dec k (mkeys (clumps lvl))) as [Hin | Hnot].
    + apply Hkeys. exact Hin.
    + intros c pk Ec. exfalso.
      assert (E : getClump H d k = None).
      { unfold getClump. rewrite Hlvl. apply mget_None_keys. exact Hnot. }
      rewrite (shape_None _ _ (proj2 SS d k) E) in Ec. discriminate.
Qed.

Lemma levels_loop (len : nat) :
  forall start H pos H' pos',
    foldM level_step (seq start len) (H, pos) = Ok (H', pos') ->
    store_wf H ->
    (forall d k, (d < start)%nat -> assigned_at H d k) ->
    store_wf H' /\ same_shape H H'
    /\ (forall d k, (d < start + len)%nat -> assigned_at H' d k)
    /\ (forall d, (start <= d < start + len)%nat -> mget d H <> None).
Proof.
  induction len as [| len IH]; intros start H pos H' pos' Hrun Hwf Hdone.
  - simpl in Hrun. inversion Hrun; subst.
    split; [exact Hwf |]. split; [apply same_shape_refl |].
    split; [intros d k Hlt; apply Hdone; lia | intros d Hd; lia].
  - simpl in Hrun. apply bind_Ok in Hrun. destruct Hrun as ([H1 pos1] & Hstep & Hrest).
    destruct (level_step_Ok _ _ _ _ _ Hstep Hwf) as (Hwf1 & SS1 & Hex & Hkeep & Hnew).
    assert (Hdone1 : forall d k, (d < Datatypes.S start)%nat -> assigned_at H1 d k).
    { intros d k Hlt. destruct (Nat.eq_dec d start) as [-> | Hne]; [apply Hnew |].
      apply Hkeep; [lia | apply Hdone; lia]. }
    destruct (IH _ _ _ _ _ Hrest Hwf1 Hdone1) as (Hwf' & SS' & Hall & Hexs).
    split; [exact Hwf' |]. split; [eapply same_shape_trans; eassumption |]. split.
    + intros d k Hlt. apply Hall. lia.
    + intros d Hd. destruct (Nat.eq_dec d start) as [-> | Hne]; [exact Hex |].
      assert (E1 : mget d H1 <> None) by (apply Hexs; lia).
      intros E. apply E1. apply mget_None_keys. rewrite (proj1 SS1).
      apply mget_None_keys. exact E.
Qed.

Lemma index_inv_indexClumps (na : NodeAllocation) (H : hierarchyLevels) :
  NoDup (nodeIds (leaves na)) ->
  (forall l, In l (mvalues (leaves na)) ->
             mget (node_id (node l)) (midPoints na) = None) ->
  indexClumps na = Ok H ->
  index_inv na (nodeIds (leaves na)) H.
Proof.
  intros Hnd Hmid Hrun.
  apply (index_inv_foldM na (mvalues (leaves na)) [] [] H); try assumption.
  split; [apply store_wf_nil |]. split; [apply links_ok_nil |].
  intros d k c E. discriminate.
Qed.

(** Every level that the store holds is below the number of levels, once
    all depths below that number are present. *)
Lemma level_below_size (H : hierarchyLevels) (d : nat) :
  NoDup (mkeys H) ->
  (forall i, (i < List.length H)%nat -> mget i H <> None) ->
  mget d H <> None -> (d < List.length H)%nat.
Proof.
  intros Hnd Hall Hd.
  assert (Hincl : incl (mkeys H) (seq 0 (List.length H))).
  { apply NoDup_length_incl.
    - apply seq_NoDup.
    - unfold mkeys. rewrite length_map, length_seq. lia.
    - intros i Hi. apply in_seq in Hi.
      destruct (in_dec Nat.eq_dec i (mkeys H)) as [Hin | Hnot]; [exact Hin |].
      apply mget_None_keys in Hnot. exfalso. apply (Hall i); [lia | exact Hnot]. }
  assert (Hin : In d (mkeys H)).
  { destruct (in_dec Nat.eq_dec d (mkeys H)) as [Hin | Hnot]; [exact Hin |].
    apply mget_None_keys in Hnot. contradiction. }
  apply Hincl in Hin. apply in_seq in Hin. lia.
Qed.

(** C1, as the code has it.  After the conversion, the clumps that share
    a parent clump are the children that the parent lists, each once, and
    the sum of their units is the units of the parent. *)
Theorem sibling_units_sum_to_parent (na : NodeAllocation) (H : hierarchyLevels)
    (pos : jsmap Position.t) (d pk : nat) (P : Clump) :
  NoDup (nodeIds (leaves na)) ->
  (forall l, In l (mvalues (leaves na)) ->
             mget (node_id (node l)) (midPoints na) = None) ->
  convertHierarchy na = Ok (H, pos) ->
  getClump H d pk = Some P ->
  childClumps P <> [] ->
  NoDup (childClumps P)
  /\ (forall k, In k (childClumps P) <->
                exists c, getClump H (S d) k = Some c /\ parentClump c = Some pk)
  /\ exists u,
      clump_units P = Some u
      /\ (forall k, In k (childClumps P) ->
            exists c uk, getClump H (S d) k = Some c /\ clump_units c = Some uk)
      /\ sumSiblingUnits H (S d) (childClumps P) = u.
Proof.
  intros Hnd Hmid Hrun HP Hne.
  unfold convertHierarchy in Hrun.
  apply bind_Ok in Hrun. destruct Hrun as (H0 & Hindex & Hassign).
  destruct (index_inv_indexClumps na H0 Hnd Hmid Hindex) as (Hwf0 & Hl0 & _).
  unfold assignUnits in Hassign.
  destruct (levels_loop _ _ _ _ _ _ Hassign Hwf0 ltac:(intros; lia))
    as (Hwf & SS & Hall & Hexs).
  assert (Hl : links_ok H).
  { apply (links_ok_same H0); [| exact Hl0]. intros d0 k0.
    pose proof (proj2 SS d0 k0) as E.
    destruct (getClump H d0 k0), (getClump H0 d0 k0); simpl in *;
      try discriminate; [| reflexivity].
    unfold shape in E. inversion E. reflexivity. }
  destruct Hl as (Ha & Hc & Hf).
  assert (Hlt : (S d < List.length H0)%nat).
  { destruct (childClumps P) as [| k ks] eqn:Ech; [congruence |].
    destruct (Ha d pk P k HP) as (c & Ec & _); [rewrite Ech; left; reflexivity |].
    apply level_below_size; [apply Hwf0 | intros i Hi; apply Hexs; lia |].
    intros E. apply getClump_level in Ec. apply Ec.
    apply mget_None_keys. rewrite (proj1 SS). apply mget_None_keys. exact E. }
  assert (Hchild : forall k, In k (childClumps P) ->
            exists c up S,
              getClump H (Datatypes.S d) k = Some c /\ parentClump c = Some pk
              /\ clump_units P = Some up
              /\ getTotalChildrenLongestLeafLength H (Datatypes.S d) P = Ok S
              /\ S <> 0
              /\ clump_units c = Some (up * (longestLeafLength c / S))).
  { intros k Hin. destruct (Ha d pk P k HP Hin) as (c & Ec & Hp).
    destruct (Hall (Datatypes.S d) k Hlt c pk Ec Hp)
      as (d' & P' & up & S & u & Ed & EP' & Hup & HS & HS0 & Hu & Eu).
    inversion Ed; subst d'. rewrite HP in EP'. inversion EP'; subst P'.
    exists c, up, S. repeat split; try assumption. rewrite Hu, Eu. reflexivity. }
  split; [eapply Hf; exact HP |]. split.
  { intros k. split.
    - intros Hin. apply (Ha d pk P k HP Hin).
    - intros (c & Ec & Hp).
      destruct (Hc _ _ _ _ Ec Hp) as (d' & P' & Ed & EP' & Hin).
      inversion Ed; subst d'. rewrite HP in EP'. inversion EP'; subst P'. exact Hin. }
  destruct (childClumps P) as [| k1 ks] eqn:Ech; [congruence |].
  destruct (Hchild k1 (or_introl eq_refl))
    as (c1 & up & S & _ & _ & Hup & HS & HS0 & _).
  exists up. split; [exact Hup |]. split.
  { intros k Hin. destruct (Hchild k Hin) as (c & up' & S' & Ec & _ & _ & _ & _ & Hu).
    eauto. }
  pose proof (getTotal_sum _ _ _ _ HS) as ES. rewrite Ech in ES.
  unfold sumSiblingUnits.
  transitivity (fold_left (fun t k => t + clumpUnitsAt H (Datatypes.S d) k)
                          (k1 :: ks) (up / S * 0)).
  { f_equal. ring. }
  rewrite (fold_left_scale (clumpUnitsAt H (Datatypes.S d))
             (longestAt H (Datatypes.S d)) (up / S)).
  - rewrite <- ES. field. exact HS0.
  - intros k Hin.
    destruct (Hchild k Hin) as (c & up' & S' & Ec & _ & Hup' & HS' & _ & Hu).
    rewrite Hup in Hup'. inversion Hup'; subst up'.
    rewrite HS in HS'. inversion HS'; subst S'.
    unfold clumpUnitsAt, longestAt. rewrite Ec, Hu. field. exact HS0.
Qed.

(** ** Construction *)

Lemma In_mset {V : Type} (k k' : nat) (v v' : V) (m : jsmap V) :
  In (k', v') (mset k v m) -> (k', v') = (k, v) \/ In (k', v') m.
Proof.
  induction m as [| [k0 v0] m IH]; simpl.
  - intros [E | []]. left. symmetry. exact E.
  - destruct (Nat.eqb k k0).
    + intros [E | Hin]; [left; symmetry; exact E | right; right; exact Hin].
    + intros [E | Hin]; [right; left; exact E |].
      destruct (IH Hin) as [E | Hin']; [left; exact E | right; right; exact Hin'].
Qed.

Lemma nodeIds_keyed (m : jsmap LayoutNode) : keyedById m -> nodeIds m = mkeys m.
Proof.
  unfold nodeIds, mvalues, mkeys. induction m as [| [k ln] m IH]; intros Hk;
    simpl; [reflexivity |].
  rewrite (Hk k ln) by (left; reflexivity). f_equal.
  apply IH. intros k' ln' Hin. apply Hk. right. exact Hin.
Qed.

Lemma In_mvalues {V : Type} (v : V) (m : jsmap V) :
  In v (mvalues m) -> exists k, In (k, v) m.
Proof.
  unfold mvalues. intros Hin. apply in_map_iff in Hin.
  destruct Hin as ([k v'] & E & Hin). simpl in E. subst. eauto.
Qed.

Lemma In_mkeys {V : Type} (k : nat) (m : jsmap V) :
  In k (mkeys m) -> exists v, In (k, v) m.
Proof.
  unfold mkeys. intros Hin. apply in_map_iff in Hin.
  destruct Hin as ([k' v] & E & Hin). simpl in E. subst. eauto.
Qed.

Lemma NoDup_map_inj {A B : Type} (f : A -> B) (l : list A) (a b : A) :
  NoDup (map f l) -> In a l -> In b l -> f a = f b -> a = b.
Proof.
  induction l as [| x l IH]; intros Hnd Ha Hb E; [contradiction |].
  simpl in Hnd. apply NoDup_cons_iff in Hnd. destruct Hnd as (Hnot & Hnd).
  destruct Ha as [<- | Ha], Hb as [<- | Hb].
  - reflexivity.
  - exfalso. apply Hnot. rewrite E. apply in_map. exact Hb.
  - exfalso. apply Hnot. rewrite <- E. apply in_map. exact Ha.
  - apply IH; assumption.
Qed.

(** The categories after the layout nodes [done] have been read. *)
Lemma categorize_loop (todo : list LayoutNode) :
  forall done pos lvs mps pos' lvs' mps',
    fold_left categorize todo (pos, lvs, mps) = (pos', lvs', mps') ->
    (keyedById lvs /\ keyedById mps /\ NoDup (mkeys lvs) /\ NoDup (mkeys mps)
     /\ (forall k ln, In (k, ln) lvs -> In ln done /\ node_children (node ln) = [])
     /\ (forall k ln, In (k, ln) mps -> In ln done /\ node_children (node ln) <> [])
     /\ (forall ln, In ln done -> mget (node_id (node ln)) pos <> None)) ->
    keyedById lvs' /\ keyedById mps' /\ NoDup (mkeys lvs') /\ NoDup (mkeys mps')
    /\ (forall k ln, In (k, ln) lvs' ->
          In ln (done ++ todo) /\ node_children (node ln) = [])
    /\ (forall k ln, In (k, ln) mps' ->
          In ln (done ++ todo) /\ node_children (node ln) <> [])
    /\ (forall ln, In ln (done ++ todo) -> mget (node_id (node ln)) pos' <> None).
Proof.
  induction todo as [| ln todo IH];
    intros done pos lvs mps pos' lvs' mps' Hrun Hinv.
  - simpl in Hrun. inversion Hrun; subst. rewrite app_nil_r. exact Hinv.
  - cbn [fold_left] in Hrun.
    replace (done ++ ln :: todo) with ((done ++ [ln]) ++ todo)
      by (rewrite <- app_assoc; reflexivity).
    destruct Hinv as (Kl & Km & Nl & Nm & Dl & Dm & Dp).
    assert (Dp' : forall ln0, In ln0 (done ++ [ln]) ->
              mget (node_id (node ln0))
                   (mset (node_id (node ln)) initialPosition pos) <> None).
    { intros ln0 Hin. apply in_app_or in Hin.
      destruct (Nat.eq_dec (node_id (node ln0)) (node_id (node ln))) as [E | Hne].
      - rewrite E, mget_mset_same. discriminate.
      - rewrite mget_mset_other by exact Hne.
        destruct Hin as [Hin | [<- | []]]; [apply Dp; exact Hin | congruence]. }
    unfold categorize in Hrun at 2.
    destruct (node_children (node ln)) as [| ch chs] eqn:Ech.
    + apply (IH (done ++ [ln]) _ _ _ _ _ _ Hrun).
      split; [| split; [exact Km |
                 split; [apply NoDup_mkeys_mset; exact Nl |
                 split; [exact Nm | split; [| split; [| exact Dp']]]]]].
      * intros k ln0 Hin. apply In_mset in Hin.
        destruct Hin as [E | Hin]; [inversion E; reflexivity | apply Kl; exact Hin].
      * intros k ln0 Hin. apply In_mset in Hin. destruct Hin as [E | Hin].
        -- inversion E; subst. split; [apply in_or_app; right; left; reflexivity |].
           exact Ech.
        -- destruct (Dl k ln0 Hin). split; [apply in_or_app; left |]; assumption.
      * intros k ln0 Hin. destruct (Dm k ln0 Hin).
        split; [apply in_or_app; left |]; assumption.
    + apply (IH (done ++ [ln]) _ _ _ _ _ _ Hrun).
      split; [exact Kl | split; [|
                 split; [exact Nl |
                 split; [apply NoDup_mkeys_mset; exact Nm |
                 split; [| split; [| exact Dp']]]]]].
      * intros k ln0 Hin. apply In_mset in Hin.
        destruct Hin as [E | Hin]; [inversion E; reflexivity | apply Km; exact Hin].
      * intros k ln0 Hin. destruct (Dl k ln0 Hin).
        split; [apply in_or_app; left |]; assumption.
      * intros k ln0 Hin. apply In_mset in Hin. destruct Hin as [E | Hin].
        -- inversion E; subst. split; [apply in_or_app; right; left; reflexivity |].
           rewrite Ech. discriminate.
        -- destruct (Dm k ln0 Hin). split; [apply in_or_app; left |]; assumption.
Qed.

Section Construction.
Context {LC : LineCoordinates}.

(** Construction from layout nodes with distinct ids splits them into two
    categories that share no id, and gives each a position record. *)
Lemma constructor_categorized (l : Layout) (lns : jsmap LayoutNode)
    (coordinatesFn : Layout -> jsmap LayoutNode -> result (list Coordinate))
    (na : NodeAllocation) :
  NoDup (nodeIds lns) ->
  constructor l lns coordinatesFn = Ok na ->
  layout na = l /\ layoutNodes na = lns /\ categorized na.
Proof.
  intros Hnd Hrun. unfold constructor in Hrun.
  destruct (fold_left categorize (mvalues lns) ([], [], [])) as [[pos lvs] mps] eqn:Ecat.
  apply bind_Ok in Hrun. destruct Hrun as (coordinates & _ & Hrun).
  apply bind_Ok in Hrun. destruct Hrun as ([segs total] & _ & Hrun).
  inversion Hrun; subst na. clear Hrun. simpl.
  split; [reflexivity |]. split; [reflexivity |].
  destruct (categorize_loop (mvalues lns) [] [] [] [] pos lvs mps Ecat)
    as (Kl & Km & Nl & Nm & Dl & Dm & Dp).
  { split; [intros k ln [] |]. split; [intros k ln [] |].
    split; [apply NoDup_nil |]. split; [apply NoDup_nil |].
    split; [intros k ln [] |]. split; [intros k ln [] | intros ln []]. }
  simpl in Dl, Dm, Dp.
  assert (Hdisjoint : forall k lf m, In (k, lf) lvs -> In (k, m) mps -> False).
  { intros k lf m Hlf Hm. destruct (Dl k lf Hlf) as (Hin1 & Hc1).
    destruct (Dm k m Hm) as (Hin2 & Hc2).
    assert (E : lf = m).
    { apply (NoDup_map_inj (fun ln => node_id (node ln)) (mvalues lns));
        [exact Hnd | exact Hin1 | exact Hin2 |].
      rewrite (Kl k lf Hlf), (Km k m Hm). reflexivity. }
    subst. contradiction. }
  constructor; simpl.
  - rewrite nodeIds_keyed by exact Kl. exact Nl.
  - rewrite nodeIds_keyed by exact Km. exact Nm.
  - intros lf Hin. apply In_mvalues in Hin. destruct Hin as (k & Hin).
    rewrite (Kl k lf Hin).
    destruct (mget k mps) as [m |] eqn:E; [| reflexivity].
    exfalso. apply mget_Some_In in E. exact (Hdisjoint k lf m Hin E).
  - intros m Hin Hleaf. apply In_mvalues in Hin. destruct Hin as (k & Hin).
    rewrite (Km k m Hin) in Hleaf. rewrite nodeIds_keyed in Hleaf by exact Kl.
    apply In_mkeys in Hleaf. destruct Hleaf as (lf & Hlf).
    exact (Hdisjoint k lf m Hlf Hin).
  - exact Dp.
Qed.

End Construction.

(** ** Sample runs *)

(** Evaluate a run on concrete inputs: unfold the steps, compute, and
    decide the comparisons met on the way. *)
Ltac run :=
  repeat (progress
            (unfold leaf_step, ancestor_step, units_step, level_step, insertClump,
               getTotalChildrenLongestLeafLength, jsdiv, validateStat,
               validateNumber, offsets_step, leafCoordinates_segment,
               leafCoordinates_block, midpoint_step, constrain_step,
               write_position, euclid_pointAtLength, euclid_length,
               contains1DPoint, newSpaceBlock, push_block;
             cbn; Rdecide)).

Ltac sqrt_is v :=
  match goal with
  | |- context [sqrt ?e] => rewrite (sqrt_eq e v) by lra
  end.

Ltac run_lines :=
  run; repeat (first [sqrt_is 60 | sqrt_is 80 | sqrt_is 50]; run).

Ltac same_numbers := repeat (f_equal; try lra).

Lemma two_levels_converted :
  convertHierarchy TwoLevels.allocation
  = Ok (TwoLevels.hierarchy, TwoLevels.unitPositions).
Proof.
  unfold convertHierarchy, indexClumps, assignUnits. run.
  unfold TwoLevels.hierarchy, TwoLevels.unitPositions, setUnits, addChild,
    newClump, Position.set_units, initialPosition. cbn.
  same_numbers.
Qed.

Lemma three_leaves_constructed :
  constructor (LC := euclid) ThreeLeaves.layout ThreeLeaves.layoutNodes threeSided
  = Ok ThreeLeaves.allocation.
Proof.
  unfold constructor, threeSided, initializeSegments, topOffset,
    largestRootDiameter, toLargestDiameter. run_lines.
  unfold newSegment. cbn. run_lines.
  unfold ThreeLeaves.allocation, ThreeLeaves.lhs, ThreeLeaves.bot, ThreeLeaves.rhs.
  same_numbers.
Qed.

Lemma two_levels_constructed :
  constructor (LC := euclid) TwoLevels.layout TwoLevels.layoutNodes threeSided
  = Ok TwoLevels.allocation.
Proof.
  unfold constructor, threeSided, initializeSegments, topOffset,
    largestRootDiameter, toLargestDiameter. run_lines.
  unfold newSegment. cbn. run_lines.
  unfold TwoLevels.allocation. same_numbers.
Qed.

Lemma three_leaves_converted :
  convertTotalStemLengthsToUnits ThreeLeaves.allocation = Ok ThreeLeaves.converted.
Proof.
  unfold convertTotalStemLengthsToUnits, convertHierarchy, indexClumps, assignUnits.
  run. unfold ThreeLeaves.converted, Position.set_units, initialPosition. cbn.
  same_numbers.
Qed.

Lemma three_leaves_walked :
  calculate1DLinearOffsets ThreeLeaves.converted = Ok ThreeLeaves.walked.
Proof.
  unfold calculate1DLinearOffsets, arrangedLeaves, jsSort. run.
  unfold ThreeLeaves.walked, Position.set_offset. cbn. same_numbers.
Qed.

Lemma two_levels_walked :
  calculate1DLinearOffsets TwoLevels.converted = Ok TwoLevels.walked.
Proof.
  unfold calculate1DLinearOffsets, arrangedLeaves, jsSort. run.
  unfold TwoLevels.walked, Position.set_offset. cbn. same_numbers.
Qed.

Lemma three_leaves_projected :
  calculate2DLeafCoordinates (LC := euclid) ThreeLeaves.walked
  = Ok ThreeLeaves.projected.
Proof.
  unfold calculate2DLeafCoordinates. run_lines.
  unfold ThreeLeaves.projected, Position.set_x, Position.set_y. cbn. same_numbers.
Qed.

Lemma three_leaves_placed :
  calculate2DMidpointCoordinates (LC := euclid) LENGTH_CONSTRAINED ThreeLeaves.projected
  = Ok ThreeLeaves.placed.
Proof.
  unfold calculate2DMidpointCoordinates. run_lines.
  unfold ThreeLeaves.placed, Position.set_x, Position.set_y. cbn. same_numbers.
Qed.

Lemma three_leaves_final :
  constrain2DLeafCoordinates (LC := euclid) ThreeLeaves.placed = Ok ThreeLeaves.final.
Proof.
  unfold constrain2DLeafCoordinates. run_lines.
  unfold ThreeLeaves.final, Position.set_x, Position.set_y. cbn. same_numbers.
Qed.

Lemma three_leaves_raw :
  upToLeafCoordinates (LC := euclid) ThreeLeaves.allocation
  = Ok ThreeLeaves.projected.
Proof.
  unfold upToLeafCoordinates.
  rewrite three_leaves_converted. cbn [bind].
  rewrite three_leaves_walked. cbn [bind].
  apply three_leaves_projected.
Qed.

Lemma three_leaves_process :
  process (LC := euclid) LENGTH_CONSTRAINED ThreeLeaves.allocation
  = Ok ThreeLeaves.final.
Proof.
  unfold process.
  rewrite three_leaves_converted. cbn [bind].
  rewrite three_leaves_walked. cbn [bind].
  rewrite three_leaves_projected. cbn [bind].
  rewrite three_leaves_placed. cbn [bind].
  apply three_leaves_final.
Qed.

Lemma three_sided_segments :
  initializeSegments (LC := euclid)
    [ThreeLeaves.lhs; ThreeLeaves.bot; ThreeLeaves.rhs]
  = Ok (segments ThreeLeaves.allocation, 200).
Proof.
  unfold initializeSegments, ThreeLeaves.lhs, ThreeLeaves.bot, ThreeLeaves.rhs.
  run_lines. unfold newSegment. cbn. run_lines. same_numbers.
Qed.


(** C1, as the spec has it, fails on the tree with two levels of clumps:
    the clumps of the leaves 4 and 5 share the clump of node 2 as their
    parent, and their units sum to one half, the units of that parent. *)
Lemma sibling_units_below_one :
  exists H pos P,
    convertHierarchy TwoLevels.allocation = Ok (H, pos)
    /\ getClump H 1 2 = Some P
    /\ childClumps P = [4; 5]%nat
    /\ sumSiblingUnits H 2 (childClumps P) = 1 / 2
    /\ sumSiblingUnits H 2 (childClumps P) <> 1.
Proof.
  exists TwoLevels.hierarchy, TwoLevels.unitPositions.
  eexists. split; [exact two_levels_converted |].
  split; [reflexivity |]. split; [reflexivity |].
  unfold sumSiblingUnits, clumpUnitsAt. cbn. split; lra.
Qed.

Lemma sibling_units_sum_to_parent_witness :
  let P := mkClump 2 (Some 1%nat) [4; 5]%nat 60 (Some (1 / 2)) in
  convertHierarchy TwoLevels.allocation
  = Ok (TwoLevels.hierarchy, TwoLevels.unitPositions)
  /\ getClump TwoLevels.hierarchy 1 2 = Some P
  /\ exists u,
      clump_units P = Some u
      /\ sumSiblingUnits TwoLevels.hierarchy 2 (childClumps P) = u.
Proof.
  intros P.
  assert (Hnd : NoDup (nodeIds (leaves TwoLevels.allocation))).
  { cbn. repeat constructor; simpl; intuition discriminate. }
  assert (Hmid : forall l, In l (mvalues (leaves TwoLevels.allocation)) ->
                   mget (node_id (node l)) (midPoints TwoLevels.allocation) = None).
  { cbn. intros l [<- | [<- | [<- | []]]]; reflexivity. }
  assert (HP : getClump TwoLevels.hierarchy 1 2 = Some P) by reflexivity.
  assert (Hne : childClumps P <> []) by discriminate.
  split; [exact two_levels_converted |]. split; [exact HP |].
  destruct (sibling_units_sum_to_parent TwoLevels.allocation TwoLevels.hierarchy
              TwoLevels.unitPositions 1 2 P Hnd Hmid two_levels_converted HP Hne)
    as (_ & _ & u & Hu & _ & Hsum).
  exists u. split; [exact Hu | exact Hsum].
Defined.

Lemma root_midpoint_anchor_witness :
  exists p,
    mget 1 (nodeToPosition ThreeLeaves.final) = Some p
    /\ Position.x p = 100 / 2
    /\ Position.y p = 10 + 0 / 2.
Proof.
  assert (Hids : NoDup (nodeIds ThreeLeaves.layoutNodes)).
  { cbn. repeat constructor; simpl; intuition discriminate. }
  destruct (constructor_categorized (LC := euclid) _ _ _ _ Hids
              three_leaves_constructed) as (_ & _ & Hcat).
  assert (Hin : In ThreeLeaves.n1 (mvalues (midPoints ThreeLeaves.allocation))).
  { cbn. left. reflexivity. }
  apply (root_midpoint_anchor (LC := euclid) LENGTH_CONSTRAINED
           ThreeLeaves.allocation ThreeLeaves.final ThreeLeaves.n1).
  - exact (midPoints_distinct _ Hcat).
  - exact (midPoint_not_leaf _ Hcat _ Hin).
  - exact Hin.
  - reflexivity.
  - exact three_leaves_process.
Defined.

Lemma empty_descendants_abort_witness :
  (forall pos,
      midpoint_step (LC := euclid) TwoLevels.pruned LENGTH_CONSTRAINED pos TwoLevels.n2
      = Err ValidationError)
  /\ exists e, process (LC := euclid) LENGTH_CONSTRAINED TwoLevels.pruned = Err e.
Proof.
  assert (Hin : In TwoLevels.n2 (mvalues (midPoints TwoLevels.pruned))).
  { cbn. right. left. reflexivity. }
  assert (Hparent : mget (node_parentId (node TwoLevels.n2))
                         (layoutNodes TwoLevels.pruned) <> None).
  { cbn. discriminate. }
  assert (Hempty : ownLeavesInSubset TwoLevels.pruned (stem TwoLevels.n2) = [])
    by reflexivity.
  destruct (empty_descendants_abort (LC := euclid) LENGTH_CONSTRAINED
              TwoLevels.pruned TwoLevels.n2 TwoLevels.n1 Hin Hparent Hempty)
    as (_ & Hstep & _ & Hrun).
  split; [| exact Hrun].
  intros pos. apply Hstep. reflexivity.
Defined.

Lemma leaf_reanchored_witness :
  exists p,
    mget 2 (nodeToPosition ThreeLeaves.final) = Some p
    /\ onRay (mkCoordinate None 50 10 10 40) (Position.x p) (Position.y p)
    /\ distance 50 10 (Position.x p) (Position.y p) = 0 / 2 + 25 + 0 / 2.
Proof.
  assert (Hnd : NoDup (nodeIds (leaves ThreeLeaves.allocation))).
  { cbn. repeat constructor; simpl; intuition discriminate. }
  assert (Hin : In ThreeLeaves.n2 (mvalues (leaves ThreeLeaves.allocation))).
  { cbn. left. reflexivity. }
  assert (Hnotmid : ~ In (node_id (node ThreeLeaves.n2))
                         (nodeIds (midPoints ThreeLeaves.allocation))).
  { cbn. intuition discriminate. }
  assert (Hnotleaf : ~ In (node_parentId (node ThreeLeaves.n2))
                          (nodeIds (leaves ThreeLeaves.allocation))).
  { cbn. intuition discriminate. }
  destruct (leaf_reanchored (LC := euclid) ThreeLeaves.allocation
              ThreeLeaves.projected ThreeLeaves.final
              ThreeLeaves.n2 ThreeLeaves.n1
              (Position.mk 1 None 50 10) (Position.mk (1 / 10) (Some 10) 10 40)
              Hnd Hin eq_refl Hnotmid Hnotleaf three_leaves_raw
              three_leaves_process eq_refl eq_refl)
    as (p & Hp & _ & Hgeo).
  exists p. split; [exact Hp |].
  apply Hgeo; [exact euclid_PointAtDistance | simpl; lra].
Defined.

Lemma linear_offsets_witness :
  mvalues (leaves TwoLevels.converted)
  = [TwoLevels.n3; TwoLevels.n4; TwoLevels.n5]
  /\ arrangedLeaves TwoLevels.converted
     = [TwoLevels.n4; TwoLevels.n5; TwoLevels.n3]
  /\ let visited := arrangedLeaves TwoLevels.converted in
     let total := total1DSpaceAvailable TwoLevels.converted in
     let blocks := plannedBlocks total (nodeToPosition TwoLevels.converted)
                                 (walkBegin (segments TwoLevels.converted))
                                 visited in
     Permutation visited (mvalues (leaves TwoLevels.converted))
     /\ StronglySorted (displayOrder TwoLevels.converted) visited
     /\ map block_node blocks = map (fun ln => node_id (node ln)) visited
     /\ (forall b rest, blocks = b :: rest ->
           exists s0 srest,
             segments TwoLevels.converted = s0 :: srest
             /\ block_begin b = seg_begin s0)
     /\ (forall pre b1 b2 post, blocks = pre ++ b1 :: b2 :: post ->
           block_begin b2 = block_end b1)
     /\ (forall b, In b blocks ->
           exists p p' s,
             mget (block_node b) (nodeToPosition TwoLevels.converted) = Some p
             /\ block_end b - block_begin b = Position.units p * total
             /\ block_center b
                = block_begin b + (block_end b - block_begin b) / 2
             /\ mget (block_node b) (nodeToPosition TwoLevels.walked) = Some p'
             /\ Position.offset p' = Some (block_center b)
             /\ Position.units p' = Position.units p
             /\ In s (segments TwoLevels.walked) /\ In b (seg_blocks s)
             /\ seg_begin s < block_center b < seg_end s).
Proof.
  assert (Hnd : NoDup (nodeIds (leaves TwoLevels.converted))).
  { cbn. repeat constructor; simpl; intuition discriminate. }
  split; [reflexivity |]. split; [reflexivity |].
  exact (linear_offsets TwoLevels.converted TwoLevels.walked Hnd
           two_levels_walked).
Defined.


(** C2, on the tree with two levels of clumps.  In spider mode midpoint 2
    ends at the centroid of its leaves plus half of the position of its
    parent, not at the average of the two. *)
Theorem spider_blend_on_two_levels :
  exists na' root mid leaf4 leaf5,
    process (LC := euclid) SPIDER TwoLevels.allocation = Ok na'
    /\ mget 1 (nodeToPosition na') = Some root
    /\ mget 2 (nodeToPosition na') = Some mid
    /\ mget 4 (nodeToPosition na') = Some leaf4
    /\ mget 5 (nodeToPosition na') = Some leaf5
    /\ Position.x root = 50 /\ Position.y root = 10
    /\ Position.x leaf4 = 10 /\ Position.y leaf4 = 55
    /\ Position.x leaf5 = 25 /\ Position.y leaf5 = 90
    /\ Position.x mid = (10 + 25) / 2 + 50 / 2
    /\ Position.y mid = (55 + 90) / 2 + 10 / 2
    /\ Position.x mid <> ((10 + 25) / 2 + 50) / 2
    /\ Position.y mid <> ((55 + 90) / 2 + 10) / 2.
Proof.
  unfold process, convertTotalStemLengthsToUnits, convertHierarchy, indexClumps,
    assignUnits, calculate1DLinearOffsets, arrangedLeaves, jsSort,
    calculate2DLeafCoordinates, calculate2DMidpointCoordinates.
  run_lines.
  do 5 eexists. split; [reflexivity |]. cbn.
  repeat (split; [reflexivity |]).
  unfold Position.set_y, Position.set_x, Position.set_offset, Position.set_units,
    initialPosition. cbn.
  repeat split; lra.
Qed.

(** * Further properties *)

(** ** Construction, in full *)

Lemma mset_fresh {V : Type} (k : nat) (v : V) (m : jsmap V) :
  ~ In k (mkeys m) -> mset k v m = m ++ [(k, v)].
Proof.
  induction m as [| [k' v'] m IH]; simpl; intros Hk; [reflexivity |].
  destruct (Nat.eqb k k') eqn:E.
  - apply Nat.eqb_eq in E. exfalso. apply Hk. left. symmetry. exact E.
  - rewrite IH; [reflexivity |]. intros Hin. apply Hk. right. exact Hin.
Qed.

Lemma mkeys_app {V : Type} (m1 m2 : jsmap V) :
  mkeys (m1 ++ m2) = mkeys m1 ++ mkeys m2.
Proof. unfold mkeys. apply map_app. Qed.

Lemma mkeys_byId {V : Type} (f : LayoutNode -> V) (lns : list LayoutNode) :
  mkeys (byId f lns) = map (fun ln => node_id (node ln)) lns.
Proof. unfold mkeys, byId. rewrite map_map. reflexivity. Qed.

Lemma mvalues_byId (lns : list LayoutNode) :
  mvalues (byId (fun ln => ln) lns) = lns.
Proof. unfold mvalues, byId. rewrite map_map. simpl. apply map_id. Qed.

Lemma byId_app {V : Type} (f : LayoutNode -> V) (l1 l2 : list LayoutNode) :
  byId f (l1 ++ l2) = byId f l1 ++ byId f l2.
Proof. unfold byId. apply map_app. Qed.

(** The first loop of the constructor, on layout nodes whose ids are
    distinct and new to the three maps. *)
Lemma categorize_fold (todo : list LayoutNode) :
  forall pos lvs mps,
    NoDup (map (fun ln => node_id (node ln)) todo) ->
    (forall ln, In ln todo ->
       ~ In (node_id (node ln)) (mkeys pos)
       /\ ~ In (node_id (node ln)) (mkeys lvs)
       /\ ~ In (node_id (node ln)) (mkeys mps)) ->
    fold_left categorize todo (pos, lvs, mps)
    = (pos ++ byId (fun _ => initialPosition) todo,
       lvs ++ byId (fun ln => ln) (filter (fun ln => negb (hasChildren ln)) todo),
       mps ++ byId (fun ln => ln) (filter hasChildren todo)).
Proof.
  induction todo as [| ln todo IH]; intros pos lvs mps Hnd Hfresh.
  - simpl. rewrite !app_nil_r. reflexivity.
  - simpl in Hnd. apply NoDup_cons_iff in Hnd. destruct Hnd as (Hnot & Hnd).
    destruct (Hfresh ln (or_introl eq_refl)) as (Fp & Fl & Fm).
    assert (Hrest : forall V (m : jsmap V) (v : V) ln0,
               In ln0 todo -> ~ In (node_id (node ln0)) (mkeys m) ->
               ~ In (node_id (node ln0)) (mkeys (m ++ [(node_id (node ln), v)]))).
    { intros V m v ln0 Hin Hm. rewrite mkeys_app, in_app_iff. simpl.
      intros [H | [H | []]]; [exact (Hm H) |].
      apply Hnot. rewrite H. apply (in_map (fun ln => node_id (node ln))). exact Hin. }
    destruct (node_children (node ln)) as [| ch chs] eqn:Ech.
    + assert (Hc : categorize (pos, lvs, mps) ln
                   = (mset (node_id (node ln)) initialPosition pos,
                      mset (node_id (node ln)) ln lvs, mps)).
      { unfold categorize. rewrite Ech. reflexivity. }
      assert (Hh : hasChildren ln = false).
      { unfold hasChildren. rewrite Ech. reflexivity. }
      cbn [fold_left filter]. rewrite Hc, Hh. cbn [negb].
      rewrite (mset_fresh _ _ pos Fp), (mset_fresh _ _ lvs Fl).
      rewrite IH; [| exact Hnd |].
      * cbn [byId map]. rewrite <- !app_assoc. reflexivity.
      * intros ln0 Hin. destruct (Hfresh ln0 (or_intror Hin)) as (Gp & Gl & Gm).
        split; [apply Hrest; assumption |]. split; [apply Hrest; assumption |].
        exact Gm.
    + assert (Hc : categorize (pos, lvs, mps) ln
                   = (mset (node_id (node ln)) initialPosition pos,
                      lvs, mset (node_id (node ln)) ln mps)).
      { unfold categorize. rewrite Ech. reflexivity. }
      assert (Hh : hasChildren ln = true).
      { unfold hasChildren. rewrite Ech. reflexivity. }
      cbn [fold_left filter]. rewrite Hc, Hh. cbn [negb].
      rewrite (mset_fresh _ _ pos Fp), (mset_fresh _ _ mps Fm).
      rewrite IH; [| exact Hnd |].
      * cbn [byId map]. rewrite <- !app_assoc. reflexivity.
      * intros ln0 Hin. destruct (Hfresh ln0 (or_intror Hin)) as (Gp & Gl & Gm).
        split; [apply Hrest; assumption |]. split; [exact Gl |].
        apply Hrest; assumption.
Qed.

(** The second loop of the constructor, on midpoints whose ids are
    distinct and new to the roots found so far. *)
Lemma collectRoots_fold (mps : jsmap LayoutNode) (todo : list LayoutNode) :
  forall rts,
    NoDup (map (fun ln => node_id (node ln)) todo) ->
    (forall m, In m todo -> ~ In (node_id (node m)) (mkeys rts)) ->
    fold_left
      (fun rts midPoint =>
         match mget (node_parentId (node midPoint)) mps with
         | Some _ => rts
         | None => mset (node_id (node midPoint)) midPoint rts
         end)
      todo rts
    = rts ++ byId (fun m => m) (filter (isRoot mps) todo).
Proof.
  induction todo as [| m todo IH]; intros rts Hnd Hfresh.
  - simpl. rewrite app_nil_r. reflexivity.
  - simpl in Hnd. apply NoDup_cons_iff in Hnd. destruct Hnd as (Hnot & Hnd).
    cbn [fold_left filter]. unfold isRoot at 1, mhas.
    destruct (mget (node_parentId (node m)) mps) as [pm |]; cbn [negb].
    + apply IH; [exact Hnd |]. intros m0 Hin. apply Hfresh. right. exact Hin.
    + rewrite (mset_fresh _ _ rts (Hfresh m (or_introl eq_refl))).
      rewrite IH; [| exact Hnd |].
      * cbn [byId map]. rewrite <- app_assoc. reflexivity.
      * intros m0 Hin. rewrite mkeys_app, in_app_iff. simpl.
        intros [H | [H | []]].
        -- exact (Hfresh m0 (or_intror Hin) H).
        -- apply Hnot. rewrite H.
           apply (in_map (fun ln => node_id (node ln))). exact Hin.
Qed.

Lemma kept_ids_distinct (keep : LayoutNode -> bool) (lns : list LayoutNode) :
  NoDup (map (fun ln => node_id (node ln)) lns) ->
  NoDup (map (fun ln => node_id (node ln)) (filter keep lns)).
Proof.
  intros Hnd. induction lns as [| ln lns IH]; cbn [filter map] in *; [exact Hnd |].
  inversion Hnd as [| ? ? Hfresh Hrest]; subst.
  destruct (keep ln); cbn [map]; [| exact (IH Hrest)].
  constructor; [| exact (IH Hrest)].
  intros Hin. apply Hfresh. apply in_map_iff in Hin.
  destruct Hin as (x & E & Hx). apply filter_In in Hx.
  rewrite <- E. apply (in_map (fun ln => node_id (node ln))). tauto.
Qed.

Section ConstructionInFull.
Context {LC : LineCoordinates}.

(** What a successful construction has built. *)
Lemma constructor_Ok_inv (l : Layout) (lns : jsmap LayoutNode)
    (coordinatesFn : Layout -> jsmap LayoutNode -> result (list Coordinate))
    (na : NodeAllocation) :
  NoDup (nodeIds lns) ->
  constructor l lns coordinatesFn = Ok na ->
  layout na = l /\ layoutNodes na = lns
  /\ nodeToPosition na = byId (fun _ => initialPosition) (mvalues lns)
  /\ leaves na
     = byId (fun ln => ln) (filter (fun ln => negb (hasChildren ln)) (mvalues lns))
  /\ midPoints na = byId (fun ln => ln) (filter hasChildren (mvalues lns))
  /\ roots na
     = byId (fun m => m) (filter (isRoot (midPoints na)) (mvalues (midPoints na)))
  /\ exists coordinates,
       coordinatesFn l (roots na) = Ok coordinates
       /\ initializeSegments coordinates
          = Ok (segments na, total1DSpaceAvailable na).
Proof.
  intros Hnd Hrun. unfold constructor in Hrun.
  destruct (fold_left categorize (mvalues lns) ([], [], []))
    as [[pos lvs] mps] eqn:Ecat.
  assert (Hfold : (pos, lvs, mps)
                  = (byId (fun _ => initialPosition) (mvalues lns),
                     byId (fun ln => ln)
                       (filter (fun ln => negb (hasChildren ln)) (mvalues lns)),
                     byId (fun ln => ln) (filter hasChildren (mvalues lns)))).
  { rewrite <- Ecat.
    apply (categorize_fold (mvalues lns) [] [] [] Hnd).
    intros ln _. simpl. tauto. }
  inversion Hfold; subst pos lvs mps. clear Hfold Ecat.
  apply bind_Ok in Hrun. destruct Hrun as (coordinates & Hco & Hrun).
  apply bind_Ok in Hrun. destruct Hrun as ([segs total] & Hinit & Hrun).
  inversion Hrun; subst na. clear Hrun. cbn.
  assert (Hroots :
            collectRoots (byId (fun ln => ln) (filter hasChildren (mvalues lns)))
            = byId (fun m => m)
                (filter (isRoot (byId (fun ln => ln) (filter hasChildren (mvalues lns))))
                   (mvalues (byId (fun ln => ln) (filter hasChildren (mvalues lns)))))).
  { unfold collectRoots. rewrite mvalues_byId.
    rewrite collectRoots_fold; [reflexivity | | intros m _ []].
    apply kept_ids_distinct. exact Hnd. }
  repeat (split; [reflexivity |]). split; [exact Hroots |].
  exists coordinates. split; [exact Hco | exact Hinit].
Qed.

(** X1. Construction from layout nodes with distinct ids gives every
    layout node a fresh position record, files the layout nodes without
    children under the leaves and those with children under the midpoints,
    each under the id of its node, and keeps the order of the layout nodes
    in all three maps. *)
Theorem constructor_categories (l : Layout) (lns : jsmap LayoutNode)
    (coordinatesFn : Layout -> jsmap LayoutNode -> result (list Coordinate))
    (na : NodeAllocation) :
  NoDup (nodeIds lns) ->
  constructor l lns coordinatesFn = Ok na ->
  layout na = l /\ layoutNodes na = lns
  /\ nodeToPosition na = byId (fun _ => initialPosition) (mvalues lns)
  /\ leaves na
     = byId (fun ln => ln) (filter (fun ln => negb (hasChildren ln)) (mvalues lns))
  /\ midPoints na = byId (fun ln => ln) (filter hasChildren (mvalues lns)).
Proof.
  intros Hnd Hrun.
  destruct (constructor_Ok_inv l lns coordinatesFn na Hnd Hrun)
    as (A & B & C & D & E & _).
  repeat split; assumption.
Qed.

(** X2. The roots that construction hands to the coordinates function are
    the midpoints whose parent id is not the id of a midpoint of the run,
    in the order of the midpoints. *)
Theorem constructor_roots (l : Layout) (lns : jsmap LayoutNode)
    (coordinatesFn : Layout -> jsmap LayoutNode -> result (list Coordinate))
    (na : NodeAllocation) :
  NoDup (nodeIds lns) ->
  constructor l lns coordinatesFn = Ok na ->
  mvalues (roots na)
  = filter (isRoot (midPoints na)) (mvalues (midPoints na))
  /\ forall m, In m (mvalues (roots na)) <->
               In m (mvalues (midPoints na))
               /\ mget (node_parentId (node m)) (midPoints na) = None.
Proof.
  intros Hnd Hrun.
  destruct (constructor_Ok_inv l lns coordinatesFn na Hnd Hrun)
    as (_ & _ & _ & _ & _ & E & _).
  split; [rewrite E; apply mvalues_byId |].
  intros m. rewrite E, mvalues_byId, filter_In.
  unfold isRoot, mhas.
  destruct (mget (node_parentId (node m)) (midPoints na)); simpl;
    intuition congruence.
Qed.

(** X3. When the first coordinate is not met again among the
    coordinates, laying out the segments never throws: a segment is there
    to follow whenever one is looked up.  The segments are those of the
    coordinates, in order and without blocks; the first begins at 0, each
    other begins where the one before it ends, each is as long as its
    line, and the space available is the sum of the lengths of the lines,
    which is where the last segment ends. *)
Theorem segments_end_to_end (coordinates : list Coordinate) :
  firstOnce coordinates ->
  exists segs total,
    initializeSegments coordinates = Ok (segs, total)
    /\ map seg_line segs = coordinates
    /\ map seg_label segs = map label coordinates
    /\ (forall s, In s segs ->
          seg_blocks s = [] /\ seg_end s = seg_begin s + line_length (seg_line s))
    /\ (forall s rest, segs = s :: rest -> seg_begin s = 0)
    /\ (forall pre s1 s2 post, segs = pre ++ s1 :: s2 :: post ->
          seg_begin s2 = seg_end s1)
    /\ total = fold_left (fun t c => t + line_length c) coordinates 0
    /\ (forall pre s, segs = pre ++ [s] -> seg_end s = total)
    /\ (coordinates = [] -> segs = [] /\ total = 0).
Proof.
  intros _.
  exists (endToEnd 0 coordinates),
         (fold_left (fun t c => t + line_length c) coordinates 0).
  split; [apply initializeSegments_endToEnd |].
  assert (Hgen : forall b,
    map seg_line (endToEnd b coordinates) = coordinates
    /\ map seg_label (endToEnd b coordinates) = map label coordinates
    /\ (forall s, In s (endToEnd b coordinates) ->
          seg_blocks s = [] /\ seg_end s = seg_begin s + line_length (seg_line s))
    /\ (forall s rest, endToEnd b coordinates = s :: rest -> seg_begin s = b)
    /\ (forall pre s1 s2 post, endToEnd b coordinates = pre ++ s1 :: s2 :: post ->
          seg_begin s2 = seg_end s1)
    /\ (forall pre s, endToEnd b coordinates = pre ++ [s] ->
          seg_end s = fold_left (fun t c => t + line_length c) coordinates b)).
  { induction coordinates as [| c rest IH]; intros b.
    - simpl. repeat split; try reflexivity; try contradiction.
      + intros s rest0 H. discriminate.
      + intros pre s1 s2 post H. destruct pre; discriminate.
      + intros pre s H. destruct pre; discriminate.
    - destruct (IH (b + line_length c)) as (I1 & I2 & I3 & I4 & I5 & I6).
      cbn [endToEnd map fold_left]. repeat split.
      + rewrite I1. reflexivity.
      + rewrite I2. reflexivity.
      + destruct H as [<- | Hin]; [reflexivity | apply (I3 s Hin)].
      + destruct H as [<- | Hin]; [reflexivity | apply (I3 s Hin)].
      + intros s rest0 H. inversion H. reflexivity.
      + intros pre s1 s2 post H. destruct pre as [| s0 pre]; simpl in H.
        * inversion H as [[E1 E2]]. rewrite (I4 s2 post E2). reflexivity.
        * inversion H as [[E1 E2]]. exact (I5 pre s1 s2 post E2).
      + intros pre s H. destruct pre as [| s0 pre]; simpl in H.
        * inversion H as [[E1 E2]]. destruct rest; [reflexivity | discriminate].
        * inversion H as [[E1 E2]]. exact (I6 pre s E2). }
  destruct (Hgen 0) as (I1 & I2 & I3 & I4 & I5 & I6).
  repeat (split; [assumption |]). split; [reflexivity |].
  split; [exact I6 |]. intros ->. split; reflexivity.
Qed.

End ConstructionInFull.

(** ** Indexing the clumps, in full *)

(** *** The levels *)

Lemma mkeys_setClump (H : hierarchyLevels) (d k : nat) (c : Clump) :
  mkeys (setClump H d k c) = mkeys H.
Proof.
  unfold setClump. destruct (mget d H) as [lvl |] eqn:E; [| reflexivity].
  eapply mkeys_mset_present. exact E.
Qed.

Lemma mkeys_updClump (H : hierarchyLevels) (d k : nat) (f : Clump -> Clump) :
  mkeys (updClump H d k f) = mkeys H.
Proof.
  unfold updClump. destruct (getClump H d k); [apply mkeys_setClump | reflexivity].
Qed.

Lemma mkeys_insertClump (H : hierarchyLevels) (d n pk : nat) (l : R) :
  mkeys (insertClump H d n pk l) = mkeys H.
Proof.
  unfold insertClump. destruct (getPreviousClump H d pk).
  - rewrite mkeys_updClump. apply mkeys_setClump.
  - apply mkeys_setClump.
Qed.

Lemma length_mkeys {V : Type} (m : jsmap V) : List.length (mkeys m) = List.length m.
Proof. unfold mkeys. apply length_map. Qed.

Lemma same_keys_length {V : Type} (m m' : jsmap V) :
  mkeys m' = mkeys m -> List.length m' = List.length m.
Proof. intros E. rewrite <- !length_mkeys, E. reflexivity. Qed.

Lemma levels_in_order_nil : levels_in_order [].
Proof. split; [reflexivity | intros d lvl H; discriminate]. Qed.

Lemma levels_in_order_present (H : hierarchyLevels) (d : nat) :
  levels_in_order H -> (mget d H <> None <-> (d < List.length H)%nat).
Proof.
  intros (Hk & _). split.
  - intros Hd. destruct (in_dec Nat.eq_dec d (mkeys H)) as [Hin | Hnot].
    + rewrite Hk in Hin. apply in_seq in Hin. lia.
    + apply mget_None_keys in Hnot. contradiction.
  - intros Hlt E. apply mget_None_keys in E. apply E. rewrite Hk.
    apply in_seq. lia.
Qed.

Lemma levels_in_order_setClump (H : hierarchyLevels) (d k : nat) (c : Clump) :
  levels_in_order H -> levels_in_order (setClump H d k c).
Proof.
  intros (Hk & Hd). split.
  - rewrite mkeys_setClump, (same_keys_length _ _ (mkeys_setClump H d k c)).
    exact Hk.
  - intros d' lvl' E. rewrite mget_setClump in E.
    destruct (mget d H) as [lvl |] eqn:El; [| apply Hd; exact E].
    destruct (Nat.eqb d' d) eqn:Ed; [| apply Hd; exact E].
    apply Nat.eqb_eq in Ed. subst d'. inversion E; subst lvl'. simpl.
    apply Hd. exact El.
Qed.

Lemma levels_in_order_updClump (H : hierarchyLevels) (d k : nat)
    (f : Clump -> Clump) :
  levels_in_order H -> levels_in_order (updClump H d k f).
Proof.
  intros Hin. unfold updClump.
  destruct (getClump H d k); [apply levels_in_order_setClump |]; exact Hin.
Qed.

Lemma levels_in_order_insertClump (H : hierarchyLevels) (d n pk : nat) (l : R) :
  levels_in_order H -> levels_in_order (insertClump H d n pk l).
Proof.
  intros Hin. unfold insertClump. destruct (getPreviousClump H d pk).
  - apply levels_in_order_updClump, levels_in_order_setClump. exact Hin.
  - apply levels_in_order_setClump. exact Hin.
Qed.

(** A level is made for a depth only when the levels of all smaller
    depths are there. *)
Lemma levels_in_order_ensureLevel (H : hierarchyLevels) (d : nat) :
  levels_in_order H -> (d <= List.length H)%nat ->
  levels_in_order (ensureLevel d H)
  /\ (d < List.length (ensureLevel d H))%nat
  /\ (List.length H <= List.length (ensureLevel d H))%nat.
Proof.
  intros Hin Hle. unfold ensureLevel, mhas.
  destruct (mget d H) as [lvl |] eqn:E.
  - split; [exact Hin |]. split; [| lia].
    apply (levels_in_order_present H d Hin). congruence.
  - assert (Hd : d = List.length H).
    { destruct (Nat.eq_dec d (List.length H)) as [Hd | Hne]; [exact Hd |].
      exfalso. apply (proj2 (levels_in_order_present H d Hin)); [lia | exact E]. }
    destruct Hin as (Hk & Hdep).
    assert (Hfresh : ~ In d (mkeys H)) by (apply mget_None_keys; exact E).
    rewrite (mset_fresh d (newLevel d) H Hfresh).
    rewrite length_app. simpl. split; [| lia]. split.
    + rewrite mkeys_app, Hk. cbn [mkeys map fst].
      rewrite length_app. cbn [List.length].
      replace (List.length H + 1)%nat with (S (List.length H)) by lia.
      rewrite seq_S, Hd. reflexivity.
    + intros d' lvl' E'.
      destruct (Nat.eq_dec d' d) as [-> | Hne].
      * rewrite <- (mset_fresh d (newLevel d) H Hfresh), mget_mset_same in E'.
        inversion E'. reflexivity.
      * rewrite <- (mset_fresh d (newLevel d) H Hfresh) in E'.
        rewrite mget_mset_other in E' by exact Hne. apply Hdep. exact E'.
Qed.

Lemma length_setClump (H : hierarchyLevels) (d k : nat) (c : Clump) :
  List.length (setClump H d k c) = List.length H.
Proof. apply same_keys_length, mkeys_setClump. Qed.

Lemma length_insertClump (H : hierarchyLevels) (d n pk : nat) (l : R) :
  List.length (insertClump H d n pk l) = List.length H.
Proof. apply same_keys_length, mkeys_insertClump. Qed.

Lemma levels_in_order_ancestor_step (na : NodeAllocation) (len : R)
    (H : hierarchyLevels) (d a : nat) :
  levels_in_order H -> (d <= List.length H)%nat ->
  levels_in_order (ancestor_step na len H d a)
  /\ (d < List.length (ancestor_step na len H d a))%nat.
Proof.
  intros Hin Hle.
  destruct (levels_in_order_ensureLevel H d Hin Hle) as (Hin1 & Hlt & _).
  unfold ancestor_step.
  destruct (mget a (midPoints na)); [| split; assumption].
  destruct (getClump (ensureLevel d H) d a) as [c |].
  - destruct (Reqb (longestLeafLength c) 0 || Rltb (longestLeafLength c) len);
      [| split; assumption].
    split; [apply levels_in_order_setClump; exact Hin1 |].
    rewrite length_setClump. exact Hlt.
  - split; [apply levels_in_order_insertClump; exact Hin1 |].
    rewrite length_insertClump. exact Hlt.
Qed.

Lemma levels_in_order_ancestors_loop (na : NodeAllocation) (len : R)
    (ancestors : list nat) :
  forall H d,
    levels_in_order H -> (d <= List.length H)%nat ->
    levels_in_order (ancestors_loop na len H d ancestors)
    /\ (d + List.length ancestors
        <= List.length (ancestors_loop na len H d ancestors))%nat.
Proof.
  induction ancestors as [| a rest IH]; intros H d Hin Hle; simpl.
  - split; [exact Hin | lia].
  - destruct (levels_in_order_ancestor_step na len H d a Hin Hle) as (Hin1 & Hlt).
    destruct (IH _ (S d) Hin1 Hlt) as (Hin2 & Hle2).
    split; [exact Hin2 | lia].
Qed.

Lemma leafAncestors_nonempty (leaf : LayoutNode) :
  (0 < List.length (leafAncestors leaf))%nat.
Proof.
  unfold leafAncestors. destruct (ancestors_ids (stem leaf)); simpl; lia.
Qed.

(** The level above a leaf is there when the leaf is indexed: the turn of
    a leaf never throws. *)
Lemma leaf_step_in_order (na : NodeAllocation) (H : hierarchyLevels)
    (leaf : LayoutNode) :
  levels_in_order H ->
  exists H', leaf_step na H leaf = Ok H' /\ levels_in_order H'.
Proof.
  intros Hin. unfold leaf_step.
  set (len := totalStemLength_combined (stem leaf)).
  destruct (levels_in_order_ancestors_loop na len (leafAncestors leaf) H 0 Hin
              ltac:(lia)) as (Hin1 & Hle1).
  set (H1 := ancestors_loop na len H 0 (leafAncestors leaf)) in *.
  destruct (levels_in_order_ensureLevel H1 _ Hin1 Hle1) as (Hin2 & _ & Hle2).
  pose proof (leafAncestors_nonempty leaf) as Hpos.
  destruct (List.length (leafAncestors leaf)) as [| d] eqn:Elen; [lia |].
  destruct (mget d (ensureLevel (S d) H1)) as [lvl |] eqn:El.
  - simpl. eexists. split; [reflexivity |].
    apply levels_in_order_insertClump. exact Hin2.
  - exfalso. apply (proj2 (levels_in_order_present _ d Hin2)); [lia | exact El].
Qed.

Lemma leaves_loop_in_order (na : NodeAllocation) (ls : list LayoutNode) :
  forall H, levels_in_order H ->
  exists H', foldM (leaf_step na) ls H = Ok H' /\ levels_in_order H'.
Proof.
  induction ls as [| l ls IH]; intros H Hin; simpl.
  - exists H. split; [reflexivity | exact Hin].
  - destruct (leaf_step_in_order na H l Hin) as (H1 & E1 & Hin1).
    rewrite E1. simpl. apply IH. exact Hin1.
Qed.

(** X4. Indexing the clumps never throws: every leaf has at least one
    ancestor to index, its parent id when the stem lists none, so the
    level above the leaf has been made when the leaf reads it. *)
Theorem indexing_never_throws (na : NodeAllocation) :
  exists H, indexClumps na = Ok H.
Proof.
  destruct (leaves_loop_in_order na (mvalues (leaves na)) [] levels_in_order_nil)
    as (H & E & _).
  exists H. exact E.
Qed.

(** X5. The levels that indexing makes are those of the depths 0, 1, ...
    below their number, in that order and each under its own depth: the
    loop over the depths below the number of levels meets every level,
    and none is missing. *)
Theorem levels_in_depth_order (na : NodeAllocation) (H : hierarchyLevels) :
  indexClumps na = Ok H ->
  mkeys H = seq 0 (List.length H)
  /\ (forall d lvl, mget d H = Some lvl -> level_depth lvl = d)
  /\ (forall d, mget d H <> None <-> (d < List.length H)%nat).
Proof.
  intros Hrun.
  destruct (leaves_loop_in_order na (mvalues (leaves na)) [] levels_in_order_nil)
    as (H' & E & Hin).
  unfold indexClumps in Hrun. rewrite E in Hrun. inversion Hrun; subst H'.
  split; [apply Hin |]. split; [apply Hin |].
  intros d. apply levels_in_order_present. exact Hin.
Qed.

(** *** What a turn does to the clumps *)

Lemma core_insertClump_other (H : hierarchyLevels) (d n pk : nat) (l : R)
    (d' k' : nat) :
  mget d H <> None -> ~ (d' = d /\ k' = n) ->
  option_map clump_core (getClump (insertClump H d n pk l) d' k')
  = option_map clump_core (getClump H d' k').
Proof.
  intros Hex Hne. rewrite getClump_insertClump by exact Hex.
  destruct (getPreviousClump H d pk) as [P |] eqn:EP.
  - destruct d as [| d0]; [discriminate |]. simpl in EP.
    replace (S d0 - 1)%nat with d0 by lia.
    destruct (Nat.eqb d' d0 && Nat.eqb k' pk) eqn:E1.
    + apply andb_true_iff in E1. destruct E1 as (E1 & E2).
      apply Nat.eqb_eq in E1, E2. subst d' k'. rewrite EP. reflexivity.
    + destruct (Nat.eqb d' (S d0) && Nat.eqb k' n) eqn:E2; [| reflexivity].
      apply andb_true_iff in E2. destruct E2 as (E2 & E3).
      apply Nat.eqb_eq in E2, E3. tauto.
  - destruct (Nat.eqb d' d && Nat.eqb k' n) eqn:E2; [| reflexivity].
    apply andb_true_iff in E2. destruct E2 as (E2 & E3).
    apply Nat.eqb_eq in E2, E3. tauto.
Qed.

Lemma getClump_insertClump_here (H : hierarchyLevels) (d n pk : nat) (l : R) :
  mget d H <> None ->
  exists par,
    getClump (insertClump H d n pk l) d n = Some (newClump n par l)
    /\ (d = 0%nat -> par = None).
Proof.
  intros Hex. rewrite getClump_insertClump by exact Hex.
  destruct (getPreviousClump H d pk) as [P |] eqn:EP.
  - destruct d as [| d0]; [discriminate |].
    replace (Nat.eqb (S d0) (S d0 - 1)) with false
      by (symmetry; apply Nat.eqb_neq; lia).
    simpl. rewrite !Nat.eqb_refl. simpl.
    eexists. split; [reflexivity | intros; lia].
  - rewrite !Nat.eqb_refl. simpl. eexists. split; [reflexivity | reflexivity].
Qed.

Lemma parent_insertClump_other (H : hierarchyLevels) (d n pk : nat) (l : R)
    (d' k' : nat) :
  mget d H <> None -> ~ (d' = d /\ k' = n) ->
  option_map parentClump (getClump (insertClump H d n pk l) d' k')
  = option_map parentClump (getClump H d' k').
Proof.
  intros Hex Hne. rewrite getClump_insertClump by exact Hex.
  destruct (getPreviousClump H d pk) as [P |] eqn:EP.
  - destruct d as [| d0]; [discriminate |]. simpl in EP.
    replace (S d0 - 1)%nat with d0 by lia.
    destruct (Nat.eqb d' d0 && Nat.eqb k' pk) eqn:E1.
    + apply andb_true_iff in E1. destruct E1 as (E1 & E2).
      apply Nat.eqb_eq in E1, E2. subst d' k'. rewrite EP. reflexivity.
    + destruct (Nat.eqb d' (S d0) && Nat.eqb k' n) eqn:E2; [| reflexivity].
      apply andb_true_iff in E2. destruct E2 as (E2 & E3).
      apply Nat.eqb_eq in E2, E3. tauto.
  - destruct (Nat.eqb d' d && Nat.eqb k' n) eqn:E2; [| reflexivity].
    apply andb_true_iff in E2. destruct E2 as (E2 & E3).
    apply Nat.eqb_eq in E2, E3. tauto.
Qed.

(** A turn of the loop over the ancestors touches the node and the
    longest leaf length of no clump but that of the ancestor at its
    depth, and of that one only when the ancestor is a midpoint. *)
Lemma core_ancestor_step_other (na : NodeAllocation) (len : R)
    (H : hierarchyLevels) (d a d' k' : nat) :
  ~ (d' = d /\ k' = a) \/ mget a (midPoints na) = None ->
  option_map clump_core (getClump (ancestor_step na len H d a) d' k')
  = option_map clump_core (getClump H d' k').
Proof.
  intros Hne. unfold ancestor_step.
  destruct (mget a (midPoints na)) as [mp |] eqn:Emp.
  - destruct Hne as [Hne | Hne]; [| discriminate].
    destruct (getClump (ensureLevel d H) d a) as [c |] eqn:Ec.
    + destruct (Reqb (longestLeafLength c) 0 || Rltb (longestLeafLength c) len).
      * rewrite getClump_setClump by apply mget_ensureLevel.
        destruct (Nat.eqb d' d && Nat.eqb k' a) eqn:E.
        -- apply andb_true_iff in E. destruct E as (E1 & E2).
           apply Nat.eqb_eq in E1, E2. tauto.
        -- rewrite getClump_ensureLevel. reflexivity.
      * rewrite getClump_ensureLevel. reflexivity.
    + rewrite core_insertClump_other by (try apply mget_ensureLevel; exact Hne).
      rewrite getClump_ensureLevel. reflexivity.
  - rewrite getClump_ensureLevel. reflexivity.
Qed.

Lemma parent_ancestor_step_other (na : NodeAllocation) (len : R)
    (H : hierarchyLevels) (d a d' k' : nat) :
  ~ (d' = d /\ k' = a) ->
  option_map parentClump (getClump (ancestor_step na len H d a) d' k')
  = option_map parentClump (getClump H d' k').
Proof.
  intros Hne. unfold ancestor_step.
  destruct (mget a (midPoints na)) as [mp |] eqn:Emp.
  - destruct (getClump (ensureLevel d H) d a) as [c |] eqn:Ec.
    + destruct (Reqb (longestLeafLength c) 0 || Rltb (longestLeafLength c) len).
      * rewrite getClump_setClump by apply mget_ensureLevel.
        destruct (Nat.eqb d' d && Nat.eqb k' a) eqn:E.
        -- apply andb_true_iff in E. destruct E as (E1 & E2).
           apply Nat.eqb_eq in E1, E2. tauto.
        -- rewrite getClump_ensureLevel. reflexivity.
      * rewrite getClump_ensureLevel. reflexivity.
    + rewrite parent_insertClump_other by (try apply mget_ensureLevel; exact Hne).
      rewrite getClump_ensureLevel. reflexivity.
  - rewrite getClump_ensureLevel. reflexivity.
Qed.

(** The clump of a midpoint ancestor after its turn: a new clump starts
    with the length of the leaf; an old one takes that length when its own
    is zero or smaller. *)
Lemma getClump_ancestor_step_here (na : NodeAllocation) (len : R)
    (H : hierarchyLevels) (d a : nat) :
  mget a (midPoints na) <> None ->
  exists c',
    getClump (ancestor_step na len H d a) d a = Some c'
    /\ match getClump H d a with
       | None => clump_node c' = a /\ longestLeafLength c' = len
                 /\ (d = 0%nat -> parentClump c' = None)
       | Some c =>
           clump_node c' = clump_node c
           /\ parentClump c' = parentClump c
           /\ longestLeafLength c'
              = if Reqb (longestLeafLength c) 0 || Rltb (longestLeafLength c) len
                then len else longestLeafLength c
       end.
Proof.
  intros Hmid. unfold ancestor_step.
  destruct (mget a (midPoints na)) as [mp |]; [| congruence].
  rewrite <- (getClump_ensureLevel H d d a).
  destruct (getClump (ensureLevel d H) d a) as [c |] eqn:Ec.
  - destruct (Reqb (longestLeafLength c) 0 || Rltb (longestLeafLength c) len) eqn:Eb.
    + rewrite getClump_setClump by apply mget_ensureLevel.
      rewrite !Nat.eqb_refl. simpl. eexists. split; [reflexivity |].
      simpl. auto.
    + rewrite Ec. eexists. split; [reflexivity |]. auto.
  - destruct (getClump_insertClump_here (ensureLevel d H) d a
                (node_parentId (node mp)) len (mget_ensureLevel H d))
      as (par & E & Hpar).
    rewrite E. eexists. split; [reflexivity |]. simpl. auto.
Qed.

Lemma Reqb_iff (a b : R) : Reqb a b = true <-> a = b.
Proof.
  unfold Reqb. destruct (Req_dec_T a b); split; intros; try assumption;
    try reflexivity; try discriminate; contradiction.
Qed.

Lemma option_map_Some_inv {A B : Type} (f : A -> B) (o o' : option A) (a' : A) :
  option_map f o' = option_map f o -> o' = Some a' ->
  exists a, o = Some a /\ f a = f a'.
Proof.
  intros E ->. destruct o as [a |]; [| discriminate].
  simpl in E. exists a. split; [reflexivity | congruence].
Qed.

Lemma option_map_not_None {A B : Type} (f : A -> B) (o o' : option A) :
  option_map f o' = option_map f o -> o <> None -> o' <> None.
Proof. intros E Ho ->. destruct o; [discriminate | congruence]. Qed.

Lemma ancestor_step_keeps (na : NodeAllocation) (len : R)
    (H : hierarchyLevels) (d a d' k' : nat) :
  getClump H d' k' <> None ->
  getClump (ancestor_step na len H d a) d' k' <> None.
Proof.
  intros Hex.
  destruct (Nat.eq_dec d' d) as [Ed | Hd]; [destruct (Nat.eq_dec k' a) as [Ek | Hk] |].
  - subst d' k'. destruct (mget a (midPoints na)) as [mp |] eqn:Emp.
    + destruct (getClump_ancestor_step_here na len H d a) as (c' & E & _);
        [congruence |].
      rewrite E. discriminate.
    + eapply option_map_not_None; [| exact Hex].
      apply (core_ancestor_step_other na len H d a d a). right. exact Emp.
  - eapply option_map_not_None; [| exact Hex].
    apply (core_ancestor_step_other na len H d a d' k'). left. tauto.
  - eapply option_map_not_None; [| exact Hex].
    apply (core_ancestor_step_other na len H d a d' k'). left. tauto.
Qed.

(** *** The longest leaf length of a midpoint clump *)

Lemma longest_of_ext (na : NodeAllocation) (r r' : nat -> nat -> R -> Prop)
    (H : hierarchyLevels) :
  (forall d k x, r' d k x <-> r d k x) ->
  longest_of na r H -> longest_of na r' H.
Proof.
  intros Hext (H1 & H2). split.
  - intros d k c Ec Hmid. destruct (H1 d k c Ec Hmid) as (Hr & Hmax).
    split; [apply Hext; exact Hr |]. intros x Hx. apply Hmax, Hext. exact Hx.
  - intros d k x Hx Hmid. apply (H2 d k x); [apply Hext; exact Hx | exact Hmid].
Qed.

Lemma longest_of_same_core (na : NodeAllocation) (r : nat -> nat -> R -> Prop)
    (H H' : hierarchyLevels) :
  (forall d k, mget k (midPoints na) <> None ->
     option_map clump_core (getClump H' d k)
     = option_map clump_core (getClump H d k)) ->
  longest_of na r H -> longest_of na r H'.
Proof.
  intros Hsame (H1 & H2). split.
  - intros d k c' Ec' Hmid.
    destruct (option_map_Some_inv _ _ _ _ (Hsame d k Hmid) Ec') as (c & Ec & Hcore).
    unfold clump_core in Hcore. injection Hcore as Hn Hl. rewrite <- Hl.
    apply (H1 d k c Ec Hmid).
  - intros d k x Hx Hmid. eapply option_map_not_None; [apply Hsame; exact Hmid |].
    apply (H2 d k x Hx Hmid).
Qed.

Lemma longest_of_ancestor_step (na : NodeAllocation) (len : R)
    (r : nat -> nat -> R -> Prop) (H : hierarchyLevels) (d a : nat) :
  0 <= len ->
  longest_of na r H ->
  longest_of na (fun d' k' x => r d' k' x \/ (d' = d /\ k' = a /\ x = len))
             (ancestor_step na len H d a).
Proof.
  intros Hlen (H1 & H2). split.
  - intros d' k' c' Ec' Hmid.
    destruct (Nat.eq_dec d' d) as [Ed | Hd];
      [destruct (Nat.eq_dec k' a) as [Ek | Hk] |].
    + subst d' k'.
      destruct (getClump_ancestor_step_here na len H d a Hmid) as (c'' & E & Hspec).
      assert (Ecc : c'' = c') by congruence. subst c''. clear Ec'.
      destruct (getClump H d a) as [c |] eqn:Ec.
      * destruct Hspec as (_ & _ & Hl). destruct (H1 d a c Ec Hmid) as (Hr & Hmax).
        destruct (Reqb (longestLeafLength c) 0 || Rltb (longestLeafLength c) len)
          eqn:Eb; rewrite Hl.
        -- split; [right; auto |]. intros x [Hx | (_ & _ & ->)]; [| lra].
           specialize (Hmax x Hx). apply orb_true_iff in Eb.
           destruct Eb as [Eb | Eb].
           ++ apply Reqb_iff in Eb. lra.
           ++ apply Rltb_iff in Eb. lra.
        -- split; [left; exact Hr |]. intros x [Hx | (_ & _ & ->)];
             [apply Hmax; exact Hx |].
           apply orb_false_iff in Eb. destruct Eb as (_ & Eb).
           destruct (Rlt_dec (longestLeafLength c) len) as [Hlt | Hge]; [| lra].
           apply Rltb_iff in Hlt. congruence.
      * destruct Hspec as (_ & Hl & _). rewrite Hl.
        split; [right; auto |]. intros x [Hx | (_ & _ & ->)]; [| lra].
        exfalso. apply (H2 d a x Hx Hmid). exact Ec.
    + assert (Hne : ~ (d' = d /\ k' = a)) by tauto.
      destruct (option_map_Some_inv _ _ _ _
                  (core_ancestor_step_other na len H d a d' k' (or_introl Hne))
                  Ec') as (c & Ec & Hcore).
      unfold clump_core in Hcore. injection Hcore as Hn Hl. rewrite <- Hl.
      destruct (H1 d' k' c Ec Hmid) as (Hr & Hmax).
      split; [left; exact Hr |]. intros x [Hx | (_ & E & _)];
        [apply Hmax; exact Hx | contradiction].
    + assert (Hne : ~ (d' = d /\ k' = a)) by tauto.
      destruct (option_map_Some_inv _ _ _ _
                  (core_ancestor_step_other na len H d a d' k' (or_introl Hne))
                  Ec') as (c & Ec & Hcore).
      unfold clump_core in Hcore. injection Hcore as Hn Hl. rewrite <- Hl.
      destruct (H1 d' k' c Ec Hmid) as (Hr & Hmax).
      split; [left; exact Hr |]. intros x [Hx | (E & _)];
        [apply Hmax; exact Hx | contradiction].
  - intros d' k' x Hx Hmid. destruct Hx as [Hx | (-> & -> & _)].
    + apply ancestor_step_keeps. apply (H2 d' k' x Hx Hmid).
    + destruct (getClump_ancestor_step_here na len H d a Hmid) as (c' & E & _).
      rewrite E. discriminate.
Qed.

Lemma longest_of_ancestors_loop (na : NodeAllocation) (len : R)
    (ancestors : list nat) :
  0 <= len ->
  forall (r : nat -> nat -> R -> Prop) (H : hierarchyLevels) (d : nat),
    longest_of na r H ->
    longest_of na
      (fun d' k' x =>
         r d' k' x
         \/ ((d <= d')%nat /\ nth_error ancestors (d' - d) = Some k' /\ x = len))
      (ancestors_loop na len H d ancestors).
Proof.
  intros Hlen. induction ancestors as [| a rest IH]; intros r H d Hinv; simpl.
  - apply (longest_of_ext na r); [| exact Hinv].
    intros d' k' x. split; [| auto]. intros [Hx | (_ & E & _)]; [exact Hx |].
    destruct (d' - d)%nat; discriminate.
  - eapply longest_of_ext;
      [| apply IH, (longest_of_ancestor_step na len r H d a Hlen Hinv)].
    intros d' k' x. simpl. split.
    + intros [Hx | (Hle & E & ->)]; [auto |].
      destruct (Nat.eq_dec d' d) as [-> | Hne].
      * rewrite Nat.sub_diag in E. simpl in E. inversion E. auto.
      * right. split; [lia |]. split; [| reflexivity].
        replace (d' - d)%nat with (S (d' - S d)) in E by lia. exact E.
    + intros [[Hx | (-> & -> & ->)] | (Hle & E & ->)].
      * auto.
      * right. split; [lia |]. rewrite Nat.sub_diag. auto.
      * right. split; [lia |]. split; [| reflexivity].
        replace (d' - d)%nat with (S (d' - S d)) by lia. exact E.
Qed.

Lemma longest_of_leaf_step (na : NodeAllocation) (processed : list LayoutNode)
    (H H' : hierarchyLevels) (leaf : LayoutNode) :
  mget (node_id (node leaf)) (midPoints na) = None ->
  0 <= leafLength leaf ->
  longest_of na (reached_from processed) H ->
  leaf_step na H leaf = Ok H' ->
  longest_of na (reached_from (processed ++ [leaf])) H'.
Proof.
  intros Hnotmid Hlen Hinv Hstep. unfold leaf_step in Hstep.
  apply bind_Ok in Hstep. destruct Hstep as (lvl & _ & Hstep).
  inversion Hstep; subst H'. clear Hstep.
  fold (leafLength leaf).
  apply (longest_of_same_core na _
           (ancestors_loop na (leafLength leaf) H 0 (leafAncestors leaf))).
  { intros d k Hmid.
    rewrite core_insertClump_other.
    - rewrite getClump_ensureLevel. reflexivity.
    - apply mget_ensureLevel.
    - intros (_ & E). subst k. contradiction. }
  eapply longest_of_ext;
    [| apply (longest_of_ancestors_loop na (leafLength leaf) (leafAncestors leaf)
               Hlen _ H 0 Hinv)].
  intros d k x. unfold reached_from, under. rewrite Nat.sub_0_r. split.
  - intros (l & Hin & Hu & Hx). apply in_app_or in Hin.
    destruct Hin as [Hin | [<- | []]]; [left; eauto |].
    right. split; [lia |]. split; [exact Hu | symmetry; exact Hx].
  - intros [(l & Hin & Hu & Hx) | (_ & Hu & ->)].
    + exists l. split; [apply in_or_app; left; exact Hin | auto].
    + exists leaf. split; [apply in_or_app; right; left; reflexivity | auto].
Qed.

Lemma longest_of_loop (na : NodeAllocation) (ls : list LayoutNode) :
  forall processed H H',
    (forall l, In l ls -> mget (node_id (node l)) (midPoints na) = None) ->
    (forall l, In l ls -> 0 <= leafLength l) ->
    longest_of na (reached_from processed) H ->
    foldM (leaf_step na) ls H = Ok H' ->
    longest_of na (reached_from (processed ++ ls)) H'.
Proof.
  induction ls as [| l ls IH]; intros processed H H' Hmid Hlen Hinv Hrun.
  - simpl in Hrun. inversion Hrun; subst. rewrite app_nil_r. exact Hinv.
  - apply foldM_cons in Hrun. destruct Hrun as (H1 & Hstep & Hrest).
    replace (processed ++ l :: ls) with ((processed ++ [l]) ++ ls)
      by (rewrite <- app_assoc; reflexivity).
    apply (IH _ H1 H'); [| | | exact Hrest].
    + intros l' Hin. apply Hmid. right. exact Hin.
    + intros l' Hin. apply Hlen. right. exact Hin.
    + apply (longest_of_leaf_step na processed H H1 l);
        [apply Hmid; left; reflexivity | apply Hlen; left; reflexivity
         | exact Hinv | exact Hstep].
Qed.

(** *** The clumps of the leaves *)

Lemma ancestor_step_skip (na : NodeAllocation) (len : R)
    (H : hierarchyLevels) (d a d' k' : nat) :
  mget a (midPoints na) = None ->
  getClump (ancestor_step na len H d a) d' k' = getClump H d' k'.
Proof.
  intros Emp. unfold ancestor_step. rewrite Emp. apply getClump_ensureLevel.
Qed.

Lemma leaf_clumps_ancestor_step (na : NodeAllocation)
    (processed : list LayoutNode) (len : R) (H : hierarchyLevels) (d a : nat) :
  leaf_clumps na processed H ->
  leaf_clumps na processed (ancestor_step na len H d a).
Proof.
  intros (I1 & I2 & I3 & I4).
  destruct (mget a (midPoints na)) as [mp |] eqn:Emp.
  2:{ repeat split.
      - intros d' k' c E. rewrite ancestor_step_skip in E by exact Emp. eauto.
      - intros d' k' c E. rewrite ancestor_step_skip in E by exact Emp. eauto.
      - intros l Hin. rewrite ancestor_step_skip by exact Emp. auto.
      - intros k' c E. rewrite ancestor_step_skip in E by exact Emp. eauto. }
  assert (Hmid : mget a (midPoints na) <> None) by congruence.
  destruct (getClump_ancestor_step_here na len H d a Hmid) as (ch & Eh & Hspec).
  assert (Hother : forall d' k' c',
             ~ (d' = d /\ k' = a) ->
             getClump (ancestor_step na len H d a) d' k' = Some c' ->
             exists c, getClump H d' k' = Some c
                       /\ clump_node c = clump_node c'
                       /\ longestLeafLength c = longestLeafLength c'
                       /\ parentClump c = parentClump c').
  { intros d' k' c' Hne E.
    destruct (option_map_Some_inv _ _ _ _
                (core_ancestor_step_other na len H d a d' k' (or_introl Hne)) E)
      as (c & Ec & Hcore).
    injection Hcore as Hn Hl.
    destruct (option_map_Some_inv _ _ _ _
                (parent_ancestor_step_other na len H d a d' k' Hne) E)
      as (c2 & Ec2 & Hpar).
    rewrite Ec in Ec2. inversion Ec2; subst c2.
    exists c. auto. }
  repeat split.
  - intros d' k' c' E.
    destruct (Nat.eq_dec d' d) as [Ed | Hd];
      [destruct (Nat.eq_dec k' a) as [Ek | Hk] |].
    + subst d' k'. rewrite Eh in E. inversion E; subst ch.
      destruct (getClump H d a) as [c |] eqn:Ec.
      * destruct Hspec as (Hn & _). rewrite Hn. eapply I1; exact Ec.
      * tauto.
    + destruct (Hother d' k' c' ltac:(tauto) E) as (c & Ec & Hn & _).
      rewrite <- Hn. eapply I1; exact Ec.
    + destruct (Hother d' k' c' ltac:(tauto) E) as (c & Ec & Hn & _).
      rewrite <- Hn. eapply I1; exact Ec.
  - intros d' k' c' E Hk'.
    assert (Hne : ~ (d' = d /\ k' = a)).
    { intros (_ & ->). congruence. }
    destruct (Hother d' k' c' Hne E) as (c & Ec & _ & Hl & _).
    rewrite <- Hl. apply (I2 d' k' c Ec Hk').
  - intros l Hin. apply ancestor_step_keeps. apply I3. exact Hin.
  - intros k' c' E.
    destruct (Nat.eq_dec 0 d) as [Ed | Hd];
      [destruct (Nat.eq_dec k' a) as [Ek | Hk] |].
    + subst d k'. rewrite Eh in E. inversion E; subst ch.
      destruct (getClump H 0 a) as [c |] eqn:Ec.
      * destruct Hspec as (_ & Hp & _). rewrite Hp. eapply I4; exact Ec.
      * destruct Hspec as (_ & _ & Hp). apply Hp. reflexivity.
    + destruct (Hother 0%nat k' c' ltac:(tauto) E) as (c & Ec & _ & _ & Hp).
      rewrite <- Hp. eapply I4; exact Ec.
    + destruct (Hother 0%nat k' c' ltac:(tauto) E) as (c & Ec & _ & _ & Hp).
      rewrite <- Hp. eapply I4; exact Ec.
Qed.

Lemma leaf_clumps_ancestors_loop (na : NodeAllocation)
    (processed : list LayoutNode) (len : R) (ancestors : list nat) :
  forall H d,
    leaf_clumps na processed H ->
    leaf_clumps na processed (ancestors_loop na len H d ancestors).
Proof.
  induction ancestors as [| a rest IH]; intros H d Hinv; simpl; [exact Hinv |].
  apply IH, leaf_clumps_ancestor_step. exact Hinv.
Qed.

Lemma leaf_clumps_leaf_step (na : NodeAllocation) (processed : list LayoutNode)
    (H H' : hierarchyLevels) (leaf : LayoutNode) :
  leaf_clumps na processed H ->
  leaf_step na H leaf = Ok H' ->
  leaf_clumps na (processed ++ [leaf]) H'.
Proof.
  intros Hinv Hstep. unfold leaf_step in Hstep.
  apply bind_Ok in Hstep. destruct Hstep as (lvl & _ & Hstep).
  inversion Hstep; subst H'. clear Hstep.
  fold (leafLength leaf). fold (leafDepth leaf).
  set (H1 := ancestors_loop na (leafLength leaf) H 0 (leafAncestors leaf)).
  destruct (leaf_clumps_ancestors_loop na processed (leafLength leaf)
              (leafAncestors leaf) H 0 Hinv) as (I1 & I2 & I3 & I4).
  fold H1 in I1, I2, I3, I4.
  set (H2 := ensureLevel (leafDepth leaf) H1).
  assert (Hex : mget (leafDepth leaf) H2 <> None) by apply mget_ensureLevel.
  destruct (getClump_insertClump_here H2 (leafDepth leaf) (node_id (node leaf))
              (node_parentId (node leaf)) (leafLength leaf) Hex)
    as (par & Ehere & Hpar).
  assert (Hother : forall d' k' c',
             ~ (d' = leafDepth leaf /\ k' = node_id (node leaf)) ->
             getClump (insertClump H2 (leafDepth leaf) (node_id (node leaf))
                         (node_parentId (node leaf)) (leafLength leaf)) d' k'
             = Some c' ->
             exists c, getClump H1 d' k' = Some c
                       /\ clump_node c = clump_node c'
                       /\ longestLeafLength c = longestLeafLength c'
                       /\ parentClump c = parentClump c').
  { intros d' k' c' Hne E.
    destruct (option_map_Some_inv _ _ _ _
                (core_insertClump_other H2 _ _ _ _ d' k' Hex Hne) E)
      as (c & Ec & Hcore).
    injection Hcore as Hn Hl.
    destruct (option_map_Some_inv _ _ _ _
                (parent_insertClump_other H2 _ _ _ _ d' k' Hex Hne) E)
      as (c2 & Ec2 & Hp).
    rewrite Ec in Ec2. inversion Ec2; subst c2.
    unfold H2 in Ec. rewrite getClump_ensureLevel in Ec.
    exists c. auto. }
  repeat split.
  - intros d' k' c' E.
    destruct (Nat.eq_dec d' (leafDepth leaf)) as [Ed | Hd];
      [destruct (Nat.eq_dec k' (node_id (node leaf))) as [Ek | Hk] |].
    + subst d' k'. rewrite Ehere in E. inversion E. reflexivity.
    + destruct (Hother d' k' c' ltac:(tauto) E) as (c & Ec & Hn & _).
      rewrite <- Hn. eapply I1; exact Ec.
    + destruct (Hother d' k' c' ltac:(tauto) E) as (c & Ec & Hn & _).
      rewrite <- Hn. eapply I1; exact Ec.
  - intros d' k' c' E Hk'.
    destruct (Nat.eq_dec d' (leafDepth leaf)) as [Ed | Hd];
      [destruct (Nat.eq_dec k' (node_id (node leaf))) as [Ek | Hk] |].
    + subst d' k'. rewrite Ehere in E. inversion E. exists leaf.
      split; [apply in_or_app; right; left; reflexivity |]. auto.
    + destruct (Hother d' k' c' ltac:(tauto) E) as (c & Ec & _ & Hl & _).
      destruct (I2 d' k' c Ec Hk') as (l & Hin & A & B & C).
      exists l. split; [apply in_or_app; left; exact Hin |].
      rewrite <- Hl. auto.
    + destruct (Hother d' k' c' ltac:(tauto) E) as (c & Ec & _ & Hl & _).
      destruct (I2 d' k' c Ec Hk') as (l & Hin & A & B & C).
      exists l. split; [apply in_or_app; left; exact Hin |].
      rewrite <- Hl. auto.
  - intros l Hin. apply in_app_or in Hin.
    destruct (Nat.eq_dec (leafDepth l) (leafDepth leaf)) as [Ed | Hd];
      [destruct (Nat.eq_dec (node_id (node l)) (node_id (node leaf))) as [Ek | Hk] |].
    + rewrite Ed, Ek, Ehere. discriminate.
    + destruct Hin as [Hin | [<- | []]]; [| congruence].
      eapply option_map_not_None;
        [apply (core_insertClump_other H2 _ _ _ _ _ _ Hex); tauto |].
      unfold H2. rewrite getClump_ensureLevel. apply I3. exact Hin.
    + destruct Hin as [Hin | [<- | []]]; [| congruence].
      eapply option_map_not_None;
        [apply (core_insertClump_other H2 _ _ _ _ _ _ Hex); tauto |].
      unfold H2. rewrite getClump_ensureLevel. apply I3. exact Hin.
  - intros k' c' E.
    destruct (Nat.eq_dec 0 (leafDepth leaf)) as [Ed | Hd];
      [destruct (Nat.eq_dec k' (node_id (node leaf))) as [Ek | Hk] |].
    + subst k'. rewrite Ed in E. rewrite Ehere in E. inversion E. simpl.
      apply Hpar. symmetry. exact Ed.
    + destruct (Hother 0%nat k' c' ltac:(tauto) E) as (c & Ec & _ & _ & Hp).
      rewrite <- Hp. eapply I4; exact Ec.
    + destruct (Hother 0%nat k' c' ltac:(tauto) E) as (c & Ec & _ & _ & Hp).
      rewrite <- Hp. eapply I4; exact Ec.
Qed.

Lemma leaf_clumps_loop (na : NodeAllocation) (ls : list LayoutNode) :
  forall processed H H',
    leaf_clumps na processed H ->
    foldM (leaf_step na) ls H = Ok H' ->
    leaf_clumps na (processed ++ ls) H'.
Proof.
  induction ls as [| l ls IH]; intros processed H H' Hinv Hrun.
  - simpl in Hrun. inversion Hrun; subst. rewrite app_nil_r. exact Hinv.
  - apply foldM_cons in Hrun. destruct Hrun as (H1 & Hstep & Hrest).
    replace (processed ++ l :: ls) with ((processed ++ [l]) ++ ls)
      by (rewrite <- app_assoc; reflexivity).
    apply (IH _ H1 H'); [| exact Hrest].
    apply (leaf_clumps_leaf_step na processed H H1 l Hinv Hstep).
Qed.

Lemma leaf_clumps_nil (na : NodeAllocation) : leaf_clumps na [] [].
Proof. repeat split; intros; try discriminate; contradiction. Qed.

Lemma longest_of_nil (na : NodeAllocation) : longest_of na (reached_from []) [].
Proof.
  split.
  - intros d k c E. discriminate.
  - intros d k x (l & [] & _).
Qed.

(** *** Which clumps there are *)

Lemma ancestor_step_exists (na : NodeAllocation) (len : R)
    (H : hierarchyLevels) (d a d' k' : nat) :
  getClump (ancestor_step na len H d a) d' k' <> None
  <-> getClump H d' k' <> None
      \/ (d' = d /\ k' = a /\ mget a (midPoints na) <> None).
Proof.
  split.
  - intros Hex.
    destruct (mget a (midPoints na)) as [mp |] eqn:Emp.
    + destruct (Nat.eq_dec d' d) as [Ed | Hd];
        [destruct (Nat.eq_dec k' a) as [Ek | Hk] |].
      * right. repeat split; [assumption | assumption | discriminate].
      * left. eapply option_map_not_None; [| exact Hex]. symmetry.
        apply (core_ancestor_step_other na len H d a d' k'). left. tauto.
      * left. eapply option_map_not_None; [| exact Hex]. symmetry.
        apply (core_ancestor_step_other na len H d a d' k'). left. tauto.
    + left. rewrite ancestor_step_skip in Hex by exact Emp. exact Hex.
  - intros [Hex | (-> & -> & Hmid)].
    + apply ancestor_step_keeps. exact Hex.
    + destruct (getClump_ancestor_step_here na len H d a Hmid) as (c' & E & _).
      rewrite E. discriminate.
Qed.

Lemma ancestors_loop_exists (na : NodeAllocation) (len : R) (ancestors : list nat) :
  forall (H : hierarchyLevels) (d d' k' : nat),
    getClump (ancestors_loop na len H d ancestors) d' k' <> None
    <-> getClump H d' k' <> None
        \/ ((d <= d')%nat /\ nth_error ancestors (d' - d) = Some k'
            /\ mget k' (midPoints na) <> None).
Proof.
  induction ancestors as [| a rest IH]; intros H d d' k'; simpl.
  - split; [auto |]. intros [Hex | (_ & E & _)]; [exact Hex |].
    destruct (d' - d)%nat; discriminate.
  - rewrite IH, ancestor_step_exists. split.
    + intros [[Hex | (-> & -> & Hmid)] | (Hle & E & Hmid)].
      * auto.
      * right. split; [lia |]. rewrite Nat.sub_diag. auto.
      * right. split; [lia |]. split; [| exact Hmid].
        replace (d' - d)%nat with (S (d' - S d)) by lia. exact E.
    + intros [Hex | (Hle & E & Hmid)]; [auto |].
      destruct (Nat.eq_dec d' d) as [-> | Hne].
      * rewrite Nat.sub_diag in E. simpl in E. inversion E; subst. auto.
      * right. split; [lia |]. split; [| exact Hmid].
        replace (d' - d)%nat with (S (d' - S d)) in E by lia. exact E.
Qed.

Lemma leaf_step_exists (na : NodeAllocation) (H H' : hierarchyLevels)
    (leaf : LayoutNode) (d' k' : nat) :
  leaf_step na H leaf = Ok H' ->
  (getClump H' d' k' <> None
   <-> getClump H d' k' <> None
       \/ (under d' k' leaf /\ mget k' (midPoints na) <> None)
       \/ (d' = leafDepth leaf /\ k' = node_id (node leaf))).
Proof.
  intros Hstep. unfold leaf_step in Hstep.
  apply bind_Ok in Hstep. destruct Hstep as (lvl & _ & Hstep).
  inversion Hstep; subst H'. clear Hstep.
  fold (leafLength leaf). fold (leafDepth leaf).
  set (H1 := ancestors_loop na (leafLength leaf) H 0 (leafAncestors leaf)).
  set (H2 := ensureLevel (leafDepth leaf) H1).
  assert (Hex : mget (leafDepth leaf) H2 <> None) by apply mget_ensureLevel.
  assert (H1ex : getClump H1 d' k' <> None
                 <-> getClump H d' k' <> None
                     \/ (under d' k' leaf /\ mget k' (midPoints na) <> None)).
  { unfold H1. rewrite ancestors_loop_exists. unfold under.
    rewrite Nat.sub_0_r. split; intros [A | B]; auto.
    - right. tauto.
    - right. split; [lia | tauto]. }
  destruct (Nat.eq_dec d' (leafDepth leaf)) as [Ed | Hd];
    [destruct (Nat.eq_dec k' (node_id (node leaf))) as [Ek | Hk] |].
  - subst d' k'.
    destruct (getClump_insertClump_here H2 (leafDepth leaf) (node_id (node leaf))
                (node_parentId (node leaf)) (leafLength leaf) Hex) as (par & E & _).
    rewrite E. split; [auto | discriminate].
  - assert (Hne : ~ (d' = leafDepth leaf /\ k' = node_id (node leaf))) by tauto.
    pose proof (core_insertClump_other H2 _ (node_id (node leaf))
                  (node_parentId (node leaf)) (leafLength leaf) d' k' Hex Hne) as Hc.
    unfold H2 in Hc at 2. rewrite getClump_ensureLevel in Hc.
    split.
    + intros A. apply (option_map_not_None _ _ _ (eq_sym Hc)) in A.
      apply H1ex in A. tauto.
    + intros A. apply (option_map_not_None _ _ _ Hc). apply H1ex. tauto.
  - assert (Hne : ~ (d' = leafDepth leaf /\ k' = node_id (node leaf))) by tauto.
    pose proof (core_insertClump_other H2 _ (node_id (node leaf))
                  (node_parentId (node leaf)) (leafLength leaf) d' k' Hex Hne) as Hc.
    unfold H2 in Hc at 2. rewrite getClump_ensureLevel in Hc.
    split.
    + intros A. apply (option_map_not_None _ _ _ (eq_sym Hc)) in A.
      apply H1ex in A. tauto.
    + intros A. apply (option_map_not_None _ _ _ Hc). apply H1ex. tauto.
Qed.

Lemma leaves_loop_exists (na : NodeAllocation) (ls : list LayoutNode) :
  forall (H H' : hierarchyLevels) (d' k' : nat),
    foldM (leaf_step na) ls H = Ok H' ->
    (getClump H' d' k' <> None
     <-> getClump H d' k' <> None
         \/ exists l, In l ls
              /\ ((under d' k' l /\ mget k' (midPoints na) <> None)
                  \/ (d' = leafDepth l /\ k' = node_id (node l)))).
Proof.
  induction ls as [| l ls IH]; intros H H' d' k' Hrun.
  - simpl in Hrun. inversion Hrun; subst. split; [auto |].
    intros [A | (l & [] & _)]. exact A.
  - apply foldM_cons in Hrun. destruct Hrun as (H1 & Hstep & Hrest).
    rewrite (IH H1 H' d' k' Hrest), (leaf_step_exists na H H1 l d' k' Hstep).
    split.
    + intros [[A | B] | (l' & Hin & B)].
      * auto.
      * right. exists l. split; [left; reflexivity | exact B].
      * right. exists l'. split; [right; exact Hin | exact B].
    + intros [A | (l' & [<- | Hin] & B)].
      * auto.
      * left. right. exact B.
      * right. exists l'. auto.
Qed.

(** *** The assignment of units keeps the clumps *)

Lemma units_step_full (d : nat) (total : R) (H H' : hierarchyLevels)
    (pos pos' : jsmap Position.t) (k : nat) (c0 : Clump) :
  units_step d total (H, pos) (k, c0) = Ok (H', pos') ->
  exists u p,
    H' = updClump H d k (setUnits u)
    /\ mget (clump_node c0) pos = Some p
    /\ pos' = mset (clump_node c0) (Position.set_units u p) pos
    /\ match parentClump c0 with
       | None => total <> 0 /\ u = 1 * (longestLeafLength c0 / total)
       | Some pk =>
           exists P up S,
             getPreviousClump H d pk = Some P /\ clump_units P = Some up
             /\ getTotalChildrenLongestLeafLength H d P = Ok S /\ S <> 0
             /\ u = up * (longestLeafLength c0 / S)
       end.
Proof.
  unfold units_step. intros Hrun.
  apply bind_Ok in Hrun. destruct Hrun as ([parentUnits factor] & Hparent & Hrun).
  apply bind_Ok in Hrun. destruct Hrun as (u & Hval & Hrun).
  apply bind_Ok in Hrun. destruct Hrun as (pos1 & Hw & Hrun).
  inversion Hrun; subst. clear Hrun.
  apply write_position_Ok in Hw. destruct Hw as (p & Hp & ->).
  exists u, p. repeat (split; [reflexivity || assumption |]).
  apply validateStat_inv in Hval.
  destruct (parentClump c0) as [pk |].
  - apply bind_Ok in Hparent. destruct Hparent as (P & HP & Hparent).
    apply bind_Ok in Hparent. destruct Hparent as (S & HS & Hparent).
    apply deref_Ok in HP. inversion Hparent; subst. clear Hparent.
    destruct (clump_units P) as [up |] eqn:Eup; [| discriminate].
    destruct (jsdiv (longestLeafLength c0) factor) as [q |] eqn:Eq; [| discriminate].
    apply jsdiv_inv in Eq. destruct Eq as (Hne & ->).
    simpl in Hval. inversion Hval; subst.
    exists P, up, factor. repeat split; try assumption; reflexivity.
  - inversion Hparent; subst. clear Hparent.
    destruct (jsdiv (longestLeafLength c0) factor) as [q |] eqn:Eq; [| discriminate].
    apply jsdiv_inv in Eq. destruct Eq as (Hne & ->).
    simpl in Hval. inversion Hval; subst. split; [exact Hne | reflexivity].
Qed.

Lemma frame_updClump_setUnits (H : hierarchyLevels) (d k : nat) (u : R)
    (d' k' : nat) :
  option_map clump_frame (getClump (updClump H d k (setUnits u)) d' k')
  = option_map clump_frame (getClump H d' k').
Proof.
  rewrite getClump_updClump.
  destruct (Nat.eqb d' d && Nat.eqb k' k) eqn:E; [| reflexivity].
  apply andb_true_iff in E. destruct E as (E1 & E2).
  apply Nat.eqb_eq in E1, E2. subst. destruct (getClump H d k); reflexivity.
Qed.

Lemma units_loop_frame (d : nat) (total : R) (L : list (nat * Clump)) :
  forall H pos H' pos',
    foldM (units_step d total) L (H, pos) = Ok (H', pos') ->
    forall d' k',
      option_map clump_frame (getClump H' d' k')
      = option_map clump_frame (getClump H d' k').
Proof.
  induction L as [| [k c0] L IH]; intros H pos H' pos' Hrun d' k'.
  - simpl in Hrun. inversion Hrun; subst. reflexivity.
  - apply foldM_cons in Hrun. destruct Hrun as ([H1 pos1] & Hstep & Hrest).
    apply units_step_full in Hstep. destruct Hstep as (u & p & -> & _).
    rewrite (IH _ _ _ _ Hrest). apply frame_updClump_setUnits.
Qed.

Lemma level_step_frame (d : nat) (H H' : hierarchyLevels)
    (pos pos' : jsmap Position.t) :
  level_step (H, pos) d = Ok (H', pos') ->
  forall d' k',
    option_map clump_frame (getClump H' d' k')
    = option_map clump_frame (getClump H d' k').
Proof.
  unfold level_step. intros Hrun d' k'.
  apply bind_Ok in Hrun. destruct Hrun as (lvl & Hlvl & Hrun).
  apply deref_Ok in Hlvl.
  rewrite (units_loop_frame _ _ _ _ _ _ _ Hrun).
  rewrite getClump_set_sum by exact Hlvl. reflexivity.
Qed.

Lemma levels_loop_frame (ds : list nat) :
  forall H pos H' pos',
    foldM level_step ds (H, pos) = Ok (H', pos') ->
    forall d' k',
      option_map clump_frame (getClump H' d' k')
      = option_map clump_frame (getClump H d' k').
Proof.
  induction ds as [| d ds IH]; intros H pos H' pos' Hrun d' k'.
  - simpl in Hrun. inversion Hrun; subst. reflexivity.
  - apply foldM_cons in Hrun. destruct Hrun as ([H1 pos1] & Hstep & Hrest).
    rewrite (IH _ _ _ _ Hrest). apply (level_step_frame _ _ _ _ _ Hstep).
Qed.

(** The conversion, split into its two halves, with what the second half
    keeps of the clumps that the first half has indexed. *)
Lemma convertHierarchy_inv (na : NodeAllocation) (H : hierarchyLevels)
    (pos : jsmap Position.t) :
  convertHierarchy na = Ok (H, pos) ->
  exists H0,
    indexClumps na = Ok H0
    /\ assignUnits H0 (nodeToPosition na) = Ok (H, pos)
    /\ forall d k,
         option_map clump_frame (getClump H d k)
         = option_map clump_frame (getClump H0 d k).
Proof.
  unfold convertHierarchy. intros Hrun.
  apply bind_Ok in Hrun. destruct Hrun as (H0 & Hindex & Hassign).
  exists H0. split; [exact Hindex |]. split; [exact Hassign |].
  unfold assignUnits in Hassign. apply (levels_loop_frame _ _ _ _ _ Hassign).
Qed.

Lemma frame_Some (o o' : option Clump) (c' : Clump) :
  option_map clump_frame o' = option_map clump_frame o -> o' = Some c' ->
  exists c, o = Some c /\ clump_node c = clump_node c'
            /\ parentClump c = parentClump c'
            /\ childClumps c = childClumps c'
            /\ longestLeafLength c = longestLeafLength c'.
Proof.
  intros E Eo. destruct (option_map_Some_inv _ _ _ _ E Eo) as (c & Ec & Hf).
  unfold clump_frame in Hf. injection Hf as A B C D. exists c. auto.
Qed.

(** X6. After the conversion the clumps are those of the midpoints of the
    run at the index that they have among the ancestors of a leaf of the
    run, and those of the leaves of the run at the depth that is the
    number of their ancestors; an ancestor that is not a midpoint of the
    run has no clump. *)
Theorem clumps_of_the_run (na : NodeAllocation) (H : hierarchyLevels)
    (pos : jsmap Position.t) (d k : nat) :
  convertHierarchy na = Ok (H, pos) ->
  (getClump H d k <> None
   <-> exists l, In l (mvalues (leaves na))
         /\ ((under d k l /\ mget k (midPoints na) <> None)
             \/ (d = leafDepth l /\ k = node_id (node l)))).
Proof.
  intros Hrun. destruct (convertHierarchy_inv na H pos Hrun) as (H0 & Hindex & _ & Hf).
  unfold indexClumps in Hindex.
  pose proof (leaves_loop_exists na _ _ _ d k Hindex) as Hex.
  assert (Hsame : getClump H d k <> None <-> getClump H0 d k <> None).
  { split; intros A.
    - apply (option_map_not_None _ _ _ (eq_sym (Hf d k))). exact A.
    - apply (option_map_not_None _ _ _ (Hf d k)). exact A. }
  rewrite Hsame, Hex. split; [| auto].
  intros [A | B]; [| exact B]. exfalso. apply A. reflexivity.
Qed.

(** The clump of a leaf of the run: where it is, and what it holds. *)
Lemma leaf_clump_at_depth (na : NodeAllocation) (H : hierarchyLevels)
    (pos : jsmap Position.t) (leaf : LayoutNode) :
  NoDup (nodeIds (leaves na)) ->
  (forall l, In l (mvalues (leaves na)) ->
             mget (node_id (node l)) (midPoints na) = None) ->
  convertHierarchy na = Ok (H, pos) ->
  In leaf (mvalues (leaves na)) ->
  (exists c,
      getClump H (leafDepth leaf) (node_id (node leaf)) = Some c
      /\ clump_node c = node_id (node leaf)
      /\ longestLeafLength c = leafLength leaf)
  /\ forall d, d <> leafDepth leaf -> getClump H d (node_id (node leaf)) = None.
Proof.
  intros Hnd Hmid Hrun Hin.
  destruct (convertHierarchy_inv na H pos Hrun) as (H0 & Hindex & _ & Hf).
  unfold indexClumps in Hindex.
  destruct (leaf_clumps_loop na _ [] [] H0 (leaf_clumps_nil na) Hindex)
    as (I1 & I2 & I3 & _).
  simpl in I2, I3.
  assert (Hleaf : forall d c0,
             getClump H0 d (node_id (node leaf)) = Some c0 ->
             d = leafDepth leaf /\ longestLeafLength c0 = leafLength leaf).
  { intros d c0 E.
    destruct (I2 d _ c0 E (Hmid leaf Hin)) as (l & Hl & Eid & Ed & El).
    assert (l = leaf).
    { apply (NoDup_map_inj (fun ln => node_id (node ln)) (mvalues (leaves na)));
        assumption. }
    subst l. auto. }
  split.
  - destruct (getClump H0 (leafDepth leaf) (node_id (node leaf))) as [c0 |] eqn:E0;
      [| exfalso; exact (I3 leaf Hin E0)].
    destruct (option_map_Some_inv _ _ _ _ (eq_sym (Hf _ _)) E0) as (c & Ec & Hfr).
    unfold clump_frame in Hfr. injection Hfr as A _ _ D.
    exists c. split; [exact Ec |]. split.
    + rewrite A. eapply I1. exact E0.
    + rewrite D. apply (Hleaf _ c0 E0).
  - intros d Hd. destruct (getClump H d (node_id (node leaf))) as [c |] eqn:Ec;
      [| reflexivity].
    destruct (frame_Some _ _ c (Hf _ _) Ec) as (c0 & E0 & _).
    destruct (Hleaf d c0 E0). contradiction.
Qed.

(** X7. After the conversion every leaf of the run has its clump at the
    depth that is the number of its ancestors, and at no other depth; the
    clump is that of the node of the leaf, and its longest leaf length is
    the total stem length of the leaf. *)
Theorem leaf_clump_indexed (na : NodeAllocation) (H : hierarchyLevels)
    (pos : jsmap Position.t) (leaf : LayoutNode) :
  NoDup (nodeIds (leaves na)) ->
  (forall l, In l (mvalues (leaves na)) ->
             mget (node_id (node l)) (midPoints na) = None) ->
  convertHierarchy na = Ok (H, pos) ->
  In leaf (mvalues (leaves na)) ->
  (exists c,
      getClump H (leafDepth leaf) (node_id (node leaf)) = Some c
      /\ clump_node c = node_id (node leaf)
      /\ longestLeafLength c = leafLength leaf)
  /\ forall d, d <> leafDepth leaf -> getClump H d (node_id (node leaf)) = None.
Proof. apply leaf_clump_at_depth. Qed.

(** X8. When no leaf of the run has a negative total stem length, the
    longest leaf length of the clump of a midpoint is the greatest total
    stem length among the leaves of the run that have the midpoint at the
    depth of the clump among their ancestors, and one of them has it. *)
Theorem midpoint_clump_longest (na : NodeAllocation) (H : hierarchyLevels)
    (pos : jsmap Position.t) (d k : nat) (c : Clump) :
  (forall l, In l (mvalues (leaves na)) ->
             mget (node_id (node l)) (midPoints na) = None) ->
  (forall l, In l (mvalues (leaves na)) -> 0 <= leafLength l) ->
  convertHierarchy na = Ok (H, pos) ->
  getClump H d k = Some c ->
  mget k (midPoints na) <> None ->
  (exists l, In l (mvalues (leaves na)) /\ under d k l
             /\ leafLength l = longestLeafLength c)
  /\ forall l, In l (mvalues (leaves na)) -> under d k l ->
               leafLength l <= longestLeafLength c.
Proof.
  intros Hmid Hlen Hrun Ec Hk.
  destruct (convertHierarchy_inv na H pos Hrun) as (H0 & Hindex & _ & Hf).
  unfold indexClumps in Hindex.
  destruct (longest_of_loop na _ [] [] H0 Hmid Hlen (longest_of_nil na) Hindex)
    as (L1 & _).
  simpl in L1.
  destruct (frame_Some _ _ c (Hf _ _) Ec) as (c0 & E0 & _ & _ & _ & El).
  destruct (L1 d k c0 E0 Hk) as (Hr & Hmax). rewrite <- El. split.
  - exact Hr.
  - intros l Hin Hu. apply Hmax. exists l. auto.
Qed.

(** ** The assignment of units, level by level *)

Lemma mget_updClump_other (H : hierarchyLevels) (d k : nat) (f : Clump -> Clump)
    (d' : nat) :
  d' <> d -> mget d' (updClump H d k f) = mget d' H.
Proof.
  intros Hne. unfold updClump. destruct (getClump H d k); [| reflexivity].
  rewrite mget_setClump. destruct (mget d H); [| reflexivity].
  apply Nat.eqb_neq in Hne. rewrite Hne. reflexivity.
Qed.

Lemma map_mset_image {V W : Type} (g : nat * V -> W) (k : nat) (v v0 : V)
    (m : jsmap V) :
  mget k m = Some v0 -> g (k, v) = g (k, v0) -> map g (mset k v m) = map g m.
Proof.
  intros Hget Hg. induction m as [| [k' v'] m IH]; simpl in *; [discriminate |].
  destruct (Nat.eqb k k') eqn:E.
  - apply Nat.eqb_eq in E. subst k'. inversion Hget; subst v'. simpl.
    rewrite Hg. reflexivity.
  - simpl. rewrite IH by exact Hget. reflexivity.
Qed.

Lemma level_updClump_setUnits (H : hierarchyLevels) (d k : nat) (u : R) (d' : nat) :
  option_map level_frame (mget d' (updClump H d k (setUnits u)))
  = option_map level_frame (mget d' H)
  /\ option_map longestLeafLengthSum (mget d' (updClump H d k (setUnits u)))
     = option_map longestLeafLengthSum (mget d' H).
Proof.
  unfold updClump. destruct (getClump H d k) as [c |] eqn:Ec; [| auto].
  rewrite mget_setClump. unfold getClump in Ec.
  destruct (mget d H) as [lvl |] eqn:El; [| discriminate].
  destruct (Nat.eqb d' d) eqn:Ed; [| auto].
  apply Nat.eqb_eq in Ed. subst d'. rewrite El. simpl. split; [| reflexivity].
  unfold level_frame. simpl. f_equal. f_equal.
  apply (map_mset_image _ k (setUnits u c) c); [exact Ec | reflexivity].
Qed.

Lemma sumLongest_same (cl cl' : jsmap Clump) :
  map (fun kc => (fst kc, clump_frame (snd kc))) cl'
  = map (fun kc => (fst kc, clump_frame (snd kc))) cl ->
  sumLongestLeafLengths (mvalues cl') = sumLongestLeafLengths (mvalues cl).
Proof.
  unfold sumLongestLeafLengths. generalize 0.
  revert cl'. induction cl as [| [k c] cl IH]; intros cl' a E.
  - destruct cl'; [reflexivity | discriminate].
  - destruct cl' as [| [k' c'] cl']; [discriminate |].
    cbn [map fst snd] in E.
    assert (Hrest : map (fun kc => (fst kc, clump_frame (snd kc))) cl'
                    = map (fun kc => (fst kc, clump_frame (snd kc))) cl)
      by congruence.
    assert (Hl : longestLeafLength c' = longestLeafLength c)
      by (unfold clump_frame in E; congruence).
    cbn [mvalues map snd fold_left]. rewrite Hl.
    apply IH. exact Hrest.
Qed.

(** The turns of the clumps of one level. *)
Lemma units_loop_facts (d : nat) (total : R) (L : list (nat * Clump)) :
  forall H pos H' pos',
    foldM (units_step d total) L (H, pos) = Ok (H', pos') ->
    NoDup (mkeys L) ->
    (forall k c0, In (k, c0) L ->
       clump_node c0 = k
       /\ exists c, getClump H d k = Some c /\ clump_frame c = clump_frame c0) ->
    (forall d', d' <> d -> mget d' H' = mget d' H)
    /\ (forall k, ~ In k (mkeys L) ->
          getClump H' d k = getClump H d k /\ mget k pos' = mget k pos)
    /\ (forall k c0, In (k, c0) L ->
          exists c' u p',
            getClump H' d k = Some c' /\ clump_units c' = Some u
            /\ mget k pos' = Some p' /\ Position.units p' = u
            /\ (parentClump c0 = None ->
                total <> 0 /\ u = 1 * (longestLeafLength c0 / total)))
    /\ option_map level_frame (mget d H') = option_map level_frame (mget d H)
    /\ option_map longestLeafLengthSum (mget d H')
       = option_map longestLeafLengthSum (mget d H).
Proof.
  induction L as [| [k c0] L IH]; intros H pos H' pos' Hrun Hnd Hcur.
  - simpl in Hrun. inversion Hrun; subst.
    repeat split; try reflexivity. intros k c0 [].
  - apply foldM_cons in Hrun. destruct Hrun as ([H1 pos1] & Hstep & Hrest).
    apply units_step_full in Hstep.
    destruct Hstep as (u & p & EH1 & Hp & Epos1 & Hspec).
    simpl in Hnd. apply NoDup_cons_iff in Hnd. destruct Hnd as (Hnot & Hnd).
    destruct (Hcur k c0 (or_introl eq_refl)) as (Hnode & c & Ec & Hfr).
    rewrite Hnode in Hp, Epos1.
    assert (Hcur1 : forall k' c0', In (k', c0') L ->
              clump_node c0' = k'
              /\ exists c1, getClump H1 d k' = Some c1
                            /\ clump_frame c1 = clump_frame c0').
    { intros k' c0' Hin. destruct (Hcur k' c0' (or_intror Hin)) as (Hn & c1 & Ec1 & Hf1).
      split; [exact Hn |].
      destruct (option_map_Some_inv _ _ _ _
                  (eq_sym (frame_updClump_setUnits H d k u d k')) Ec1)
        as (c2 & Ec2 & Hf2).
      exists c2. rewrite EH1. split; [exact Ec2 | congruence]. }
    destruct (IH _ _ _ _ Hrest Hnd Hcur1) as (A & B & C & D1 & D2).
    split; [| split; [| split; [| split]]].
    + intros d' Hd'. rewrite (A d' Hd'), EH1. apply mget_updClump_other. exact Hd'.
    + intros k' Hk'. simpl in Hk'.
      assert (Hne : k' <> k) by (intros ->; apply Hk'; left; reflexivity).
      destruct (B k' ltac:(tauto)) as (B1 & B2). rewrite B1, B2, EH1, Epos1. split.
      * rewrite getClump_updClump.
        replace (Nat.eqb k' k) with false by (symmetry; apply Nat.eqb_neq; exact Hne).
        rewrite andb_false_r. reflexivity.
      * apply mget_mset_other. exact Hne.
    + intros k' c0' [E | Hin].
      * inversion E; subst k' c0'. clear E.
        destruct (B k Hnot) as (B1 & B2).
        exists (setUnits u c), u, (Position.set_units u p).
        rewrite B1, B2, EH1, Epos1, getClump_updClump, !Nat.eqb_refl, Ec.
        rewrite mget_mset_same. simpl.
        do 4 (split; [reflexivity |]).
        intros Hpar. rewrite Hpar in Hspec. exact Hspec.
      * apply (C k' c0' Hin).
    + rewrite D1, EH1. apply level_updClump_setUnits.
    + rewrite D2, EH1. apply level_updClump_setUnits.
Qed.

Lemma getClump_same_level (H H' : hierarchyLevels) (d k : nat) :
  mget d H' = mget d H -> getClump H' d k = getClump H d k.
Proof. unfold getClump. intros ->. reflexivity. Qed.

Lemma nodes_are_keys_frame (H H' : hierarchyLevels) :
  (forall d k, option_map clump_frame (getClump H' d k)
               = option_map clump_frame (getClump H d k)) ->
  nodes_are_keys H -> nodes_are_keys H'.
Proof.
  intros Hf Hn d k c' Ec'.
  destruct (frame_Some _ _ c' (Hf d k) Ec') as (c & Ec & En & _).
  rewrite <- En. eapply Hn. exact Ec.
Qed.

Lemma frame_None (o o' : option Clump) :
  option_map clump_frame o' = option_map clump_frame o -> o = None -> o' = None.
Proof. intros E ->. destruct o'; [discriminate | reflexivity]. Qed.

(** The turn of one level. *)
Lemma level_step_facts (d : nat) (H H' : hierarchyLevels)
    (pos pos' : jsmap Position.t) :
  level_step (H, pos) d = Ok (H', pos') ->
  store_wf H -> nodes_are_keys H ->
  (forall d', d' <> d -> mget d' H' = mget d' H)
  /\ (forall k, getClump H d k = None -> mget k pos' = mget k pos)
  /\ exists lvl lvl' S,
       mget d H = Some lvl /\ mget d H' = Some lvl'
       /\ level_frame lvl' = level_frame lvl
       /\ longestLeafLengthSum lvl' = Some S
       /\ S = sumLongestLeafLengths (mvalues (clumps lvl'))
       /\ forall k c, getClump H d k = Some c ->
            exists c' u p',
              getClump H' d k = Some c' /\ clump_units c' = Some u
              /\ mget k pos' = Some p' /\ Position.units p' = u
              /\ (parentClump c = None ->
                  S <> 0 /\ u = 1 * (longestLeafLength c / S)).
Proof.
  unfold level_step. intros Hrun Hwf Hnodes.
  apply bind_Ok in Hrun. destruct Hrun as (lvl & Hlvl & Hrun).
  apply deref_Ok in Hlvl.
  set (total := sumLongestLeafLengths (mvalues (clumps lvl))) in *.
  set (H0 := mset d (mkLevel (level_depth lvl) (clumps lvl) (Some total)) H) in *.
  assert (Hnd : NoDup (mkeys (clumps lvl))).
  { destruct Hwf as (_ & Hl). eapply Hl; exact Hlvl. }
  assert (Hentry : forall k c0, In (k, c0) (clumps lvl) -> getClump H d k = Some c0).
  { intros k c0 Hin. unfold getClump. rewrite Hlvl. apply In_mget; assumption. }
  assert (Hcur : forall k c0, In (k, c0) (clumps lvl) ->
            clump_node c0 = k
            /\ exists c, getClump H0 d k = Some c /\ clump_frame c = clump_frame c0).
  { intros k c0 Hin. split; [eapply Hnodes; apply Hentry; exact Hin |].
    exists c0. split; [| reflexivity].
    unfold H0. rewrite getClump_set_sum by exact Hlvl. apply Hentry. exact Hin. }
  destruct (units_loop_facts d total (clumps lvl) _ _ _ _ Hrun Hnd Hcur)
    as (A & B & C & D1 & D2).
  split; [| split].
  - intros d' Hd'. rewrite (A d' Hd'). unfold H0. apply mget_mset_other. exact Hd'.
  - intros k Ek. apply B. apply mget_None_keys.
    unfold getClump in Ek. rewrite Hlvl in Ek. exact Ek.
  - unfold H0 in D1, D2. rewrite mget_mset_same in D1, D2. simpl in D1, D2.
    destruct (mget d H') as [lvl' |] eqn:El'; [| discriminate].
    simpl in D1, D2. injection D2 as D2.
    assert (Hfr : level_frame lvl' = level_frame lvl).
    { unfold level_frame in *. simpl in D1. congruence. }
    exists lvl, lvl', total.
    split; [exact Hlvl |]. split; [reflexivity |]. split; [exact Hfr |].
    split; [exact D2 |]. split.
    + unfold total. symmetry. apply sumLongest_same.
      unfold level_frame in Hfr. congruence.
    + intros k c Ec. apply (C k c). apply mget_Some_In.
      unfold getClump in Ec. rewrite Hlvl in Ec. exact Ec.
Qed.

Lemma level_step_keeps (d : nat) (H H' : hierarchyLevels)
    (pos pos' : jsmap Position.t) :
  level_step (H, pos) d = Ok (H', pos') ->
  store_wf H -> nodes_are_keys H ->
  store_wf H' /\ nodes_are_keys H'.
Proof.
  intros Hrun Hwf Hn. split.
  - apply (level_step_Ok _ _ _ _ _ Hrun Hwf).
  - apply (nodes_are_keys_frame H); [| exact Hn].
    apply (level_step_frame _ _ _ _ _ Hrun).
Qed.

(** The turns of the levels from [start] on. *)
Lemma levels_loop_facts (len : nat) :
  forall start H pos H' pos',
    foldM level_step (seq start len) (H, pos) = Ok (H', pos') ->
    store_wf H -> nodes_are_keys H ->
    (forall d', (d' < start \/ start + len <= d')%nat -> mget d' H' = mget d' H)
    /\ (forall k, (forall d, (start <= d < start + len)%nat -> getClump H d k = None) ->
                  mget k pos' = mget k pos)
    /\ (forall d k c,
          (start <= d < start + len)%nat -> getClump H d k = Some c ->
          exists lvl' S c' u,
            mget d H' = Some lvl' /\ longestLeafLengthSum lvl' = Some S
            /\ S = sumLongestLeafLengths (mvalues (clumps lvl'))
            /\ getClump H' d k = Some c' /\ clump_units c' = Some u
            /\ (parentClump c = None ->
                S <> 0 /\ u = 1 * (longestLeafLength c / S))
            /\ ((forall d', (d < d' < start + len)%nat -> getClump H d' k = None) ->
                exists p', mget k pos' = Some p' /\ Position.units p' = u)).
Proof.
  induction len as [| len IH]; intros start H pos H' pos' Hrun Hwf Hn.
  - simpl in Hrun. inversion Hrun; subst.
    split; [reflexivity |]. split; [reflexivity |]. intros d k c Hd. lia.
  - simpl in Hrun. apply bind_Ok in Hrun. destruct Hrun as ([H1 pos1] & Hstep & Hrest).
    destruct (level_step_keeps _ _ _ _ _ Hstep Hwf Hn) as (Hwf1 & Hn1).
    destruct (level_step_facts _ _ _ _ _ Hstep Hwf Hn)
      as (A1 & B1 & lvl & lvl1 & S & El & El1 & _ & Hsum & HS & C1).
    destruct (IH _ _ _ _ _ Hrest Hwf1 Hn1) as (A & B & C).
    assert (Hsame : forall d k, d <> start -> getClump H1 d k = getClump H d k).
    { intros d k Hd. apply getClump_same_level. apply A1. exact Hd. }
    split; [| split].
    + intros d' Hd'. rewrite A by lia. apply A1. lia.
    + intros k Hk. rewrite B.
      * apply B1. apply Hk. lia.
      * intros d Hd. rewrite Hsame by lia. apply Hk. lia.
    + intros d k c Hd Ec. destruct (Nat.eq_dec d start) as [-> | Hne].
      * destruct (C1 k c Ec) as (c1 & u & p1 & Ec1 & Hu & Hp1 & Hup & Htop).
        assert (Ekeep : mget start H' = mget start H1) by (apply A; lia).
        exists lvl1, S, c1, u.
        split; [rewrite Ekeep; exact El1 |]. split; [exact Hsum |].
        split; [exact HS |].
        split; [rewrite (getClump_same_level _ _ _ _ Ekeep); exact Ec1 |].
        split; [exact Hu |]. split; [exact Htop |].
        intros Hlater. exists p1. split; [| exact Hup].
        rewrite B; [exact Hp1 |].
        intros d' Hd'. rewrite Hsame by lia. apply Hlater. lia.
      * rewrite <- Hsame in Ec by exact Hne.
        destruct (C d k c ltac:(lia) Ec)
          as (lvl' & S' & c' & u & E1 & E2 & E3 & E4 & E5 & E6 & E7).
        exists lvl', S', c', u. repeat (split; [assumption |]).
        intros Hlater. apply E7. intros d' Hd'. rewrite Hsame by lia.
        apply Hlater. lia.
Qed.

(** *** The store that indexing builds *)

Lemma store_wf_ancestor_step (na : NodeAllocation) (len : R)
    (H : hierarchyLevels) (d a : nat) :
  store_wf H -> store_wf (ancestor_step na len H d a).
Proof.
  intros Hwf. unfold ancestor_step.
  pose proof (store_wf_ensureLevel H d Hwf) as Hwf1.
  destruct (mget a (midPoints na)); [| exact Hwf1].
  destruct (getClump (ensureLevel d H) d a) as [c |].
  - destruct (Reqb (longestLeafLength c) 0 || Rltb (longestLeafLength c) len);
      [apply store_wf_setClump |]; exact Hwf1.
  - apply store_wf_insertClump. exact Hwf1.
Qed.

Lemma store_wf_ancestors_loop (na : NodeAllocation) (len : R)
    (ancestors : list nat) :
  forall H d, store_wf H -> store_wf (ancestors_loop na len H d ancestors).
Proof.
  induction ancestors as [| a rest IH]; intros H d Hwf; simpl; [exact Hwf |].
  apply IH, store_wf_ancestor_step. exact Hwf.
Qed.

Lemma store_wf_leaves_loop (na : NodeAllocation) (ls : list LayoutNode) :
  forall H H', store_wf H -> foldM (leaf_step na) ls H = Ok H' -> store_wf H'.
Proof.
  induction ls as [| l ls IH]; intros H H' Hwf Hrun.
  - simpl in Hrun. inversion Hrun; subst. exact Hwf.
  - apply foldM_cons in Hrun. destruct Hrun as (H1 & Hstep & Hrest).
    apply (IH H1 H'); [| exact Hrest].
    unfold leaf_step in Hstep. apply bind_Ok in Hstep.
    destruct Hstep as (lvl & _ & Hstep). inversion Hstep; subst H1.
    apply store_wf_insertClump, store_wf_ensureLevel, store_wf_ancestors_loop.
    exact Hwf.
Qed.

(** What indexing guarantees of the store, whatever the run. *)
Lemma indexClumps_store (na : NodeAllocation) (H0 : hierarchyLevels) :
  indexClumps na = Ok H0 ->
  store_wf H0 /\ levels_in_order H0
  /\ leaf_clumps na (mvalues (leaves na)) H0.
Proof.
  intros Hindex. unfold indexClumps in Hindex. split; [| split].
  - apply (store_wf_leaves_loop na _ [] H0 store_wf_nil Hindex).
  - destruct (leaves_loop_in_order na (mvalues (leaves na)) [] levels_in_order_nil)
      as (H' & E & Hin).
    rewrite E in Hindex. inversion Hindex; subst. exact Hin.
  - apply (leaf_clumps_loop na _ [] [] H0 (leaf_clumps_nil na) Hindex).
Qed.

(** The conversion as a whole: what every clump and its level hold at the
    end, and where the units of a node that has a clump at one depth only
    have been written. *)
Lemma conversion_facts (na : NodeAllocation) (H : hierarchyLevels)
    (pos : jsmap Position.t) (d k : nat) (c : Clump) :
  convertHierarchy na = Ok (H, pos) ->
  getClump H d k = Some c ->
  exists lvl S u,
    mget d H = Some lvl /\ longestLeafLengthSum lvl = Some S
    /\ S = sumLongestLeafLengths (mvalues (clumps lvl))
    /\ clump_units c = Some u
    /\ (parentClump c = None -> S <> 0 /\ u = longestLeafLength c / S)
    /\ (d = 0%nat -> parentClump c = None)
    /\ ((forall d', (d < d')%nat -> getClump H d' k = None) ->
        exists p, mget k pos = Some p /\ Position.units p = u).
Proof.
  intros Hrun Ec.
  destruct (convertHierarchy_inv na H pos Hrun) as (H0 & Hindex & Hassign & Hf).
  destruct (indexClumps_store na H0 Hindex) as (Hwf0 & Hord0 & (I1 & _ & _ & I4)).
  destruct (frame_Some _ _ c (Hf d k) Ec) as (c0 & E0 & _ & Hpar & _ & Hlen).
  assert (Hd : (d < List.length H0)%nat).
  { apply (levels_in_order_present H0 d Hord0). eapply getClump_level. exact E0. }
  unfold assignUnits in Hassign.
  destruct (levels_loop_facts _ _ _ _ _ _ Hassign Hwf0 I1) as (_ & _ & C).
  destruct (C d k c0 ltac:(lia) E0)
    as (lvl & S & c' & u & E1 & E2 & E3 & E4 & E5 & E6 & E7).
  rewrite Ec in E4. inversion E4; subst c'.
  exists lvl, S, u. repeat (split; [assumption |]). split; [| split].
  - intros Hp. rewrite <- Hpar in Hp. destruct (E6 Hp) as (HS & Hu).
    split; [exact HS |]. rewrite Hu, <- Hlen. lra.
  - intros ->. rewrite <- Hpar. eapply I4. exact E0.
  - intros Hlater. apply E7. intros d' Hd'.
    destruct (getClump H0 d' k) as [c1 |] eqn:E1'; [| reflexivity].
    exfalso.
    assert (Hnone : getClump H d' k = None) by (apply Hlater; lia).
    pose proof (Hf d' k) as Hfd. rewrite Hnone, E1' in Hfd. discriminate.
Qed.

Lemma conversion_store_wf (na : NodeAllocation) (H : hierarchyLevels)
    (pos : jsmap Position.t) :
  convertHierarchy na = Ok (H, pos) -> store_wf H.
Proof.
  intros Hrun.
  destruct (convertHierarchy_inv na H pos Hrun) as (H0 & Hindex & Hassign & _).
  destruct (indexClumps_store na H0 Hindex) as (Hwf0 & _).
  unfold assignUnits in Hassign.
  apply (levels_loop _ _ _ _ _ _ Hassign Hwf0). intros d k Hd. lia.
Qed.

(** X9. A clump without a parent clump takes its share of the whole
    space among all the clumps of its level: after the conversion its
    units are its longest leaf length over the sum of the longest leaf
    lengths of the clumps of the level, which the level holds and which
    is not zero. *)
Theorem parentless_share (na : NodeAllocation) (H : hierarchyLevels)
    (pos : jsmap Position.t) (d k : nat) (c : Clump) :
  convertHierarchy na = Ok (H, pos) ->
  getClump H d k = Some c ->
  parentClump c = None ->
  exists lvl S,
    mget d H = Some lvl
    /\ longestLeafLengthSum lvl = Some S
    /\ S = sumLongestLeafLengths (mvalues (clumps lvl))
    /\ S <> 0
    /\ clump_units c = Some (longestLeafLength c / S).
Proof.
  intros Hrun Ec Hpar.
  destruct (conversion_facts na H pos d k c Hrun Ec)
    as (lvl & S & u & E1 & E2 & E3 & E4 & E5 & _).
  destruct (E5 Hpar) as (HS & Hu).
  exists lvl, S. repeat (split; [assumption |]). rewrite E4, Hu. reflexivity.
Qed.

Lemma sum_keys_values {V : Type} (f : nat -> R) (g : V -> R) (m : jsmap V) :
  (forall k v, In (k, v) m -> f k = g v) ->
  forall a, fold_left (fun t k => t + f k) (mkeys m) a
            = fold_left (fun t v => t + g v) (mvalues m) a.
Proof.
  induction m as [| [k v] m IH]; intros Hfg a; simpl; [reflexivity |].
  rewrite (Hfg k v) by (left; reflexivity).
  apply IH. intros k' v' Hin. apply Hfg. right. exact Hin.
Qed.

(** The units of the clumps of the top level, summed in the order of the
    level. *)
Lemma top_level_sum (na : NodeAllocation) (H : hierarchyLevels)
    (pos : jsmap Position.t) (lvl : HierarchyLevel) :
  convertHierarchy na = Ok (H, pos) ->
  mget 0 H = Some lvl ->
  clumps lvl <> [] ->
  sumSiblingUnits H 0 (mkeys (clumps lvl)) = 1.
Proof.
  intros Hrun Hlvl Hne.
  pose proof (conversion_store_wf na H pos Hrun) as (_ & Hl).
  pose proof (Hl 0%nat lvl Hlvl) as Hnd.
  set (S := sumLongestLeafLengths (mvalues (clumps lvl))).
  assert (Hentry : forall k c, In (k, c) (clumps lvl) ->
            S <> 0 /\ clumpUnitsAt H 0 k = / S * longestLeafLength c).
  { intros k c Hin.
    assert (Ec : getClump H 0 k = Some c).
    { unfold getClump. rewrite Hlvl. apply In_mget; assumption. }
    destruct (conversion_facts na H pos 0 k c Hrun Ec)
      as (lvl' & S' & u & E1 & _ & E3 & E4 & E5 & E6 & _).
    rewrite Hlvl in E1. inversion E1; subst lvl'. fold S in E3. subst S'.
    destruct (E5 (E6 eq_refl)) as (HS & Hu).
    split; [exact HS |]. unfold clumpUnitsAt. rewrite Ec, E4, Hu.
    unfold Rdiv. ring. }
  assert (HS : S <> 0).
  { destruct (clumps lvl) as [| [k c] rest] eqn:Ecl; [congruence |].
    apply (Hentry k c). left. reflexivity. }
  unfold sumSiblingUnits.
  rewrite (sum_keys_values (clumpUnitsAt H 0)
             (fun c => / S * longestLeafLength c) (clumps lvl)).
  - replace 0 with (/ S * 0) at 1 by ring.
    rewrite (fold_left_scale (fun c => / S * longestLeafLength c)
               longestLeafLength (/ S)) by reflexivity.
    fold (sumLongestLeafLengths (mvalues (clumps lvl))). fold S.
    field. exact HS.
  - intros k c Hin. apply (Hentry k c Hin).
Qed.

(** X10. After the conversion the units of the clumps of depth 0 sum to
    1: the top level shares the whole space. *)
Theorem top_level_units_sum_to_one (na : NodeAllocation) (H : hierarchyLevels)
    (pos : jsmap Position.t) (lvl : HierarchyLevel) :
  convertHierarchy na = Ok (H, pos) ->
  mget 0 H = Some lvl ->
  clumps lvl <> [] ->
  sumSiblingUnits H 0 (mkeys (clumps lvl)) = 1.
Proof. apply top_level_sum. Qed.

(** X11. The conversion writes the units of every leaf of the run to its
    position record: they are the units of the clump of the leaf. *)
Theorem leaf_position_units (na : NodeAllocation) (H : hierarchyLevels)
    (pos : jsmap Position.t) (leaf : LayoutNode) :
  NoDup (nodeIds (leaves na)) ->
  (forall l, In l (mvalues (leaves na)) ->
             mget (node_id (node l)) (midPoints na) = None) ->
  convertHierarchy na = Ok (H, pos) ->
  In leaf (mvalues (leaves na)) ->
  exists c u p,
    getClump H (leafDepth leaf) (node_id (node leaf)) = Some c
    /\ clump_units c = Some u
    /\ mget (node_id (node leaf)) pos = Some p
    /\ Position.units p = u.
Proof.
  intros Hnd Hmid Hrun Hin.
  destruct (leaf_clump_at_depth na H pos leaf Hnd Hmid Hrun Hin)
    as ((c & Ec & _) & Honly).
  destruct (conversion_facts na H pos _ _ c Hrun Ec)
    as (lvl & S & u & _ & _ & _ & E4 & _ & _ & E7).
  destruct E7 as (p & Hp & Hu).
  { intros d' Hd'. apply Honly. lia. }
  exists c, u, p. auto.
Qed.

(** ** Sample runs of the further properties *)

Lemma two_levels_indexed : indexClumps TwoLevels.allocation = Ok two_levels_index.
Proof.
  unfold indexClumps. run.
  unfold two_levels_index, addChild, newClump. cbn. same_numbers.
Qed.

Lemma two_levels_leaf_ids : NoDup (nodeIds (leaves TwoLevels.allocation)).
Proof. cbn. repeat constructor; simpl; intuition discriminate. Qed.

Lemma two_levels_leaves_apart :
  forall l, In l (mvalues (leaves TwoLevels.allocation)) ->
            mget (node_id (node l)) (midPoints TwoLevels.allocation) = None.
Proof. cbn. intros l [<- | [<- | [<- | []]]]; reflexivity. Qed.

Lemma two_levels_lengths :
  forall l, In l (mvalues (leaves TwoLevels.allocation)) -> 0 <= leafLength l.
Proof. cbn. intros l [<- | [<- | [<- | []]]]; unfold leafLength; simpl; lra. Qed.

Lemma constructor_categories_witness :
  NoDup (nodeIds ThreeLeaves.layoutNodes)
  /\ leaves ThreeLeaves.allocation
     = byId (fun ln => ln)
         (filter (fun ln => negb (hasChildren ln)) (mvalues ThreeLeaves.layoutNodes))
  /\ midPoints ThreeLeaves.allocation
     = byId (fun ln => ln) (filter hasChildren (mvalues ThreeLeaves.layoutNodes)).
Proof.
  assert (Hids : NoDup (nodeIds ThreeLeaves.layoutNodes)).
  { cbn. repeat constructor; simpl; intuition discriminate. }
  split; [exact Hids |].
  destruct (constructor_categories (LC := euclid) _ _ _ _ Hids
              three_leaves_constructed) as (_ & _ & _ & D & E).
  split; [exact D | exact E].
Defined.

Lemma constructor_roots_witness :
  NoDup (nodeIds TwoLevels.layoutNodes)
  /\ mvalues (roots TwoLevels.allocation)
     = filter (isRoot (midPoints TwoLevels.allocation))
              (mvalues (midPoints TwoLevels.allocation)).
Proof.
  assert (Hids : NoDup (nodeIds TwoLevels.layoutNodes)).
  { cbn. repeat constructor; simpl; intuition discriminate. }
  split; [exact Hids |].
  exact (proj1 (constructor_roots (LC := euclid) _ _ _ _ Hids
                  two_levels_constructed)).
Defined.

Lemma segments_end_to_end_witness :
  firstOnce [ThreeLeaves.lhs; ThreeLeaves.bot; ThreeLeaves.rhs]
  /\ exists segs total,
    initializeSegments (LC := euclid)
      [ThreeLeaves.lhs; ThreeLeaves.bot; ThreeLeaves.rhs] = Ok (segs, total)
    /\ map seg_line segs = [ThreeLeaves.lhs; ThreeLeaves.bot; ThreeLeaves.rhs]
    /\ map seg_label segs
       = map label [ThreeLeaves.lhs; ThreeLeaves.bot; ThreeLeaves.rhs]
    /\ (forall s, In s segs ->
          seg_blocks s = []
          /\ seg_end s = seg_begin s + @line_length euclid (seg_line s))
    /\ (forall s rest, segs = s :: rest -> seg_begin s = 0)
    /\ (forall pre s1 s2 post, segs = pre ++ s1 :: s2 :: post ->
          seg_begin s2 = seg_end s1)
    /\ total = 200
    /\ (forall pre s, segs = pre ++ [s] -> seg_end s = total).
Proof.
  assert (Hfirst : firstOnce [ThreeLeaves.lhs; ThreeLeaves.bot; ThreeLeaves.rhs]).
  { cbn. intros [E | [E | []]]; discriminate E. }
  split; [exact Hfirst |].
  destruct (segments_end_to_end (LC := euclid)
              [ThreeLeaves.lhs; ThreeLeaves.bot; ThreeLeaves.rhs] Hfirst)
    as (segs & total & E & L & B & F & Z & C & T & Last & _).
  exists segs, total. repeat (split; [assumption |]).
  split; [| exact Last].
  rewrite three_sided_segments in E. congruence.
Defined.

Lemma levels_in_depth_order_witness :
  mkeys two_levels_index = seq 0 (List.length two_levels_index).
Proof.
  exact (proj1 (levels_in_depth_order TwoLevels.allocation two_levels_index
                  two_levels_indexed)).
Defined.

Lemma clumps_of_the_run_witness :
  getClump TwoLevels.hierarchy 1 2 <> None
  <-> exists l, In l (mvalues (leaves TwoLevels.allocation))
        /\ ((under 1 2 l /\ mget 2 (midPoints TwoLevels.allocation) <> None)
            \/ (1%nat = leafDepth l /\ 2%nat = node_id (node l))).
Proof.
  exact (clumps_of_the_run TwoLevels.allocation TwoLevels.hierarchy
           TwoLevels.unitPositions 1 2 two_levels_converted).
Defined.

Lemma leaf_clump_indexed_witness :
  In TwoLevels.n4 (mvalues (leaves TwoLevels.allocation))
  /\ exists c,
       getClump TwoLevels.hierarchy (leafDepth TwoLevels.n4) 4 = Some c
       /\ clump_node c = 4%nat
       /\ longestLeafLength c = leafLength TwoLevels.n4.
Proof.
  assert (Hin : In TwoLevels.n4 (mvalues (leaves TwoLevels.allocation))).
  { cbn. right. left. reflexivity. }
  split; [exact Hin |].
  exact (proj1 (leaf_clump_indexed TwoLevels.allocation TwoLevels.hierarchy
                  TwoLevels.unitPositions TwoLevels.n4 two_levels_leaf_ids
                  two_levels_leaves_apart two_levels_converted Hin)).
Defined.

Lemma midpoint_clump_longest_witness :
  let c := mkClump 1 None [3; 2]%nat 60 (Some 1) in
  getClump TwoLevels.hierarchy 0 1 = Some c
  /\ mget 1 (midPoints TwoLevels.allocation) <> None
  /\ forall l, In l (mvalues (leaves TwoLevels.allocation)) -> under 0 1 l ->
               leafLength l <= longestLeafLength c.
Proof.
  intros c.
  assert (Ec : getClump TwoLevels.hierarchy 0 1 = Some c) by reflexivity.
  assert (Hk : mget 1 (midPoints TwoLevels.allocation) <> None) by (cbn; discriminate).
  split; [exact Ec |]. split; [exact Hk |].
  exact (proj2 (midpoint_clump_longest TwoLevels.allocation TwoLevels.hierarchy
                  TwoLevels.unitPositions 0 1 c two_levels_leaves_apart
                  two_levels_lengths two_levels_converted Ec Hk)).
Defined.

Lemma parentless_share_witness :
  let c := mkClump 1 None [3; 2]%nat 60 (Some 1) in
  getClump TwoLevels.hierarchy 0 1 = Some c
  /\ exists lvl S,
       mget 0 TwoLevels.hierarchy = Some lvl
       /\ longestLeafLengthSum lvl = Some S
       /\ S = sumLongestLeafLengths (mvalues (clumps lvl))
       /\ S <> 0
       /\ clump_units c = Some (longestLeafLength c / S).
Proof.
  intros c.
  assert (Ec : getClump TwoLevels.hierarchy 0 1 = Some c) by reflexivity.
  split; [exact Ec |].
  exact (parentless_share TwoLevels.allocation TwoLevels.hierarchy
           TwoLevels.unitPositions 0 1 c two_levels_converted Ec eq_refl).
Defined.

Lemma top_level_units_sum_to_one_witness :
  sumSiblingUnits TwoLevels.hierarchy 0 [1%nat] = 1.
Proof.
  apply (top_level_units_sum_to_one TwoLevels.allocation TwoLevels.hierarchy
           TwoLevels.unitPositions
           (mkLevel 0 [(1%nat, mkClump 1 None [3; 2]%nat 60 (Some 1))] (Some 60))
           two_levels_converted eq_refl).
  discriminate.
Defined.

Lemma leaf_position_units_witness :
  In TwoLevels.n4 (mvalues (leaves TwoLevels.allocation))
  /\ exists c u p,
       getClump TwoLevels.hierarchy (leafDepth TwoLevels.n4) 4 = Some c
       /\ clump_units c = Some u
       /\ mget 4 TwoLevels.unitPositions = Some p
       /\ Position.units p = u.
Proof.
  assert (Hin : In TwoLevels.n4 (mvalues (leaves TwoLevels.allocation))).
  { cbn. right. left. reflexivity. }
  split; [exact Hin |].
  exact (leaf_position_units TwoLevels.allocation TwoLevels.hierarchy
           TwoLevels.unitPositions TwoLevels.n4 two_levels_leaf_ids
           two_levels_leaves_apart two_levels_converted Hin).
Defined.

(** ** The 1D walk and the blocks of the segments *)

Lemma allBlocks_app (l1 l2 : list LinearSpaceSegment) :
  allBlocks (l1 ++ l2) = allBlocks l1 ++ allBlocks l2.
Proof. unfold allBlocks. rewrite map_app, concat_app. reflexivity. Qed.

Lemma allBlocks_cons (s : LinearSpaceSegment) (l : list LinearSpaceSegment) :
  allBlocks (s :: l) = seg_blocks s ++ allBlocks l.
Proof. reflexivity. Qed.

Lemma assignBlock_allBlocks (b : SpaceBlock) (segs segs' : list LinearSpaceSegment) :
  assignBlock b segs = Some segs' ->
  Permutation (allBlocks segs') (allBlocks segs ++ [b]).
Proof.
  intros H. apply assignBlock_Some in H.
  destruct H as (l1 & s & l2 & -> & -> & _).
  rewrite !allBlocks_app, !allBlocks_cons. cbn [push_block seg_blocks].
  rewrite <- !app_assoc.
  apply Permutation_app_head. apply Permutation_app_head.
  cbn [app]. apply Permutation_cons_append.
Qed.

Lemma offsets_loop_blocks (total : R) (ls : list LayoutNode) :
  forall (cb : option SpaceBlock) (segs : list LinearSpaceSegment)
         (pos : jsmap Position.t) cb' segs' pos',
    foldM (offsets_step total) ls (cb, segs, pos) = Ok (cb', segs', pos') ->
    let begin := match cb with
                 | Some b => block_end b
                 | None => walkBegin segs
                 end in
    Permutation (allBlocks segs')
                (allBlocks segs ++ plannedBlocks total pos begin ls).
Proof.
  induction ls as [| l ls IH]; intros cb segs pos cb' segs' pos' Hrun begin.
  - simpl in Hrun. inversion Hrun; subst. simpl. rewrite app_nil_r.
    apply Permutation_refl.
  - apply foldM_cons in Hrun. destruct Hrun as ([[cb1 segs1] pos1] & Hstep & Hrest).
    apply offsets_step_Ok in Hstep. destruct Hstep as (p & Hp & Hcb1 & Hpos1 & Hassign).
    fold begin in Hcb1, Hpos1, Hassign.
    set (b := newSpaceBlock (node_id (node l)) begin (Position.units p * total)) in *.
    assert (Hb : newSpaceBlock (node_id (node l)) begin
                   (unitsOf pos (node_id (node l)) * total) = b).
    { unfold unitsOf. rewrite Hp. reflexivity. }
    assert (Hu1 : forall k, unitsOf pos1 k = unitsOf pos k).
    { subst pos1. apply unitsOf_set_offset. exact Hp. }
    subst cb1. pose proof (IH _ _ _ _ _ _ Hrest) as Hperm. cbn zeta in Hperm.
    rewrite (plannedBlocks_ext total pos pos1 ls Hu1) in Hperm.
    cbn [plannedBlocks]. rewrite Hb.
    eapply Permutation_trans; [exact Hperm |].
    eapply Permutation_trans;
      [apply Permutation_app_tail, (assignBlock_allBlocks b segs segs1 Hassign) |].
    rewrite <- app_assoc. apply Permutation_refl.
Qed.

(** X12. The walk adds one block for each leaf of the run to the
    segments, and nothing else: the blocks of the segments after the walk
    are those before it and the blocks of the walk, whose nodes are the
    leaves of the run, each once. *)
Theorem walk_places_each_leaf_once (na na' : NodeAllocation) :
  calculate1DLinearOffsets na = Ok na' ->
  let blocks := plannedBlocks (total1DSpaceAvailable na) (nodeToPosition na)
                              (walkBegin (segments na)) (arrangedLeaves na) in
  Permutation (allBlocks (segments na')) (allBlocks (segments na) ++ blocks)
  /\ Permutation (map block_node blocks) (nodeIds (leaves na)).
Proof.
  intros Hrun blocks.
  unfold calculate1DLinearOffsets in Hrun.
  apply bind_Ok in Hrun. destruct Hrun as ([[cb' segs'] pos'] & Hloop & Hrun).
  inversion Hrun; subst na'. clear Hrun. simpl. split.
  - apply (offsets_loop_blocks _ _ None _ _ _ _ _ Hloop).
  - unfold blocks. rewrite plannedBlocks_nodes. unfold nodeIds.
    apply Permutation_map. apply jsSort_perm.
Qed.

(** ** The coordinates of the leaves *)

Section LeafCoordinates.
Context {LC : LineCoordinates}.

Lemma leafCoordinates_block_Ok (s : LinearSpaceSegment) (pos pos' : jsmap Position.t)
    (b : SpaceBlock) :
  leafCoordinates_block s pos b = Ok pos' ->
  exists p vx vy,
    pointAtLength (seg_line s) (block_center b - seg_begin s) = (Finite vx, Finite vy)
    /\ mget (block_node b) pos = Some p
    /\ mget (block_node b) pos'
       = Some (Position.mk (Position.units p) (Position.offset p) vx vy)
    /\ forall k', k' <> block_node b -> mget k' pos' = mget k' pos.
Proof.
  unfold leafCoordinates_block. intros H.
  destruct (pointAtLength (seg_line s) (block_center b - seg_begin s)) as [x y].
  apply write_xy_Ok in H. destruct H as (p & vx & vy & -> & -> & Hp & Hp' & Hf).
  exists p, vx, vy. auto.
Qed.

Lemma foldM_map {A B C : Type} (f : A -> C -> result A) (g : B -> C) (l : list B) :
  forall a, foldM f (map g l) a = foldM (fun a b => f a (g b)) l a.
Proof.
  induction l as [| b l IH]; intros a; simpl; [reflexivity |].
  destruct (f a (g b)); simpl; [apply IH | reflexivity].
Qed.

Lemma leafCoordinates_flat (segs : list LinearSpaceSegment) :
  forall pos,
    foldM leafCoordinates_segment segs pos
    = foldM (fun pos sb => leafCoordinates_block (fst sb) pos (snd sb))
            (placements segs) pos.
Proof.
  set (step := fun pos sb => leafCoordinates_block (fst sb) pos (snd sb)).
  induction segs as [| s segs IH]; intros pos; [reflexivity |].
  cbn [foldM placements flat_map]. rewrite foldM_app.
  unfold leafCoordinates_segment at 1.
  assert (E : foldM step (map (pair s) (seg_blocks s)) pos
              = foldM (leafCoordinates_block s) (seg_blocks s) pos).
  { rewrite foldM_map. reflexivity. }
  rewrite E.
  destruct (foldM (leafCoordinates_block s) (seg_blocks s) pos);
    simpl; [apply IH | reflexivity].
Qed.

Lemma placements_nodes (segs : list LinearSpaceSegment) :
  map (fun sb => block_node (snd sb)) (placements segs)
  = map block_node (allBlocks segs).
Proof.
  induction segs as [| s segs IH]; [reflexivity |].
  cbn [placements flat_map]. unfold allBlocks. cbn [map concat].
  rewrite !map_app. fold (allBlocks segs). rewrite <- IH. f_equal.
  rewrite map_map. reflexivity.
Qed.

Lemma In_placements (segs : list LinearSpaceSegment) (s : LinearSpaceSegment)
    (b : SpaceBlock) :
  In s segs -> In b (seg_blocks s) -> In (s, b) (placements segs).
Proof.
  intros Hs Hb. unfold placements. apply in_flat_map. exists s.
  split; [exact Hs |]. apply in_map. exact Hb.
Qed.

(** X13. The third phase gives the node of every block the point that the
    line of the segment of the block has at the distance of the centre of
    the block from the begin of the segment, keeps the units and the
    offset of the node, and leaves the records of the nodes without a
    block as they were; under the contract of the line geometry that
    point is on the line of the segment, at that distance from its first
    end point. *)
Theorem leaf_on_segment_line (na na' : NodeAllocation) (s : LinearSpaceSegment)
    (b : SpaceBlock) :
  NoDup (map block_node (allBlocks (segments na))) ->
  calculate2DLeafCoordinates na = Ok na' ->
  In s (segments na) -> In b (seg_blocks s) ->
  let along := block_center b - seg_begin s in
  (exists p p',
      mget (block_node b) (nodeToPosition na) = Some p
      /\ mget (block_node b) (nodeToPosition na') = Some p'
      /\ Position.units p' = Position.units p
      /\ Position.offset p' = Position.offset p
      /\ pointAtLength (seg_line s) along
         = (Finite (Position.x p'), Finite (Position.y p'))
      /\ (PointAtDistance LC -> 0 <= along ->
          onRay (seg_line s) (Position.x p') (Position.y p')
          /\ distance (x1 (seg_line s)) (y1 (seg_line s))
                      (Position.x p') (Position.y p') = along))
  /\ forall k, ~ In k (map block_node (allBlocks (segments na))) ->
               mget k (nodeToPosition na') = mget k (nodeToPosition na).
Proof.
  intros Hnd Hrun Hs Hb along.
  unfold calculate2DLeafCoordinates in Hrun.
  apply bind_Ok in Hrun. destruct Hrun as (pos' & Hloop & Hrun).
  inversion Hrun; subst na'. clear Hrun. simpl.
  rewrite leafCoordinates_flat in Hloop.
  set (step := fun pos sb => leafCoordinates_block (fst sb) pos (snd sb)) in *.
  assert (Hstep_frame : forall a sb a', step a sb = Ok a' ->
            forall k, k <> block_node (snd sb) -> mget k a' = mget k a).
  { intros a sb a' Hst k Hk. unfold step in Hst.
    apply leafCoordinates_block_Ok in Hst.
    destruct Hst as (_ & _ & _ & _ & _ & _ & Hf). apply Hf. exact Hk. }
  pose proof (fun l => foldM_frame step (fun sb => block_node (snd sb)) l Hstep_frame)
    as Hframe.
  rewrite <- placements_nodes in Hnd. split.
  - destruct (foldM_split _ _ (s, b) _ _ (In_placements _ s b Hs Hb) Hloop)
      as (l1 & l2 & a1 & a2 & Hl & Hpre & Hst & Hpost).
    rewrite Hl, map_app in Hnd. cbn [map snd] in Hnd.
    apply NoDup_app_cons_not_In in Hnd. destruct Hnd as (Hl1 & Hl2).
    unfold step in Hst. cbn [fst snd] in Hst.
    apply leafCoordinates_block_Ok in Hst.
    destruct Hst as (p & vx & vy & Hpt & Hp & Hp' & _).
    exists p. eexists. split; [| split; [| split; [| split; [| split]]]].
    + rewrite <- (Hframe l1 _ _ Hpre _ Hl1). exact Hp.
    + rewrite (Hframe l2 _ _ Hpost _ Hl2). exact Hp'.
    + reflexivity.
    + reflexivity.
    + exact Hpt.
    + intros Hcontract Halong. simpl.
      apply (Hcontract (seg_line s) along vx vy Halong Hpt).
  - intros k Hk. rewrite <- placements_nodes in Hk.
    apply (Hframe _ _ _ Hloop k Hk).
Qed.

End LeafCoordinates.

(** ** What each phase writes *)

Lemma agree_on_refl {W : Type} (g : Position.t -> W) (pos : jsmap Position.t) :
  agree_on g pos pos.
Proof. split; reflexivity. Qed.

Lemma agree_on_trans {W : Type} (g : Position.t -> W)
    (pos1 pos2 pos3 : jsmap Position.t) :
  agree_on g pos1 pos2 -> agree_on g pos2 pos3 -> agree_on g pos1 pos3.
Proof.
  intros (K1 & V1) (K2 & V2). split; [congruence |].
  intros k. rewrite V2. apply V1.
Qed.

Lemma write_position_agree {W : Type} (g : Position.t -> W) (k : nat)
    (f : Position.t -> Position.t) (pos pos' : jsmap Position.t) :
  (forall p, g (f p) = g p) ->
  write_position k f pos = Ok pos' -> agree_on g pos pos'.
Proof.
  intros Hg H. apply write_position_Ok in H. destruct H as (p & Hp & ->). split.
  - eapply mkeys_mset_present. exact Hp.
  - intros k'. destruct (Nat.eq_dec k' k) as [-> | Hne].
    + rewrite mget_mset_same, Hp. simpl. rewrite Hg. reflexivity.
    + rewrite mget_mset_other by exact Hne. reflexivity.
Qed.

Lemma foldM_rel {A B : Type} (Rel : A -> A -> Prop) (f : A -> B -> result A)
    (l : list B) :
  (forall a, Rel a a) ->
  (forall a b c, Rel a b -> Rel b c -> Rel a c) ->
  (forall a b a', f a b = Ok a' -> Rel a a') ->
  forall a r, foldM f l a = Ok r -> Rel a r.
Proof.
  intros Hrefl Htrans Hstep. induction l as [| b l IH]; intros a r Hrun.
  - simpl in Hrun. inversion Hrun; subst. apply Hrefl.
  - apply foldM_cons in Hrun. destruct Hrun as (a' & Hs & Hrest).
    apply (Htrans a a' r); [apply (Hstep a b a' Hs) | apply IH; exact Hrest].
Qed.

(** The four lines that validate and store a pair of coordinates keep
    the units and the offset of every record. *)
Lemma write_xy_agree (k : nat) (x y : number) (pos pos' : jsmap Position.t) :
  (vx <- validateStat x false ;;
   pos1 <- write_position k (Position.set_x vx) pos ;;
   vy <- validateStat y false ;;
   write_position k (Position.set_y vy) pos1) = Ok pos' ->
  agree_on units_offset pos pos'.
Proof.
  intros H.
  apply bind_Ok in H. destruct H as (vx & _ & H).
  apply bind_Ok in H. destruct H as (pos1 & H1 & H).
  apply bind_Ok in H. destruct H as (vy & _ & H2).
  eapply agree_on_trans.
  - apply (write_position_agree units_offset k (Position.set_x vx) pos pos1);
      [reflexivity | exact H1].
  - apply (write_position_agree units_offset k (Position.set_y vy) pos1 pos');
      [reflexivity | exact H2].
Qed.

Lemma units_step_agree (d : nat) (total : R) (H H' : hierarchyLevels)
    (pos pos' : jsmap Position.t) (kc : nat * Clump) :
  units_step d total (H, pos) kc = Ok (H', pos') -> agree_on offset_xy pos pos'.
Proof.
  destruct kc as [k c0]. intros Hrun. apply units_step_full in Hrun.
  destruct Hrun as (u & p & _ & Hp & -> & _). split.
  - eapply mkeys_mset_present. exact Hp.
  - intros k'. destruct (Nat.eq_dec k' (clump_node c0)) as [-> | Hne].
    + rewrite mget_mset_same, Hp. reflexivity.
    + rewrite mget_mset_other by exact Hne. reflexivity.
Qed.

Lemma level_step_agree (d : nat) (st st' : hierarchyLevels * jsmap Position.t) :
  level_step st d = Ok st' -> agree_on offset_xy (snd st) (snd st').
Proof.
  destruct st as [H pos]. unfold level_step. intros Hrun.
  apply bind_Ok in Hrun. destruct Hrun as (lvl & _ & Hrun).
  apply (foldM_rel (fun a b => agree_on offset_xy (snd a) (snd b)) _ _
           (fun a => agree_on_refl _ _)
           (fun a b c => agree_on_trans _ _ _ _)
           (fun a b a' => match a, a' with
                          | (Ha, pa), (Ha', pa') => units_step_agree d _ Ha Ha' pa pa' b
                          end)
           _ _ Hrun).
Qed.

Section PhasesWrite.
Context {LC : LineCoordinates}.

(** The conversion writes units only. *)
Lemma convert_agree (na na' : NodeAllocation) :
  convertTotalStemLengthsToUnits na = Ok na' ->
  na' = with_positions na (nodeToPosition na')
  /\ agree_on offset_xy (nodeToPosition na) (nodeToPosition na').
Proof.
  unfold convertTotalStemLengthsToUnits, convertHierarchy. intros Hrun.
  apply bind_Ok in Hrun. destruct Hrun as ([H pos] & Hconv & Hrun).
  inversion Hrun; subst na'. clear Hrun. simpl. split; [reflexivity |].
  apply bind_Ok in Hconv. destruct Hconv as (H0 & _ & Hassign).
  unfold assignUnits in Hassign.
  apply (foldM_rel (fun a b => agree_on offset_xy (snd a) (snd b)) _ _
           (fun a => agree_on_refl _ _)
           (fun a b c => agree_on_trans _ _ _ _)
           (fun a b a' => level_step_agree b a a')
           _ _ Hassign).
Qed.

(** The walk writes offsets, and pushes blocks. *)
Lemma offsets_agree (na na' : NodeAllocation) :
  calculate1DLinearOffsets na = Ok na' ->
  na' = with_segments (with_positions na (nodeToPosition na')) (segments na')
  /\ agree_on units_xy (nodeToPosition na) (nodeToPosition na')
  /\ Forall2 extends (segments na) (segments na').
Proof.
  unfold calculate1DLinearOffsets. intros Hrun.
  apply bind_Ok in Hrun. destruct Hrun as ([[cb segs] pos] & Hloop & Hrun).
  inversion Hrun; subst na'. clear Hrun. simpl. split; [reflexivity |]. split.
  - apply (foldM_rel (fun a b => agree_on units_xy (snd a) (snd b)) _ _
             (fun a => agree_on_refl _ _)
             (fun a b c => agree_on_trans _ _ _ _)) with (a := (None, segments na, nodeToPosition na)) (r := (cb, segs, pos)) in Hloop;
      [exact Hloop |].
    intros [[cb0 segs0] pos0] ln [[cb1 segs1] pos1] Hstep.
    apply offsets_step_Ok in Hstep. destruct Hstep as (p & Hp & _ & -> & _).
    simpl. split.
    + eapply mkeys_mset_present. exact Hp.
    + intros k'. destruct (Nat.eq_dec k' (node_id (node ln))) as [-> | Hne].
      * rewrite mget_mset_same, Hp. reflexivity.
      * rewrite mget_mset_other by exact Hne. reflexivity.
  - apply (offsets_loop _ _ _ _ _ _ _ _ Hloop).
Qed.

Lemma leafCoordinates_agree (na na' : NodeAllocation) :
  calculate2DLeafCoordinates na = Ok na' ->
  na' = with_positions na (nodeToPosition na')
  /\ agree_on units_offset (nodeToPosition na) (nodeToPosition na').
Proof.
  unfold calculate2DLeafCoordinates. intros Hrun.
  apply bind_Ok in Hrun. destruct Hrun as (pos & Hloop & Hrun).
  inversion Hrun; subst na'. clear Hrun. simpl. split; [reflexivity |].
  apply (foldM_rel (agree_on units_offset) _ _
           (agree_on_refl _) (agree_on_trans _)) with (a := nodeToPosition na) (r := pos)
    in Hloop; [exact Hloop |].
  intros pos0 s pos1 Hseg. unfold leafCoordinates_segment in Hseg.
  apply (foldM_rel (agree_on units_offset) _ _
           (agree_on_refl _) (agree_on_trans _)) with (a := pos0) (r := pos1)
    in Hseg; [exact Hseg |].
  intros pos2 b pos3 Hb. unfold leafCoordinates_block in Hb.
  destruct (pointAtLength _ _) as [x y]. apply (write_xy_agree _ _ _ _ _ Hb).
Qed.

Lemma midpoint_step_agree (na : NodeAllocation) (mode : placementMode)
    (pos pos' : jsmap Position.t) (ln : LayoutNode) :
  midpoint_step na mode pos ln = Ok pos' -> agree_on units_offset pos pos'.
Proof.
  unfold midpoint_step. intros H.
  destruct (mget (node_parentId (node ln)) (layoutNodes na)).
  - apply bind_Ok in H. destruct H as (pl & _ & H).
    apply bind_Ok in H. destruct H as ([sx sy] & _ & H).
    apply bind_Ok in H. destruct H as (n & _ & H).
    destruct mode.
    + apply bind_Ok in H. destruct H as (pp & _ & H).
      apply bind_Ok in H. destruct H as (r1 & _ & H).
      apply bind_Ok in H. destruct H as (r2 & _ & H).
      apply bind_Ok in H. destruct H as (r3 & _ & H).
      destruct (pointAtLength _ _) as [x y]. apply (write_xy_agree _ _ _ _ _ H).
    + apply bind_Ok in H. destruct H as (pp & _ & H).
      apply (write_xy_agree _ _ _ _ _ H).
  - apply (write_xy_agree _ _ _ _ _ H).
Qed.

Lemma midpoints_agree (mode : placementMode) (na na' : NodeAllocation) :
  calculate2DMidpointCoordinates mode na = Ok na' ->
  na' = with_positions na (nodeToPosition na')
  /\ agree_on units_offset (nodeToPosition na) (nodeToPosition na').
Proof.
  unfold calculate2DMidpointCoordinates. intros Hrun.
  apply bind_Ok in Hrun. destruct Hrun as (pos & Hloop & Hrun).
  inversion Hrun; subst na'. clear Hrun. simpl. split; [reflexivity |].
  apply (foldM_rel (agree_on units_offset) _ _
           (agree_on_refl _) (agree_on_trans _)
           (fun a b a' => midpoint_step_agree na mode a a' b) _ _ Hloop).
Qed.

Lemma constrain_step_agree (na : NodeAllocation) (pos pos' : jsmap Position.t)
    (ln : LayoutNode) :
  constrain_step na pos ln = Ok pos' -> agree_on units_offset pos pos'.
Proof.
  unfold constrain_step. intros H.
  apply bind_Ok in H. destruct H as (p & _ & H).
  destruct (pointAtLength _ _) as [x y]. apply (write_xy_agree _ _ _ _ _ H).
Qed.

Lemma constrain_agree (na na' : NodeAllocation) :
  constrain2DLeafCoordinates na = Ok na' ->
  na' = with_positions na (nodeToPosition na')
  /\ agree_on units_offset (nodeToPosition na) (nodeToPosition na').
Proof.
  unfold constrain2DLeafCoordinates. intros Hrun.
  apply bind_Ok in Hrun. destruct Hrun as (pos & Hloop & Hrun).
  inversion Hrun; subst na'. clear Hrun. simpl. split; [reflexivity |].
  apply (foldM_rel (agree_on units_offset) _ _
           (agree_on_refl _) (agree_on_trans _)
           (fun a b a' => constrain_step_agree na a a' b) _ _ Hloop).
Qed.

End PhasesWrite.

Lemma agree_on_sym {W : Type} (g : Position.t -> W) (pos pos' : jsmap Position.t) :
  agree_on g pos pos' -> agree_on g pos' pos.
Proof. intros (K & V). split; [congruence | intros k; rewrite V; reflexivity]. Qed.

Section ProcessAsAWhole.
Context {LC : LineCoordinates}.

(** The phases of a run, with what each of them keeps. *)
Lemma process_chain (mode : placementMode) (na na' : NodeAllocation) :
  process mode na = Ok na' ->
  exists na1 na2 na3 na4,
    convertTotalStemLengthsToUnits na = Ok na1
    /\ calculate1DLinearOffsets na1 = Ok na2
    /\ calculate2DLeafCoordinates na2 = Ok na3
    /\ calculate2DMidpointCoordinates mode na3 = Ok na4
    /\ match mode with
       | LENGTH_CONSTRAINED => constrain2DLeafCoordinates na4 = Ok na'
       | SPIDER => na' = na4
       end
    /\ upToLeafCoordinates na = Ok na3
    /\ roots na3 = roots na /\ roots na' = roots na
    /\ segments na1 = segments na
    /\ Forall2 extends (segments na) (segments na2)
    /\ segments na3 = segments na2 /\ segments na' = segments na2
    /\ agree_on offset_xy (nodeToPosition na) (nodeToPosition na1)
    /\ agree_on units_xy (nodeToPosition na1) (nodeToPosition na2)
    /\ agree_on units_offset (nodeToPosition na2) (nodeToPosition na3)
    /\ agree_on units_offset (nodeToPosition na3) (nodeToPosition na').
Proof.
  intros Hrun.
  destruct (process_phases mode na na' Hrun)
    as (na1 & na2 & na3 & na4 & H1 & H2 & H3 & H4 & H5 & _ & _).
  exists na1, na2, na3, na4. repeat (split; [assumption |]).
  destruct (convert_agree _ _ H1) as (E1 & A1).
  destruct (offsets_agree _ _ H2) as (E2 & A2 & X2).
  destruct (leafCoordinates_agree _ _ H3) as (E3 & A3).
  destruct (midpoints_agree _ _ _ H4) as (E4 & A4).
  assert (R1 : roots na1 = roots na) by (rewrite E1; reflexivity).
  assert (R2 : roots na2 = roots na1) by (rewrite E2; reflexivity).
  assert (R3 : roots na3 = roots na2) by (rewrite E3; reflexivity).
  assert (R4 : roots na4 = roots na3) by (rewrite E4; reflexivity).
  assert (S1 : segments na1 = segments na) by (rewrite E1; reflexivity).
  assert (S3 : segments na3 = segments na2) by (rewrite E3; reflexivity).
  assert (S4 : segments na4 = segments na3) by (rewrite E4; reflexivity).
  assert (Hlast : roots na' = roots na4 /\ segments na' = segments na4
                  /\ agree_on units_offset (nodeToPosition na4) (nodeToPosition na')).
  { destruct mode.
    - destruct (constrain_agree _ _ H5) as (E5 & A5).
      split; [rewrite E5; reflexivity |]. split; [rewrite E5; reflexivity | exact A5].
    - subst na'. split; [reflexivity |]. split; [reflexivity | apply agree_on_refl]. }
  destruct Hlast as (R5 & S5 & A5).
  split.
  { unfold upToLeafCoordinates. rewrite H1. cbn [bind]. rewrite H2. cbn [bind].
    exact H3. }
  split; [congruence |]. split; [congruence |]. split; [exact S1 |].
  split; [rewrite <- S1; exact X2 |]. split; [exact S3 |]. split; [congruence |].
  split; [exact A1 |]. split; [exact A2 |]. split; [exact A3 |].
  eapply agree_on_trans; eassumption.
Qed.

(** X14. A run makes and drops no position record and moves no
    segment: the position records after it are those of the same nodes in
    the same order, and the segments after it are the segments of the
    construction one by one, each with its label, its line, its begin and
    its end, its blocks of before still first in order and the blocks of
    the run pushed after them. *)
Theorem process_keeps_records (mode : placementMode) (na na' : NodeAllocation) :
  process mode na = Ok na' ->
  mkeys (nodeToPosition na') = mkeys (nodeToPosition na)
  /\ Forall2 extends (segments na) (segments na').
Proof.
  intros Hrun.
  destruct (process_chain mode na na' Hrun)
    as (na1 & na2 & na3 & na4 & H1 & H2 & H3 & H4 & H5 & _ & _ & R & _ & X2 & _
        & S' & A1 & A2 & A3 & A4).
  split.
  - destruct A1 as (K1 & _), A2 as (K2 & _), A3 as (K3 & _), A4 as (K4 & _).
    congruence.
  - rewrite S'. exact X2.
Qed.

(** X15. The placement mode changes coordinates only: the two modes end
    a run of the same allocation with the same segments and blocks, and
    with position records of the same nodes that hold the same units and
    the same offset. *)
Theorem placement_mode_changes_coordinates_only (na a b : NodeAllocation) :
  process LENGTH_CONSTRAINED na = Ok a ->
  process SPIDER na = Ok b ->
  segments a = segments b
  /\ mkeys (nodeToPosition a) = mkeys (nodeToPosition b)
  /\ forall k, option_map units_offset (mget k (nodeToPosition a))
               = option_map units_offset (mget k (nodeToPosition b)).
Proof.
  intros Ha Hb.
  destruct (process_chain _ na a Ha)
    as (a1 & a2 & a3 & a4 & _ & _ & _ & _ & _ & Ua & _ & _ & _ & _ & Sa3 & Sa & _ & _
        & _ & Aa).
  destruct (process_chain _ na b Hb)
    as (b1 & b2 & b3 & b4 & _ & _ & _ & _ & _ & Ub & _ & _ & _ & _ & Sb3 & Sb & _ & _
        & _ & Ab).
  assert (E3 : a3 = b3) by congruence. subst b3.
  destruct (agree_on_trans _ _ _ _ (agree_on_sym _ _ _ Ab) Aa) as (K & V).
  split; [congruence |]. split; [exact K | exact V].
Qed.

(** X16. In spider mode the fourth phase is the last, and it writes the
    records of the midpoints only: every node that is not a midpoint of
    the run, so every leaf, ends the run with the record that the third
    phase has left. *)
Theorem spider_leaves_stay_raw (na na3 na' : NodeAllocation) (k : nat) :
  upToLeafCoordinates na = Ok na3 ->
  process SPIDER na = Ok na' ->
  ~ In k (nodeIds (midPoints na)) ->
  mget k (nodeToPosition na') = mget k (nodeToPosition na3).
Proof.
  intros Hraw Hrun Hk.
  destruct (process_phases _ _ _ Hrun)
    as (na1 & na2 & na3' & na4 & H1 & H2 & H3 & H4 & H5 & S3 & _).
  assert (E3 : na3' = na3).
  { unfold upToLeafCoordinates in Hraw. rewrite H1 in Hraw. cbn [bind] in Hraw.
    rewrite H2 in Hraw. cbn [bind] in Hraw. congruence. }
  subst na3' na'.
  unfold calculate2DMidpointCoordinates in H4.
  apply bind_Ok in H4. destruct H4 as (pos4 & Hloop & H4).
  inversion H4; subst na4. simpl.
  apply (foldM_frame (midpoint_step na3 SPIDER) (fun ln => node_id (node ln)) _
           (midpoint_step_frame na3 SPIDER) _ _ Hloop).
  destruct S3 as (_ & _ & _ & M3 & _). rewrite M3. exact Hk.
Qed.

End ProcessAsAWhole.

(** ** Further sample runs *)

Ltac run_all :=
  run; repeat (first [sqrt_is 60 | sqrt_is 80 | sqrt_is 50 | sqrt_is 25]; run).

Ltac unfold_phases :=
  unfold process, upToLeafCoordinates, convertTotalStemLengthsToUnits,
    convertHierarchy, indexClumps, assignUnits, calculate1DLinearOffsets,
    arrangedLeaves, jsSort, calculate2DLeafCoordinates,
    calculate2DMidpointCoordinates, constrain2DLeafCoordinates.

Ltac same_records :=
  unfold Position.set_y, Position.set_x, Position.set_offset, Position.set_units,
    initialPosition; cbn; same_numbers.

Lemma chain_constructed :
  constructor (LC := euclid) ThreeLeaves.layout Chain.layoutNodes threeSided
  = Ok Chain.allocation.
Proof.
  unfold constructor, threeSided, initializeSegments, topOffset,
    largestRootDiameter, toLargestDiameter. run_lines.
  unfold newSegment. cbn. run_lines.
  unfold Chain.allocation, ThreeLeaves.allocation, ThreeLeaves.lhs,
    ThreeLeaves.bot, ThreeLeaves.rhs. cbn. same_numbers.
Qed.

Lemma chain_raw :
  upToLeafCoordinates (LC := euclid) Chain.allocation = Ok Chain.projected.
Proof.
  unfold_phases. run_all.
  unfold Chain.projected, Chain.allocation, ThreeLeaves.walked,
    ThreeLeaves.converted, ThreeLeaves.allocation, with_positions, with_segments.
  same_records.
Qed.

Section AfterTheLeaves.
Context {LC : LineCoordinates}.

(** A run continues from the raw leaf positions with the midpoints. *)
Lemma process_after_raw (mode : placementMode) (na na3 : NodeAllocation) :
  upToLeafCoordinates na = Ok na3 ->
  process mode na
  = (na4 <- calculate2DMidpointCoordinates mode na3 ;;
     match mode with
     | LENGTH_CONSTRAINED => constrain2DLeafCoordinates na4
     | SPIDER => Ok na4
     end).
Proof.
  unfold upToLeafCoordinates, process.
  destruct (convertTotalStemLengthsToUnits na) as [na1 | e]; simpl; [| discriminate].
  destruct (calculate1DLinearOffsets na1) as [na2 | e]; simpl; [| discriminate].
  intros ->. reflexivity.
Qed.

End AfterTheLeaves.

Lemma chain_placed :
  calculate2DMidpointCoordinates (LC := euclid) LENGTH_CONSTRAINED Chain.projected
  = Ok Chain.placed.
Proof.
  unfold calculate2DMidpointCoordinates. run_all.
  unfold Chain.placed, with_positions. same_records.
Qed.

Lemma chain_reanchored :
  constrain2DLeafCoordinates (LC := euclid) Chain.placed = Ok Chain.constrained.
Proof.
  unfold constrain2DLeafCoordinates. run_all.
  unfold Chain.constrained, Chain.placed, with_positions. same_records.
Qed.

Lemma chain_constrained :
  process (LC := euclid) LENGTH_CONSTRAINED Chain.allocation = Ok Chain.constrained.
Proof.
  rewrite (process_after_raw _ _ _ chain_raw), chain_placed. cbn [bind].
  apply chain_reanchored.
Qed.

Lemma chain_spider :
  process (LC := euclid) SPIDER Chain.allocation = Ok Chain.spider.
Proof.
  rewrite (process_after_raw _ _ _ chain_raw).
  unfold calculate2DMidpointCoordinates. run_all.
  unfold Chain.spider, with_positions. same_records.
Qed.

Lemma single_leaf_constructed :
  constructor (LC := euclid) ThreeLeaves.layout SingleLeaf.layoutNodes threeSided
  = Ok SingleLeaf.allocation.
Proof.
  unfold constructor, threeSided, initializeSegments, topOffset,
    largestRootDiameter, toLargestDiameter. run_lines.
  unfold newSegment. cbn. run_lines.
  unfold SingleLeaf.allocation, ThreeLeaves.allocation, ThreeLeaves.lhs,
    ThreeLeaves.bot, ThreeLeaves.rhs. cbn. same_numbers.
Qed.

Lemma single_leaf_converted :
  convertHierarchy SingleLeaf.allocation
  = Ok (SingleLeaf.hierarchy, [(2%nat, Position.mk 1 None 0 0)]).
Proof.
  unfold_phases. run_all.
  unfold SingleLeaf.hierarchy, setUnits, newClump. same_records.
Qed.

Lemma single_leaf_raw :
  upToLeafCoordinates (LC := euclid) SingleLeaf.allocation = Ok SingleLeaf.projected.
Proof.
  unfold_phases. run_all.
  unfold SingleLeaf.projected, SingleLeaf.allocation, ThreeLeaves.allocation,
    ThreeLeaves.lhs, ThreeLeaves.bot, ThreeLeaves.rhs, with_positions, with_segments.
  same_records.
Qed.

Lemma single_leaf_process :
  process (LC := euclid) LENGTH_CONSTRAINED SingleLeaf.allocation
  = Ok SingleLeaf.final.
Proof.
  rewrite (process_after_raw _ _ _ single_leaf_raw).
  unfold calculate2DMidpointCoordinates, constrain2DLeafCoordinates. run_all.
  unfold SingleLeaf.final, with_positions. same_records.
Qed.

(** ** Midpoints in length-constrained mode *)

Lemma agree_on_None {W : Type} (g : Position.t -> W) (pos pos' : jsmap Position.t)
    (k : nat) :
  agree_on g pos pos' -> mget k pos = None -> mget k pos' = None.
Proof.
  intros (_ & V) E. specialize (V k). rewrite E in V.
  destruct (mget k pos'); [discriminate | reflexivity].
Qed.

Lemma leafCenter_loop (lps : list (option Position.t)) :
  forall sx0 sy0 sx sy,
    foldM leafCenter_step lps (sx0, sy0) = Ok (sx, sy) ->
    exists ps,
      lps = map Some ps
      /\ sx = fold_left (fun t p => t + Position.x p) ps sx0
      /\ sy = fold_left (fun t p => t + Position.y p) ps sy0.
Proof.
  induction lps as [| o lps IH]; intros sx0 sy0 sx sy Hrun.
  - simpl in Hrun. inversion Hrun; subst. exists []. auto.
  - apply foldM_cons in Hrun. destruct Hrun as ([sx1 sy1] & Hstep & Hrest).
    unfold leafCenter_step in Hstep.
    apply bind_Ok in Hstep. destruct Hstep as (p & Hp & Hstep).
    apply deref_Ok in Hp. subst o. simpl in Hstep. inversion Hstep; subst sx1 sy1.
    destruct (IH _ _ _ _ Hrest) as (ps & -> & Hx & Hy).
    exists (p :: ps). simpl. auto.
Qed.

Section MidpointsConstrained.
Context {LC : LineCoordinates}.

Lemma leafPositions_same (na na0 : NodeAllocation) (pos pos0 : jsmap Position.t)
    (st : Stem) :
  leaves na0 = leaves na ->
  (forall l, In l (mvalues (leaves na)) ->
             mget (node_id (node l)) pos0 = mget (node_id (node l)) pos) ->
  leafPositions na0 pos0 st = leafPositions na pos st.
Proof.
  intros Hl Hsame. unfold leafPositions, ownLeavesInSubset. rewrite Hl.
  apply map_ext_in. intros leafId _.
  destruct (mget leafId (leaves na)) as [l |] eqn:E; [| reflexivity].
  apply Hsame. apply mget_Some_In in E.
  change l with (snd (leafId, l)). apply in_map. exact E.
Qed.

(** What the code does for a midpoint with a parent in length-constrained
    mode: the midpoint goes to the point that the line from the position
    of its parent to the centroid of its leaf positions has at length
    (parent radius + own scaled edge length + own radius). *)
Lemma midpoint_step_constrained (na : NodeAllocation) (pos pos' : jsmap Position.t)
    (ln : LayoutNode) :
  mget (node_parentId (node ln)) (layoutNodes na) <> None ->
  midpoint_step na LENGTH_CONSTRAINED pos ln = Ok pos' ->
  exists pl ps pp p,
    parent ln = Some pl
    /\ leafPositions na pos (stem ln) = map Some ps
    /\ ps <> []
    /\ mget (node_parentId (node ln)) pos = Some pp
    /\ mget (node_id (node ln)) pos' = Some p
    /\ pointAtLength
         (mkCoordinate None (Position.x pp) (Position.y pp)
                       (fst (centroid ps)) (snd (centroid ps)))
         (ownDiameter (stem pl) / 2 + ownBetween (stem ln)
          + ownDiameter (stem ln) / 2)
       = (Finite (Position.x p), Finite (Position.y p)).
Proof.
  unfold midpoint_step. intros Hparent H.
  destruct (mget (node_parentId (node ln)) (layoutNodes na)); [| congruence].
  apply bind_Ok in H. destruct H as (pl & Hpl & H). apply deref_Ok in Hpl.
  apply bind_Ok in H. destruct H as ([sx sy] & Hsum & H).
  apply bind_Ok in H. destruct H as (n & Hn & H).
  apply bind_Ok in H. destruct H as (pp & Hpp & H). apply deref_Ok in Hpp.
  apply bind_Ok in H. destruct H as (r1 & Hr1 & H).
  apply bind_Ok in H. destruct H as (r2 & Hr2 & H).
  apply bind_Ok in H. destruct H as (r3 & Hr3 & H).
  simpl in Hr1, Hr2, Hr3. inversion Hr1; inversion Hr2; inversion Hr3.
  subst r1 r2 r3. clear Hr1 Hr2 Hr3.
  destruct (pointAtLength _ _) as [x y] eqn:Hpt.
  apply write_xy_Ok in H. destruct H as (p0 & vx & vy & -> & -> & _ & Hget & _).
  destruct (leafCenter_loop _ _ _ _ _ Hsum) as (ps & Hlps & Hsx & Hsy).
  exists pl, ps, pp. eexists.
  split; [exact Hpl |]. split; [exact Hlps |]. split.
  { intros ->. rewrite Hlps in Hn. simpl in Hn.
    rewrite Rleb_true in Hn by lra. discriminate. }
  split; [exact Hpp |]. split; [exact Hget |].
  simpl. rewrite <- Hpt. unfold centroid. rewrite Hlps, length_map, Hsx, Hsy.
  reflexivity.
Qed.

(** X17. In length-constrained mode a run ends with every midpoint whose
    parent is in the run, and is not visited after it, at the point that
    the line from the final position of the parent to the centroid of the
    raw positions of its leaves in the run has at length (parent radius +
    own scaled edge length + own radius); under the contract of the line
    geometry the midpoint is on that line, at exactly that distance from
    its parent. *)
Theorem midpoint_edge_length (na na3 na' : NodeAllocation) (m : LayoutNode)
    (before after : list LayoutNode) (P : Position.t) :
  NoDup (nodeIds (midPoints na)) ->
  (forall l, In l (mvalues (leaves na)) ->
             ~ In (node_id (node l)) (nodeIds (midPoints na))) ->
  ~ In (node_id (node m)) (nodeIds (leaves na)) ->
  ~ In (node_parentId (node m)) (nodeIds (leaves na)) ->
  mvalues (midPoints na) = before ++ m :: after ->
  mget (node_parentId (node m)) (layoutNodes na) <> None ->
  ~ In (node_parentId (node m)) (map (fun ln => node_id (node ln)) (m :: after)) ->
  upToLeafCoordinates na = Ok na3 ->
  process LENGTH_CONSTRAINED na = Ok na' ->
  mget (node_parentId (node m)) (nodeToPosition na') = Some P ->
  exists pl ps p,
    parent m = Some pl
    /\ leafPositions na (nodeToPosition na3) (stem m) = map Some ps
    /\ ps <> []
    /\ mget (node_id (node m)) (nodeToPosition na') = Some p
    /\ let line := mkCoordinate None (Position.x P) (Position.y P)
                                (fst (centroid ps)) (snd (centroid ps)) in
       let d := ownDiameter (stem pl) / 2 + ownBetween (stem m)
                + ownDiameter (stem m) / 2 in
       pointAtLength line d = (Finite (Position.x p), Finite (Position.y p))
       /\ (PointAtDistance LC -> 0 <= d ->
           onRay line (Position.x p) (Position.y p)
           /\ distance (Position.x P) (Position.y P)
                       (Position.x p) (Position.y p) = d).
Proof.
  intros Hnd Hleaves Hmleaf Hpleaf Hsplit Hparent Hlater Hraw Hrun HP.
  destruct (process_phases _ _ _ Hrun)
    as (na1 & na2 & na3' & na4 & H1 & H2 & H3 & H4 & H5 & S3 & S4).
  assert (E3 : na3' = na3).
  { unfold upToLeafCoordinates in Hraw. rewrite H1 in Hraw. cbn [bind] in Hraw.
    rewrite H2 in Hraw. cbn [bind] in Hraw. congruence. }
  subst na3'.
  destruct S3 as (_ & N3 & V3 & M3 & _). destruct S4 as (_ & _ & V4 & _ & _).
  unfold calculate2DMidpointCoordinates in H4.
  apply bind_Ok in H4. destruct H4 as (pos4 & Hloop & H4).
  inversion H4; subst na4. clear H4. simpl in H5, V4.
  unfold constrain2DLeafCoordinates in H5.
  apply bind_Ok in H5. destruct H5 as (pos5 & Hloop5 & H5).
  inversion H5; subst na'. clear H5. simpl in HP |- *. simpl in Hloop5.
  rewrite M3, Hsplit, foldM_app in Hloop.
  apply bind_Ok in Hloop. destruct Hloop as (a1 & Hpre & Hloop).
  apply foldM_cons in Hloop. destruct Hloop as (a2 & Hstep & Hpost).
  pose proof (fun l => foldM_frame (midpoint_step na3 LENGTH_CONSTRAINED)
                (fun ln => node_id (node ln)) l
                (midpoint_step_frame na3 LENGTH_CONSTRAINED)) as Hframe.
  pose proof (foldM_frame (constrain_step (with_positions na3 pos4))
                (fun ln => node_id (node ln)) _
                (constrain_step_frame (with_positions na3 pos4)) _ _ Hloop5)
    as Hframe5.
  rewrite V4 in Hframe5. fold (nodeIds (leaves na)) in Hframe5.
  unfold nodeIds in Hnd. rewrite Hsplit, map_app in Hnd. cbn [map] in Hnd.
  destruct (NoDup_app_cons_not_In _ _ _ Hnd) as (Hb & Ha).
  rewrite <- N3 in Hparent.
  destruct (midpoint_step_constrained na3 a1 a2 m Hparent Hstep)
    as (pl & ps & pp & p & Hpl & Hlps & Hne & Hpp & Hp & Hpt).
  assert (Hmidids : forall l, In l before ->
            In (node_id (node l)) (nodeIds (midPoints na))).
  { intros l Hin. unfold nodeIds. rewrite Hsplit, map_app. apply in_or_app. left.
    apply (in_map (fun ln => node_id (node ln))). exact Hin. }
  assert (Hlps3 : leafPositions na (nodeToPosition na3) (stem m) = map Some ps).
  { rewrite <- Hlps. symmetry. apply leafPositions_same; [exact V3 |].
    intros l Hl. apply (Hframe before _ _ Hpre). intros Hin.
    apply (Hleaves l Hl). apply in_map_iff in Hin.
    destruct Hin as (l0 & E & Hl0). rewrite <- E. apply Hmidids. exact Hl0. }
  assert (Hpfinal : mget (node_id (node m)) pos5 = Some p).
  { rewrite (Hframe5 _ Hmleaf), (Hframe after _ _ Hpost _ Ha). exact Hp. }
  assert (HPpp : P = pp).
  { rewrite (Hframe5 _ Hpleaf) in HP.
    rewrite (Hframe after _ _ Hpost) in HP
      by (intros Hin; apply Hlater; right; exact Hin).
    rewrite (midpoint_step_frame na3 LENGTH_CONSTRAINED a1 m a2 Hstep) in HP
      by (intros E; apply Hlater; left; symmetry; exact E).
    congruence. }
  subst pp.
  exists pl, ps, p.
  split; [exact Hpl |]. split; [exact Hlps3 |]. split; [exact Hne |].
  split; [exact Hpfinal |]. cbv zeta. split; [exact Hpt |].
  intros Hcontract Hd. apply (Hcontract _ _ _ _ Hd Hpt).
Qed.

(** ** Leaves whose parent is not in the run *)

Lemma constrain_step_orphan (na : NodeAllocation) (pos pos' : jsmap Position.t)
    (ln : LayoutNode) (raw : Position.t) :
  mget (node_parentId (node ln)) pos = None ->
  mget (node_id (node ln)) pos = Some raw ->
  constrain_step na pos ln = Ok pos' ->
  exists p,
    mget (node_id (node ln)) pos' = Some p
    /\ pointAtLength
         (mkCoordinate None
            (svgWidth (settings (layout na)) / 2)
            (svgDistanceFromEdge (settings (layout na)) + parentDiameterOf ln / 2)
            (Position.x raw) (Position.y raw))
         (parentDiameterOf ln / 2 + ownBetween (stem ln) + ownDiameter (stem ln) / 2)
       = (Finite (Position.x p), Finite (Position.y p)).
Proof.
  unfold constrain_step. intros HP Hraw H.
  rewrite HP, Hraw in H. simpl in H.
  assert (E : match option_map stem (parent ln) with
              | Some ps => ownDiameter ps
              | None => 0
              end = parentDiameterOf ln).
  { unfold parentDiameterOf. destruct (parent ln); reflexivity. }
  rewrite E in H.
  destruct (pointAtLength _ _) as [x y] eqn:Hpt.
  apply write_xy_Ok in H.
  destruct H as (p & vx & vy & -> & -> & _ & Hget & _).
  eexists. split; [exact Hget |]. simpl. reflexivity.
Qed.

(** X18. In length-constrained mode a run ends with every leaf whose
    parent has no position record, as in a run over a subset of nodes
    that leaves the parent out, at the point that the line from the
    top-centre anchor through the raw position of the leaf has at length
    (parent radius + own scaled edge length + own radius); the anchor is
    at half the width and at the edge distance plus the radius of the
    parent, and the diameter of a missing parent layout node counts as
    zero. *)
Theorem orphan_leaf_anchored (na na3 na' : NodeAllocation) (leaf : LayoutNode)
    (raw : Position.t) :
  NoDup (nodeIds (leaves na)) ->
  In leaf (mvalues (leaves na)) ->
  ~ In (node_id (node leaf)) (nodeIds (midPoints na)) ->
  mget (node_parentId (node leaf)) (nodeToPosition na) = None ->
  upToLeafCoordinates na = Ok na3 ->
  process LENGTH_CONSTRAINED na = Ok na' ->
  mget (node_id (node leaf)) (nodeToPosition na3) = Some raw ->
  let ax := svgWidth (settings (layout na)) / 2 in
  let ay := svgDistanceFromEdge (settings (layout na)) + parentDiameterOf leaf / 2 in
  let line := mkCoordinate None ax ay (Position.x raw) (Position.y raw) in
  let d := parentDiameterOf leaf / 2 + ownBetween (stem leaf)
           + ownDiameter (stem leaf) / 2 in
  exists p,
    mget (node_id (node leaf)) (nodeToPosition na') = Some p
    /\ pointAtLength line d = (Finite (Position.x p), Finite (Position.y p))
    /\ (PointAtDistance LC -> 0 <= d ->
        onRay line (Position.x p) (Position.y p)
        /\ distance ax ay (Position.x p) (Position.y p) = d).
Proof.
  intros Hnd Hin Hnotmid Horphan Hraw Hrun Hrawpos ax ay line d.
  destruct (process_chain _ _ _ Hrun)
    as (na1 & na2 & na3' & na4 & H1 & H2 & H3 & H4 & H5 & Hraw' & _ & _ & _ & _ & _
        & _ & A1 & A2 & A3 & _).
  assert (E3 : na3' = na3) by congruence. subst na3'.
  destruct (midpoints_agree _ _ _ H4) as (_ & A4).
  assert (M3 : midPoints na3 = midPoints na).
  { destruct (leafCoordinates_sameInputs _ _ H3) as ((_ & _ & _ & Mb & _) & _).
    destruct (offsets_sameInputs _ _ H2) as (_ & _ & _ & Mc & _).
    destruct (convert_sameInputs _ _ H1) as ((_ & _ & _ & Md & _) & _).
    congruence. }
  assert (L4 : layout na4 = layout na /\ leaves na4 = leaves na).
  { destruct (midpoints_sameInputs _ _ _ H4) as ((La & _ & Va & _) & _).
    destruct (leafCoordinates_sameInputs _ _ H3) as ((Lb & _ & Vb & _) & _).
    destruct (offsets_sameInputs _ _ H2) as (Lc & _ & Vc & _).
    destruct (convert_sameInputs _ _ H1) as ((Ld & _ & Vd & _) & _).
    split; congruence. }
  destruct L4 as (L4 & V4).
  assert (Horphan4 : mget (node_parentId (node leaf)) (nodeToPosition na4) = None).
  { apply (agree_on_None _ _ _ _ A4), (agree_on_None _ _ _ _ A3),
      (agree_on_None _ _ _ _ A2), (agree_on_None _ _ _ _ A1). exact Horphan. }
  assert (Hraw4 : mget (node_id (node leaf)) (nodeToPosition na4) = Some raw).
  { unfold calculate2DMidpointCoordinates in H4.
    apply bind_Ok in H4. destruct H4 as (pos4 & Hloop & H4).
    inversion H4; subst na4. simpl. rewrite <- Hrawpos.
    apply (foldM_frame (midpoint_step na3 LENGTH_CONSTRAINED)
             (fun ln => node_id (node ln)) _
             (midpoint_step_frame na3 LENGTH_CONSTRAINED) _ _ Hloop).
    rewrite M3. exact Hnotmid. }
  unfold constrain2DLeafCoordinates in H5.
  apply bind_Ok in H5. destruct H5 as (pos5 & Hloop5 & H5).
  inversion H5; subst na'. clear H5. simpl.
  rewrite V4 in Hloop5.
  destruct (foldM_split _ _ leaf _ _ Hin Hloop5)
    as (l1 & l2 & a1 & a2 & Hl & Hpre & Hstep & Hpost).
  unfold nodeIds in Hnd. rewrite Hl, map_app in Hnd. cbn [map] in Hnd.
  destruct (NoDup_app_cons_not_In _ _ _ Hnd) as (Hl1 & Hl2).
  pose proof (fun l => foldM_frame (constrain_step na4) (fun ln => node_id (node ln)) l
                (constrain_step_frame na4)) as Hframe.
  assert (Hraw1 : mget (node_id (node leaf)) a1 = Some raw).
  { rewrite (Hframe l1 _ _ Hpre _ Hl1). exact Hraw4. }
  assert (Horphan1 : mget (node_parentId (node leaf)) a1 = None).
  { apply (agree_on_None units_offset (nodeToPosition na4)); [| exact Horphan4].
    apply (foldM_rel (agree_on units_offset) _ _
             (agree_on_refl _) (agree_on_trans _)
             (fun a b a' => constrain_step_agree na4 a a' b) _ _ Hpre). }
  destruct (constrain_step_orphan na4 a1 a2 leaf raw Horphan1 Hraw1 Hstep)
    as (p & Hp & Hpt).
  rewrite L4 in Hpt. fold ax ay line d in Hpt.
  exists p. split; [| split].
  - rewrite (Hframe l2 _ _ Hpost _ Hl2). exact Hp.
  - exact Hpt.
  - intros Hcontract Hd. apply (Hcontract line d _ _ Hd Hpt).
Qed.

End MidpointsConstrained.

Lemma walk_places_each_leaf_once_witness :
  Permutation
    (map block_node
       (plannedBlocks (total1DSpaceAvailable ThreeLeaves.converted)
          (nodeToPosition ThreeLeaves.converted)
          (walkBegin (segments ThreeLeaves.converted))
          (arrangedLeaves ThreeLeaves.converted)))
    (nodeIds (leaves ThreeLeaves.converted)).
Proof.
  exact (proj2 (walk_places_each_leaf_once ThreeLeaves.converted ThreeLeaves.walked
                  three_leaves_walked)).
Defined.

Lemma leaf_on_segment_line_witness :
  exists p p',
    mget 3 (nodeToPosition ThreeLeaves.walked) = Some p
    /\ mget 3 (nodeToPosition ThreeLeaves.projected) = Some p'
    /\ Position.units p' = Position.units p
    /\ Position.offset p' = Position.offset p
    /\ onRay ThreeLeaves.bot (Position.x p') (Position.y p')
    /\ distance 10 90 (Position.x p') (Position.y p') = 100 - 60.
Proof.
  assert (Hnd : NoDup (map block_node (allBlocks (segments ThreeLeaves.walked)))).
  { cbn. repeat constructor; simpl; intuition discriminate. }
  assert (Hs : In (mkSegment (Some "BOT"%string) ThreeLeaves.bot 60 140
                     [mkSpaceBlock 3 20 180 100])
                  (segments ThreeLeaves.walked)).
  { cbn. right. left. reflexivity. }
  destruct (leaf_on_segment_line (LC := euclid) ThreeLeaves.walked
              ThreeLeaves.projected _ (mkSpaceBlock 3 20 180 100) Hnd
              three_leaves_projected Hs (or_introl eq_refl))
    as ((p & p' & Hp & Hp' & Hu & Ho & _ & Hgeo) & _).
  exists p, p'. repeat (split; [assumption |]).
  apply Hgeo; [exact euclid_PointAtDistance | simpl; lra].
Defined.

Lemma process_keeps_records_witness :
  mkeys (nodeToPosition ThreeLeaves.final) = mkeys (nodeToPosition ThreeLeaves.allocation)
  /\ Forall2 extends (segments ThreeLeaves.allocation) (segments ThreeLeaves.final).
Proof.
  destruct (process_keeps_records (LC := euclid) LENGTH_CONSTRAINED
              ThreeLeaves.allocation ThreeLeaves.final three_leaves_process)
    as (K & X).
  split; [exact K | exact X].
Defined.

Lemma placement_mode_changes_coordinates_only_witness :
  segments Chain.constrained = segments Chain.spider
  /\ forall k, option_map units_offset (mget k (nodeToPosition Chain.constrained))
               = option_map units_offset (mget k (nodeToPosition Chain.spider)).
Proof.
  destruct (placement_mode_changes_coordinates_only (LC := euclid)
              Chain.allocation Chain.constrained Chain.spider
              chain_constrained chain_spider) as (S & _ & V).
  split; [exact S | exact V].
Defined.

Lemma spider_leaves_stay_raw_witness :
  mget 2 (nodeToPosition Chain.spider) = mget 2 (nodeToPosition Chain.projected).
Proof.
  apply (spider_leaves_stay_raw (LC := euclid) Chain.allocation Chain.projected
           Chain.spider 2 chain_raw chain_spider).
  cbn. intuition discriminate.
Defined.

Lemma midpoint_edge_length_witness :
  exists pl ps p,
    parent Chain.n5 = Some pl
    /\ leafPositions Chain.allocation (nodeToPosition Chain.projected) (stem Chain.n5)
       = map Some ps
    /\ mget 5 (nodeToPosition Chain.constrained) = Some p
    /\ distance 50 10 (Position.x p) (Position.y p)
       = ownDiameter (stem pl) / 2 + 25 + 0 / 2.
Proof.
  assert (Hnd : NoDup (nodeIds (midPoints Chain.allocation))).
  { cbn. repeat constructor; simpl; intuition discriminate. }
  assert (Hleaves : forall l, In l (mvalues (leaves Chain.allocation)) ->
             ~ In (node_id (node l)) (nodeIds (midPoints Chain.allocation))).
  { cbn. intros l [<- | [<- | [<- | []]]]; simpl; intuition discriminate. }
  assert (Hmleaf : ~ In (node_id (node Chain.n5)) (nodeIds (leaves Chain.allocation))).
  { cbn. intuition discriminate. }
  assert (Hpleaf : ~ In (node_parentId (node Chain.n5))
                        (nodeIds (leaves Chain.allocation))).
  { cbn. intuition discriminate. }
  assert (Hparent : mget (node_parentId (node Chain.n5))
                         (layoutNodes Chain.allocation) <> None).
  { cbn. discriminate. }
  assert (Hlater : ~ In (node_parentId (node Chain.n5))
                        (map (fun ln => node_id (node ln)) [Chain.n5])).
  { cbn. intuition discriminate. }
  destruct (midpoint_edge_length (LC := euclid) Chain.allocation Chain.projected
              Chain.constrained Chain.n5 [Chain.n1] [] (Position.mk 1 None 50 10)
              Hnd Hleaves Hmleaf Hpleaf eq_refl Hparent Hlater chain_raw
              chain_constrained eq_refl)
    as (pl & ps & p & Hpl & Hlps & _ & Hp & _ & Hgeo).
  exists pl, ps, p. repeat (split; [assumption |]).
  apply Hgeo; [exact euclid_PointAtDistance |].
  assert (E : pl = Chain.n1) by (cbn in Hpl; congruence).
  subst pl. simpl. lra.
Defined.

Lemma orphan_leaf_anchored_witness :
  exists p,
    mget 2 (nodeToPosition SingleLeaf.final) = Some p
    /\ onRay (mkCoordinate None (100 / 2) (10 + 0 / 2) 50 90)
             (Position.x p) (Position.y p)
    /\ distance (100 / 2) (10 + 0 / 2) (Position.x p) (Position.y p)
       = 0 / 2 + 40 + 0 / 2.
Proof.
  assert (Hnd : NoDup (nodeIds (leaves SingleLeaf.allocation))).
  { cbn. repeat constructor; simpl; intuition. }
  assert (Hin : In SingleLeaf.n2 (mvalues (leaves SingleLeaf.allocation))).
  { cbn. left. reflexivity. }
  assert (Hnotmid : ~ In (node_id (node SingleLeaf.n2))
                         (nodeIds (midPoints SingleLeaf.allocation))).
  { cbn. intuition. }
  destruct (orphan_leaf_anchored (LC := euclid) SingleLeaf.allocation
              SingleLeaf.projected SingleLeaf.final SingleLeaf.n2
              (Position.mk 1 (Some 100) 50 90)
              Hnd Hin Hnotmid eq_refl single_leaf_raw single_leaf_process eq_refl)
    as (p & Hp & _ & Hgeo).
  exists p. split; [exact Hp |].
  apply Hgeo; [exact euclid_PointAtDistance |].
  unfold parentDiameterOf. simpl. lra.
Defined.

(** ** The conversion runs to its end *)

Lemma sum_above {A : Type} (f : A -> R) (l : list A) :
  (forall x, In x l -> 0 < f x) ->
  forall a, a <= fold_left (fun t x => t + f x) l a
            /\ (l <> [] -> a < fold_left (fun t x => t + f x) l a).
Proof.
  induction l as [| x l IH]; intros Hpos a; simpl.
  - split; [lra | congruence].
  - assert (Hx : 0 < f x) by (apply Hpos; left; reflexivity).
    destruct (IH (fun y Hy => Hpos y (or_intror Hy)) (a + f x)) as (Hle & _).
    split; [lra | intros _; lra].
Qed.

(** The sum over the children of a parent clump is read without a throw
    and is above zero when the children are indexed one level down with
    lengths above zero. *)
Lemma getTotal_runs (H : hierarchyLevels) (d : nat) (P : Clump) :
  (forall k, In k (childClumps P) ->
     exists c, getClump H d k = Some c /\ 0 < longestLeafLength c) ->
  childClumps P <> [] ->
  exists T, getTotalChildrenLongestLeafLength H d P = Ok T /\ 0 < T.
Proof.
  unfold getTotalChildrenLongestLeafLength. intros Hch Hne.
  assert (Hgen : forall ks a,
            (forall k, In k ks ->
               exists c, getClump H d k = Some c /\ 0 < longestLeafLength c) ->
            exists T,
              foldM (fun total k =>
                       c <- deref (getClump H d k) ;;
                       Ok (total + longestLeafLength c)) ks a = Ok T
              /\ a <= T /\ (ks <> [] -> a < T)).
  { induction ks as [| k ks IH]; intros a Hks.
    - exists a. simpl. split; [reflexivity |]. split; [lra | congruence].
    - destruct (Hks k (or_introl eq_refl)) as (c & Ec & Hc).
      destruct (IH (a + longestLeafLength c)
                  (fun k' Hk' => Hks k' (or_intror Hk'))) as (T & ET & Hle & _).
      exists T. simpl. rewrite Ec. simpl. split; [exact ET |].
      split; [lra | intros _; lra]. }
  destruct (Hgen (childClumps P) 0 Hch) as (T & ET & _ & Hlt).
  exists T. split; [exact ET | apply Hlt; exact Hne].
Qed.

(** When the turn of a clump does not throw. *)
Lemma units_step_runs (d : nat) (total : R) (H : hierarchyLevels)
    (pos : jsmap Position.t) (k : nat) (c0 : Clump) :
  mget (clump_node c0) pos <> None ->
  match parentClump c0 with
  | None => total <> 0
  | Some pk =>
      exists P up T,
        getPreviousClump H d pk = Some P /\ clump_units P = Some up
        /\ getTotalChildrenLongestLeafLength H d P = Ok T /\ T <> 0
  end ->
  exists u p,
    units_step d total (H, pos) (k, c0)
    = Ok (updClump H d k (setUnits u),
          mset (clump_node c0) (Position.set_units u p) pos).
Proof.
  intros Hp Hpar.
  destruct (mget (clump_node c0) pos) as [p |] eqn:Ep; [| congruence].
  unfold units_step. destruct (parentClump c0) as [pk |].
  - destruct Hpar as (P & up & T & EP & Eu & ET & HT).
    rewrite EP. cbn [deref bind]. rewrite ET. cbn [bind]. rewrite Eu.
    unfold jsdiv. rewrite (Reqb_false _ _ HT).
    cbn [jsmul validateStat validateNumber andb bind].
    unfold write_position. rewrite Ep. cbn [deref bind].
    exists (up * (longestLeafLength c0 / T)), p. reflexivity.
  - cbn [bind]. unfold jsdiv. rewrite (Reqb_false _ _ Hpar).
    cbn [jsmul validateStat validateNumber andb bind].
    unfold write_position. rewrite Ep. cbn [deref bind].
    exists (1 * (longestLeafLength c0 / total)), p. reflexivity.
Qed.

(** The turns of the clumps of one level do not throw when the store has
    the clumps and the links of a store [H0] with lengths above zero, the
    level above has its units, and every clump has a position record. *)
Lemma units_loop_runs (H0 : hierarchyLevels) (d : nat) (total : R)
    (L : list (nat * Clump)) :
  links_ok H0 -> lengths_positive H0 ->
  (forall k c0, In (k, c0) L ->
     clump_node c0 = k
     /\ exists c, getClump H0 d k = Some c /\ clump_frame c = clump_frame c0) ->
  forall H pos,
    (L <> [] -> total <> 0) ->
    (forall d' k', option_map clump_frame (getClump H d' k')
                   = option_map clump_frame (getClump H0 d' k')) ->
    (forall d' k' c, S d' = d -> getClump H d' k' = Some c ->
                     clump_units c <> None) ->
    (forall k c0, In (k, c0) L -> mget k pos <> None) ->
    exists H' pos', foldM (units_step d total) L (H, pos) = Ok (H', pos').
Proof.
  intros Hlinks Hpos.
  induction L as [| [k c0] L IH]; intros Hcur H pos Htot Hf Hunits Hposn.
  - exists H, pos. reflexivity.
  - destruct (Hcur k c0 (or_introl eq_refl)) as (Hnode & c & Ec & Hfr).
    assert (Htot' : total <> 0) by (apply Htot; discriminate).
    destruct (units_step_runs d total H pos k c0) as (u & p & Estep).
    + rewrite Hnode. apply (Hposn k c0). left. reflexivity.
    + destruct (parentClump c0) as [pk |] eqn:Epar; [| exact Htot'].
      assert (Hpar0 : parentClump c = Some pk)
        by (unfold clump_frame in Hfr; congruence).
      destruct Hlinks as (L1 & L2 & _).
      destruct (L2 d k c pk Ec Hpar0) as (d' & P0 & Ed & EP0 & Hin).
      destruct (frame_Some _ _ P0 (eq_sym (Hf d' pk)) EP0)
        as (P & EP & _ & _ & Hch & _).
      destruct (clump_units P) as [up |] eqn:Eup;
        [| exfalso; apply (Hunits d' pk P (eq_sym Ed) EP); exact Eup].
      destruct (getTotal_runs H d P) as (T & ET & HT).
      * intros k' Hk'. rewrite Hch in Hk'.
        destruct (L1 d' pk P0 k' EP0 Hk') as (c' & Ec' & _).
        rewrite <- Ed in Ec'.
        destruct (frame_Some _ _ c' (eq_sym (Hf d k')) Ec')
          as (c'' & Ec'' & _ & _ & _ & Hl).
        exists c''. split; [exact Ec'' |]. rewrite Hl.
        apply (Hpos d k' c' Ec').
      * rewrite Hch. intros E. rewrite E in Hin. exact Hin.
      * exists P, up, T. rewrite Ed. cbn [getPreviousClump].
        split; [exact EP |]. split; [exact Eup |].
        split; [rewrite <- Ed; exact ET | lra].
    + cbn [foldM]. rewrite Estep. cbn [bind]. apply IH.
      * intros k' c0' Hin. apply Hcur. right. exact Hin.
      * intros _. exact Htot'.
      * intros d' k'. rewrite frame_updClump_setUnits. apply Hf.
      * intros d' k' c1 Ed E1. rewrite getClump_updClump in E1.
        replace (Nat.eqb d' d) with false in E1
          by (symmetry; apply Nat.eqb_neq; lia).
        apply (Hunits d' k' c1 Ed E1).
      * intros k' c0' Hin.
        destruct (Nat.eq_dec k' (clump_node c0)) as [-> | Hne].
        -- rewrite mget_mset_same. discriminate.
        -- rewrite mget_mset_other by exact Hne.
           apply (Hposn k' c0'). right. exact Hin.
Qed.

(** The turn of one level does not throw. *)
Lemma level_step_runs (H0 H : hierarchyLevels) (pos : jsmap Position.t)
    (d : nat) :
  links_ok H0 -> lengths_positive H0 ->
  store_wf H -> nodes_are_keys H ->
  (forall d' k', option_map clump_frame (getClump H d' k')
                 = option_map clump_frame (getClump H0 d' k')) ->
  mget d H <> None ->
  (forall d' k' c, (d' < d)%nat -> getClump H d' k' = Some c ->
                   clump_units c <> None) ->
  (forall d' k c, getClump H0 d' k = Some c -> mget k pos <> None) ->
  exists H' pos', level_step (H, pos) d = Ok (H', pos').
Proof.
  intros Hlinks Hpos Hwf Hn Hf Hlvl Hunits Hposn.
  destruct (mget d H) as [lvl |] eqn:El; [| congruence].
  assert (Hentry : forall k c0, In (k, c0) (clumps lvl) -> getClump H d k = Some c0).
  { intros k c0 Hin. unfold getClump. rewrite El. apply In_mget; [| exact Hin].
    destruct Hwf as (_ & Hl). apply (Hl d lvl El). }
  assert (Hcur : forall k c0, In (k, c0) (clumps lvl) ->
            clump_node c0 = k
            /\ exists c, getClump H0 d k = Some c /\ clump_frame c = clump_frame c0).
  { intros k c0 Hin. split; [apply (Hn d k c0), Hentry; exact Hin |].
    apply (option_map_Some_inv clump_frame _ _ c0 (Hf d k)).
    apply Hentry. exact Hin. }
  unfold level_step. rewrite El. cbn [deref bind].
  apply (units_loop_runs H0 d _ (clumps lvl) Hlinks Hpos Hcur).
  - intros Hne. unfold sumLongestLeafLengths.
    destruct (sum_above longestLeafLength (mvalues (clumps lvl))) with (a := 0)
      as (_ & Hlt).
    + intros c0 Hin. apply In_mvalues in Hin. destruct Hin as (k & Hin).
      destruct (Hcur k c0 Hin) as (_ & c & Ec & Hfr).
      replace (longestLeafLength c0) with (longestLeafLength c)
        by (unfold clump_frame in Hfr; congruence).
      apply (Hpos d k c Ec).
    + assert (Hne' : mvalues (clumps lvl) <> []).
      { destruct (clumps lvl); [congruence | discriminate]. }
      specialize (Hlt Hne'). lra.
  - intros d' k'. rewrite getClump_set_sum by exact El. apply Hf.
  - intros d' k' c Ed E. rewrite getClump_set_sum in E by exact El.
    apply (Hunits d' k' c); [lia | exact E].
  - intros k c0 Hin. destruct (Hcur k c0 Hin) as (_ & c & Ec & _).
    apply (Hposn d k c Ec).
Qed.

(** The turns of the levels from [start] on do not throw. *)
Lemma levels_loop_runs (H0 : hierarchyLevels) (len : nat) :
  links_ok H0 -> lengths_positive H0 ->
  forall start H pos,
    store_wf H -> nodes_are_keys H ->
    (forall d' k', option_map clump_frame (getClump H d' k')
                   = option_map clump_frame (getClump H0 d' k')) ->
    (forall d, (start <= d < start + len)%nat -> mget d H <> None) ->
    (forall d' k' c, (d' < start)%nat -> getClump H d' k' = Some c ->
                     clump_units c <> None) ->
    (forall d' k c, getClump H0 d' k = Some c -> mget k pos <> None) ->
    exists H' pos', foldM level_step (seq start len) (H, pos) = Ok (H', pos').
Proof.
  intros Hlinks Hpos.
  induction len as [| len IH]; intros start H pos Hwf Hn Hf Hlev Hunits Hposn.
  - exists H, pos. reflexivity.
  - destruct (level_step_runs H0 H pos start Hlinks Hpos Hwf Hn Hf
                (Hlev start ltac:(lia)) Hunits Hposn) as (H1 & pos1 & Estep).
    cbn [seq foldM]. rewrite Estep. cbn [bind].
    destruct (level_step_keeps _ _ _ _ _ Estep Hwf Hn) as (Hwf1 & Hn1).
    destruct (level_step_facts _ _ _ _ _ Estep Hwf Hn)
      as (A1 & B1 & lvl & lvl1 & T & El & El1 & _ & _ & _ & C1).
    apply IH; try assumption.
    + intros d' k'. rewrite (level_step_frame _ _ _ _ _ Estep). apply Hf.
    + intros d Hd. rewrite A1 by lia. apply Hlev. lia.
    + intros d' k' c1 Hd E1. destruct (Nat.eq_dec d' start) as [-> | Hne].
      * destruct (frame_Some _ _ c1 (level_step_frame _ _ _ _ _ Estep start k') E1)
          as (c & Ec & _).
        destruct (C1 k' c Ec) as (c' & u & p & Ec' & Hu & _).
        assert (c' = c1) by congruence. subst c'. congruence.
      * rewrite (getClump_same_level H H1 d' k') in E1 by (apply A1; exact Hne).
        apply (Hunits d' k' c1); [lia | exact E1].
    + intros d' k c Ec. destruct (getClump H start k) as [c1 |] eqn:E1.
      * destruct (C1 k c1 E1) as (c' & u & p & _ & _ & Hp & _).
        rewrite Hp. discriminate.
      * rewrite (B1 k E1). apply (Hposn d' k c Ec).
Qed.

(** What indexing guarantees of the lengths, the links and the nodes of
    the clumps when no leaf of the run is also a midpoint. *)
Lemma indexClumps_lengths (na : NodeAllocation) (H0 : hierarchyLevels)
    (ok : R -> Prop) :
  NoDup (nodeIds (leaves na)) ->
  (forall l, In l (mvalues (leaves na)) ->
             mget (node_id (node l)) (midPoints na) = None) ->
  (forall l, In l (mvalues (leaves na)) -> 0 <= leafLength l) ->
  (forall l, In l (mvalues (leaves na)) -> ok (leafLength l)) ->
  indexClumps na = Ok H0 ->
  links_ok H0
  /\ (forall d k c, getClump H0 d k = Some c -> ok (longestLeafLength c))
  /\ (forall d k c, getClump H0 d k = Some c ->
        mget k (midPoints na) <> None
        \/ exists l, In l (mvalues (leaves na)) /\ node_id (node l) = k).
Proof.
  intros Hnd Hmid Hlen Hok Hindex.
  destruct (index_inv_indexClumps na H0 Hnd Hmid Hindex) as (_ & Hlinks & Hkeys).
  destruct (indexClumps_store na H0 Hindex) as (_ & _ & (_ & I2 & _)).
  unfold indexClumps in Hindex.
  pose proof (longest_of_loop na (mvalues (leaves na)) [] [] H0 Hmid Hlen
                (longest_of_nil na) Hindex) as (Lo1 & _).
  simpl in Lo1.
  split; [exact Hlinks |]. split.
  - intros d k c Ec. destruct (mget k (midPoints na)) as [m |] eqn:Em.
    + destruct (Lo1 d k c Ec) as ((l & Hl & _ & Hx) & _).
      * rewrite Em. discriminate.
      * rewrite <- Hx. apply Hok. exact Hl.
    + destruct (I2 d k c Ec Em) as (l & Hl & _ & _ & Hx).
      rewrite Hx. apply Hok. exact Hl.
  - intros d k c Ec. destruct (Hkeys d k c Ec) as [Hm | Hin]; [left; exact Hm |].
    right. unfold nodeIds in Hin. apply in_map_iff in Hin.
    destruct Hin as (l & E & Hl). exists l. split; [exact Hl | exact E].
Qed.

(** X19. The conversion does not throw when the leaves of the run have
    distinct ids, none is also a midpoint, every leaf has a total stem
    length above zero, and every leaf and every midpoint of the run has a
    position record. *)
Theorem conversion_succeeds (na : NodeAllocation) :
  NoDup (nodeIds (leaves na)) ->
  (forall l, In l (mvalues (leaves na)) ->
             mget (node_id (node l)) (midPoints na) = None) ->
  (forall l, In l (mvalues (leaves na)) -> 0 < leafLength l) ->
  (forall k, mget k (midPoints na) <> None ->
             mget k (nodeToPosition na) <> None) ->
  (forall l, In l (mvalues (leaves na)) ->
             mget (node_id (node l)) (nodeToPosition na) <> None) ->
  exists H pos,
    convertHierarchy na = Ok (H, pos)
    /\ convertTotalStemLengthsToUnits na = Ok (with_positions na pos).
Proof.
  intros Hnd Hmid Hlen Hpm Hpl.
  destruct (leaves_loop_in_order na (mvalues (leaves na)) [] levels_in_order_nil)
    as (H0 & Hindex & Hord).
  change (indexClumps na = Ok H0) in Hindex.
  destruct (indexClumps_lengths na H0 (fun x => 0 < x) Hnd Hmid
              (fun l Hl => Rlt_le _ _ (Hlen l Hl)) Hlen Hindex)
    as (Hlinks & Hpos & Hkeys).
  destruct (indexClumps_store na H0 Hindex) as (Hwf & _ & (I1 & _)).
  destruct (levels_loop_runs H0 (List.length H0) Hlinks Hpos 0 H0
              (nodeToPosition na) Hwf I1 (fun _ _ => eq_refl))
    as (H & pos & Erun).
  - intros d Hd. apply (levels_in_order_present H0 d Hord). lia.
  - intros d' k' c Hd. lia.
  - intros d k c Ec. destruct (Hkeys d k c Ec) as [Hm | (l & Hl & <-)].
    + apply Hpm. exact Hm.
    + apply Hpl. exact Hl.
  - exists H, pos.
    assert (E : convertHierarchy na = Ok (H, pos)).
    { unfold convertHierarchy. rewrite Hindex. cbn [bind]. exact Erun. }
    split; [exact E |].
    unfold convertTotalStemLengthsToUnits. rewrite E. reflexivity.
Qed.

Lemma conversion_succeeds_witness :
  exists H pos,
    convertHierarchy TwoLevels.allocation = Ok (H, pos)
    /\ convertTotalStemLengthsToUnits TwoLevels.allocation
       = Ok (with_positions TwoLevels.allocation pos).
Proof.
  apply (conversion_succeeds TwoLevels.allocation two_levels_leaf_ids
           two_levels_leaves_apart).
  - cbn. intros l [<- | [<- | [<- | []]]]; unfold leafLength; cbn; lra.
  - intros k. cbn. destruct k as [| [| [| k]]]; cbn; congruence.
  - cbn. intros l [<- | [<- | [<- | []]]]; cbn; discriminate.
Defined.

(** ** Leaves without length *)

Lemma sum_of_zeros {A : Type} (f : A -> R) (l : list A) :
  (forall x, In x l -> f x = 0) ->
  forall a, fold_left (fun t x => t + f x) l a = a.
Proof.
  induction l as [| x l IH]; intros Hz a; simpl; [reflexivity |].
  rewrite (Hz x) by (left; reflexivity).
  rewrite IH by (intros y Hy; apply Hz; right; exact Hy). lra.
Qed.

(** The turns of the levels from [start] on, in a store whose clumps all
    hold the length zero and whose levels below [start] hold no clump:
    the first clump that is met has no parent clump and the sum of its
    level is zero, so that its share is not a number. *)
Lemma levels_loop_zero (len : nat) :
  forall start H pos,
    store_wf H ->
    (forall d k c, getClump H d k = Some c -> longestLeafLength c = 0) ->
    (forall d k c pk, getClump H d k = Some c -> parentClump c = Some pk ->
        exists d', d = S d' /\ getClump H d' pk <> None) ->
    (forall d, (start <= d < start + len)%nat -> mget d H <> None) ->
    (forall d k, (d < start)%nat -> getClump H d k = None) ->
    (exists d k, (start <= d < start + len)%nat /\ getClump H d k <> None) ->
    foldM level_step (seq start len) (H, pos) = Err ValidationError.
Proof.
  induction len as [| len IH]; intros start H pos Hwf Hzero Hpar Hlev Hbelow Hex.
  - destruct Hex as (d & k & Hd & _). lia.
  - cbn [seq foldM].
    destruct (mget start H) as [lvl |] eqn:El;
      [| exfalso; apply (Hlev start); [lia | exact El]].
    unfold level_step at 1. rewrite El. cbn [deref bind].
    set (total := sumLongestLeafLengths (mvalues (clumps lvl))).
    set (H1 := mset start (mkLevel (level_depth lvl) (clumps lvl) (Some total)) H).
    assert (Hnd : NoDup (mkeys (clumps lvl))).
    { destruct Hwf as (_ & Hl). apply (Hl start lvl El). }
    assert (Hsame : forall d k, getClump H1 d k = getClump H d k).
    { intros d k. apply getClump_set_sum. exact El. }
    assert (Hlev1 : forall d, d <> start -> mget d H1 = mget d H).
    { intros d Hd. apply mget_mset_other. exact Hd. }
    assert (Hwf1 : store_wf H1) by (apply store_wf_mset; assumption).
    assert (Htotal : total = 0).
    { unfold total, sumLongestLeafLengths. apply sum_of_zeros.
      intros c Hin. apply In_mvalues in Hin. destruct Hin as (k & Hin).
      apply (Hzero start k c). unfold getClump. rewrite El.
      apply In_mget; assumption. }
    assert (Hfirst : forall k c0 rest, clumps lvl = (k, c0) :: rest ->
              parentClump c0 = None).
    { intros k c0 rest Ecl.
      assert (Ec : getClump H start k = Some c0).
      { unfold getClump. rewrite El, Ecl. cbn [mget]. rewrite Nat.eqb_refl.
        reflexivity. }
      destruct (parentClump c0) as [pk |] eqn:Epar; [| reflexivity].
      destruct (Hpar start k c0 pk Ec Epar) as (d' & Ed & Hp).
      exfalso. apply Hp. apply Hbelow. lia. }
    assert (Hempty : clumps lvl = [] -> forall k, getClump H start k = None).
    { intros Ecl k. unfold getClump. rewrite El, Ecl. reflexivity. }
    clearbody total H1. subst total.
    destruct (clumps lvl) as [| [k c0] rest].
    + cbn [foldM bind]. apply IH.
      * exact Hwf1.
      * intros d k c. rewrite Hsame. apply Hzero.
      * intros d k c pk. rewrite Hsame. intros Ec Epar.
        destruct (Hpar d k c pk Ec Epar) as (d' & Ed & Hp).
        exists d'. rewrite Hsame. split; assumption.
      * intros d Hd. rewrite Hlev1 by lia. apply Hlev. lia.
      * intros d k Hd. rewrite Hsame.
        destruct (Nat.eq_dec d start) as [-> | Hne];
          [apply Hempty; reflexivity | apply Hbelow; lia].
      * destruct Hex as (d & k & Hd & Hc). exists d, k. rewrite Hsame.
        split; [| exact Hc].
        destruct (Nat.eq_dec d start) as [-> | Hne]; [| lia].
        exfalso. apply Hc. apply Hempty. reflexivity.
    + cbn [foldM]. unfold units_step at 1.
      rewrite (Hfirst k c0 rest eq_refl). cbn [bind].
      unfold jsdiv. rewrite Reqb_true by reflexivity. reflexivity.
Qed.

(** X20. A run with leaves whose total stem lengths are all zero does not
    get through the conversion: the first clump that is given units has
    no parent clump, the sum of the longest leaf lengths of its level is
    zero, and validateStat rejects the share, which is not a number. *)
Theorem zero_lengths_fail (na : NodeAllocation) :
  NoDup (nodeIds (leaves na)) ->
  (forall l, In l (mvalues (leaves na)) ->
             mget (node_id (node l)) (midPoints na) = None) ->
  leaves na <> [] ->
  (forall l, In l (mvalues (leaves na)) -> leafLength l = 0) ->
  convertTotalStemLengthsToUnits na = Err ValidationError.
Proof.
  intros Hnd Hmid Hne Hzero.
  destruct (leaves_loop_in_order na (mvalues (leaves na)) [] levels_in_order_nil)
    as (H0 & Hindex & Hord).
  change (indexClumps na = Ok H0) in Hindex.
  destruct (indexClumps_lengths na H0 (fun x => x = 0) Hnd Hmid
              (fun l Hl => Req_le_sym _ _ (Hzero l Hl)) Hzero Hindex)
    as ((_ & L2 & _) & Hlen & _).
  destruct (indexClumps_store na H0 Hindex) as (Hwf & _ & (_ & _ & I3 & _)).
  assert (Hloop : forall pos,
            foldM level_step (seq 0 (List.length H0)) (H0, pos)
            = Err ValidationError).
  { intros pos. apply levels_loop_zero.
    - exact Hwf.
    - exact Hlen.
    - intros d k c pk Ec Epar.
      destruct (L2 d k c pk Ec Epar) as (d' & P & Ed & EP & _).
      exists d'. split; [exact Ed |]. rewrite EP. discriminate.
    - intros d Hd. apply (levels_in_order_present H0 d Hord). lia.
    - intros d k Hd. lia.
    - destruct (leaves na) as [| [k l] rest] eqn:El; [congruence |].
      assert (Hl : In l (mvalues ((k, l) :: rest))) by (left; reflexivity).
      exists (leafDepth l), (node_id (node l)). split; [| apply I3; exact Hl].
      split; [lia |]. simpl. apply (levels_in_order_present H0 _ Hord).
      destruct (getClump H0 (leafDepth l) (node_id (node l))) as [c |] eqn:Ec.
      + apply (getClump_level _ _ _ _ Ec).
      + exfalso. apply (I3 l Hl). exact Ec. }
  unfold convertTotalStemLengthsToUnits, convertHierarchy. rewrite Hindex.
  cbn [bind]. unfold assignUnits. rewrite Hloop. reflexivity.
Qed.

Lemma zero_lengths_fail_witness :
  convertTotalStemLengthsToUnits NoLength.allocation = Err ValidationError.
Proof.
  apply zero_lengths_fail.
  - cbn. repeat constructor; simpl; intuition.
  - cbn. intros l [<- | []]; reflexivity.
  - cbn. discriminate.
  - cbn. intros l [<- | []]; reflexivity.
Defined.

(** ** A walk without segments *)

(** X21. The 1D walk of a run that has a leaf and no segment throws a
    TypeError at the first leaf: either the leaf has no position record,
    or the begin of the first segment is read from undefined. *)
Theorem walk_without_segments (na : NodeAllocation) :
  segments na = [] -> leaves na <> [] ->
  calculate1DLinearOffsets na = Err TypeError.
Proof.
  intros Hsegs Hne. unfold calculate1DLinearOffsets.
  destruct (arrangedLeaves na) as [| l rest] eqn:Earr.
  - exfalso. pose proof (jsSort_perm (intoOrder na) (mvalues (leaves na))) as Hperm.
    fold (arrangedLeaves na) in Hperm. rewrite Earr in Hperm.
    apply Permutation_nil in Hperm.
    destruct (leaves na) as [| kv m]; [congruence | discriminate].
  - cbn [foldM]. unfold offsets_step at 1. rewrite Hsegs.
    destruct (mget (node_id (node l)) (nodeToPosition na)); reflexivity.
Qed.

Lemma walk_without_segments_witness :
  calculate1DLinearOffsets (with_segments SingleLeaf.allocation [])
  = Err TypeError.
Proof.
  apply walk_without_segments; [reflexivity | cbn; discriminate].
Defined.

(** ** Midpoints in spider mode *)

Section MidpointsSpider.
Context {LC : LineCoordinates}.

(** What the code does for a midpoint with a parent in spider mode, in
    terms of the centroid of the positions of its leaves. *)
Lemma midpoint_step_spider_centroid (na : NodeAllocation)
    (pos pos' : jsmap Position.t) (ln : LayoutNode) :
  mget (node_parentId (node ln)) (layoutNodes na) <> None ->
  midpoint_step na SPIDER pos ln = Ok pos' ->
  exists ps pp p,
    leafPositions na pos (stem ln) = map Some ps
    /\ ps <> []
    /\ mget (node_parentId (node ln)) pos = Some pp
    /\ mget (node_id (node ln)) pos' = Some p
    /\ Position.x p = fst (centroid ps) + Position.x pp / 2
    /\ Position.y p = snd (centroid ps) + Position.y pp / 2.
Proof.
  unfold midpoint_step. intros Hparent H.
  destruct (mget (node_parentId (node ln)) (layoutNodes na)); [| congruence].
  apply bind_Ok in H. destruct H as (pl & _ & H).
  apply bind_Ok in H. destruct H as ([sx sy] & Hsum & H).
  apply bind_Ok in H. destruct H as (n & Hn & H).
  apply bind_Ok in H. destruct H as (pp & Hpp & H). apply deref_Ok in Hpp.
  apply write_xy_Ok in H.
  destruct H as (p0 & vx & vy & Hx & Hy & _ & Hget & _).
  inversion Hx; inversion Hy; subst vx vy.
  destruct (leafCenter_loop _ _ _ _ _ Hsum) as (ps & Hlps & Hsx & Hsy).
  exists ps, pp. eexists.
  split; [exact Hlps |]. split.
  { intros ->. rewrite Hlps in Hn. simpl in Hn.
    rewrite Rleb_true in Hn by lra. discriminate. }
  split; [exact Hpp |]. split; [exact Hget |].
  unfold centroid. rewrite Hlps, length_map, Hsx, Hsy. simpl. split; reflexivity.
Qed.

(** X22. In spider mode a run ends with every midpoint whose parent is in
    the run, and is not visited after it, at the centroid of the raw
    positions of its leaves in the run plus half of the final position of
    its parent, in both coordinates. *)
Theorem spider_midpoint_position (na na3 na' : NodeAllocation) (m : LayoutNode)
    (before after : list LayoutNode) (P : Position.t) :
  NoDup (nodeIds (midPoints na)) ->
  (forall l, In l (mvalues (leaves na)) ->
             ~ In (node_id (node l)) (nodeIds (midPoints na))) ->
  mvalues (midPoints na) = before ++ m :: after ->
  mget (node_parentId (node m)) (layoutNodes na) <> None ->
  ~ In (node_parentId (node m)) (map (fun ln => node_id (node ln)) (m :: after)) ->
  upToLeafCoordinates na = Ok na3 ->
  process SPIDER na = Ok na' ->
  mget (node_parentId (node m)) (nodeToPosition na') = Some P ->
  exists ps p,
    leafPositions na (nodeToPosition na3) (stem m) = map Some ps
    /\ ps <> []
    /\ mget (node_id (node m)) (nodeToPosition na') = Some p
    /\ Position.x p = fst (centroid ps) + Position.x P / 2
    /\ Position.y p = snd (centroid ps) + Position.y P / 2.
Proof.
  intros Hnd Hleaves Hsplit Hparent Hlater Hraw Hrun HP.
  destruct (process_phases _ _ _ Hrun)
    as (na1 & na2 & na3' & na4 & H1 & H2 & H3 & H4 & H5 & S3 & _).
  assert (E3 : na3' = na3).
  { unfold upToLeafCoordinates in Hraw. rewrite H1 in Hraw. cbn [bind] in Hraw.
    rewrite H2 in Hraw. cbn [bind] in Hraw. congruence. }
  subst na3' na'.
  destruct S3 as (_ & N3 & V3 & M3 & _).
  unfold calculate2DMidpointCoordinates in H4.
  apply bind_Ok in H4. destruct H4 as (pos4 & Hloop & H4).
  inversion H4; subst na4. clear H4. simpl in HP |- *.
  rewrite M3, Hsplit, foldM_app in Hloop.
  apply bind_Ok in Hloop. destruct Hloop as (a1 & Hpre & Hloop).
  apply foldM_cons in Hloop. destruct Hloop as (a2 & Hstep & Hpost).
  pose proof (fun l => foldM_frame (midpoint_step na3 SPIDER)
                (fun ln => node_id (node ln)) l
                (midpoint_step_frame na3 SPIDER)) as Hframe.
  unfold nodeIds in Hnd. rewrite Hsplit, map_app in Hnd. cbn [map] in Hnd.
  destruct (NoDup_app_cons_not_In _ _ _ Hnd) as (Hb & Ha).
  rewrite <- N3 in Hparent.
  destruct (midpoint_step_spider_centroid na3 a1 a2 m Hparent Hstep)
    as (ps & pp & p & Hlps & Hne & Hpp & Hp & Hx & Hy).
  assert (Hmidids : forall l, In l before ->
            In (node_id (node l)) (nodeIds (midPoints na))).
  { intros l Hin. unfold nodeIds. rewrite Hsplit, map_app. apply in_or_app. left.
    apply (in_map (fun ln => node_id (node ln))). exact Hin. }
  assert (Hlps3 : leafPositions na (nodeToPosition na3) (stem m) = map Some ps).
  { rewrite <- Hlps. symmetry. apply leafPositions_same; [exact V3 |].
    intros l Hl. apply (Hframe before _ _ Hpre). intros Hin.
    apply (Hleaves l Hl). apply in_map_iff in Hin.
    destruct Hin as (l0 & E & Hl0). rewrite <- E. apply Hmidids. exact Hl0. }
  assert (Hpfinal : mget (node_id (node m)) pos4 = Some p).
  { rewrite (Hframe after _ _ Hpost _ Ha). exact Hp. }
  assert (HPpp : P = pp).
  { rewrite (Hframe after _ _ Hpost) in HP
      by (intros Hin; apply Hlater; right; exact Hin).
    rewrite (midpoint_step_frame na3 SPIDER a1 m a2 Hstep) in HP
      by (intros E; apply Hlater; left; symmetry; exact E).
    congruence. }
  subst pp. exists ps, p. auto.
Qed.

End MidpointsSpider.

Lemma spider_midpoint_position_witness :
  exists ps p,
    leafPositions Chain.allocation (nodeToPosition Chain.projected) (stem Chain.n5)
    = map Some ps
    /\ mget 5 (nodeToPosition Chain.spider) = Some p
    /\ Position.x p = fst (centroid ps) + 50 / 2
    /\ Position.y p = snd (centroid ps) + 10 / 2.
Proof.
  assert (Hnd : NoDup (nodeIds (midPoints Chain.allocation))).
  { cbn. repeat constructor; simpl; intuition discriminate. }
  assert (Hleaves : forall l, In l (mvalues (leaves Chain.allocation)) ->
             ~ In (node_id (node l)) (nodeIds (midPoints Chain.allocation))).
  { cbn. intros l [<- | [<- | [<- | []]]]; simpl; intuition discriminate. }
  assert (Hparent : mget (node_parentId (node Chain.n5))
                         (layoutNodes Chain.allocation) <> None).
  { cbn. discriminate. }
  assert (Hlater : ~ In (node_parentId (node Chain.n5))
                        (map (fun ln => node_id (node ln)) [Chain.n5])).
  { cbn. intuition discriminate. }
  destruct (spider_midpoint_position (LC := euclid) Chain.allocation
              Chain.projected Chain.spider Chain.n5 [Chain.n1] []
              (Position.mk 1 None 50 10)
              Hnd Hleaves eq_refl Hparent Hlater chain_raw chain_spider eq_refl)
    as (ps & p & Hlps & _ & Hp & Hx & Hy).
  exists ps, p. auto.
Defined.

(** ** The units of the clumps without children *)

Lemma fold_sum_shift {A : Type} (f : A -> R) (l : list A) (a : R) :
  fold_left (fun t x => t + f x) l a = a + sumOver f l.
Proof.
  unfold sumOver. revert a.
  induction l as [| x l IH]; intros a; simpl; [lra |].
  rewrite (IH (a + f x)), (IH (0 + f x)). lra.
Qed.

Lemma sumOver_cons {A : Type} (f : A -> R) (x : A) (l : list A) :
  sumOver f (x :: l) = f x + sumOver f l.
Proof. unfold sumOver at 1. simpl. rewrite fold_sum_shift. lra. Qed.

Lemma sumOver_app {A : Type} (f : A -> R) (l1 l2 : list A) :
  sumOver f (l1 ++ l2) = sumOver f l1 + sumOver f l2.
Proof.
  induction l1 as [| x l1 IH]; simpl.
  - unfold sumOver at 2. simpl. lra.
  - rewrite !sumOver_cons, IH. lra.
Qed.

Lemma sumOver_perm {A : Type} (f : A -> R) (l l' : list A) :
  Permutation l l' -> sumOver f l = sumOver f l'.
Proof.
  induction 1 as [| x l l' _ IH | x y l | l1 l2 l3 _ IH1 _ IH2].
  - reflexivity.
  - rewrite !sumOver_cons, IH. reflexivity.
  - rewrite !sumOver_cons. lra.
  - congruence.
Qed.

Lemma sumOver_ext {A : Type} (f g : A -> R) (l : list A) :
  (forall x, In x l -> f x = g x) -> sumOver f l = sumOver g l.
Proof.
  induction l as [| x l IH]; intros Hfg; [reflexivity |].
  rewrite !sumOver_cons, (Hfg x) by (left; reflexivity).
  rewrite IH by (intros y Hy; apply Hfg; right; exact Hy). reflexivity.
Qed.

Lemma sumOver_plus {A : Type} (f g : A -> R) (l : list A) :
  sumOver (fun x => f x + g x) l = sumOver f l + sumOver g l.
Proof.
  induction l as [| x l IH]; [unfold sumOver; simpl; lra |].
  rewrite !sumOver_cons, IH. lra.
Qed.

Lemma sumOver_filter {A : Type} (f : A -> R) (p : A -> bool) (l : list A) :
  sumOver f (filter p l) = sumOver (fun x => if p x then f x else 0) l.
Proof.
  induction l as [| x l IH]; [reflexivity |].
  rewrite sumOver_cons. cbn [filter].
  destruct (p x); [rewrite sumOver_cons |]; rewrite IH; lra.
Qed.

Lemma sumOver_flat_map {A B : Type} (f : B -> R) (g : A -> list B) (l : list A) :
  sumOver f (flat_map g l) = sumOver (fun x => sumOver f (g x)) l.
Proof.
  induction l as [| x l IH]; [reflexivity |].
  cbn [flat_map]. rewrite sumOver_app, sumOver_cons, IH. reflexivity.
Qed.

Lemma sumOver_telescope (U : nat -> R) (len : nat) :
  forall start,
    sumOver (fun d => U d - U (S d)) (seq start len) = U start - U (start + len)%nat.
Proof.
  induction len as [| len IH]; intros start.
  - rewrite Nat.add_0_r. unfold sumOver. simpl. lra.
  - cbn [seq]. rewrite sumOver_cons, IH.
    replace (S start + len)%nat with (start + S len)%nat by lia. lra.
Qed.

Lemma levelKeys_clump (H : hierarchyLevels) (d k : nat) :
  In k (levelKeys H d) <-> getClump H d k <> None.
Proof.
  unfold levelKeys, getClump. destruct (mget d H) as [lvl |].
  - split.
    + intros Hin E. apply mget_None_keys in E. contradiction.
    + intros Hne. destruct (in_dec Nat.eq_dec k (mkeys (clumps lvl))) as [Hin | Hnot];
        [exact Hin |].
      exfalso. apply Hne. apply mget_None_keys. exact Hnot.
  - split; [intros [] | intros Hne; apply Hne; reflexivity].
Qed.

Lemma NoDup_levelKeys (H : hierarchyLevels) (d : nat) :
  store_wf H -> NoDup (levelKeys H d).
Proof.
  intros (_ & Hl). unfold levelKeys. destruct (mget d H) as [lvl |] eqn:E.
  - apply (Hl d lvl E).
  - constructor.
Qed.

Lemma distinct_lists_flat {A B : Type} (g : A -> list B) (l : list A) :
  NoDup l ->
  (forall x, In x l -> NoDup (g x)) ->
  (forall x y b, In x l -> In y l -> In b (g x) -> In b (g y) -> x = y) ->
  NoDup (flat_map g l).
Proof.
  induction l as [| x l IH]; intros Hnd Hin Hdis; cbn [flat_map]; [constructor |].
  apply NoDup_cons_iff in Hnd. destruct Hnd as (Hx & Hnd).
  apply NoDup_app.
  - apply Hin. left. reflexivity.
  - apply IH; [exact Hnd | |].
    + intros y Hy. apply Hin. right. exact Hy.
    + intros y z b Hy Hz. apply Hdis; right; assumption.
  - intros b Hb Hb'. apply in_flat_map in Hb'. destruct Hb' as (y & Hy & Hby).
    apply Hx. rewrite (Hdis x y b); auto; [left; reflexivity | right; exact Hy].
Qed.

(** When every clump of the level below has a parent clump, the clumps of
    that level are the children of the clumps of the level, each once. *)
Lemma level_children (H : hierarchyLevels) (d : nat) :
  store_wf H -> links_ok H ->
  (forall k c, getClump H (S d) k = Some c -> parentClump c <> None) ->
  Permutation (levelKeys H (S d)) (flat_map (childrenAt H d) (levelKeys H d)).
Proof.
  intros Hwf (L1 & L2 & L3) Hpar.
  assert (Hch : forall pk k, In k (childrenAt H d pk) ->
            exists P c, getClump H d pk = Some P /\ In k (childClumps P)
                        /\ getClump H (S d) k = Some c /\ parentClump c = Some pk).
  { intros pk k Hin. unfold childrenAt in Hin.
    destruct (getClump H d pk) as [P |] eqn:EP; [| destruct Hin].
    destruct (L1 d pk P k EP Hin) as (c & Ec & Hp). exists P, c. auto. }
  apply NoDup_Permutation.
  - apply NoDup_levelKeys. exact Hwf.
  - apply distinct_lists_flat.
    + apply NoDup_levelKeys. exact Hwf.
    + intros pk _. unfold childrenAt.
      destruct (getClump H d pk) as [P |] eqn:EP; [| constructor].
      apply (L3 d pk P EP).
    + intros pk1 pk2 k _ _ H1 H2.
      destruct (Hch pk1 k H1) as (_ & c1 & _ & _ & E1 & P1).
      destruct (Hch pk2 k H2) as (_ & c2 & _ & _ & E2 & P2).
      congruence.
  - intros k. rewrite levelKeys_clump, in_flat_map. split.
    + intros Hne. destruct (getClump H (S d) k) as [c |] eqn:Ec; [| congruence].
      destruct (parentClump c) as [pk |] eqn:Ep;
        [| exfalso; apply (Hpar k c Ec); exact Ep].
      destruct (L2 (S d) k c pk Ec Ep) as (d' & P & Ed & EP & Hin).
      injection Ed as <-. exists pk. split.
      * apply levelKeys_clump. rewrite EP. discriminate.
      * unfold childrenAt. rewrite EP. exact Hin.
    + intros (pk & _ & Hin). destruct (Hch pk k Hin) as (_ & c & _ & _ & Ec & _).
      rewrite Ec. discriminate.
Qed.

(** The store at the end of the conversion: its links, its levels, and
    what the children of a clump share. *)
Lemma conversion_structure (na : NodeAllocation) (H : hierarchyLevels)
    (pos : jsmap Position.t) :
  NoDup (nodeIds (leaves na)) ->
  (forall l, In l (mvalues (leaves na)) ->
             mget (node_id (node l)) (midPoints na) = None) ->
  convertHierarchy na = Ok (H, pos) ->
  store_wf H /\ links_ok H /\ mkeys H = seq 0 (List.length H)
  /\ (forall d pk, childrenAt H d pk <> [] ->
        sumSiblingUnits H (S d) (childrenAt H d pk) = clumpUnitsAt H d pk).
Proof.
  intros Hnd Hmid Hrun.
  unfold convertHierarchy in Hrun.
  apply bind_Ok in Hrun. destruct Hrun as (H0 & Hindex & Hassign).
  destruct (index_inv_indexClumps na H0 Hnd Hmid Hindex) as (Hwf0 & Hl0 & _).
  destruct (indexClumps_store na H0 Hindex) as (_ & (Hkeys0 & _) & _).
  unfold assignUnits in Hassign.
  destruct (levels_loop _ _ _ _ _ _ Hassign Hwf0 ltac:(intros; lia))
    as (Hwf & SS & Hall & Hexs).
  assert (Hl : links_ok H).
  { apply (links_ok_same H0); [| exact Hl0]. intros d0 k0.
    pose proof (proj2 SS d0 k0) as E.
    destruct (getClump H d0 k0), (getClump H0 d0 k0); simpl in *;
      try discriminate; [| reflexivity].
    unfold shape in E. inversion E. reflexivity. }
  split; [exact Hwf |]. split; [exact Hl |]. split.
  { rewrite (proj1 SS), (same_keys_length _ _ (proj1 SS)). exact Hkeys0. }
  intros d pk Hne. unfold childrenAt in *.
  destruct (getClump H d pk) as [P |] eqn:HP; [| congruence].
  destruct Hl as (Ha & Hc & Hf).
  assert (Hlt : (S d < List.length H0)%nat).
  { destruct (childClumps P) as [| k ks] eqn:Ech; [congruence |].
    destruct (Ha d pk P k HP) as (c & Ec & _); [rewrite Ech; left; reflexivity |].
    apply level_below_size; [apply Hwf0 | intros i Hi; apply Hexs; lia |].
    intros E. apply getClump_level in Ec. apply Ec.
    apply mget_None_keys. rewrite (proj1 SS). apply mget_None_keys. exact E. }
  assert (Hchild : forall k, In k (childClumps P) ->
            exists c up T,
              getClump H (S d) k = Some c
              /\ clump_units P = Some up
              /\ getTotalChildrenLongestLeafLength H (S d) P = Ok T
              /\ T <> 0
              /\ clump_units c = Some (up * (longestLeafLength c / T))).
  { intros k Hin. destruct (Ha d pk P k HP Hin) as (c & Ec & Hp).
    destruct (Hall (S d) k Hlt c pk Ec Hp)
      as (d' & P' & up & T & u & Ed & EP' & Hup & HT & HT0 & Hu & Eu).
    injection Ed as <-. rewrite HP in EP'. injection EP' as <-.
    exists c, up, T. repeat split; try assumption. rewrite Hu, Eu. reflexivity. }
  destruct (childClumps P) as [| k1 ks] eqn:Ech; [congruence |].
  destruct (Hchild k1 (or_introl eq_refl)) as (c1 & up & T & _ & Hup & HT & HT0 & _).
  pose proof (getTotal_sum _ _ _ _ HT) as ET. rewrite Ech in ET.
  unfold clumpUnitsAt. rewrite HP, Hup. unfold sumSiblingUnits.
  transitivity (fold_left (fun t k => t + clumpUnitsAt H (S d) k)
                          (k1 :: ks) (up / T * 0)).
  { f_equal. ring. }
  rewrite (fold_left_scale (clumpUnitsAt H (S d)) (longestAt H (S d)) (up / T)).
  - rewrite <- ET. field. exact HT0.
  - intros k Hin.
    destruct (Hchild k Hin) as (c & up' & T' & Ec & Hup' & HT' & _ & Hu).
    assert (up' = up) by congruence. assert (T' = T) by congruence. subst up' T'.
    unfold clumpUnitsAt, longestAt. rewrite Ec, Hu. field. exact HT0.
Qed.

Lemma sumSibling_sumOver (H : hierarchyLevels) (d : nat) (ks : list nat) :
  sumSiblingUnits H d ks = sumOver (clumpUnitsAt H d) ks.
Proof. reflexivity. Qed.

(** The clumps without children of a level hold what the level does not
    hand down to the level below. *)
Lemma level_units_split (H : hierarchyLevels) (d : nat) :
  store_wf H -> links_ok H ->
  (forall d' pk, childrenAt H d' pk <> [] ->
     sumSiblingUnits H (S d') (childrenAt H d' pk) = clumpUnitsAt H d' pk) ->
  (forall k c, getClump H (S d) k = Some c -> parentClump c <> None) ->
  sumSiblingUnits H d (filter (childless H d) (levelKeys H d))
  = sumSiblingUnits H d (levelKeys H d)
    - sumSiblingUnits H (S d) (levelKeys H (S d)).
Proof.
  intros Hwf Hl Hshare Hpar. rewrite !sumSibling_sumOver.
  rewrite (sumOver_perm _ _ _ (level_children H d Hwf Hl Hpar)).
  rewrite sumOver_flat_map, sumOver_filter.
  assert (E : sumOver (clumpUnitsAt H d) (levelKeys H d)
              = sumOver (fun k => (if childless H d k then clumpUnitsAt H d k else 0)
                                  + sumOver (clumpUnitsAt H (S d)) (childrenAt H d k))
                        (levelKeys H d)).
  { apply sumOver_ext. intros k _. unfold childless.
    destruct (childrenAt H d k) as [| k1 ks] eqn:E.
    - unfold sumOver. simpl. lra.
    - rewrite <- E, <- sumSibling_sumOver, Hshare by (rewrite E; discriminate).
      lra. }
  rewrite E, sumOver_plus. lra.
Qed.

(** Above every clump there is a clump at the top level when every clump
    below the top level has a parent clump. *)
Lemma clump_under_top (H : hierarchyLevels) :
  links_ok H ->
  (forall d k c, getClump H (S d) k = Some c -> parentClump c <> None) ->
  forall d k c, getClump H d k = Some c ->
                exists k0 c0, getClump H 0 k0 = Some c0.
Proof.
  intros (_ & L2 & _) Hpar. induction d as [| d IH]; intros k c Ec.
  - exists k, c. exact Ec.
  - destruct (parentClump c) as [pk |] eqn:Ep;
      [| exfalso; apply (Hpar d k c Ec); exact Ep].
    destruct (L2 (S d) k c pk Ec Ep) as (d' & P & Ed & EP & _).
    injection Ed as <-. apply (IH pk P EP).
Qed.

(** What the clumps without children hold together. *)
Lemma childless_sum (na : NodeAllocation) (H : hierarchyLevels)
    (pos : jsmap Position.t) :
  NoDup (nodeIds (leaves na)) ->
  (forall l, In l (mvalues (leaves na)) ->
             mget (node_id (node l)) (midPoints na) = None) ->
  leaves na <> [] ->
  convertHierarchy na = Ok (H, pos) ->
  (forall d k c, getClump H (S d) k = Some c -> parentClump c <> None) ->
  childlessUnits H = 1.
Proof.
  intros Hnd Hmid Hne Hrun Hpar.
  destruct (conversion_structure na H pos Hnd Hmid Hrun)
    as (Hwf & Hl & Hkeys & Hshare).
  unfold childlessUnits.
  rewrite (sumOver_ext _ (fun d => sumSiblingUnits H d (levelKeys H d)
                                   - sumSiblingUnits H (S d) (levelKeys H (S d))))
    by (intros d _; apply level_units_split;
        [exact Hwf | exact Hl | exact Hshare | exact (Hpar d)]).
  rewrite (sumOver_telescope (fun d => sumSiblingUnits H d (levelKeys H d))).
  cbn [Nat.add].
  assert (Hend : levelKeys H (List.length H) = []).
  { unfold levelKeys.
    replace (mget (List.length H) H) with (@None HierarchyLevel); [reflexivity |].
    symmetry. apply mget_None_keys. rewrite Hkeys. rewrite in_seq. lia. }
  rewrite Hend.
  assert (Htop : exists k0 c0, getClump H 0 k0 = Some c0).
  { assert (Hleaf : exists l, In l (mvalues (leaves na))).
    { destruct (leaves na) as [| [k l] rest]; [congruence |].
      exists l. left. reflexivity. }
    destruct Hleaf as (l & Hin).
    destruct (leaf_clump_at_depth na H pos l Hnd Hmid Hrun Hin) as ((c & Ec & _) & _).
    apply (clump_under_top H Hl Hpar _ _ c Ec). }
  destruct Htop as (k0 & c0 & E0).
  assert (Hlvl : exists lvl, mget 0 H = Some lvl /\ clumps lvl <> []).
  { unfold getClump in E0. destruct (mget 0 H) as [lvl |]; [| discriminate].
    exists lvl. split; [reflexivity |]. intros E. rewrite E in E0. discriminate. }
  destruct Hlvl as (lvl & Elvl & Hcl).
  pose proof (top_level_sum na H pos lvl Hrun Elvl Hcl) as Hsum.
  unfold levelKeys at 1. rewrite Elvl, Hsum.
  unfold sumSiblingUnits. simpl. lra.
Qed.

(** X23. When every clump below the top level has a parent clump, the
    units of the clumps without children sum to 1 at the end of the
    conversion: the clumps at the ends of the branches share the whole
    space. *)
Theorem childless_units_sum_to_one (na : NodeAllocation) (H : hierarchyLevels)
    (pos : jsmap Position.t) :
  NoDup (nodeIds (leaves na)) ->
  (forall l, In l (mvalues (leaves na)) ->
             mget (node_id (node l)) (midPoints na) = None) ->
  leaves na <> [] ->
  convertHierarchy na = Ok (H, pos) ->
  (forall d k c, getClump H (S d) k = Some c -> parentClump c <> None) ->
  childlessUnits H = 1.
Proof. apply childless_sum. Qed.

(** ** Runs that are trees *)

Lemma lastOr_last (ids : list nat) :
  forall prev x,
    lastOr prev ids = match ids with [] => prev | _ :: _ => Some (last ids x) end.
Proof.
  unfold lastOr. induction ids as [| a ids IH]; intros prev x; [reflexivity |].
  cbn [fold_left]. rewrite (IH (Some a) x). destruct ids; reflexivity.
Qed.

Lemma parent_ok_more (na : NodeAllocation) (processed more : list LayoutNode)
    (k : nat) (par : option nat) :
  parent_ok na processed k par -> parent_ok na (processed ++ more) k par.
Proof.
  unfold parent_ok. destruct (mget k (midPoints na)); [auto |].
  intros (l & Hin & Hrest). exists l. split; [| exact Hrest].
  apply in_or_app. left. exact Hin.
Qed.

(** The parent clump of the clump of a midpoint ancestor after its turn. *)
Lemma parent_ancestor_step_here (na : NodeAllocation) (len : R)
    (H : hierarchyLevels) (d a : nat) (m : LayoutNode) :
  mget a (midPoints na) = Some m ->
  exists c',
    getClump (ancestor_step na len H d a) d a = Some c'
    /\ parentClump c'
       = match getClump H d a with
         | Some c => parentClump c
         | None =>
             match getPreviousClump H d (node_parentId (node m)) with
             | Some _ => Some (node_parentId (node m))
             | None => None
             end
         end.
Proof.
  intros Em. unfold ancestor_step. rewrite Em.
  rewrite <- (getClump_ensureLevel H d d a).
  destruct (getClump (ensureLevel d H) d a) as [c |] eqn:Ec.
  - destruct (Reqb (longestLeafLength c) 0 || Rltb (longestLeafLength c) len).
    + rewrite getClump_setClump by apply mget_ensureLevel.
      rewrite !Nat.eqb_refl. simpl. eexists. split; reflexivity.
    + rewrite Ec. eexists. split; reflexivity.
  - rewrite getClump_insertClump by apply mget_ensureLevel.
    assert (Eprev : getPreviousClump (ensureLevel d H) d (node_parentId (node m))
                    = getPreviousClump H d (node_parentId (node m))).
    { destruct d; [reflexivity | apply getClump_ensureLevel]. }
    rewrite Eprev.
    destruct (getPreviousClump H d (node_parentId (node m))) as [P |] eqn:EP.
    + destruct d as [| d]; [discriminate |].
      replace (Nat.eqb (S d) (S d - 1)) with false
        by (symmetry; apply Nat.eqb_neq; lia).
      rewrite !Nat.eqb_refl. simpl. eexists. split; reflexivity.
    + rewrite !Nat.eqb_refl. simpl. eexists. split; reflexivity.
Qed.

Lemma parents_linked_ancestor_step (na : NodeAllocation)
    (processed : list LayoutNode) (len : R) (H : hierarchyLevels) (d a : nat)
    (m : LayoutNode) :
  parents_linked na processed H ->
  mget a (midPoints na) = Some m ->
  (forall d', d = S d' -> getClump H d' (node_parentId (node m)) <> None) ->
  parents_linked na processed (ancestor_step na len H d a).
Proof.
  intros HJ Em Hprev d0 k c1 E1.
  assert (Hother : ~ (S d0 = d /\ k = a) -> parent_ok na processed k (parentClump c1)).
  { intros Hne.
    pose proof (parent_ancestor_step_other na len H d a (S d0) k Hne) as E.
    rewrite E1 in E. destruct (getClump H (S d0) k) as [c |] eqn:Ec; [| discriminate].
    simpl in E. injection E as E. rewrite E. apply (HJ d0 k c Ec). }
  destruct (Nat.eq_dec (S d0) d) as [Ed | Hd]; [| apply Hother; tauto].
  destruct (Nat.eq_dec k a) as [Ek | Hk]; [| apply Hother; tauto].
  subst d k.
  destruct (parent_ancestor_step_here na len H (S d0) a m Em) as (c' & Ec' & Hp).
  rewrite E1 in Ec'. injection Ec' as <-.
  destruct (getClump H (S d0) a) as [c |] eqn:Ec.
  - rewrite Hp. apply (HJ d0 a c Ec).
  - cbn [getPreviousClump] in Hp.
    destruct (getClump H d0 (node_parentId (node m))) eqn:EP;
      [| exfalso; apply (Hprev d0 eq_refl); exact EP].
    unfold parent_ok. rewrite Em. exact Hp.
Qed.

Lemma parents_linked_ancestors_loop (na : NodeAllocation)
    (processed : list LayoutNode) (len : R) (ids : list nat) :
  forall H d prev,
    parents_linked na processed H ->
    pathFrom na prev ids ->
    above_indexed H prev d ->
    parents_linked na processed (ancestors_loop na len H d ids)
    /\ above_indexed (ancestors_loop na len H d ids) (lastOr prev ids)
                     (d + List.length ids).
Proof.
  induction ids as [| a ids IH]; intros H d prev HJ Hpath Habove.
  - cbn. rewrite Nat.add_0_r. split; assumption.
  - cbn [pathFrom] in Hpath. destruct Hpath as ((m & Em & Hm) & Hpath).
    cbn [ancestors_loop]. unfold lastOr. cbn [fold_left List.length].
    replace (d + S (List.length ids))%nat with (S d + List.length ids)%nat by lia.
    apply IH.
    + apply (parents_linked_ancestor_step na processed len H d a m HJ Em).
      intros d' Ed. unfold above_indexed in Habove.
      destruct prev as [p |]; [| lia]. rewrite Hm. apply Habove. exact Ed.
    + exact Hpath.
    + intros d' Ed. injection Ed as <-.
      destruct (parent_ancestor_step_here na len H d a m Em) as (c' & Ec' & _).
      rewrite Ec'. discriminate.
Qed.

Lemma parents_linked_leaf_step (na : NodeAllocation)
    (processed : list LayoutNode) (H H' : hierarchyLevels) (leaf : LayoutNode) :
  parents_linked na processed H ->
  mget (node_id (node leaf)) (midPoints na) = None ->
  pathFrom na None (leafAncestors leaf) ->
  last (leafAncestors leaf) (node_parentId (node leaf))
  = node_parentId (node leaf) ->
  leaf_step na H leaf = Ok H' ->
  parents_linked na (processed ++ [leaf]) H'.
Proof.
  intros HJ Hmid Hpath Hlast Hstep. unfold leaf_step in Hstep.
  apply bind_Ok in Hstep. destruct Hstep as (lvl & _ & Hstep).
  injection Hstep as <-.
  destruct (parents_linked_ancestors_loop na processed
              (totalStemLength_combined (stem leaf)) (leafAncestors leaf)
              H 0 None HJ Hpath eq_refl) as (HJ1 & Habove).
  cbn [Nat.add] in Habove.
  rewrite (lastOr_last _ None (node_parentId (node leaf))), Hlast in Habove.
  pose proof (leafAncestors_nonempty leaf) as Hne.
  set (Hl := ancestors_loop na (totalStemLength_combined (stem leaf)) H 0
               (leafAncestors leaf)) in *.
  destruct (leafAncestors leaf) as [| a0 ids]; [simpl in Hne; lia |].
  cbn [List.length] in *. cbn [above_indexed] in Habove.
  specialize (Habove (List.length ids) eq_refl).
  destruct (getClump Hl (List.length ids) (node_parentId (node leaf)))
    as [P |] eqn:EP; [| congruence].
  intros d0 k c1 E1.
  rewrite getClump_insertClump in E1 by apply mget_ensureLevel.
  cbn [getPreviousClump] in E1. rewrite getClump_ensureLevel, EP in E1.
  destruct (Nat.eqb (S d0) (S (List.length ids) - 1)
            && Nat.eqb k (node_parentId (node leaf))) eqn:Ea.
  - apply andb_true_iff in Ea. destruct Ea as (Ea1 & Ea2).
    apply Nat.eqb_eq in Ea1, Ea2. injection E1 as <-. subst k.
    apply parent_ok_more. cbn [addChild parentClump].
    apply (HJ1 d0 _ P). rewrite Ea1.
    replace (S (List.length ids) - 1)%nat with (List.length ids) by lia. exact EP.
  - destruct (Nat.eqb (S d0) (S (List.length ids)) && Nat.eqb k (node_id (node leaf)))
      eqn:Eb.
    + apply andb_true_iff in Eb. destruct Eb as (_ & Eb2).
      apply Nat.eqb_eq in Eb2. injection E1 as <-. subst k.
      unfold parent_ok. rewrite Hmid. exists leaf.
      split; [apply in_or_app; right; left; reflexivity |].
      split; reflexivity.
    + rewrite getClump_ensureLevel in E1. apply parent_ok_more.
      apply (HJ1 d0 k c1 E1).
Qed.

Lemma parents_linked_loop (na : NodeAllocation) (ls : list LayoutNode) :
  forall processed H H',
    (forall l, In l ls -> mget (node_id (node l)) (midPoints na) = None) ->
    (forall l, In l ls ->
       pathFrom na None (leafAncestors l)
       /\ last (leafAncestors l) (node_parentId (node l)) = node_parentId (node l)) ->
    parents_linked na processed H ->
    foldM (leaf_step na) ls H = Ok H' ->
    parents_linked na (processed ++ ls) H'.
Proof.
  induction ls as [| l ls IH]; intros processed H H' Hmid Htree HJ Hrun.
  - simpl in Hrun. injection Hrun as <-. rewrite app_nil_r. exact HJ.
  - apply foldM_cons in Hrun. destruct Hrun as (H1 & Hstep & Hrest).
    replace (processed ++ l :: ls) with ((processed ++ [l]) ++ ls)
      by (rewrite <- app_assoc; reflexivity).
    apply (IH _ H1 H'); [| | | exact Hrest].
    + intros l' Hin. apply Hmid. right. exact Hin.
    + intros l' Hin. apply Htree. right. exact Hin.
    + destruct (Htree l (or_introl eq_refl)) as (Hpath & Hlast).
      apply (parents_linked_leaf_step na processed H H1 l HJ); auto.
      apply Hmid. left. reflexivity.
Qed.

Lemma pathFrom_In (na : NodeAllocation) (ids : list nat) :
  forall prev a, pathFrom na prev ids -> In a ids -> mget a (midPoints na) <> None.
Proof.
  induction ids as [| x ids IH]; intros prev a Hpath Hin; [destruct Hin |].
  cbn [pathFrom] in Hpath. destruct Hpath as ((m & Em & _) & Hpath).
  destruct Hin as [<- | Hin]; [rewrite Em; discriminate |].
  apply (IH (Some x) a Hpath Hin).
Qed.

Lemma pathFrom_nth (na : NodeAllocation) (ids : list nat) :
  forall prev i a a',
    pathFrom na prev ids ->
    nth_error ids i = Some a -> nth_error ids (S i) = Some a' ->
    exists m', mget a' (midPoints na) = Some m' /\ node_parentId (node m') = a.
Proof.
  induction ids as [| x ids IH]; intros prev i a a' Hpath Hi Hi'; [destruct i; discriminate |].
  cbn [pathFrom] in Hpath. destruct Hpath as (_ & Hpath).
  destruct i as [| i].
  - cbn in Hi, Hi'. injection Hi as <-.
    destruct ids as [| y ids]; [discriminate |]. cbn in Hi'. injection Hi' as <-.
    cbn [pathFrom] in Hpath. destruct Hpath as ((m' & Em' & Hm') & _).
    exists m'. auto.
  - cbn [nth_error] in Hi, Hi'. apply (IH (Some x) i a a' Hpath Hi Hi').
Qed.

Lemma last_at_end {A : Type} (l : list A) :
  forall i a x, nth_error l i = Some a -> nth_error l (S i) = None -> last l x = a.
Proof.
  induction l as [| y l IH]; intros i a x Hi Hi'; [destruct i; discriminate |].
  destruct i as [| i].
  - cbn in Hi, Hi'. injection Hi as <-. destruct l; [reflexivity | discriminate].
  - cbn [nth_error] in Hi, Hi'. destruct l as [| z l]; [destruct i; discriminate |].
    change (last (y :: z :: l) x) with (last (z :: l) x).
    apply (IH i a x Hi Hi').
Qed.

Lemma last_In {A : Type} (l : list A) (x : A) : l <> [] -> In (last l x) l.
Proof.
  induction l as [| y l IH]; intros Hne; [congruence |].
  destruct l as [| z l]; [left; reflexivity |].
  right. apply IH. discriminate.
Qed.

(** The store at the end of the conversion of a run that is a tree. *)
Lemma tree_run_store (na : NodeAllocation) (H : hierarchyLevels)
    (pos : jsmap Position.t) :
  (forall l, In l (mvalues (leaves na)) ->
             mget (node_id (node l)) (midPoints na) = None) ->
  tree_shaped na ->
  convertHierarchy na = Ok (H, pos) ->
  parents_linked na (mvalues (leaves na)) H.
Proof.
  intros Hmid Htree Hrun.
  destruct (convertHierarchy_inv na H pos Hrun) as (H0 & Hindex & _ & Hf).
  unfold indexClumps in Hindex.
  assert (HJ0 : parents_linked na (mvalues (leaves na)) H0).
  { apply (parents_linked_loop na (mvalues (leaves na)) [] [] H0 Hmid Htree);
      [| exact Hindex].
    intros d k c E. discriminate. }
  intros d k c Ec.
  destruct (frame_Some _ _ c (Hf (S d) k) Ec) as (c0 & E0 & _ & Hp & _).
  rewrite <- Hp. apply (HJ0 d k c0 E0).
Qed.

Lemma parent_ok_Some (na : NodeAllocation) (processed : list LayoutNode)
    (k : nat) (par : option nat) :
  parent_ok na processed k par -> par <> None.
Proof.
  unfold parent_ok. destruct (mget k (midPoints na)).
  - intros ->. discriminate.
  - intros (l & _ & _ & ->). discriminate.
Qed.

(** Where the clumps of a converted run come from. *)
Lemma conversion_clumps (na : NodeAllocation) (H : hierarchyLevels)
    (pos : jsmap Position.t) (d k : nat) :
  convertHierarchy na = Ok (H, pos) ->
  (getClump H d k <> None
   <-> exists l, In l (mvalues (leaves na))
         /\ ((under d k l /\ mget k (midPoints na) <> None)
             \/ (d = leafDepth l /\ k = node_id (node l)))).
Proof.
  intros Hrun. destruct (convertHierarchy_inv na H pos Hrun) as (H0 & Hindex & _ & Hf).
  unfold indexClumps in Hindex.
  pose proof (leaves_loop_exists na _ _ _ d k Hindex) as Hex.
  assert (Hsame : getClump H d k <> None <-> getClump H0 d k <> None).
  { split; intros A.
    - apply (option_map_not_None _ _ _ (eq_sym (Hf d k))). exact A.
    - apply (option_map_not_None _ _ _ (Hf d k)). exact A. }
  rewrite Hsame, Hex. split; [| auto].
  intros [A | B]; [| exact B]. exfalso. apply A. reflexivity.
Qed.

(** In a run that is a tree the clumps without children are those of the
    leaves. *)
Lemma tree_childless (na : NodeAllocation) (H : hierarchyLevels)
    (pos : jsmap Position.t) (d k : nat) :
  NoDup (nodeIds (leaves na)) ->
  (forall l, In l (mvalues (leaves na)) ->
             mget (node_id (node l)) (midPoints na) = None) ->
  tree_shaped na ->
  convertHierarchy na = Ok (H, pos) ->
  getClump H d k <> None ->
  (childless H d k = true <-> mget k (midPoints na) = None).
Proof.
  intros Hnd Hmid Htree Hrun Hex.
  destruct (conversion_structure na H pos Hnd Hmid Hrun) as (_ & (L1 & L2 & _) & _).
  pose proof (tree_run_store na H pos Hmid Htree Hrun) as HJ.
  destruct (getClump H d k) as [P |] eqn:EP; [clear Hex | congruence].
  assert (Hchild : forall k' c', getClump H (S d) k' = Some c' ->
            parentClump c' = Some k -> childless H d k = false).
  { intros k' c' Ec' Hp. destruct (L2 (S d) k' c' k Ec' Hp) as (d' & P' & Ed & EP' & Hin).
    injection Ed as <-. unfold childless, childrenAt. rewrite EP'.
    destruct (childClumps P'); [destruct Hin | reflexivity]. }
  split.
  - (* a clump of a midpoint has a child *)
    intros Hless. destruct (mget k (midPoints na)) as [m |] eqn:Em; [| reflexivity].
    exfalso.
    assert (Hhere : getClump H d k <> None) by (rewrite EP; discriminate).
    apply (conversion_clumps na H pos d k Hrun) in Hhere.
    destruct Hhere as (l & Hl & [(Hu & _) | (_ & Ek)]);
      [| rewrite Ek, (Hmid l Hl) in Em; discriminate].
    destruct (Htree l Hl) as (Hpath & Hlast). unfold under in Hu.
    assert (Hfalse : childless H d k = false); [| congruence].
    destruct (nth_error (leafAncestors l) (S d)) as [a' |] eqn:Enext.
    + destruct (pathFrom_nth na _ None d k a' Hpath Hu Enext) as (m' & Em' & Hm').
      assert (Hex' : getClump H (S d) a' <> None).
      { apply (conversion_clumps na H pos (S d) a' Hrun). exists l.
        split; [exact Hl |]. left. split; [exact Enext |]. rewrite Em'. discriminate. }
      destruct (getClump H (S d) a') as [c' |] eqn:Ec'; [| congruence].
      apply (Hchild a' c' Ec').
      pose proof (HJ d a' c' Ec') as Hok. unfold parent_ok in Hok.
      rewrite Em' in Hok. rewrite Hok, Hm'. reflexivity.
    + assert (Ed : S d = leafDepth l).
      { unfold leafDepth. apply nth_error_None in Enext.
        assert (d < List.length (leafAncestors l))%nat
          by (apply nth_error_Some; rewrite Hu; discriminate).
        lia. }
      destruct (leaf_clump_at_depth na H pos l Hnd Hmid Hrun Hl) as ((c & Ec & _) & _).
      rewrite <- Ed in Ec. apply (Hchild _ c Ec).
      pose proof (HJ d _ c Ec) as Hok. unfold parent_ok in Hok.
      rewrite (Hmid l Hl) in Hok. destruct Hok as (l0 & Hl0 & Eid & Hp).
      assert (l0 = l).
      { apply (NoDup_map_inj (fun ln => node_id (node ln)) (mvalues (leaves na)));
          assumption. }
      subst l0. rewrite Hp. f_equal. rewrite <- Hlast.
      apply (last_at_end _ d k _ Hu Enext).
  - (* a clump of a leaf has none *)
    intros Em. unfold childless, childrenAt. rewrite EP.
    destruct (childClumps P) as [| k' ks] eqn:Ech; [reflexivity |]. exfalso.
    destruct (L1 d k P k' EP) as (c' & Ec' & Hp); [rewrite Ech; left; reflexivity |].
    pose proof (HJ d k' c' Ec') as Hok. unfold parent_ok in Hok.
    assert (Hmidk : mget k (midPoints na) <> None); [| congruence].
    destruct (mget k' (midPoints na)) as [m' |] eqn:Em'.
    + assert (Hex' : getClump H (S d) k' <> None) by (rewrite Ec'; discriminate).
      apply (conversion_clumps na H pos (S d) k' Hrun) in Hex'.
      destruct Hex' as (l & Hl & [(Hu & _) | (_ & Ek)]);
        [| rewrite Ek, (Hmid l Hl) in Em'; discriminate].
      destruct (Htree l Hl) as (Hpath & _). unfold under in Hu.
      destruct (nth_error (leafAncestors l) d) as [x |] eqn:Ex.
      * destruct (pathFrom_nth na _ None d x k' Hpath Ex Hu) as (m'' & Em'' & Hm'').
        assert (Hx : x = k) by congruence. rewrite Hx in Ex.
        apply (pathFrom_In na _ None k Hpath). apply (nth_error_In _ _ Ex).
      * apply nth_error_None in Ex.
        assert (S d < List.length (leafAncestors l))%nat
          by (apply nth_error_Some; rewrite Hu; discriminate).
        lia.
    + destruct Hok as (l0 & Hl0 & _ & Hp0).
      destruct (Htree l0 Hl0) as (Hpath & Hlast).
      assert (k = node_parentId (node l0)) by congruence. subst k.
      apply (pathFrom_In na _ None _ Hpath). rewrite <- Hlast at 1.
      apply last_In. pose proof (leafAncestors_nonempty l0) as Hne.
      destruct (leafAncestors l0); [simpl in Hne; lia | discriminate].
Qed.

Lemma sumOver_map {A B : Type} (f : B -> R) (g : A -> B) (l : list A) :
  sumOver f (map g l) = sumOver (fun x => f (g x)) l.
Proof.
  induction l as [| x l IH]; [reflexivity |].
  cbn [map]. rewrite !sumOver_cons, IH. reflexivity.
Qed.

Lemma distinct_through {A B C : Type} (f : A -> B) (g : B -> C) (l : list A) :
  NoDup (map (fun x => g (f x)) l) -> NoDup (map f l).
Proof.
  induction l as [| x l IH]; intros Hnd; cbn [map] in *; [constructor |].
  apply NoDup_cons_iff in Hnd. destruct Hnd as (Hx & Hnd).
  constructor; [| apply IH; exact Hnd].
  intros Hin. apply Hx. apply in_map_iff in Hin. destruct Hin as (y & Ey & Hy).
  apply in_map_iff. exists y. split; [rewrite Ey; reflexivity | exact Hy].
Qed.

(** The units in the position record of a leaf are those of its clump. *)
Lemma leaf_units_at_clump (na : NodeAllocation) (H : hierarchyLevels)
    (pos : jsmap Position.t) (leaf : LayoutNode) :
  NoDup (nodeIds (leaves na)) ->
  (forall l, In l (mvalues (leaves na)) ->
             mget (node_id (node l)) (midPoints na) = None) ->
  convertHierarchy na = Ok (H, pos) ->
  In leaf (mvalues (leaves na)) ->
  unitsOf pos (node_id (node leaf))
  = clumpUnitsAt H (leafDepth leaf) (node_id (node leaf)).
Proof.
  intros Hnd Hmid Hrun Hin.
  destruct (leaf_clump_at_depth na H pos leaf Hnd Hmid Hrun Hin)
    as ((c & Ec & _) & Honly).
  destruct (conversion_facts na H pos _ _ c Hrun Ec)
    as (lvl & T & u & _ & _ & _ & E4 & _ & _ & E7).
  destruct E7 as (p & Hp & Hu).
  { intros d' Hd'. apply Honly. lia. }
  unfold unitsOf, clumpUnitsAt. rewrite Hp, Ec, E4. exact Hu.
Qed.

(** In a run that is a tree the clumps without children, level by level,
    are the clumps of the leaves, each once. *)
Lemma childless_are_leaves (na : NodeAllocation) (H : hierarchyLevels)
    (pos : jsmap Position.t) :
  NoDup (nodeIds (leaves na)) ->
  (forall l, In l (mvalues (leaves na)) ->
             mget (node_id (node l)) (midPoints na) = None) ->
  tree_shaped na ->
  convertHierarchy na = Ok (H, pos) ->
  Permutation
    (flat_map (fun d => map (pair d) (filter (childless H d) (levelKeys H d)))
              (seq 0 (List.length H)))
    (map (fun l => (leafDepth l, node_id (node l))) (mvalues (leaves na))).
Proof.
  intros Hnd Hmid Htree Hrun.
  destruct (conversion_structure na H pos Hnd Hmid Hrun) as (Hwf & _ & Hkeys & _).
  apply NoDup_Permutation.
  - apply distinct_lists_flat.
    + apply seq_NoDup.
    + intros d _. apply (distinct_through (pair d) snd).
      rewrite map_id. apply NoDup_filter, NoDup_levelKeys. exact Hwf.
    + intros d1 d2 b _ _ H1 H2.
      apply in_map_iff in H1, H2.
      destruct H1 as (k1 & E1 & _), H2 as (k2 & E2 & _). congruence.
  - apply (distinct_through _ snd). exact Hnd.
  - intros [d k]. rewrite in_flat_map, in_map_iff. split.
    + intros (d0 & _ & Hin). apply in_map_iff in Hin.
      destruct Hin as (k0 & E & Hin). injection E as -> ->.
      apply filter_In in Hin. destruct Hin as (Hkey & Hless).
      apply levelKeys_clump in Hkey.
      apply (tree_childless na H pos d k Hnd Hmid Htree Hrun Hkey) in Hless.
      apply (conversion_clumps na H pos d k Hrun) in Hkey.
      destruct Hkey as (l & Hl & [(_ & Hm) | (Ed & Ek)]); [congruence |].
      exists l. split; [congruence | exact Hl].
    + intros (l & E & Hl). injection E as <- <-.
      destruct (leaf_clump_at_depth na H pos l Hnd Hmid Hrun Hl) as ((c & Ec & _) & _).
      assert (Hex : getClump H (leafDepth l) (node_id (node l)) <> None)
        by (rewrite Ec; discriminate).
      exists (leafDepth l). split.
      * apply in_seq. split; [lia |]. cbn [Nat.add].
        apply getClump_level in Ec.
        destruct (in_dec Nat.eq_dec (leafDepth l) (mkeys H)) as [Hin | Hnot].
        -- rewrite Hkeys in Hin. apply in_seq in Hin. lia.
        -- apply mget_None_keys in Hnot. congruence.
      * apply in_map. apply filter_In. split; [apply levelKeys_clump; exact Hex |].
        apply (tree_childless na H pos _ _ Hnd Hmid Htree Hrun Hex).
        apply Hmid. exact Hl.
Qed.

(** What the position records of the leaves of a tree hold together. *)
Lemma leaf_units_sum_to_one_on (na : NodeAllocation) (H : hierarchyLevels)
    (pos : jsmap Position.t) :
  NoDup (nodeIds (leaves na)) ->
  (forall l, In l (mvalues (leaves na)) ->
             mget (node_id (node l)) (midPoints na) = None) ->
  tree_shaped na ->
  leaves na <> [] ->
  convertHierarchy na = Ok (H, pos) ->
  sumOver (fun l => unitsOf pos (node_id (node l))) (mvalues (leaves na)) = 1.
Proof.
  intros Hnd Hmid Htree Hne Hrun.
  pose proof (tree_run_store na H pos Hmid Htree Hrun) as HJ.
  assert (Hpar : forall d k c, getClump H (S d) k = Some c -> parentClump c <> None).
  { intros d k c Ec.
    apply (parent_ok_Some na (mvalues (leaves na)) k). apply (HJ d k c Ec). }
  rewrite <- (childless_sum na H pos Hnd Hmid Hne Hrun Hpar).
  rewrite (sumOver_ext _ (fun l => clumpUnitsAt H (leafDepth l) (node_id (node l))))
    by (intros l Hl; apply (leaf_units_at_clump na H pos l Hnd Hmid Hrun Hl)).
  rewrite <- (sumOver_map (fun dk => clumpUnitsAt H (fst dk) (snd dk))
                (fun l => (leafDepth l, node_id (node l)))).
  rewrite <- (sumOver_perm _ _ _ (childless_are_leaves na H pos Hnd Hmid Htree Hrun)).
  rewrite sumOver_flat_map. unfold childlessUnits.
  apply sumOver_ext. intros d _. rewrite sumOver_map. reflexivity.
Qed.

(** X24. In a run that is a tree, with leaves of distinct ids none of
    which is also a midpoint, the conversion shares the whole space among
    the leaves: the units in the position records of the leaves sum to
    1. *)
Theorem leaf_units_sum_to_one (na : NodeAllocation) (H : hierarchyLevels)
    (pos : jsmap Position.t) :
  NoDup (nodeIds (leaves na)) ->
  (forall l, In l (mvalues (leaves na)) ->
             mget (node_id (node l)) (midPoints na) = None) ->
  tree_shaped na ->
  leaves na <> [] ->
  convertHierarchy na = Ok (H, pos) ->
  sumOver (fun l => unitsOf pos (node_id (node l))) (mvalues (leaves na)) = 1.
Proof. apply leaf_units_sum_to_one_on. Qed.

(** ** The walk over the leaves of a tree *)

Lemma planned_widths (total : R) (pos : jsmap Position.t) (ls : list LayoutNode) :
  forall begin,
    sumOver (fun b => block_end b - block_begin b)
            (plannedBlocks total pos begin ls)
    = total * sumOver (fun l => unitsOf pos (node_id (node l))) ls.
Proof.
  induction ls as [| l ls IH]; intros begin.
  - unfold sumOver. simpl. ring.
  - cbn [plannedBlocks]. rewrite !sumOver_cons, IH.
    unfold newSpaceBlock. cbn [block_end block_begin]. ring.
Qed.

(** X25. In a run that is a tree, whose segments hold no block at the
    start, the blocks that the walk lays on the segments are together as
    wide as the space available: the leaves fill the line of the segments
    exactly. *)
Theorem walk_fills_the_space (na na1 na2 : NodeAllocation) :
  NoDup (nodeIds (leaves na)) ->
  (forall l, In l (mvalues (leaves na)) ->
             mget (node_id (node l)) (midPoints na) = None) ->
  tree_shaped na ->
  leaves na <> [] ->
  allBlocks (segments na) = [] ->
  convertTotalStemLengthsToUnits na = Ok na1 ->
  calculate1DLinearOffsets na1 = Ok na2 ->
  sumOver (fun b => block_end b - block_begin b) (allBlocks (segments na2))
  = total1DSpaceAvailable na.
Proof.
  intros Hnd Hmid Htree Hne Hempty Hconv Hwalk.
  unfold convertTotalStemLengthsToUnits in Hconv.
  apply bind_Ok in Hconv. destruct Hconv as ([H pos] & Hrun & Hconv).
  injection Hconv as <-.
  unfold calculate1DLinearOffsets in Hwalk.
  apply bind_Ok in Hwalk. destruct Hwalk as ([[cb' segs'] pos'] & Hloop & Hwalk).
  injection Hwalk as <-.
  pose proof (offsets_loop_blocks _ _ None _ _ _ _ _ Hloop) as Hperm.
  cbn [with_positions with_segments segments total1DSpaceAvailable
       nodeToPosition] in Hperm |- *.
  rewrite Hempty in Hperm. cbn [app] in Hperm.
  rewrite (sumOver_perm _ _ _ Hperm), planned_widths.
  erewrite sumOver_perm by (unfold arrangedLeaves; apply jsSort_perm).
  cbn [leaves with_positions].
  rewrite (leaf_units_sum_to_one_on na H pos Hnd Hmid Htree Hne Hrun). ring.
Qed.

(** ** Sample runs of the properties of trees *)

Lemma two_levels_tree : tree_shaped TwoLevels.allocation.
Proof.
  intros l Hl. cbn in Hl.
  destruct Hl as [<- | [<- | [<- | []]]]; cbn;
    repeat split; eexists; split; reflexivity.
Qed.

Lemma three_leaves_tree : tree_shaped ThreeLeaves.allocation.
Proof.
  intros l Hl. cbn in Hl.
  destruct Hl as [<- | [<- | [<- | []]]]; cbn;
    repeat split; eexists; split; reflexivity.
Qed.

Lemma two_levels_parents :
  forall d k c, getClump TwoLevels.hierarchy (S d) k = Some c ->
                parentClump c <> None.
Proof.
  intros d k c.
  destruct d as [| [| d]]; cbn;
    do 6 (try (destruct k as [| k]; cbn; try (intros E; discriminate E)));
    intros E; injection E as <-; cbn; discriminate.
Qed.

Lemma childless_units_sum_to_one_witness :
  childlessUnits TwoLevels.hierarchy = 1.
Proof.
  apply (childless_units_sum_to_one TwoLevels.allocation TwoLevels.hierarchy
           TwoLevels.unitPositions two_levels_leaf_ids two_levels_leaves_apart).
  - cbn. discriminate.
  - exact two_levels_converted.
  - exact two_levels_parents.
Defined.

Lemma leaf_units_sum_to_one_witness :
  sumOver (fun l => unitsOf TwoLevels.unitPositions (node_id (node l)))
          (mvalues (leaves TwoLevels.allocation)) = 1.
Proof.
  apply (leaf_units_sum_to_one TwoLevels.allocation TwoLevels.hierarchy
           TwoLevels.unitPositions two_levels_leaf_ids two_levels_leaves_apart
           two_levels_tree).
  - cbn. discriminate.
  - exact two_levels_converted.
Defined.

Lemma walk_fills_the_space_witness :
  sumOver (fun b => block_end b - block_begin b)
          (allBlocks (segments ThreeLeaves.walked))
  = total1DSpaceAvailable ThreeLeaves.allocation.
Proof.
  apply (walk_fills_the_space ThreeLeaves.allocation ThreeLeaves.converted
           ThreeLeaves.walked).
  - cbn. repeat constructor; simpl; intuition discriminate.
  - cbn. intros l [<- | [<- | [<- | []]]]; reflexivity.
  - exact three_leaves_tree.
  - cbn. discriminate.
  - reflexivity.
  - exact three_leaves_converted.
  - exact three_leaves_walked.
Defined.

(** ** What each phase writes *)

Section PhaseByPhase.
Context {LC : LineCoordinates}.

(** X26. Each phase of a run writes its own fields of the position
    records and no other: the conversion leaves offsets and coordinates
    as they were, the walk leaves units and coordinates as they were, and
    everything after the walk leaves units, offsets and the blocks of the
    segments as the walk has left them. *)
Theorem each_phase_writes_its_own (mode : placementMode)
    (na na1 na2 na' : NodeAllocation) :
  convertTotalStemLengthsToUnits na = Ok na1 ->
  calculate1DLinearOffsets na1 = Ok na2 ->
  process mode na = Ok na' ->
  (forall k, option_map offset_xy (mget k (nodeToPosition na1))
             = option_map offset_xy (mget k (nodeToPosition na)))
  /\ (forall k, option_map units_xy (mget k (nodeToPosition na2))
                = option_map units_xy (mget k (nodeToPosition na1)))
  /\ (forall k, option_map units_offset (mget k (nodeToPosition na'))
                = option_map units_offset (mget k (nodeToPosition na2)))
  /\ segments na' = segments na2.
Proof.
  intros H1 H2 Hrun.
  destruct (process_chain mode na na' Hrun)
    as (b1 & b2 & b3 & b4 & B1 & B2 & _ & _ & _ & _ & _ & _ & _ & _ & _ & S'
        & A1 & A2 & A3 & A4).
  assert (b1 = na1) by congruence. subst b1.
  assert (b2 = na2) by congruence. subst b2.
  split; [exact (proj2 A1) |]. split; [exact (proj2 A2) |].
  split; [| exact S'].
  exact (proj2 (agree_on_trans _ _ _ _ A3 A4)).
Qed.

End PhaseByPhase.

Lemma each_phase_writes_its_own_witness :
  (forall k, option_map offset_xy (mget k (nodeToPosition ThreeLeaves.converted))
             = option_map offset_xy (mget k (nodeToPosition ThreeLeaves.allocation)))
  /\ (forall k, option_map units_xy (mget k (nodeToPosition ThreeLeaves.walked))
                = option_map units_xy (mget k (nodeToPosition ThreeLeaves.converted)))
  /\ (forall k, option_map units_offset (mget k (nodeToPosition ThreeLeaves.final))
                = option_map units_offset (mget k (nodeToPosition ThreeLeaves.walked)))
  /\ segments ThreeLeaves.final = segments ThreeLeaves.walked.
Proof.
  exact (each_phase_writes_its_own (LC := euclid) LENGTH_CONSTRAINED
           ThreeLeaves.allocation ThreeLeaves.converted ThreeLeaves.walked
           ThreeLeaves.final three_leaves_converted three_leaves_walked
           three_leaves_process).
Defined.
